(** * Idle Apocalypse event optimiser: simulation engine and search layer

    A shallow embedding of [rl_agent/config.py], [rl_agent/simulation.py],
    [rl_agent/optimizer.py] and [rl_agent/evaluate.py].

    Modelling conventions.
    - Python [float] values are read as exact rationals ([Q]); [int(x)] of a
      float truncates towards zero ([int_trunc]); a float division by zero
      raises, so division returns [option].
    - Python [int] values (levels, [maxLevel]) are [Z]; list subscripts take a
      [Z] index and follow Python's rule for negative indices ([py_index]).
    - A [dict] keyed by strings is a [gmap string _]; [d[k]] on a missing key
      raises [KeyError], which is [None] in the option monad.  A dict whose
      iteration order is observed ([pos_map]) is an association list in
      insertion order.
    - Every function that can raise returns [option]; [None] stands for a
      raised exception. *)

From Stdlib Require Import QArith Qround Lqa.
From stdpp Require Import gmap strings list fin_maps pretty.

Local Open Scope Z_scope.

(** ** Python primitives *)

(** [int(x)] for a float [x]: truncation towards zero. *)
Definition int_trunc (q : Q) : Z := Z.quot (Qnum q) (Zpos (Qden q)).

(** [a / b] on floats: [ZeroDivisionError] when [b == 0]. *)
Definition py_div (a b : Q) : option Q :=
  if Qeq_bool b 0 then None else Some (a / b)%Q.

(** [l[i]] for a Python list: a negative index counts from the end, an index
    outside [-len, len) raises [IndexError]. *)
Definition py_index {A} (l : list A) (i : Z) : option A :=
  if 0 <=? i then l !! Z.to_nat i
  else if - Z.of_nat (length l) <=? i then l !! Z.to_nat (Z.of_nat (length l) + i)
  else None.

(** ** Configuration model ([config.py]) *)

(** A cost is a dict from resource id to amount. *)
Abbreviation Cost := (gmap string Q).

Record Creature := {
  c_id : string;
  c_name : string;
  c_unlockedByDefault : bool;
  c_produces : string;
  c_spawnTime : Q;
  c_maxLevel : Z;
  c_productionByLevel : list Q;
  c_damageByLevel : list Q;
  c_unlockCost : option Cost;
  c_upgradeCosts : list Cost
}.

Record Boost := {
  b_id : string;
  b_name : string;
  b_type : string;
  b_resource : option string;
  b_maxLevel : Z;
  b_bonusByLevel : list Q;
  b_costs : list Cost
}.

Record Config := {
  cfg_id : string;
  cfg_name : string;
  cfg_duration : Q;
  cfg_resources : list string;
  cfg_creatures : list Creature;
  cfg_boosts : list Boost
}.

Definition TIME_FACTOR : Q := 5%Q.
Definition HOURS : Q := (60 * 60 * 1000)%Q.
Definition EVENT_DURATION_HOURS : Q := (72 / TIME_FACTOR)%Q.

Definition cost1 (r : string) (a : Q) : Cost := {[ r := a ]}.
Definition cost2 (r1 : string) (a1 : Q) (r2 : string) (a2 : Q) : Cost :=
  <[ r2 := a2 ]> {[ r1 := a1 ]}.

Definition fiona : Creature := {|
  c_id := "fiona"; c_name := "Feral Fiona";
  c_unlockedByDefault := true;
  c_produces := "sapphires";
  c_spawnTime := (5000 / TIME_FACTOR)%Q;
  c_maxLevel := 10;
  c_productionByLevel := [1; 2; 3; 4; 5; 6; 7; 8; 9; 10]%Q;
  c_damageByLevel := [5; 10; 25; 50; 100; 250; 500; 1000; 2500; 5000]%Q;
  c_unlockCost := None;
  c_upgradeCosts := [
    cost1 "sapphires" 5;
    cost1 "sapphires" 50;
    cost1 "emeralds" 25;
    cost2 "emeralds" 100 "sapphires" 250;
    cost1 "emeralds" 2500;
    cost1 "sapphires" 5000;
    cost1 "rubies" 100;
    cost2 "rubies" 500 "emeralds" 10000;
    cost1 "rubies" 2500 ]%Q
|}.

Definition jingles : Creature := {|
  c_id := "jingles"; c_name := "Jingles";
  c_unlockedByDefault := false;
  c_produces := "emeralds";
  c_spawnTime := (10000 / TIME_FACTOR)%Q;
  c_maxLevel := 10;
  c_productionByLevel := [1; 2; 3; 4; 5; 6; 7; 8; 9; 10]%Q;
  c_damageByLevel := [50; 100; 250; 500; 1000; 2500; 5000; 10000; 25000; 50000]%Q;
  c_unlockCost := Some (cost1 "sapphires" 250%Q);
  c_upgradeCosts := [
    cost2 "emeralds" 50 "sapphires" 250;
    cost1 "emeralds" 250;
    cost2 "emeralds" 500 "sapphires" 1000;
    cost1 "emeralds" 2500;
    cost2 "emeralds" 3000 "sapphires" 10000;
    cost1 "rubies" 250;
    cost2 "rubies" 750 "emeralds" 5000;
    cost1 "rubies" 3000;
    cost2 "emeralds" 10000 "sapphires" 25000 ]%Q
|}.

Definition ox : Creature := {|
  c_id := "ox"; c_name := "Ox";
  c_unlockedByDefault := false;
  c_produces := "sapphires";
  c_spawnTime := (15000 / TIME_FACTOR)%Q;
  c_maxLevel := 10;
  c_productionByLevel := [6; 7; 8; 9; 10; 11; 12; 13; 14; 15]%Q;
  c_damageByLevel := [375; 750; 1875; 3750; 7500; 18750; 37500; 75000; 187500; 375000]%Q;
  c_unlockCost := Some (cost1 "emeralds" 1000%Q);
  c_upgradeCosts := [
    cost1 "sapphires" 2500;
    cost1 "emeralds" 3000;
    cost2 "emeralds" 2500 "sapphires" 2500;
    cost1 "rubies" 1000;
    cost2 "emeralds" 5000 "sapphires" 5000;
    cost2 "rubies" 2500 "sapphires" 5000;
    cost1 "rubies" 4000;
    cost2 "rubies" 3000 "emeralds" 6000;
    cost1 "sapphires" 50000 ]%Q
|}.

Definition batilda : Creature := {|
  c_id := "batilda"; c_name := "Batilda";
  c_unlockedByDefault := false;
  c_produces := "rubies";
  c_spawnTime := (20000 / TIME_FACTOR)%Q;
  c_maxLevel := 10;
  c_productionByLevel := [1; 2; 3; 4; 5; 6; 7; 8; 9; 10]%Q;
  c_damageByLevel := [1250; 2500; 6250; 12500; 25000; 62500; 125000; 250000; 500000; 1250000]%Q;
  c_unlockCost := Some (cost2 "emeralds" 5000%Q "sapphires" 10000%Q);
  c_upgradeCosts := [
    cost2 "rubies" 2500 "emeralds" 2500;
    cost1 "rubies" 5000;
    cost2 "rubies" 7500 "emeralds" 7500;
    cost1 "rubies" 10000;
    cost2 "rubies" 15000 "sapphires" 10000;
    cost2 "rubies" 20000 "emeralds" 5000;
    cost1 "rubies" 25000;
    cost2 "rubies" 30000 "emeralds" 10000;
    cost2 "rubies" 50000 "sapphires" 25000 ]%Q
|}.

Definition murky_mandy : Creature := {|
  c_id := "murky-mandy"; c_name := "Murky Mandy";
  c_unlockedByDefault := false;
  c_produces := "emeralds";
  c_spawnTime := (25000 / TIME_FACTOR)%Q;
  c_maxLevel := 10;
  c_productionByLevel := [6; 7; 8; 9; 10; 11; 12; 13; 14; 15]%Q;
  c_damageByLevel := [10000; 20000; 50000; 100000; 200000; 500000; 1000000; 2000000; 5000000; 10000000]%Q;
  c_unlockCost := Some (cost1 "rubies" 2500%Q);
  c_upgradeCosts := [
    cost1 "sapphires" 25000;
    cost2 "rubies" 2500 "emeralds" 15000;
    cost2 "emeralds" 15000 "sapphires" 30000;
    cost1 "rubies" 7500;
    cost1 "sapphires" 75000;
    cost2 "emeralds" 25000 "sapphires" 50000;
    cost1 "emeralds" 50000;
    cost2 "rubies" 30000 "sapphires" 90000;
    cost1 "rubies" 40000 ]%Q
|}.

Definition patches : Creature := {|
  c_id := "patches"; c_name := "Patches";
  c_unlockedByDefault := false;
  c_produces := "rubies";
  c_spawnTime := (30000 / TIME_FACTOR)%Q;
  c_maxLevel := 10;
  c_productionByLevel := [6; 7; 8; 9; 10; 11; 12; 13; 14; 15]%Q;
  c_damageByLevel := [25000; 50000; 125000; 250000; 500000; 1250000; 2500000; 5000000; 12500000; 25000000]%Q;
  c_unlockCost := Some (cost1 "rubies" 5000%Q);
  c_upgradeCosts := [
    cost1 "emeralds" 10000;
    cost1 "sapphires" 50000;
    cost2 "rubies" 7500 "emeralds" 15000;
    cost1 "sapphires" 100000;
    cost1 "emeralds" 30000;
    cost1 "rubies" 30000;
    cost2 "rubies" 25000 "sapphires" 75000;
    cost1 "emeralds" 60000;
    cost2 "rubies" 50000 "sapphires" 150000 ]%Q
|}.

Definition sapphire_boost : Boost := {|
  b_id := "sapphire-boost"; b_name := "Sapphire Boost";
  b_type := "production-bonus"; b_resource := Some "sapphires";
  b_maxLevel := 5;
  b_bonusByLevel := [1; 2; 3; 4; 5]%Q;
  b_costs := [
    cost1 "emeralds" 100;
    cost1 "sapphires" 1000;
    cost1 "emeralds" 2500;
    cost1 "rubies" 1000;
    cost1 "emeralds" 10000 ]%Q
|}.

Definition emerald_boost : Boost := {|
  b_id := "emerald-boost"; b_name := "Emerald Boost";
  b_type := "production-bonus"; b_resource := Some "emeralds";
  b_maxLevel := 5;
  b_bonusByLevel := [1; 2; 3; 4; 5]%Q;
  b_costs := [
    cost1 "sapphires" 500;
    cost1 "emeralds" 1000;
    cost1 "rubies" 500;
    cost1 "sapphires" 15000;
    cost1 "rubies" 5000 ]%Q
|}.

Definition ruby_boost : Boost := {|
  b_id := "ruby-boost"; b_name := "Ruby Boost";
  b_type := "production-bonus"; b_resource := Some "rubies";
  b_maxLevel := 3;
  b_bonusByLevel := [1; 2; 3]%Q;
  b_costs := [
    cost1 "rubies" 500;
    cost1 "emeralds" 25000;
    cost1 "sapphires" 75000 ]%Q
|}.

Definition champion_speed : Boost := {|
  b_id := "champion-speed"; b_name := "Champion Speed";
  b_type := "speed"; b_resource := None;
  b_maxLevel := 5;
  b_bonusByLevel := [0.05; 0.10; 0.15; 0.20; 0.25]%Q;
  b_costs := [
    cost1 "sapphires" 10000;
    cost1 "emeralds" 25000;
    cost1 "rubies" 15000;
    cost1 "sapphires" 100000;
    cost1 "emeralds" 100000 ]%Q
|}.

Definition champion_damage : Boost := {|
  b_id := "champion-damage"; b_name := "Champion Damage";
  b_type := "damage"; b_resource := None;
  b_maxLevel := 4;
  b_bonusByLevel := [0.25; 0.50; 0.75; 1.00]%Q;
  b_costs := [
    cost1 "sapphires" 25000;
    cost1 "emeralds" 50000;
    cost1 "rubies" 25000;
    cost1 "sapphires" 200000 ]%Q
|}.

Definition EVENT_CONFIG : Config := {|
  cfg_id := "other-tower";
  cfg_name := "Other Tower";
  cfg_duration := (EVENT_DURATION_HOURS * HOURS)%Q;
  cfg_resources := ["sapphires"; "emeralds"; "rubies"];
  cfg_creatures := [fiona; jingles; ox; batilda; murky_mandy; patches];
  cfg_boosts := [sapphire_boost; emerald_boost; ruby_boost; champion_speed; champion_damage]
|}.

(** ** Simulation engine ([simulation.py]) *)

(** The mutable attributes of a [GameSim] object.  The attributes set once in
    [__init__] ([duration_ms], [_creatures], [_boosts], [_creature_order],
    [_boost_order]) are functions of [config]. *)
Record GameSim := {
  config : Config;
  resources : gmap string Q;
  creature_levels : gmap string Z;
  creature_unlocked : gmap string bool;
  creature_progress : gmap string Q;
  boost_levels : gmap string Z;
  total_damage : Q;
  time_elapsed_ms : Q
}.

Definition set_resources (s : GameSim) (r : gmap string Q) : GameSim :=
  {| config := config s; resources := r; creature_levels := creature_levels s;
     creature_unlocked := creature_unlocked s; creature_progress := creature_progress s;
     boost_levels := boost_levels s; total_damage := total_damage s;
     time_elapsed_ms := time_elapsed_ms s |}.

Definition set_creature_levels (s : GameSim) (l : gmap string Z) : GameSim :=
  {| config := config s; resources := resources s; creature_levels := l;
     creature_unlocked := creature_unlocked s; creature_progress := creature_progress s;
     boost_levels := boost_levels s; total_damage := total_damage s;
     time_elapsed_ms := time_elapsed_ms s |}.

Definition set_creature_unlocked (s : GameSim) (u : gmap string bool) : GameSim :=
  {| config := config s; resources := resources s; creature_levels := creature_levels s;
     creature_unlocked := u; creature_progress := creature_progress s;
     boost_levels := boost_levels s; total_damage := total_damage s;
     time_elapsed_ms := time_elapsed_ms s |}.

Definition set_creature_progress (s : GameSim) (p : gmap string Q) : GameSim :=
  {| config := config s; resources := resources s; creature_levels := creature_levels s;
     creature_unlocked := creature_unlocked s; creature_progress := p;
     boost_levels := boost_levels s; total_damage := total_damage s;
     time_elapsed_ms := time_elapsed_ms s |}.

Definition set_boost_levels (s : GameSim) (l : gmap string Z) : GameSim :=
  {| config := config s; resources := resources s; creature_levels := creature_levels s;
     creature_unlocked := creature_unlocked s; creature_progress := creature_progress s;
     boost_levels := l; total_damage := total_damage s;
     time_elapsed_ms := time_elapsed_ms s |}.

Definition set_total_damage (s : GameSim) (d : Q) : GameSim :=
  {| config := config s; resources := resources s; creature_levels := creature_levels s;
     creature_unlocked := creature_unlocked s; creature_progress := creature_progress s;
     boost_levels := boost_levels s; total_damage := d;
     time_elapsed_ms := time_elapsed_ms s |}.

Definition set_time_elapsed_ms (s : GameSim) (t : Q) : GameSim :=
  {| config := config s; resources := resources s; creature_levels := creature_levels s;
     creature_unlocked := creature_unlocked s; creature_progress := creature_progress s;
     boost_levels := boost_levels s; total_damage := total_damage s;
     time_elapsed_ms := t |}.

(** [{c['id']: c for c in config['creatures']}]: a later entry with the same
    id replaces an earlier one. *)
Definition _creatures (cfg : Config) : gmap string Creature :=
  foldl (fun m c => <[c_id c := c]> m) ∅ (cfg_creatures cfg).

Definition _boosts (cfg : Config) : gmap string Boost :=
  foldl (fun m b => <[b_id b := b]> m) ∅ (cfg_boosts cfg).

Definition _creature_order (cfg : Config) : list string := c_id <$> cfg_creatures cfg.
Definition _boost_order (cfg : Config) : list string := b_id <$> cfg_boosts cfg.

Definition duration_ms (s : GameSim) : Q := cfg_duration (config s).

(** [reset]: the three per-creature dicts are filled in one loop over the
    creature list (a repeated id overwrites), everything else starts at zero. *)
Definition reset (cfg : Config) : GameSim := {|
  config := cfg;
  resources := foldl (fun m r => <[r := 0%Q]> m) ∅ (cfg_resources cfg);
  creature_levels :=
    foldl (fun m c => <[c_id c := if c_unlockedByDefault c then 1 else 0]> m) ∅ (cfg_creatures cfg);
  creature_unlocked :=
    foldl (fun m c => <[c_id c := c_unlockedByDefault c]> m) ∅ (cfg_creatures cfg);
  creature_progress :=
    foldl (fun m c => <[c_id c := 0%Q]> m) ∅ (cfg_creatures cfg);
  boost_levels := foldl (fun m bid => <[bid := 0]> m) ∅ (_boost_order cfg);
  total_damage := 0%Q;
  time_elapsed_ms := 0%Q
|}.

(** [GameSim(config)]. *)
Definition GameSim_init (cfg : Config) : GameSim := reset cfg.

(** The loop shared by [get_speed_multiplier], [get_damage_multiplier] and
    [get_production_bonus]: walk [_boost_order], and at the first boost
    selected by [sel] whose level is positive return its
    [bonusByLevel[lv - 1]]; a selected boost at level 0 does not stop the
    walk.  [Some None] is the fall-through after the loop. *)
Fixpoint first_active_bonus (s : GameSim) (sel : Boost -> bool) (order : list string)
  : option (option Q) :=
  match order with
  | [] => Some None
  | bid :: rest =>
      b ← _boosts (config s) !! bid;
      if sel b then
        lv ← boost_levels s !! bid;
        if 0 <? lv then v ← py_index (b_bonusByLevel b) (lv - 1); Some (Some v)
        else first_active_bonus s sel rest
      else first_active_bonus s sel rest
  end.

Definition is_speed (b : Boost) : bool := bool_decide (b_type b = "speed").
Definition is_damage (b : Boost) : bool := bool_decide (b_type b = "damage").
Definition is_production_bonus (resource_id : string) (b : Boost) : bool :=
  bool_decide (b_type b = "production-bonus") && bool_decide (b_resource b = Some resource_id).

Definition get_speed_multiplier (s : GameSim) : option Q :=
  r ← first_active_bonus s is_speed (_boost_order (config s));
  Some (match r with Some v => 1 - v | None => 1 end)%Q.

Definition get_damage_multiplier (s : GameSim) : option Q :=
  r ← first_active_bonus s is_damage (_boost_order (config s));
  Some (match r with Some v => 1 + v | None => 1 end)%Q.

Definition get_production_bonus (s : GameSim) (resource_id : string) : option Q :=
  r ← first_active_bonus s (is_production_bonus resource_id) (_boost_order (config s));
  Some (match r with Some v => v | None => 0 end)%Q.

Definition get_effective_spawn_time (s : GameSim) (creature : Creature) : option Q :=
  speed ← get_speed_multiplier s;
  Some (c_spawnTime creature * speed)%Q.

(** [not self.creature_unlocked[cid] or self.creature_levels[cid] == 0]: the
    level is looked up only when the creature is unlocked. *)
Definition inactive (s : GameSim) (cid : string) : option bool :=
  u ← creature_unlocked s !! cid;
  if negb u then Some true
  else lv ← creature_levels s !! cid; Some (lv =? 0).

Definition get_creature_production (s : GameSim) (cid : string) : option Q :=
  c ← _creatures (config s) !! cid;
  lv ← creature_levels s !! cid;
  u ← creature_unlocked s !! cid;
  if negb u || (lv =? 0) then Some 0%Q
  else
    p ← py_index (c_productionByLevel c) (lv - 1);
    bonus ← get_production_bonus s (c_produces c);
    Some (p + bonus)%Q.

Definition get_creature_damage (s : GameSim) (cid : string) : option Q :=
  c ← _creatures (config s) !! cid;
  lv ← creature_levels s !! cid;
  u ← creature_unlocked s !! cid;
  if negb u || (lv =? 0) then Some 0%Q
  else
    d ← py_index (c_damageByLevel c) (lv - 1);
    m ← get_damage_multiplier s;
    Some (d * m)%Q.

Fixpoint get_dps_loop (s : GameSim) (order : list string) (total : Q) : option Q :=
  match order with
  | [] => Some total
  | cid :: rest =>
      skip ← inactive s cid;
      if (skip : bool) then get_dps_loop s rest total
      else
        c ← _creatures (config s) !! cid;
        t ← get_effective_spawn_time s c;
        spawn_s ← py_div t 1000;
        d ← get_creature_damage s cid;
        x ← py_div d spawn_s;
        get_dps_loop s rest (total + x)%Q
  end.

Definition get_dps (s : GameSim) : option Q :=
  get_dps_loop s (_creature_order (config s)) 0%Q.

(** One iteration of the loop of [advance] for creature [cid]. *)
Definition advance_creature (speed dmg_mult delta_ms : Q) (s : GameSim) (cid : string)
  : option GameSim :=
  skip ← inactive s cid;
  if (skip : bool) then Some s
  else
    c ← _creatures (config s) !! cid;
    lv ← creature_levels s !! cid;
    let spawn_time := (c_spawnTime c * speed)%Q in
    p ← creature_progress s !! cid;
    let p1 := (p + delta_ms)%Q in
    let s1 := set_creature_progress s (<[cid := p1]> (creature_progress s)) in
    q ← py_div p1 spawn_time;
    let ticks := int_trunc q in
    if ticks =? 0 then Some s1
    else
      let p2 := (p1 - inject_Z ticks * spawn_time)%Q in
      let s2 := set_creature_progress s1 (<[cid := p2]> (creature_progress s1)) in
      pl ← py_index (c_productionByLevel c) (lv - 1);
      bonus ← get_production_bonus s2 (c_produces c);
      let prod := (pl + bonus)%Q in
      dl ← py_index (c_damageByLevel c) (lv - 1);
      let dmg := (dl * dmg_mult)%Q in
      bal ← resources s2 !! c_produces c;
      let s3 := set_resources s2 (<[c_produces c := (bal + prod * inject_Z ticks)%Q]> (resources s2)) in
      Some (set_total_damage s3 (total_damage s3 + dmg * inject_Z ticks)%Q).

Fixpoint advance_loop (speed dmg_mult delta_ms : Q) (s : GameSim) (order : list string)
  : option GameSim :=
  match order with
  | [] => Some s
  | cid :: rest =>
      s' ← advance_creature speed dmg_mult delta_ms s cid;
      advance_loop speed dmg_mult delta_ms s' rest
  end.

Definition advance (s : GameSim) (delta_ms : Q) : option GameSim :=
  speed ← get_speed_multiplier s;
  dmg_mult ← get_damage_multiplier s;
  s' ← advance_loop speed dmg_mult delta_ms s (_creature_order (config s));
  Some (set_time_elapsed_ms s' (time_elapsed_ms s' + delta_ms)%Q).

(** [can_afford]: [None] is never affordable; a missing resource counts as a
    balance of 0. *)
Definition can_afford (s : GameSim) (cost : option Cost) : bool :=
  match cost with
  | None => false
  | Some c =>
      bool_decide (map_Forall (fun r amt => Qle_bool amt (default 0%Q (resources s !! r)) = true) c)
  end.

(** [_spend]: [self.resources[r] -= amt] for every entry of the cost. *)
Definition _spend (res : gmap string Q) (cost : Cost) : option (gmap string Q) :=
  map_fold (fun r amt acc => res' ← acc; bal ← res' !! r; Some (<[r := (bal - amt)%Q]> res'))
           (Some res) cost.

Definition get_creature_upgrade_cost (s : GameSim) (cid : string) : option (option Cost) :=
  c ← _creatures (config s) !! cid;
  u ← creature_unlocked s !! cid;
  if negb u then Some (c_unlockCost c)
  else
    lv ← creature_levels s !! cid;
    if c_maxLevel c <=? lv then Some None
    else cost ← py_index (c_upgradeCosts c) (lv - 1); Some (Some cost).

Definition upgrade_creature (s : GameSim) (cid : string) : option (bool * GameSim) :=
  cost ← get_creature_upgrade_cost s cid;
  match cost with
  | None => Some (false, s)
  | Some c =>
      if negb (can_afford s (Some c)) then Some (false, s)
      else
        res' ← _spend (resources s) c;
        let s1 := set_resources s res' in
        u ← creature_unlocked s1 !! cid;
        if negb u then
          let s2 := set_creature_unlocked s1 (<[cid := true]> (creature_unlocked s1)) in
          Some (true, set_creature_levels s2 (<[cid := 1]> (creature_levels s2)))
        else
          lv ← creature_levels s1 !! cid;
          Some (true, set_creature_levels s1 (<[cid := lv + 1]> (creature_levels s1)))
  end.

Definition get_boost_upgrade_cost (s : GameSim) (bid : string) : option (option Cost) :=
  b ← _boosts (config s) !! bid;
  lv ← boost_levels s !! bid;
  if b_maxLevel b <=? lv then Some None
  else cost ← py_index (b_costs b) lv; Some (Some cost).

Definition upgrade_boost (s : GameSim) (bid : string) : option (bool * GameSim) :=
  cost ← get_boost_upgrade_cost s bid;
  match cost with
  | None => Some (false, s)
  | Some c =>
      if negb (can_afford s (Some c)) then Some (false, s)
      else
        res' ← _spend (resources s) c;
        let s1 := set_resources s res' in
        lv ← boost_levels s1 !! bid;
        Some (true, set_boost_levels s1 (<[bid := lv + 1]> (boost_levels s1)))
  end.

Definition is_done (s : GameSim) : bool := Qle_bool (duration_ms s) (time_elapsed_ms s).

(** ** Priority-list evaluator ([optimizer.py]) *)

(** A step of a priority ordering is the tuple [(kind, uid, display_name)];
    the key of a step is [(kind, uid)]. *)
Abbreviation Step := (string * string * string)%type.
Abbreviation Key := (string * string)%type.

Definition STEP_MS : Q := 60000%Q.

Definition step_key (st : Step) : Key := (st.1.1, st.1.2).

(** The source reads the module constant [EVENT_CONFIG] in [build_template]
    and [simulate]; here the configuration is an argument, and the source's
    functions are the instances at [EVENT_CONFIG]. *)
Definition build_template_of (cfg : Config) : list Step :=
  flat_map (fun c =>
              let n := if negb (c_unlockedByDefault c) then c_maxLevel c else c_maxLevel c - 1 in
              replicate (Z.to_nat n) ("creature", c_id c, c_name c))
           (cfg_creatures cfg)
  ++ flat_map (fun b => replicate (Z.to_nat (b_maxLevel b)) ("boost", b_id b, b_name b))
              (cfg_boosts cfg).

Definition build_template : list Step := build_template_of EVENT_CONFIG.

(** [pos_map[key].append(pos)], creating the entry at the end of the dict
    when the key is new. *)
Fixpoint pos_map_append (pos_map : list (Key * list nat)) (key : Key) (pos : nat)
  : list (Key * list nat) :=
  match pos_map with
  | [] => [(key, [pos])]
  | (k, ps) :: rest =>
      if decide (k = key) then (k, ps ++ [pos]) :: rest
      else (k, ps) :: pos_map_append rest key pos
  end.

Fixpoint _build_pos_map_from (pos : nat) (priority : list Step) (pos_map : list (Key * list nat))
  : list (Key * list nat) :=
  match priority with
  | [] => pos_map
  | st :: rest => _build_pos_map_from (S pos) rest (pos_map_append pos_map (step_key st) pos)
  end.

Definition _build_pos_map (priority : list Step) : list (Key * list nat) :=
  _build_pos_map_from 0 priority [].

(** [{key: 0 for key in pos_map}]. *)
Definition init_counts (pos_map : list (Key * list nat)) : gmap Key nat :=
  foldl (fun m kp => <[kp.1 := 0%nat]> m) ∅ pos_map.

(** The cost looked up for a key: anything that is not a creature is treated
    as a boost. *)
Definition key_cost (sim : GameSim) (key : Key) : option (option Cost) :=
  if decide (key.1 = "creature") then get_creature_upgrade_cost sim key.2
  else get_boost_upgrade_cost sim key.2.

(** Truth value of [cost] in [if cost and ...]: [None] and the empty dict
    are false. *)
Definition truthy (cost : option Cost) : bool :=
  match cost with
  | None => false
  | Some c => bool_decide (c ≠ ∅)
  end.

(** The [for key, positions in pos_map.items()] loop of one decision tick. *)
Fixpoint scan (sim : GameSim) (counts : gmap Key nat) (items : list (Key * list nat))
         (best_pos : nat) (best_key : option Key) : option (nat * option Key) :=
  match items with
  | [] => Some (best_pos, best_key)
  | (key, positions) :: rest =>
      c ← counts !! key;
      if decide (length positions ≤ c)%nat then scan sim counts rest best_pos best_key
      else
        p ← positions !! c;
        if decide (best_pos ≤ p)%nat then scan sim counts rest best_pos best_key
        else
          cost ← key_cost sim key;
          if truthy cost && can_afford sim cost then scan sim counts rest p (Some key)
          else scan sim counts rest best_pos best_key
  end.

(** The upgrade call made for a key: [upgrade_creature] for kind
    ['creature'], [upgrade_boost] otherwise. *)
Definition upgrade_key (sim : GameSim) (key : Key) : option (bool * GameSim) :=
  if decide (key.1 = "creature") then upgrade_creature sim key.2
  else upgrade_boost sim key.2.

(** [if best_key is not None: ...]: the purchase and the pointer advance. *)
Definition purchase (sim : GameSim) (counts : gmap Key nat) (best_key : option Key)
  : option (GameSim * gmap Key nat) :=
  match best_key with
  | None => Some (sim, counts)
  | Some key =>
      r ← upgrade_key sim key;
      c ← counts !! key;
      Some (r.2, <[key := S c]> counts)
  end.

(** The body of the [while not sim.is_done()] loop. *)
Definition decision_tick (pos_map : list (Key * list nat)) (n : nat)
           (sim : GameSim) (counts : gmap Key nat) : option (GameSim * gmap Key nat) :=
  best ← scan sim counts pos_map n None;
  sc ← purchase sim counts best.2;
  sim' ← advance sc.1 STEP_MS;
  Some (sim', sc.2).

(** The [while] loop with a bound on the number of iterations; [None] is a
    raised exception or an exhausted bound. *)
Fixpoint simulate_loop (fuel : nat) (pos_map : list (Key * list nat)) (n : nat)
         (sim : GameSim) (counts : gmap Key nat) : option GameSim :=
  if is_done sim then Some sim
  else
    match fuel with
    | O => None
    | S fuel' =>
        sc ← decision_tick pos_map n sim counts;
        simulate_loop fuel' pos_map n sc.1 sc.2
    end.

(** Number of iterations after which the clock has reached the duration. *)
Definition max_ticks (cfg : Config) : nat :=
  Z.to_nat (Qceiling (cfg_duration cfg / STEP_MS)).

Definition simulate_of (cfg : Config) (priority : list Step) : option Q :=
  let sim := GameSim_init cfg in
  let pos_map := _build_pos_map priority in
  let counts := init_counts pos_map in
  let n := length priority in
  sim' ← simulate_loop (max_ticks cfg) pos_map n sim counts;
  Some (total_damage sim').

Definition simulate (priority : list Step) : option Q := simulate_of EVENT_CONFIG priority.

(** *** [simulate_with_log] *)

Record LogEntry := { time_h : Q; action : string }.

(** [{(kind, uid): name for kind, uid, name in priority}]. *)
Definition name_map_of (priority : list Step) : gmap Key string :=
  foldl (fun m st => <[step_key st := st.2]> m) ∅ priority.

(** The purchase branch of [simulate_with_log]: the same upgrade and pointer
    advance as in [simulate], and one log record. *)
Definition purchase_with_log (name_map : gmap Key string) (sim : GameSim)
           (counts : gmap Key nat) (log : list LogEntry) (best_key : option Key)
  : option (GameSim * gmap Key nat * list LogEntry) :=
  match best_key with
  | None => Some (sim, counts, log)
  | Some key =>
      name ← name_map !! key;
      let t_h := (time_elapsed_ms sim / 3600000)%Q in
      r ← (if decide (key.1 = "creature") then
             r ← upgrade_creature sim key.2;
             lv ← creature_levels r.2 !! key.2;
             Some (r.2, if lv =? 1 then "Unlock " +:+ name
                        else "Upgrade " +:+ name +:+ " → Lv" +:+ pretty lv)
           else
             r ← upgrade_boost sim key.2;
             lv ← boost_levels r.2 !! key.2;
             Some (r.2, "Buy " +:+ name +:+ " Lv" +:+ pretty lv));
      c ← counts !! key;
      Some (r.1, <[key := S c]> counts, log ++ [{| time_h := t_h; action := r.2 |}])
  end.

Definition decision_tick_with_log (name_map : gmap Key string)
           (pos_map : list (Key * list nat)) (n : nat)
           (sim : GameSim) (counts : gmap Key nat) (log : list LogEntry)
  : option (GameSim * gmap Key nat * list LogEntry) :=
  best ← scan sim counts pos_map n None;
  scl ← purchase_with_log name_map sim counts log best.2;
  sim' ← advance scl.1.1 STEP_MS;
  Some (sim', scl.1.2, scl.2).

Fixpoint simulate_with_log_loop (fuel : nat) (name_map : gmap Key string)
         (pos_map : list (Key * list nat)) (n : nat)
         (sim : GameSim) (counts : gmap Key nat) (log : list LogEntry)
  : option (GameSim * list LogEntry) :=
  if is_done sim then Some (sim, log)
  else
    match fuel with
    | O => None
    | S fuel' =>
        scl ← decision_tick_with_log name_map pos_map n sim counts log;
        simulate_with_log_loop fuel' name_map pos_map n scl.1.1 scl.1.2 scl.2
    end.

Definition simulate_with_log_of (cfg : Config) (priority : list Step)
  : option (Q * list LogEntry * GameSim) :=
  let sim := GameSim_init cfg in
  let pos_map := _build_pos_map priority in
  let name_map := name_map_of priority in
  let counts := init_counts pos_map in
  let n := length priority in
  r ← simulate_with_log_loop (max_ticks cfg) name_map pos_map n sim counts [];
  Some (total_damage r.1, r.2, r.1).


(** ** Search layer ([optimizer.py]) *)

Definition Qltb (a b : Q) : bool := negb (Qle_bool b a).

(** *** Perturbation operators *)

(** [nbr[a], nbr[b] = nbr[b], nbr[a]]. *)
Definition swap_positions {A} (l : list A) (a b : nat) : option (list A) :=
  y ← l !! b;
  x ← l !! a;
  Some (<[b := x]> (<[a := y]> l)).

(** [item = nbr.pop(a); nbr.insert(b, item)]: [insert] past the end appends. *)
Definition relocate {A} (l : list A) (a b : nat) : option (list A) :=
  item ← l !! a;
  let l' := delete a l in
  Some (take b l' ++ item :: drop b l').

(** [nbr[a:b] = nbr[a:b][::-1]]: an empty slice ([b <= a]) changes nothing. *)
Definition reverse_segment {A} (l : list A) (a b : nat) : list A :=
  take a l ++ reverse (take (b - a) (drop a l)) ++ drop (a `max` b) l.

(** *** The Python runtime used by the search

    Module [random] keeps one hidden generator state; it is threaded
    explicitly as a value of type [G].  [None] is a raised [ValueError]. *)
Class PyRandom (G : Type) := {
  rnd_seed : Z -> G -> G;
  rnd_random : G -> Q * G;
  rnd_randrange : nat -> G -> option (nat * G);
  rnd_randint : Z -> Z -> G -> option (Z * G);
  rnd_sample2 : nat -> G -> option (nat * nat * G);
  rnd_shuffle : forall A : Type, list A -> G -> list A * G
}.

(** What the library documents: [randrange(n)] raises for [n <= 0] and
    otherwise returns an index below [n]; [sample(range(n), 2)] raises for
    [n < 2] and otherwise returns two distinct indices below [n];
    [randint(a, b)] raises for [b < a] and otherwise returns a value in
    [[a, b]]; [shuffle] permutes. *)
Class PyRandomLaws (G : Type) `{PyRandom G} : Prop := {
  rnd_randrange_spec : forall n g,
    match rnd_randrange n g with
    | Some (k, _) => (k < n)%nat
    | None => n = 0%nat
    end;
  rnd_randint_spec : forall a b g,
    match rnd_randint a b g with
    | Some (k, _) => a <= k <= b
    | None => b < a
    end;
  rnd_sample2_spec : forall n g,
    match rnd_sample2 n g with
    | Some (a, b, _) => (a < n)%nat /\ (b < n)%nat /\ a <> b
    | None => (n < 2)%nat
    end;
  rnd_shuffle_spec : forall A (l : list A) g, (rnd_shuffle A l g).1 ≡ₚ l
}.

(** [math.exp] and the float power operator. *)
Class PyMath := {
  math_exp : Q -> Q;
  float_pow : Q -> Q -> Q
}.

(** A small generator that meets [PyRandom]: the state is a counter. *)
Definition counter_sample2 (n g : nat) : nat * nat :=
  let a := (g `mod` n)%nat in
  let d := (1 + (g `div` n) `mod` (n - 1))%nat in
  (a, ((a + d) `mod` n)%nat).

Definition counter_randrange (n g : nat) : option (nat * nat) :=
  if decide (n = 0)%nat then None else Some ((g `mod` n)%nat, S g).

Definition counter_randint (a b : Z) (g : nat) : option (Z * nat) :=
  if decide (b < a) then None else Some (a + Z.of_nat g `mod` (b - a + 1), S g).

Definition counter_sample (n g : nat) : option (nat * nat * nat) :=
  if decide (n < 2)%nat then None
  else Some ((counter_sample2 n g).1, (counter_sample2 n g).2, S g).

(** The generator state is a counter; [shuffle] reverses the list. *)
#[global] Instance CounterRandom : PyRandom nat := {|
  rnd_seed sd _ := Z.to_nat (Z.abs sd);
  rnd_random g := ((inject_Z (Z.of_nat (g `mod` 100)) / 100)%Q, S g);
  rnd_randrange := counter_randrange;
  rnd_randint := counter_randint;
  rnd_sample2 := counter_sample;
  rnd_shuffle A l g := (reverse l, S g)
|}.

(** Stand-ins for [math.exp] and the float power, which none of the
    statements below depends on. *)
#[global] Instance RationalMath : PyMath := {|
  math_exp x := (1 + x)%Q;
  float_pow x _ := x
|}.

Section Search.
Context {G : Type} `{PyRandom G} `{PyMath}.

(** The three-way choice at the head of one annealing iteration, applied
    to a copy [nbr] of [current]. *)
Definition perturb (current : list Step) (g : G) : option (list Step * G) :=
  let n := length current in
  let '(r, g) := rnd_random g in
  let nbr := current in
  if Qltb r 0.50 then
    '(a, b, g) ← rnd_sample2 n g;
    nbr' ← swap_positions nbr a b;
    Some (nbr', g)
  else if Qltb r 0.85 then
    '(a, g) ← rnd_randrange n g;
    '(b, g) ← rnd_randrange (n - 1) g;
    nbr' ← relocate nbr a b;
    Some (nbr', g)
  else
    '(a, g) ← rnd_randrange n g;
    '(len, g) ← rnd_randint 2 (Z.of_nat (8 `min` n)) g;
    let b := ((a + Z.to_nat len) `min` n)%nat in
    Some (reverse_segment nbr a b, g).

Record SAState := {
  sa_current : list Step;
  sa_current_score : Q;
  sa_best : list Step;
  sa_best_score : Q;
  sa_temp : Q;
  sa_n_accept : nat
}.

(** [delta > 0 or random.random() < math.exp(...)]: the second draw happens
    only when the candidate is not better. *)
Definition sa_accept (delta temp current_score : Q) (g : G) : option (bool * G) :=
  if Qltb 0 delta then Some (true, g)
  else
    let '(u, g) := rnd_random g in
    let floor_score := if Qltb current_score 1000000 then 1000000%Q else current_score in
    x ← py_div delta (temp * floor_score);
    Some (Qltb u (math_exp x), g).

(** The body of [for i in range(n_iter)] (progress printing left out). *)
Definition sa_iteration (cooling : Q) (st : SAState) (g : G) : option (SAState * G) :=
  '(nbr, g) ← perturb (sa_current st) g;
  nbr_score ← simulate nbr;
  let delta := (nbr_score - sa_current_score st)%Q in
  '(accept, g) ← sa_accept delta (sa_temp st) (sa_current_score st) g;
  let st1 :=
    if (accept : bool) then
      let better := Qltb (sa_best_score st) nbr_score in
      {| sa_current := nbr; sa_current_score := nbr_score;
         sa_best := if better then nbr else sa_best st;
         sa_best_score := if better then nbr_score else sa_best_score st;
         sa_temp := sa_temp st;
         sa_n_accept := S (sa_n_accept st) |}
    else st in
  Some ({| sa_current := sa_current st1; sa_current_score := sa_current_score st1;
           sa_best := sa_best st1; sa_best_score := sa_best_score st1;
           sa_temp := (sa_temp st1 * cooling)%Q;
           sa_n_accept := sa_n_accept st1 |}, g).

Fixpoint sa_loop (k : nat) (cooling : Q) (st : SAState) (g : G) : option (SAState * G) :=
  match k with
  | O => Some (st, g)
  | S k' =>
      '(st', g') ← sa_iteration cooling st g;
      sa_loop k' cooling st' g'
  end.

(** [simulated_annealing(n_iter, verbose=False, seed)]; [range(n_iter)] is
    empty for [n_iter <= 0]. *)
Definition simulated_annealing (n_iter : Z) (seed : option Z) (g : G)
  : option (list Step * Q * G) :=
  let g := match seed with Some sd => rnd_seed sd g | None => g end in
  let template := build_template in
  let '(current, g) := rnd_shuffle _ template g in
  current_score ← simulate current;
  let T_start := 0.30%Q in
  let T_end := 0.0001%Q in
  e ← py_div 1 (inject_Z (Z.max (n_iter - 1) 1));
  let cooling := float_pow (T_end / T_start)%Q e in
  '(st, g) ← sa_loop (Z.to_nat n_iter) cooling
               {| sa_current := current; sa_current_score := current_score;
                  sa_best := current; sa_best_score := current_score;
                  sa_temp := T_start; sa_n_accept := 0 |} g;
  Some (sa_best st, sa_best_score st, g).

(** *** Hill climbing *)

(** [best_score], [best_i], [best_j] of [hill_climb]; [-1] marks that no
    improving swap has been seen. *)
Record HCBest := { hc_score : Q; hc_i : Z; hc_j : Z }.

(** The body of the inner loop: evaluate the swap of positions [i], [j]. *)
Definition hc_try (priority : list Step) (i j : nat) (b : HCBest) : option HCBest :=
  nbr ← swap_positions priority i j;
  s ← simulate nbr;
  Some (if Qltb (hc_score b) s
        then {| hc_score := s; hc_i := Z.of_nat i; hc_j := Z.of_nat j |}
        else b).

Fixpoint hc_inner (priority : list Step) (i : nat) (js : list nat) (b : HCBest)
  : option HCBest :=
  match js with
  | [] => Some b
  | j :: js' => b' ← hc_try priority i j b; hc_inner priority i js' b'
  end.

Fixpoint hc_outer (priority : list Step) (n : nat) (rows : list nat) (b : HCBest)
  : option HCBest :=
  match rows with
  | [] => Some b
  | i :: rows' =>
      b' ← hc_inner priority i (seq (i + 1) (n - (i + 1))) b;
      hc_outer priority n rows' b'
  end.

(** [hill_climb(priority, verbose=False)] returns
    [(result, score, improved)]. *)
Definition hill_climb (priority : list Step) : option (list Step * Q * bool) :=
  let n := length priority in
  base_score ← simulate priority;
  b ← hc_outer priority n (seq 0 n) {| hc_score := base_score; hc_i := -1; hc_j := -1 |};
  if 0 <=? hc_i b then
    result ← swap_positions priority (Z.to_nat (hc_i b)) (Z.to_nat (hc_j b));
    Some (result, hc_score b, true)
  else Some (priority, base_score, false).

(** *** The pipeline *)

(** [for r in range(n_restarts)]: [global_best] starts as [None]. *)
Fixpoint restarts_loop (k : nat) (n_iter : Z) (global_best : option (list Step))
         (global_best_score : Q) (g : G) : option (option (list Step) * Q * G) :=
  match k with
  | O => Some (global_best, global_best_score, g)
  | S k' =>
      '(sub_seed, g) ← rnd_randint 0 (2 ^ 31) g;
      '(priority, score, g) ← simulated_annealing n_iter (Some sub_seed) g;
      if Qltb global_best_score score
      then restarts_loop k' n_iter (Some priority) score g
      else restarts_loop k' n_iter global_best global_best_score g
  end.

(** [for p in range(hill_climb_passes)] with its [break];
    [hill_climb(None)] raises at [len(priority)]. *)
Fixpoint passes_loop (k : nat) (global_best : option (list Step)) (global_best_score : Q)
  : option (option (list Step) * Q) :=
  match k with
  | O => Some (global_best, global_best_score)
  | S k' =>
      priority ← global_best;
      '(gb, gbs, improved) ← hill_climb priority;
      if negb improved then Some (Some gb, gbs)
      else passes_loop k' (Some gb) gbs
  end.

(** [optimize(n_iter, n_restarts, hill_climb_passes, verbose=False, seed)]. *)
Definition optimize (n_iter n_restarts hill_climb_passes : Z) (seed : option Z) (g : G)
  : option (option (list Step) * Q * G) :=
  let g := match seed with Some sd => rnd_seed sd g | None => g end in
  '(gb, gbs, g) ← restarts_loop (Z.to_nat n_restarts) n_iter None 0%Q g;
  '(gb', gbs') ← passes_loop (Z.to_nat hill_climb_passes) gb gbs;
  Some (gb', gbs', g).
End Search.

(** ** Greedy baseline: what-if scoring ([evaluate.py])

    [_score_upgrade] copies a [GameSim] object with [copy.copy] and then
    rebinds four of its dict attributes to fresh dicts, so the object graph
    matters: objects and dicts live in a heap and attributes hold
    references. *)

Abbreviation loc := positive.

Inductive Cell :=
  | CObj (config_ref resources_ref creature_levels_ref creature_unlocked_ref
          creature_progress_ref boost_levels_ref : loc)
         (total_damage_attr time_elapsed_ms_attr : Q)
  | CConfig (cfg : Config)
  | CDictQ (d : gmap string Q)
  | CDictZ (d : gmap string Z)
  | CDictB (d : gmap string bool).

Abbreviation Heap := (gmap loc Cell).

Definition get_config (h : Heap) (l : loc) : option Config :=
  match h !! l with Some (CConfig c) => Some c | _ => None end.
Definition get_dictQ (h : Heap) (l : loc) : option (gmap string Q) :=
  match h !! l with Some (CDictQ d) => Some d | _ => None end.
Definition get_dictZ (h : Heap) (l : loc) : option (gmap string Z) :=
  match h !! l with Some (CDictZ d) => Some d | _ => None end.
Definition get_dictB (h : Heap) (l : loc) : option (gmap string bool) :=
  match h !! l with Some (CDictB d) => Some d | _ => None end.

(** The state observed through the object at [p]: every attribute read
    through its reference. *)
Definition view (h : Heap) (p : loc) : option GameSim :=
  match h !! p with
  | Some (CObj lc lr ll lu lp lb td te) =>
      cfg ← get_config h lc;
      r ← get_dictQ h lr;
      l ← get_dictZ h ll;
      u ← get_dictB h lu;
      pr ← get_dictQ h lp;
      b ← get_dictZ h lb;
      Some {| config := cfg; resources := r; creature_levels := l;
              creature_unlocked := u; creature_progress := pr; boost_levels := b;
              total_damage := td; time_elapsed_ms := te |}
  | _ => None
  end.

(** The effect of a method of the object at [p] that ends in state [s]: the
    dicts are mutated in place (through the references the object holds),
    the two float attributes are rebound on the object itself. *)
Definition write_back (h : Heap) (p : loc) (s : GameSim) : option Heap :=
  match h !! p with
  | Some (CObj lc lr ll lu lp lb _ _) =>
      let h := <[lr := CDictQ (resources s)]> h in
      let h := <[ll := CDictZ (creature_levels s)]> h in
      let h := <[lu := CDictB (creature_unlocked s)]> h in
      let h := <[lp := CDictQ (creature_progress s)]> h in
      let h := <[lb := CDictZ (boost_levels s)]> h in
      Some (<[p := CObj lc lr ll lu lp lb (total_damage s) (time_elapsed_ms s)]> h)
  | _ => None
  end.

(** A method call [p.m(...)] on the heap. *)
Definition call {A} (m : GameSim -> option (A * GameSim)) (h : Heap) (p : loc)
  : option (A * Heap) :=
  s ← view h p;
  r ← m s;
  h' ← write_back h p r.2;
  Some (r.1, h').

Definition alloc (h : Heap) (c : Cell) : loc * Heap :=
  let l := fresh (dom h) in (l, <[l := c]> h).

(** [copy.copy(sim)]: a new object with the same attribute values, that is
    the same references. *)
Definition copy_copy (h : Heap) (p : loc) : option (loc * Heap) :=
  match h !! p with
  | Some (CObj lc lr ll lu lp lb td te) => Some (alloc h (CObj lc lr ll lu lp lb td te))
  | _ => None
  end.

(** [sim2.resources = dict(sim_orig.resources)] and its three siblings:
    allocate a copy of the dict and rebind the attribute of [p2]. *)
Definition rebind_resources (h : Heap) (p2 p : loc) : option Heap :=
  match h !! p, h !! p2 with
  | Some (CObj _ lr _ _ _ _ _ _), Some (CObj lc2 _ ll2 lu2 lp2 lb2 td2 te2) =>
      d ← get_dictQ h lr;
      let '(l, h) := alloc h (CDictQ d) in
      Some (<[p2 := CObj lc2 l ll2 lu2 lp2 lb2 td2 te2]> h)
  | _, _ => None
  end.

Definition rebind_creature_levels (h : Heap) (p2 p : loc) : option Heap :=
  match h !! p, h !! p2 with
  | Some (CObj _ _ ll _ _ _ _ _), Some (CObj lc2 lr2 _ lu2 lp2 lb2 td2 te2) =>
      d ← get_dictZ h ll;
      let '(l, h) := alloc h (CDictZ d) in
      Some (<[p2 := CObj lc2 lr2 l lu2 lp2 lb2 td2 te2]> h)
  | _, _ => None
  end.

Definition rebind_creature_unlocked (h : Heap) (p2 p : loc) : option Heap :=
  match h !! p, h !! p2 with
  | Some (CObj _ _ _ lu _ _ _ _), Some (CObj lc2 lr2 ll2 _ lp2 lb2 td2 te2) =>
      d ← get_dictB h lu;
      let '(l, h) := alloc h (CDictB d) in
      Some (<[p2 := CObj lc2 lr2 ll2 l lp2 lb2 td2 te2]> h)
  | _, _ => None
  end.

Definition rebind_boost_levels (h : Heap) (p2 p : loc) : option Heap :=
  match h !! p, h !! p2 with
  | Some (CObj _ _ _ _ _ lb _ _), Some (CObj lc2 lr2 ll2 lu2 lp2 _ td2 te2) =>
      d ← get_dictZ h lb;
      let '(l, h) := alloc h (CDictZ d) in
      Some (<[p2 := CObj lc2 lr2 ll2 lu2 lp2 l td2 te2]> h)
  | _, _ => None
  end.

(** [sum(cost.values()) or 1.0]. *)
Definition total_cost_of (cost : Cost) : Q :=
  let t := map_fold (fun _ amt acc => (acc + amt)%Q) 0%Q cost in
  if Qeq_bool t 0 then 1%Q else t.

(** The lines of [_score_upgrade] from [copy.copy] to the hypothetical
    purchase; returns the reference of [sim2]. *)
Definition what_if_purchase (h : Heap) (sim_orig : loc) (kind uid : string)
  : option (loc * Heap) :=
  '(sim2, h) ← copy_copy h sim_orig;
  h ← rebind_resources h sim2 sim_orig;
  h ← rebind_creature_levels h sim2 sim_orig;
  h ← rebind_creature_unlocked h sim2 sim_orig;
  h ← rebind_boost_levels h sim2 sim_orig;
  '(_, h) ← (if decide (kind = "creature")
             then call (fun s => upgrade_creature s uid) h sim2
             else call (fun s => upgrade_boost s uid) h sim2);
  Some (sim2, h).

(** [_score_upgrade(sim_orig, kind, uid, time_remaining_ms)]: the score
    ([None] when the item is not purchasable or not affordable) and the heap
    after the call. *)
Definition _score_upgrade (h : Heap) (sim_orig : loc) (kind uid : string)
           (time_remaining_ms : Q) : option (option Q * Heap) :=
  s ← view h sim_orig;
  cost ← (if decide (kind = "creature") then get_creature_upgrade_cost s uid
          else get_boost_upgrade_cost s uid);
  match cost with
  | None => Some (None, h)
  | Some c =>
      if negb (can_afford s (Some c)) then Some (None, h)
      else
        current_dps ← get_dps s;
        '(sim2, h) ← what_if_purchase h sim_orig kind uid;
        s2 ← view h sim2;
        dps2 ← get_dps s2;
        let dps_gain := (dps2 - current_dps)%Q in
        time_s ← py_div time_remaining_ms 1000;
        x ← py_div (dps_gain * time_s) (total_cost_of c);
        Some (Some x, h)
  end.

(** [GameSim(config)] on the heap: the object, its configuration and its
    five dicts. *)
Definition new_GameSim (h : Heap) (cfg : Config) : loc * Heap :=
  let s := GameSim_init cfg in
  let '(lc, h) := alloc h (CConfig cfg) in
  let '(lr, h) := alloc h (CDictQ (resources s)) in
  let '(ll, h) := alloc h (CDictZ (creature_levels s)) in
  let '(lu, h) := alloc h (CDictB (creature_unlocked s)) in
  let '(lp, h) := alloc h (CDictQ (creature_progress s)) in
  let '(lb, h) := alloc h (CDictZ (boost_levels s)) in
  alloc h (CObj lc lr ll lu lp lb (total_damage s) (time_elapsed_ms s)).

(** ** Well-formed configurations and states *)

#[global] Instance Qle_decision (a b : Q) : Decision (a <= b)%Q.
Proof.
  destruct (Qlt_le_dec b a) as [Hlt | Hle].
  - right. apply Qlt_not_le, Hlt.
  - left. exact Hle.
Defined.

#[global] Instance Qlt_decision (a b : Q) : Decision (a < b)%Q.
Proof.
  destruct (Qlt_le_dec a b) as [Hlt | Hle].
  - left. exact Hlt.
  - right. apply Qle_not_lt, Hle.
Defined.

Definition resource_ids (cfg : Config) : gset string := list_to_set (cfg_resources cfg).

Definition wf_cost (cfg : Config) (cost : Cost) : Prop := dom cost ⊆ resource_ids cfg.

(** What the engine relies on in a unit definition: the per-level arrays
    cover every level, the produced resource exists, the spawn interval is
    positive and production is not negative. *)
Definition wf_creature (cfg : Config) (c : Creature) : Prop :=
  1 <= c_maxLevel c
  ∧ c_maxLevel c <= Z.of_nat (length (c_productionByLevel c))
  ∧ c_maxLevel c <= Z.of_nat (length (c_damageByLevel c))
  ∧ c_maxLevel c - 1 <= Z.of_nat (length (c_upgradeCosts c))
  ∧ c_produces c ∈ cfg_resources cfg
  ∧ (0 < c_spawnTime c)%Q
  ∧ Forall (fun v => (0 <= v)%Q) (c_productionByLevel c)
  ∧ from_option (wf_cost cfg) True (c_unlockCost c)
  ∧ Forall (wf_cost cfg) (c_upgradeCosts c).

(** For a boost: the arrays cover every level, a speed bonus stays below 1
    and a production bonus is not negative. *)
Definition wf_boost (cfg : Config) (b : Boost) : Prop :=
  0 <= b_maxLevel b
  ∧ b_maxLevel b <= Z.of_nat (length (b_bonusByLevel b))
  ∧ b_maxLevel b <= Z.of_nat (length (b_costs b))
  ∧ (b_type b = "speed" -> Forall (fun v => (v < 1)%Q) (b_bonusByLevel b))
  ∧ (b_type b = "production-bonus" -> Forall (fun v => (0 <= v)%Q) (b_bonusByLevel b))
  ∧ Forall (wf_cost cfg) (b_costs b).

Definition wf_config (cfg : Config) : Prop :=
  NoDup (_creature_order cfg)
  ∧ NoDup (_boost_order cfg)
  ∧ Forall (wf_creature cfg) (cfg_creatures cfg)
  ∧ Forall (wf_boost cfg) (cfg_boosts cfg).

#[global] Instance wf_cost_dec cfg cost : Decision (wf_cost cfg cost).
Proof. unfold wf_cost. apply _. Defined.

#[global] Instance wf_creature_dec cfg c : Decision (wf_creature cfg c).
Proof. unfold wf_creature. destruct (c_unlockCost c); simpl; apply _. Defined.

#[global] Instance wf_boost_dec cfg b : Decision (wf_boost cfg b).
Proof. unfold wf_boost. apply _. Defined.

#[global] Instance wf_config_dec cfg : Decision (wf_config cfg).
Proof. unfold wf_config. apply _. Defined.

(** No cost of the configuration is the empty dict (no free purchase). *)
Definition no_free_cost (cfg : Config) : Prop :=
  Forall (fun c => from_option (fun k => k ≠ ∅) True (c_unlockCost c)
                   ∧ Forall (fun k => k ≠ ∅) (c_upgradeCosts c)) (cfg_creatures cfg)
  ∧ Forall (fun b => Forall (fun k => k ≠ ∅) (b_costs b)) (cfg_boosts cfg).

#[global] Instance no_free_cost_dec cfg : Decision (no_free_cost cfg).
Proof.
  unfold no_free_cost. apply and_dec; [|apply _].
  apply Forall_dec. intros c. destruct (c_unlockCost c); simpl; apply _.
Defined.

(** The state invariant of the engine for configuration [cfg]. *)
Record Inv (cfg : Config) (s : GameSim) : Prop := {
  inv_config : config s = cfg;
  inv_resources : forall r, r ∈ cfg_resources cfg ->
      exists v, resources s !! r = Some v;
  inv_balance : map_Forall (fun _ v => (0 <= v)%Q) (resources s);
  inv_creature : forall c, c ∈ cfg_creatures cfg ->
      exists lv u p,
        creature_levels s !! c_id c = Some lv
        ∧ creature_unlocked s !! c_id c = Some u
        ∧ creature_progress s !! c_id c = Some p
        ∧ lv <= c_maxLevel c
        ∧ (u = false -> lv = 0)
        ∧ (u = true -> 1 <= lv)
        ∧ (0 <= p)%Q;
  inv_boost : forall b, b ∈ cfg_boosts cfg ->
      exists lv, boost_levels s !! b_id b = Some lv ∧ 0 <= lv <= b_maxLevel b
}.

(** One call of a state-changing method that returns normally; [advance] is
    given a non-negative amount of time. *)
Inductive sim_step (s : GameSim) : GameSim -> Prop :=
  | step_advance delta_ms s' :
      (0 <= delta_ms)%Q -> advance s delta_ms = Some s' -> sim_step s s'
  | step_upgrade_creature cid ok s' :
      upgrade_creature s cid = Some (ok, s') -> sim_step s s'
  | step_upgrade_boost bid ok s' :
      upgrade_boost s bid = Some (ok, s') -> sim_step s s'.

Definition reachable (cfg : Config) (s : GameSim) : Prop :=
  rtc sim_step (GameSim_init cfg) s.

(** ** Quantities named in the description of [advance] *)

(** Unlocked with a level of at least 1 (the units [advance] does not skip). *)
Definition is_active (s : GameSim) (c : Creature) : bool :=
  match creature_unlocked s !! c_id c, creature_levels s !! c_id c with
  | Some true, Some lv => negb (lv =? 0)
  | _, _ => false
  end.

(** Base spawn interval times speed multiplier. *)
Definition effective_interval (speed : Q) (c : Creature) : Q := (c_spawnTime c * speed)%Q.

(** [floor(progress / effectiveInterval)] after [delta_ms] has been added to
    the accumulator. *)
Definition ticks_of (s : GameSim) (speed delta_ms : Q) (c : Creature) : Z :=
  Qfloor ((default 0%Q (creature_progress s !! c_id c) + delta_ms) / effective_interval speed c).

(** [productionByLevel[level - 1]] plus the active production bonus for the
    produced resource. *)
Definition production_per_tick (s : GameSim) (c : Creature) : Q :=
  (default 0 (lv ← creature_levels s !! c_id c; py_index (c_productionByLevel c) (lv - 1))
   + default 0 (get_production_bonus s (c_produces c)))%Q.

(** [damageByLevel[level - 1]] times the damage multiplier. *)
Definition damage_per_tick (s : GameSim) (dmg_mult : Q) (c : Creature) : Q :=
  (default 0 (lv ← creature_levels s !! c_id c; py_index (c_damageByLevel c) (lv - 1))
   * dmg_mult)%Q.

(** What unit [c] adds to resource [r], and to the damage, in one call. *)
Definition resource_gain (s : GameSim) (speed delta_ms : Q) (r : string) (c : Creature) : Q :=
  if is_active s c && bool_decide (c_produces c = r)
  then (production_per_tick s c * inject_Z (ticks_of s speed delta_ms c))%Q
  else 0%Q.

Definition damage_gain (s : GameSim) (speed dmg_mult delta_ms : Q) (c : Creature) : Q :=
  if is_active s c
  then (damage_per_tick s dmg_mult c * inject_Z (ticks_of s speed delta_ms c))%Q
  else 0%Q.

Definition Qsum (l : list Q) : Q := foldr Qplus 0%Q l.

(** ** Quantities named in the description of the upgrades *)

(** [res'] is [res] with every amount of [cost] subtracted from the balance
    of its resource, and nothing else changed. *)
Definition debited (res res' : gmap string Q) (cost : Cost) : Prop :=
  forall r, res' !! r = match cost !! r with
                        | Some amt => (fun bal => (bal - amt)%Q) <$> res !! r
                        | None => res !! r
                        end.

(** The attributes an upgrade never touches. *)
Definition same_clock (s s' : GameSim) : Prop :=
  config s' = config s
  ∧ creature_progress s' = creature_progress s
  ∧ total_damage s' = total_damage s
  ∧ time_elapsed_ms s' = time_elapsed_ms s.

(** A state used in examples: the initial state of the event with 7
    sapphires in hand. *)
Definition seven_sapphires : GameSim :=
  set_resources (GameSim_init EVENT_CONFIG)
                (<["sapphires" := 7%Q]> (resources (GameSim_init EVENT_CONFIG))).

(** The state after one minute of production and the purchase of the first
    upgrade of the default unit. *)
Definition after_first_purchase : option GameSim :=
  s1 ← advance (GameSim_init EVENT_CONFIG) 60000%Q;
  r ← upgrade_creature s1 "fiona";
  Some r.2.

(** ** A run without purchases *)


(** What a default-unlocked unit deals in [t] ms at level 1 without any
    boost: [floor(t / spawnTime) * damageByLevel[0]]; other units deal
    nothing. *)
Definition baseline_unit_damage (t : Q) (c : Creature) : Q :=
  if c_unlockedByDefault c
  then (inject_Z (Qfloor (t / c_spawnTime c)) * default 0 (c_damageByLevel c !! 0%nat))%Q
  else 0%Q.


(** The states of a run without purchases: levels and flags as at the start,
    and for the elapsed time [t] each default unit has dealt
    [floor(t / spawnTime)] ticks and holds the remainder in its
    accumulator. *)
Record Baseline (cfg : Config) (t : Q) (s : GameSim) : Prop := {
  bl_inv : Inv cfg s;
  bl_levels : creature_levels s = creature_levels (GameSim_init cfg);
  bl_unlocked : creature_unlocked s = creature_unlocked (GameSim_init cfg);
  bl_boosts : boost_levels s = boost_levels (GameSim_init cfg);
  bl_progress : forall c, c ∈ cfg_creatures cfg -> c_unlockedByDefault c = true ->
      exists p, creature_progress s !! c_id c = Some p
        ∧ (p == t - inject_Z (Qfloor (t / c_spawnTime c)) * c_spawnTime c)%Q;
  bl_damage : (total_damage s == Qsum (baseline_unit_damage t <$> cfg_creatures cfg))%Q
}.

(** ** A configuration with a speed bonus above 1

    The default unit of the event and one speed boost whose only level has
    bonus 2.0, for one sapphire. *)
Definition overdrive : Boost := {|
  b_id := "overdrive"; b_name := "Overdrive";
  b_type := "speed"; b_resource := None;
  b_maxLevel := 1;
  b_bonusByLevel := [2]%Q;
  b_costs := [cost1 "sapphires" 1%Q]
|}.

Definition overdrive_config : Config := {|
  cfg_id := "overdrive-test";
  cfg_name := "Overdrive test";
  cfg_duration := (EVENT_DURATION_HOURS * HOURS)%Q;
  cfg_resources := ["sapphires"; "emeralds"; "rubies"];
  cfg_creatures := [fiona];
  cfg_boosts := [overdrive]
|}.

(** One second of production, then the boost is bought. *)
Definition overdriven : option GameSim :=
  s1 ← advance (GameSim_init overdrive_config) 1000%Q;
  r ← upgrade_boost s1 "overdrive";
  Some r.2.

(** ** The per-key count invariant of priority orderings *)

(** Number of steps of [l] that refer to [key]. *)
Definition key_count (key : Key) (l : list Step) : nat :=
  length (filter (fun st => step_key st = key) l).

(** Steps of a unit: [maxLevel - 1] if unlocked by default, else [maxLevel]. *)
Definition creature_steps (c : Creature) : nat :=
  Z.to_nat (if c_unlockedByDefault c then c_maxLevel c - 1 else c_maxLevel c).

Definition valid_ordering (cfg : Config) (l : list Step) : Prop :=
  Forall (fun c => key_count ("creature", c_id c) l = creature_steps c) (cfg_creatures cfg)
  ∧ Forall (fun b => key_count ("boost", b_id b) l = Z.to_nat (b_maxLevel b)) (cfg_boosts cfg).

#[global] Instance valid_ordering_dec cfg l : Decision (valid_ordering cfg l).
Proof. unfold valid_ordering. apply _. Defined.

(** [l'] holds exactly the steps of [l] (the same multiset, so nothing is
    added, removed or retyped), hence has the same length, and keeps the
    count invariant for any configuration. *)
Definition same_steps (l l' : list Step) : Prop :=
  l' ≡ₚ l
  ∧ length l' = length l
  ∧ forall cfg, valid_ordering cfg l -> valid_ordering cfg l'.

(** Positions, counted from [pos], of the steps of [l] whose key is [key]. *)
Fixpoint positions_from (pos : nat) (l : list Step) (key : Key) : list nat :=
  match l with
  | [] => []
  | st :: rest =>
      (if decide (step_key st = key) then [pos] else []) ++ positions_from (S pos) rest key
  end.

(** Lookup in the position map ([[]] for an absent key). *)
Fixpoint pm_lookup (pos_map : list (Key * list nat)) (key : Key) : list nat :=
  match pos_map with
  | [] => []
  | (k, ps) :: rest => if decide (k = key) then ps else pm_lookup rest key
  end.

(** A key the engine knows: a unit id for kind ['creature'], a boost id for
    any other kind. *)
Definition valid_key (cfg : Config) (key : Key) : Prop :=
  if decide (key.1 = "creature") then key.2 ∈ _creature_order cfg
  else key.2 ∈ _boost_order cfg.

Definition known_steps (cfg : Config) (l : list Step) : Prop :=
  Forall (fun st => valid_key cfg (step_key st)) l.

#[global] Instance valid_key_dec cfg key : Decision (valid_key cfg key).
Proof. unfold valid_key. destruct (decide (key.1 = "creature")); apply _. Defined.

#[global] Instance known_steps_dec cfg l : Decision (known_steps cfg l).
Proof. unfold known_steps. apply _. Defined.

(** The entry [kp] of the position map has an unconsumed step, at ordering
    position [p], and the current cost of its key is affordable. *)
Definition affordable (sim : GameSim) (counts : gmap Key nat) (kp : Key * list nat) (p : nat)
  : Prop :=
  exists c cost,
    counts !! kp.1 = Some c
    ∧ kp.2 !! c = Some p
    ∧ key_cost sim kp.1 = Some (Some cost)
    ∧ can_afford sim (Some cost) = true.

(** The test made by the scan: the cost is also required to be truthy. *)
Definition buyable (sim : GameSim) (counts : gmap Key nat) (kp : Key * list nat) (p : nat)
  : Prop :=
  exists c cost,
    counts !! kp.1 = Some c
    ∧ kp.2 !! c = Some p
    ∧ key_cost sim kp.1 = Some cost
    ∧ truthy cost && can_afford sim cost = true.

(** What one decision tick does: either the affordable entry of smallest
    position is bought (one successful upgrade call, its pointer advanced),
    or nothing is affordable and nothing is bought; [advance(STEP_MS)]
    follows in both cases. *)
Definition tick_outcome (pos_map : list (Key * list nat)) (sim : GameSim)
           (counts : gmap Key nat) (sim' : GameSim) (counts' : gmap Key nat) : Prop :=
  (exists kp p c sim1,
      kp ∈ pos_map
      ∧ affordable sim counts kp p
      ∧ (forall kp' p', kp' ∈ pos_map -> affordable sim counts kp' p' ->
           (p <= p')%nat ∧ (p' = p -> kp' = kp))
      ∧ upgrade_key sim kp.1 = Some (true, sim1)
      ∧ counts !! kp.1 = Some c
      ∧ counts' = <[kp.1 := S c]> counts
      ∧ advance sim1 STEP_MS = Some sim')
  ∨ ((forall kp p, kp ∈ pos_map -> ~ affordable sim counts kp p)
     ∧ counts' = counts
     ∧ advance sim STEP_MS = Some sim').

(** The loop of [simulate]: decision ticks, each with the outcome described
    by [tick_outcome], repeated until [is_done]. *)
Inductive runs_until_done (pos_map : list (Key * list nat)) (n : nat)
  : GameSim -> gmap Key nat -> GameSim -> Prop :=
  | run_done sim counts :
      is_done sim = true -> runs_until_done pos_map n sim counts sim
  | run_tick sim counts sim' counts' final :
      is_done sim = false ->
      decision_tick pos_map n sim counts = Some (sim', counts') ->
      tick_outcome pos_map sim counts sim' counts' ->
      runs_until_done pos_map n sim' counts' final ->
      runs_until_done pos_map n sim counts final.

(** The position pairs visited by the two nested loops of [hill_climb], in
    the order of the visit. *)
Definition swap_pairs_upto (n m : nat) : list (nat * nat) :=
  flat_map (fun i => (fun j => (i, j)) <$> seq (i + 1) (n - (i + 1))) (seq 0 m).

Definition swap_pairs (n : nat) : list (nat * nat) := swap_pairs_upto n n.

(** The scan of [hill_climb] over an explicit list of pairs. *)
Fixpoint hc_pairs (priority : list Step) (pairs : list (nat * nat)) (b : HCBest)
  : option HCBest :=
  match pairs with
  | [] => Some b
  | (i, j) :: rest => b' ← hc_try priority i j b; hc_pairs priority rest b'
  end.

(** What one pass of [hill_climb] returns for an ordering whose own score is
    [base]. *)
Definition hill_climb_result (priority : list Step) (base : Q)
           (result : list Step) (score : Q) (improved : bool) : Prop :=
  simulate result = Some score
  ∧ (base <= score)%Q
  ∧ (forall i j, (i < j < length priority)%nat ->
       exists nbr s, swap_positions priority i j = Some nbr
         ∧ simulate nbr = Some s ∧ (s <= score)%Q)
  ∧ (improved = true ->
       (base < score)%Q
       ∧ exists i j, (i < j < length priority)%nat
           ∧ swap_positions priority i j = Some result)
  ∧ (improved = false -> result = priority ∧ score = base).

(** The generator state after the optional [random.seed(seed)]. *)
Definition seeded {G : Type} `{PyRandom G} (seed : option Z) (g : G) : G :=
  match seed with Some sd => rnd_seed sd g | None => g end.

(** Every cell of [h] is still there, with the same content, in [h']. *)
Definition heap_extends (h h' : Heap) : Prop :=
  forall l, l ∈ dom h -> h' !! l = h !! l.

(** A simulation object on the heap after one minute of production. *)
Definition stocked_heap : option (loc * Heap) :=
  let '(p, h) := new_GameSim ∅ EVENT_CONFIG in
  r ← call (fun s => s' ← advance s 60000%Q; Some (tt, s')) h p;
  Some (p, r.2).

(** The score of the first upgrade of the default unit on that heap. *)
Definition stocked_score : option Q :=
  ph ← stocked_heap;
  r ← _score_upgrade ph.2 ph.1 "creature" "fiona" 1000%Q;
  r.1.

(** ** Configurations whose damage figures are not negative *)

(** Damage tables without negative entries, and damage bonuses of at least
    -1 (so that the damage multiplier is not negative). *)
Definition nonneg_damage (cfg : Config) : Prop :=
  Forall (fun c => Forall (fun v => (0 <= v)%Q) (c_damageByLevel c)) (cfg_creatures cfg)
  ∧ Forall (fun b => b_type b = "damage" -> Forall (fun v => (-1 <= v)%Q) (b_bonusByLevel b))
           (cfg_boosts cfg).

#[global] Instance nonneg_damage_dec cfg : Decision (nonneg_damage cfg).
Proof. unfold nonneg_damage. apply _. Defined.

(** ** Orders on states *)

(** The clock and the cumulative damage of [s'] are not behind those of
    [s]. *)
Definition not_behind (s s' : GameSim) : Prop :=
  (time_elapsed_ms s <= time_elapsed_ms s')%Q ∧ (total_damage s <= total_damage s')%Q.

(** Every level recorded in [s] is recorded, not lower, in [s'], and every
    unit unlocked in [s] is unlocked in [s']. *)
Definition levels_le (s s' : GameSim) : Prop :=
  (forall cid lv, creature_levels s !! cid = Some lv ->
     exists lv', creature_levels s' !! cid = Some lv' ∧ lv <= lv')
  ∧ (forall cid, creature_unlocked s !! cid = Some true ->
       creature_unlocked s' !! cid = Some true)
  ∧ (forall bid lv, boost_levels s !! bid = Some lv ->
       exists lv', boost_levels s' !! bid = Some lv' ∧ lv <= lv').

(** ** Damage per second *)

(** What one unit contributes to [get_dps]: its damage per tick divided by
    its effective spawn interval in seconds; nothing when it is not
    active. *)
Definition unit_dps (s : GameSim) (speed dmg_mult : Q) (c : Creature) : Q :=
  if is_active s c
  then (damage_per_tick s dmg_mult c / (effective_interval speed c / 1000))%Q
  else 0%Q.



(** Number of steps of the template of [cfg]. *)
Definition template_size (cfg : Config) : nat :=
  (sum_list (creature_steps <$> cfg_creatures cfg)
   + sum_list ((fun b => Z.to_nat (b_maxLevel b)) <$> cfg_boosts cfg))%nat.

(** ** Pointers into the position map *)

(** Every entry of the position map has a pointer, and the pointer is at
    most the number of positions of the entry. *)
Definition counts_bounded (pos_map : list (Key * list nat)) (counts : gmap Key nat) : Prop :=
  forall kp, kp ∈ pos_map -> exists c, counts !! kp.1 = Some c ∧ (c <= length kp.2)%nat.

(** Number of steps of the ordering that have not been consumed. *)
Definition remaining (pos_map : list (Key * list nat)) (counts : gmap Key nat) : nat :=
  sum_list ((fun kp => length kp.2 - default 0%nat (counts !! kp.1))%nat <$> pos_map).

(** ** Configurations whose costs are positive amounts *)

Definition positive_cost (cost : Cost) : Prop := map_Forall (fun _ amt => (0 < amt)%Q) cost.

Definition positive_costs (cfg : Config) : Prop :=
  Forall (fun c => from_option positive_cost True (c_unlockCost c)
                   ∧ Forall positive_cost (c_upgradeCosts c)) (cfg_creatures cfg)
  ∧ Forall (fun b => Forall positive_cost (b_costs b)) (cfg_boosts cfg).

#[global] Instance positive_cost_dec cost : Decision (positive_cost cost).
Proof. unfold positive_cost. apply _. Defined.

#[global] Instance positive_costs_dec cfg : Decision (positive_costs cfg).
Proof.
  unfold positive_costs. apply and_dec; [|apply _].
  apply Forall_dec. intros c. destruct (c_unlockCost c); simpl; apply _.
Defined.

(** ** What the annealer maintains *)

(** The float power of a positive base is positive. *)
Definition pow_positive `{PyMath} : Prop :=
  forall x e, (0 < x)%Q -> (0 < float_pow x e)%Q.

(** The current and the best ordering are permutations of the template,
    their recorded scores are their scores, the best score is at least the
    current one, and the temperature is positive. *)
Definition sa_ok (st : SAState) : Prop :=
  sa_current st ≡ₚ build_template
  ∧ simulate (sa_current st) = Some (sa_current_score st)
  ∧ sa_best st ≡ₚ build_template
  ∧ simulate (sa_best st) = Some (sa_best_score st)
  ∧ (sa_current_score st <= sa_best_score st)%Q
  ∧ (0 < sa_temp st)%Q.

(** ** [run_sa] ([evaluate.py]) *)


(** The state of the restart loop of [optimize]: no ordering yet and the
    score still 0, or a permutation of the template with its (positive)
    score. *)
Definition global_best_ok (global_best : option (list Step)) (global_best_score : Q) : Prop :=
  match global_best with
  | None => global_best_score = 0%Q
  | Some p => p ≡ₚ build_template ∧ simulate p = Some global_best_score
              ∧ (0 < global_best_score)%Q
  end.

(** ** The what-if score as a function of the state

    What the docstring of [_score_upgrade] describes: DPS gain times the
    remaining time in seconds divided by the total cost, computed on a
    state; no score ([Some None]) when the item is not purchasable or not
    affordable. *)
Definition score_of (s : GameSim) (kind uid : string) (time_remaining_ms : Q)
  : option (option Q) :=
  cost ← (if decide (kind = "creature") then get_creature_upgrade_cost s uid
          else get_boost_upgrade_cost s uid);
  match cost with
  | None => Some None
  | Some c =>
      if negb (can_afford s (Some c)) then Some None
      else
        current_dps ← get_dps s;
        r ← (if decide (kind = "creature") then upgrade_creature s uid
             else upgrade_boost s uid);
        dps2 ← get_dps r.2;
        time_s ← py_div time_remaining_ms 1000;
        x ← py_div ((dps2 - current_dps) * time_s) (total_cost_of c);
        Some (Some x)
  end.

(** The two pairs of dicts of the object at [p] that have the same type are
    different dicts. *)
Definition separate_dicts (h : Heap) (p : loc) : Prop :=
  match h !! p with
  | Some (CObj _ lr ll _ lp lb _ _) => lr ≠ lp ∧ ll ≠ lb
  | _ => False
  end.

(** ** The greedy baseline ([evaluate.py])

    [run_greedy] keeps one simulation object and, at every step of 30 s,
    scores every unit and then every boost with [_score_upgrade], buys the
    item with the highest score above -1 (the first one among equals) and
    advances. *)

(** [STEP_MS] of [evaluate.py]. *)
Definition evaluate_STEP_MS : Q := 30000%Q.

(** One of the two [for] loops over the items of a kind: [best_score] and
    the triple [(best_kind, best_uid, best_name)], which are set together. *)
Fixpoint greedy_scan (h : Heap) (sim : loc) (kind : string) (items : list (string * string))
         (time_rem : Q) (best_score : Q) (best : option Step)
  : option (Q * option Step * Heap) :=
  match items with
  | [] => Some (best_score, best, h)
  | (uid, name) :: rest =>
      '(s, h) ← _score_upgrade h sim kind uid time_rem;
      match s with
      | Some x =>
          if Qltb best_score x
          then greedy_scan h sim kind rest time_rem x (Some (kind, uid, name))
          else greedy_scan h sim kind rest time_rem best_score best
      | None => greedy_scan h sim kind rest time_rem best_score best
      end
  end.

(** [if best_kind == 'creature': ... elif best_kind == 'boost': ...]. *)
Definition greedy_purchase (h : Heap) (sim : loc) (log : list LogEntry) (best : option Step)
  : option (Heap * list LogEntry) :=
  match best with
  | None => Some (h, log)
  | Some (kind, uid, name) =>
      if decide (kind = "creature") then
        '(_, h) ← call (fun s => upgrade_creature s uid) h sim;
        s ← view h sim;
        lv ← creature_levels s !! uid;
        Some (h, log ++ [{| time_h := (time_elapsed_ms s / 3600000)%Q;
                            action := "Upgrade " +:+ name +:+ " → Lv" +:+ pretty lv |}])
      else if decide (kind = "boost") then
        '(_, h) ← call (fun s => upgrade_boost s uid) h sim;
        s ← view h sim;
        lv ← boost_levels s !! uid;
        Some (h, log ++ [{| time_h := (time_elapsed_ms s / 3600000)%Q;
                            action := "Buy " +:+ name +:+ " Lv" +:+ pretty lv |}])
      else Some (h, log)
  end.

(** The body of the [while] loop of [run_greedy]. *)
Definition greedy_tick (cfg : Config) (h : Heap) (sim : loc) (log : list LogEntry)
  : option (Heap * list LogEntry) :=
  s ← view h sim;
  let time_rem := (duration_ms s - time_elapsed_ms s)%Q in
  '(best_score, best, h) ←
    greedy_scan h sim "creature" ((fun c => (c_id c, c_name c)) <$> cfg_creatures cfg)
                time_rem (-1)%Q None;
  '(_, best, h) ←
    greedy_scan h sim "boost" ((fun b => (b_id b, b_name b)) <$> cfg_boosts cfg)
                time_rem best_score best;
  '(h, log) ← greedy_purchase h sim log best;
  '(_, h) ← call (fun s => s' ← advance s evaluate_STEP_MS; Some (tt, s')) h sim;
  Some (h, log).

Fixpoint run_greedy_loop (fuel : nat) (cfg : Config) (h : Heap) (sim : loc)
         (log : list LogEntry) : option (Heap * list LogEntry) :=
  s ← view h sim;
  if is_done s then Some (h, log)
  else
    match fuel with
    | O => None
    | S fuel' =>
        '(h, log) ← greedy_tick cfg h sim log;
        run_greedy_loop fuel' cfg h sim log
    end.

Definition greedy_max_ticks (cfg : Config) : nat :=
  Z.to_nat (Qceiling (cfg_duration cfg / evaluate_STEP_MS)).

(** [run_greedy()] for a configuration; the simulation object it returns is
    given as the state it holds. *)
Definition run_greedy_of (cfg : Config) : option (Q * list LogEntry * GameSim) :=
  let '(sim, h) := new_GameSim ∅ cfg in
  '(h, log) ← run_greedy_loop (greedy_max_ticks cfg) cfg h sim [];
  s ← view h sim;
  Some (total_damage s, log, s).

Definition run_greedy : option (Q * list LogEntry * GameSim) := run_greedy_of EVENT_CONFIG.

(** The items of a kind, as [(uid, name)] pairs, in configuration order. *)
Definition greedy_items (cfg : Config) (kind : string) : list (string * string) :=
  if decide (kind = "creature") then (fun c => (c_id c, c_name c)) <$> cfg_creatures cfg
  else (fun b => (b_id b, b_name b)) <$> cfg_boosts cfg.

(** What the two scans of one greedy step select in state [s]: nothing when
    no item scores above -1, and otherwise an item of the highest score. *)
Definition greedy_choice (cfg : Config) (s : GameSim) (time_rem : Q) (best : option Step)
  : Prop :=
  let scored kind uid x := score_of s kind uid time_rem = Some (Some x) in
  let listed kind uid :=
    (kind = "creature" ∧ uid ∈ _creature_order cfg) ∨ (kind = "boost" ∧ uid ∈ _boost_order cfg) in
  match best with
  | None => forall kind uid x, listed kind uid -> scored kind uid x -> (x <= -1)%Q
  | Some (kind, uid, name) =>
      listed kind uid
      ∧ exists x, scored kind uid x ∧ (-1 < x)%Q
          ∧ forall kind' uid' x', listed kind' uid' -> scored kind' uid' x' -> (x' <= x)%Q
  end.

(** * Properties *)

#[global] Arguments Qfloor : simpl never.
#[global] Arguments Qceiling : simpl never.
#[global] Arguments Qplus : simpl never.
#[global] Arguments Qminus : simpl never.
#[global] Arguments Qmult : simpl never.
#[global] Arguments Qdiv : simpl never.
#[global] Arguments Qinv : simpl never.
#[global] Arguments Qle_bool : simpl never.
#[global] Arguments Qeq_bool : simpl never.
#[global] Arguments inject_Z : simpl never.
#[global] Arguments py_index : simpl never.
#[global] Arguments int_trunc : simpl never.
#[global] Arguments can_afford : simpl never.
#[global] Arguments _spend : simpl never.

Lemma wf_EVENT_CONFIG : wf_config EVENT_CONFIG.
Proof. apply (bool_decide_unpack _). vm_compute. reflexivity. Qed.

Lemma no_free_cost_EVENT_CONFIG : no_free_cost EVENT_CONFIG.
Proof. apply (bool_decide_unpack _). vm_compute. reflexivity. Qed.

(** ** Python primitives *)

Lemma py_index_nonneg {A} (l : list A) (i : Z) :
  0 <= i -> py_index l i = l !! Z.to_nat i.
Proof.
  intros Hi. unfold py_index.
  destruct (Z.leb_spec 0 i); [done | lia].
Qed.

Lemma py_index_in_range {A} (l : list A) (i : Z) :
  0 <= i < Z.of_nat (length l) -> exists x, py_index l i = Some x ∧ x ∈ l.
Proof.
  intros Hi. rewrite py_index_nonneg by lia.
  destruct (lookup_lt_is_Some_2 l (Z.to_nat i)) as [x Hx]; [lia |].
  exists x. split; [done |]. by eapply list_elem_of_lookup_2.
Qed.

Lemma py_index_elem_of {A} (l : list A) (i : Z) (x : A) :
  py_index l i = Some x -> x ∈ l.
Proof.
  unfold py_index. intros Hx.
  destruct (0 <=? i); [by eapply list_elem_of_lookup_2 |].
  destruct (- Z.of_nat (length l) <=? i); [by eapply list_elem_of_lookup_2 | done].
Qed.

Lemma py_div_Some (a b : Q) :
  ~ (b == 0)%Q -> py_div a b = Some (a / b)%Q.
Proof.
  intros Hb. unfold py_div.
  destruct (Qeq_bool b 0) eqn:E; [|done].
  apply Qeq_bool_eq in E. contradiction.
Qed.

Lemma py_div_inv (a b q : Q) :
  py_div a b = Some q -> ~ (b == 0)%Q ∧ q = (a / b)%Q.
Proof.
  unfold py_div. destruct (Qeq_bool b 0) eqn:E; [done |].
  intros [= <-]. split; [|done].
  intros Hb. apply Qeq_eq_bool in Hb. congruence.
Qed.

(** On a non-negative float, [int] is the floor. *)
Lemma int_trunc_floor (q : Q) : (0 <= q)%Q -> int_trunc q = Qfloor q.
Proof.
  destruct q as [n d]. unfold Qle, int_trunc, Qfloor. simpl.
  intros Hn. apply Z.quot_div_nonneg; lia.
Qed.

Lemma Qfloor_nonneg (q : Q) : (0 <= q)%Q -> 0 <= Qfloor q.
Proof. intros Hq. change 0 with (Qfloor 0). by apply Qfloor_resp_le. Qed.

(** The floor of [p / d] splits [p] into whole multiples of [d] and a
    remainder in [[0, d)]. *)
Lemma floor_div_bounds (p d : Q) :
  (0 < d)%Q ->
  (0 <= p - inject_Z (Qfloor (p / d)) * d)%Q ∧ (p - inject_Z (Qfloor (p / d)) * d < d)%Q.
Proof.
  intros Hd.
  pose proof (Qfloor_le (p / d)) as Hlo.
  pose proof (Qlt_floor (p / d)) as Hhi.
  rewrite inject_Z_plus in Hhi.
  assert (Hp : (p == (p / d) * d)%Q) by (field; lra).
  set (k := inject_Z (Qfloor (p / d))) in *.
  set (x := (p / d)%Q) in *.
  split.
  - assert (k * d <= x * d)%Q by (apply Qmult_le_compat_r; lra). lra.
  - assert (x * d < (k + inject_Z 1) * d)%Q by (apply Qmult_lt_compat_r; lra).
    change (inject_Z 1) with 1%Q in *. lra.
Qed.

(** The floor is determined by such a split. *)
Lemma floor_div_unique (p d : Q) (k : Z) :
  (0 < d)%Q -> (0 <= p - inject_Z k * d)%Q -> (p - inject_Z k * d < d)%Q ->
  Qfloor (p / d) = k.
Proof.
  intros Hd Hlo Hhi.
  assert (Hp : (p == (p / d) * d)%Q) by (field; lra).
  set (x := (p / d)%Q) in *.
  assert (H1 : (inject_Z k <= x)%Q).
  { apply Qmult_le_r with d; [done | lra]. }
  assert (H2 : (x < inject_Z (k + 1))%Q).
  { rewrite inject_Z_plus. change (inject_Z 1) with 1%Q.
    apply Qmult_lt_r with d; [done | lra]. }
  apply Qfloor_resp_le in H1. rewrite Qfloor_Z in H1.
  assert (H3 : Qfloor x < k + 1).
  { rewrite Zlt_Qlt. eapply Qle_lt_trans; [apply Qfloor_le | exact H2]. }
  lia.
Qed.

(** ** Dicts built by a loop of insertions *)

Section FoldInsert.
Context {K A V : Type} `{Countable K} (k : A -> K) (v : A -> V).

Lemma foldl_insert_notin (l : list A) (m0 : gmap K V) (k0 : K) :
  k0 ∉ k <$> l -> foldl (fun m x => <[k x := v x]> m) m0 l !! k0 = m0 !! k0.
Proof.
  revert m0. induction l as [| x l IH]; intros m0 Hn; [done |].
  simpl in *. rewrite not_elem_of_cons in Hn. destruct Hn as [Hne Hn].
  rewrite IH by done. cbn beta. by rewrite lookup_insert_ne.
Qed.

Lemma foldl_insert_NoDup (l : list A) (m0 : gmap K V) (x : A) :
  NoDup (k <$> l) -> x ∈ l -> foldl (fun m x => <[k x := v x]> m) m0 l !! k x = Some (v x).
Proof.
  revert m0. induction l as [| y l IH]; intros m0 Hnd Hx.
  - by apply elem_of_nil in Hx.
  - simpl in *. apply NoDup_cons in Hnd as [Hy Hnd].
    apply elem_of_cons in Hx as [-> | Hx].
    + rewrite foldl_insert_notin by done. cbn beta. by rewrite lookup_insert_eq.
    + by apply IH.
Qed.

Lemma foldl_insert_Some (l : list A) (m0 : gmap K V) (k0 : K) (y : V) :
  foldl (fun m x => <[k x := v x]> m) m0 l !! k0 = Some y ->
  m0 !! k0 = Some y ∨ exists x, x ∈ l ∧ k x = k0 ∧ y = v x.
Proof.
  revert m0. induction l as [| x l IH]; intros m0 Hy; [by left |].
  simpl in Hy. apply IH in Hy as [Hy | (x' & Hx' & Hk & ->)].
  - cbn beta in Hy. destruct (decide (k x = k0)) as [<- | Hne].
    + rewrite lookup_insert_eq in Hy. injection Hy as <-.
      right. exists x. split; [apply elem_of_cons; by left | done].
    + rewrite lookup_insert_ne in Hy by done. by left.
  - right. exists x'. split; [apply elem_of_cons; by right | done].
Qed.

Lemma foldl_insert_is_Some (l : list A) (m0 : gmap K V) (k0 : K) :
  is_Some (m0 !! k0) ∨ k0 ∈ k <$> l -> is_Some (foldl (fun m x => <[k x := v x]> m) m0 l !! k0).
Proof.
  revert m0. induction l as [| x l IH]; intros m0 Hk; simpl in *.
  - destruct Hk as [Hk | Hk]; [done | by apply elem_of_nil in Hk].
  - apply IH. cbn beta. destruct (decide (k x = k0)) as [<- | Hne].
    + left. rewrite lookup_insert_eq. by eexists.
    + rewrite lookup_insert_ne by done.
      destruct Hk as [Hk | Hk]; [by left |].
      apply elem_of_cons in Hk as [Hk | Hk]; [congruence | by right].
Qed.
End FoldInsert.

Lemma creatures_lookup (cfg : Config) (c : Creature) :
  wf_config cfg -> c ∈ cfg_creatures cfg -> _creatures cfg !! c_id c = Some c.
Proof.
  intros (Hnd & _) Hc. unfold _creatures.
  apply (foldl_insert_NoDup c_id (fun c => c)); done.
Qed.

Lemma creatures_lookup_inv (cfg : Config) (cid : string) (c : Creature) :
  _creatures cfg !! cid = Some c -> c ∈ cfg_creatures cfg ∧ c_id c = cid.
Proof.
  intros Hc. unfold _creatures in Hc.
  apply (foldl_insert_Some c_id (fun c => c)) in Hc as [Hc | (x & Hx & Hk & ->)]; [done | done].
Qed.

Lemma boosts_lookup (cfg : Config) (b : Boost) :
  wf_config cfg -> b ∈ cfg_boosts cfg -> _boosts cfg !! b_id b = Some b.
Proof.
  intros (_ & Hnd & _) Hb. unfold _boosts.
  apply (foldl_insert_NoDup b_id (fun b => b)); done.
Qed.

Lemma boosts_lookup_inv (cfg : Config) (bid : string) (b : Boost) :
  _boosts cfg !! bid = Some b -> b ∈ cfg_boosts cfg ∧ b_id b = bid.
Proof.
  intros Hb. unfold _boosts in Hb.
  apply (foldl_insert_Some b_id (fun b => b)) in Hb as [Hb | (x & Hx & Hk & ->)]; [done | done].
Qed.

Lemma wf_config_creature (cfg : Config) (c : Creature) :
  wf_config cfg -> c ∈ cfg_creatures cfg -> wf_creature cfg c.
Proof. intros (_ & _ & Hc & _) Hin. by eapply Forall_forall in Hc. Qed.

Lemma wf_config_boost (cfg : Config) (b : Boost) :
  wf_config cfg -> b ∈ cfg_boosts cfg -> wf_boost cfg b.
Proof. intros (_ & _ & _ & Hb) Hin. by eapply Forall_forall in Hb. Qed.

(** ** The initial state *)

Lemma Inv_init (cfg : Config) : wf_config cfg -> Inv cfg (GameSim_init cfg).
Proof.
  intros Hwf. pose proof Hwf as (Hndc & Hndb & Hcs & Hbs).
  split; simpl.
  - done.
  - intros r Hr.
    destruct (foldl_insert_is_Some (fun r : string => r) (fun _ => 0%Q)
                (cfg_resources cfg) ∅ r) as [v Hv].
    { right. by rewrite list_fmap_id. }
    by exists v.
  - intros r v Hv.
    apply (foldl_insert_Some (fun r : string => r) (fun _ => 0%Q)) in Hv
      as [Hv | (x & _ & _ & ->)]; [done | lra].
  - intros c Hc.
    exists (if c_unlockedByDefault c then 1 else 0), (c_unlockedByDefault c), 0%Q.
    rewrite (foldl_insert_NoDup c_id (fun c => if c_unlockedByDefault c then 1 else 0)) by done.
    rewrite (foldl_insert_NoDup c_id c_unlockedByDefault) by done.
    rewrite (foldl_insert_NoDup c_id (fun _ => 0%Q)) by done.
    pose proof (wf_config_creature _ _ Hwf Hc) as (Hmax & _).
    repeat split; try done; destruct (c_unlockedByDefault c); try done; try lia; lra.
  - intros b Hb. exists 0.
    pose proof (wf_config_boost _ _ Hwf Hb) as (Hmax & _).
    split; [|lia].
    apply (foldl_insert_NoDup (fun bid : string => bid) (fun _ => 0)).
    + by rewrite list_fmap_id.
    + unfold _boost_order. by apply list_elem_of_fmap_2.
Qed.

(** ** Boost multipliers *)

(** The multipliers read only the configuration and the boost levels. *)
Lemma first_active_bonus_ext (s s' : GameSim) (sel : Boost -> bool) (order : list string) :
  config s' = config s -> boost_levels s' = boost_levels s ->
  first_active_bonus s' sel order = first_active_bonus s sel order.
Proof.
  intros Hc Hb. induction order as [| bid rest IH]; [done |].
  simpl. rewrite Hc, Hb, IH. done.
Qed.

Lemma get_production_bonus_ext (s s' : GameSim) (r : string) :
  config s' = config s -> boost_levels s' = boost_levels s ->
  get_production_bonus s' r = get_production_bonus s r.
Proof.
  intros Hc Hb. unfold get_production_bonus.
  by rewrite Hc, (first_active_bonus_ext s s') by done.
Qed.

Lemma get_speed_multiplier_ext (s s' : GameSim) :
  config s' = config s -> boost_levels s' = boost_levels s ->
  get_speed_multiplier s' = get_speed_multiplier s.
Proof.
  intros Hc Hb. unfold get_speed_multiplier.
  by rewrite Hc, (first_active_bonus_ext s s') by done.
Qed.

Lemma get_damage_multiplier_ext (s s' : GameSim) :
  config s' = config s -> boost_levels s' = boost_levels s ->
  get_damage_multiplier s' = get_damage_multiplier s.
Proof.
  intros Hc Hb. unfold get_damage_multiplier.
  by rewrite Hc, (first_active_bonus_ext s s') by done.
Qed.

(** In a well-formed state the walk over the boosts never raises, and a
    bonus it returns is an entry of the table of a selected boost. *)
Lemma first_active_bonus_total (cfg : Config) (s : GameSim) (sel : Boost -> bool)
      (order : list string) :
  wf_config cfg -> Inv cfg s -> order ⊆ _boost_order cfg ->
  exists r, first_active_bonus s sel order = Some r
    ∧ forall v, r = Some v ->
        exists b, b ∈ cfg_boosts cfg ∧ sel b = true ∧ v ∈ b_bonusByLevel b.
Proof.
  intros Hwf HI. induction order as [| bid rest IH]; intros Hsub.
  - exists None. split; [done | by intros v [=]].
  - assert (Hbid : bid ∈ _boost_order cfg) by (apply Hsub; apply elem_of_cons; by left).
    assert (Hrest : rest ⊆ _boost_order cfg).
    { intros x Hx. apply Hsub. apply elem_of_cons. by right. }
    specialize (IH Hrest).
    apply list_elem_of_fmap in Hbid as (b & -> & Hb).
    simpl. rewrite (inv_config _ _ HI), (boosts_lookup _ _ Hwf Hb). simpl.
    destruct (sel b) eqn:Hsel; [|done].
    destruct (inv_boost _ _ HI b Hb) as (lv & Hlv & Hrange).
    rewrite Hlv. simpl.
    destruct (Z.ltb_spec 0 lv) as [Hpos | Hnp]; [|done].
    pose proof (wf_config_boost _ _ Hwf Hb) as (_ & Hlen & _).
    destruct (py_index_in_range (b_bonusByLevel b) (lv - 1)) as (v & Hv & Hin); [lia |].
    rewrite Hv. simpl. exists (Some v). split; [done |].
    intros v' [= <-]. by exists b.
Qed.

Lemma get_speed_multiplier_pos (cfg : Config) (s : GameSim) :
  wf_config cfg -> Inv cfg s ->
  exists speed, get_speed_multiplier s = Some speed ∧ (0 < speed)%Q.
Proof.
  intros Hwf HI. unfold get_speed_multiplier.
  destruct (first_active_bonus_total cfg s is_speed (_boost_order (config s)) Hwf HI)
    as (r & Hr & Hspec).
  { by rewrite (inv_config _ _ HI). }
  rewrite Hr. simpl. destruct r as [v |].
  - exists (1 - v)%Q. split; [done |].
    destruct (Hspec v eq_refl) as (b & Hb & Hsel & Hin).
    pose proof (wf_config_boost _ _ Hwf Hb) as (_ & _ & _ & Hsp & _).
    unfold is_speed in Hsel. apply bool_decide_eq_true in Hsel.
    specialize (Hsp Hsel). eapply Forall_forall in Hsp; [|exact Hin]. simpl in Hsp. lra.
  - exists 1%Q. split; [done | lra].
Qed.

Lemma get_damage_multiplier_total (cfg : Config) (s : GameSim) :
  wf_config cfg -> Inv cfg s -> exists m, get_damage_multiplier s = Some m.
Proof.
  intros Hwf HI. unfold get_damage_multiplier.
  destruct (first_active_bonus_total cfg s is_damage (_boost_order (config s)) Hwf HI)
    as (r & Hr & _).
  { by rewrite (inv_config _ _ HI). }
  rewrite Hr. simpl. by eexists.
Qed.

Lemma get_production_bonus_nonneg (cfg : Config) (s : GameSim) (r : string) :
  wf_config cfg -> Inv cfg s ->
  exists bonus, get_production_bonus s r = Some bonus ∧ (0 <= bonus)%Q.
Proof.
  intros Hwf HI. unfold get_production_bonus.
  destruct (first_active_bonus_total cfg s (is_production_bonus r) (_boost_order (config s))
              Hwf HI) as (o & Ho & Hspec).
  { by rewrite (inv_config _ _ HI). }
  rewrite Ho. simpl. destruct o as [v |].
  - exists v. split; [done |].
    destruct (Hspec v eq_refl) as (b & Hb & Hsel & Hin).
    pose proof (wf_config_boost _ _ Hwf Hb) as (_ & _ & _ & _ & Hpb & _).
    unfold is_production_bonus in Hsel. apply andb_true_iff in Hsel as [Hty _].
    apply bool_decide_eq_true in Hty.
    specialize (Hpb Hty). eapply Forall_forall in Hpb; [|exact Hin]. done.
  - exists 0%Q. split; [done | lra].
Qed.

(** ** One unit in [advance] *)

Lemma Inv_active (cfg : Config) (s : GameSim) (c : Creature) :
  Inv cfg s -> c ∈ cfg_creatures cfg ->
  is_active s c = default false (creature_unlocked s !! c_id c).
Proof.
  intros HI Hc. destruct (inv_creature _ _ HI c Hc) as (lv & u & p & Hlv & Hu & _ & _ & H0 & H1 & _).
  unfold is_active. rewrite Hlv, Hu. simpl. destruct u; [|done].
  specialize (H1 eq_refl). destruct (Z.eqb_spec lv 0); [lia | done].
Qed.

Lemma advance_creature_inactive (cfg : Config) (s : GameSim) (c : Creature)
      (speed dmg_mult delta_ms : Q) :
  Inv cfg s -> c ∈ cfg_creatures cfg -> is_active s c = false ->
  advance_creature speed dmg_mult delta_ms s (c_id c) = Some s.
Proof.
  intros HI Hc Hact. rewrite (Inv_active cfg) in Hact by done.
  destruct (inv_creature _ _ HI c Hc) as (lv & u & p & Hlv & Hu & _).
  rewrite Hu in Hact. simpl in Hact. subst u.
  unfold advance_creature, inactive. rewrite Hu. done.
Qed.

(** The effect of one loop iteration on an active unit, with the tick count
    written as a floor. *)
Lemma advance_creature_active (cfg : Config) (s : GameSim) (c : Creature)
      (speed dmg_mult delta_ms : Q) :
  wf_config cfg -> Inv cfg s -> c ∈ cfg_creatures cfg ->
  (0 < speed)%Q -> (0 <= delta_ms)%Q -> is_active s c = true ->
  exists lv p pl dl bonus bal,
    creature_levels s !! c_id c = Some lv
    ∧ 1 <= lv
    ∧ creature_progress s !! c_id c = Some p
    ∧ py_index (c_productionByLevel c) (lv - 1) = Some pl
    ∧ py_index (c_damageByLevel c) (lv - 1) = Some dl
    ∧ get_production_bonus s (c_produces c) = Some bonus
    ∧ resources s !! c_produces c = Some bal
    ∧ (0 <= pl + bonus)%Q
    ∧ let interval := effective_interval speed c in
      let p1 := (p + delta_ms)%Q in
      let ticks := Qfloor (p1 / interval) in
      0 <= ticks
      ∧ (0 <= p1 - inject_Z ticks * interval)%Q
      ∧ advance_creature speed dmg_mult delta_ms s (c_id c) =
        Some (if ticks =? 0
              then set_creature_progress s (<[c_id c := p1]> (creature_progress s))
              else
                set_total_damage
                  (set_resources
                     (set_creature_progress s
                        (<[c_id c := (p1 - inject_Z ticks * interval)%Q]>
                           (<[c_id c := p1]> (creature_progress s))))
                     (<[c_produces c := (bal + (pl + bonus) * inject_Z ticks)%Q]> (resources s)))
                  (total_damage s + dl * dmg_mult * inject_Z ticks)%Q).
Proof.
  intros Hwf HI Hc Hsp Hd Hact.
  rewrite (Inv_active cfg) in Hact by done.
  destruct (inv_creature _ _ HI c Hc) as (lv & u & p & Hlv & Hu & Hp & Hmax & _ & H1 & Hp0).
  rewrite Hu in Hact. simpl in Hact. subst u. specialize (H1 eq_refl).
  pose proof (wf_config_creature _ _ Hwf Hc)
    as (_ & Hlp & Hld & _ & Hprod & Hspawn & Hpnn & _).
  destruct (py_index_in_range (c_productionByLevel c) (lv - 1)) as (pl & Hpl & Hplin); [lia |].
  destruct (py_index_in_range (c_damageByLevel c) (lv - 1)) as (dl & Hdl & _); [lia |].
  destruct (get_production_bonus_nonneg cfg s (c_produces c) Hwf HI) as (bonus & Hbonus & Hb0).
  destruct (inv_resources _ _ HI _ Hprod) as (bal & Hbal).
  eapply Forall_forall in Hpnn; [|exact Hplin]. simpl in Hpnn.
  exists lv, p, pl, dl, bonus, bal.
  repeat (split; [done || lra |]).
  assert (Hint : (0 < effective_interval speed c)%Q).
  { unfold effective_interval. apply Qmult_lt_0_compat; done. }
  assert (Hq : (0 <= (p + delta_ms) / effective_interval speed c)%Q).
  { apply Qle_shift_div_l; [done | lra]. }
  cbv zeta. split; [by apply Qfloor_nonneg |].
  split; [apply floor_div_bounds; done |].
  unfold advance_creature, inactive. rewrite Hu. simpl. rewrite Hlv. simpl.
  destruct (Z.eqb_spec lv 0) as [? | _]; [lia |].
  rewrite (inv_config _ _ HI), (creatures_lookup _ _ Hwf Hc). simpl.
  rewrite Hp. simpl.
  fold (effective_interval speed c).
  rewrite py_div_Some by lra. simpl.
  rewrite int_trunc_floor by done.
  destruct (Qfloor ((p + delta_ms) / effective_interval speed c) =? 0); [done |].
  rewrite Hpl. simpl.
  rewrite (get_production_bonus_ext s) by done. rewrite Hbonus. simpl.
  rewrite Hdl. simpl. rewrite Hbal. simpl. done.
Qed.

Lemma Inv_frame (cfg : Config) (s s' : GameSim) :
  Inv cfg s ->
  config s' = config s ->
  creature_levels s' = creature_levels s ->
  creature_unlocked s' = creature_unlocked s ->
  boost_levels s' = boost_levels s ->
  (forall c, c ∈ cfg_creatures cfg ->
     exists p, creature_progress s' !! c_id c = Some p ∧ (0 <= p)%Q) ->
  (forall r, r ∈ cfg_resources cfg -> exists v, resources s' !! r = Some v) ->
  map_Forall (fun _ v => (0 <= v)%Q) (resources s') ->
  Inv cfg s'.
Proof.
  intros HI Hc Hl Hu Hb Hp Hr Hbal. split.
  - rewrite Hc. apply HI.
  - done.
  - done.
  - intros c Hin. destruct (inv_creature _ _ HI c Hin) as (lv & u & p & ? & ? & ? & ? & ? & ? & ?).
    destruct (Hp c Hin) as (p' & Hp' & Hp0).
    exists lv, u, p'. rewrite Hl, Hu. done.
  - rewrite Hb. apply HI.
Qed.

Lemma option_Qeq_plus_0 (o : option Q) :
  option_Forall2 Qeq o ((fun v => (v + 0)%Q) <$> o).
Proof. destruct o as [v |]; constructor. lra. Qed.

(** One loop iteration, for an active or an inactive unit alike. *)
Lemma advance_creature_spec (cfg : Config) (s : GameSim) (c : Creature)
      (speed dmg_mult delta_ms : Q) :
  wf_config cfg -> Inv cfg s -> c ∈ cfg_creatures cfg ->
  (0 < speed)%Q -> (0 <= delta_ms)%Q ->
  exists s',
    advance_creature speed dmg_mult delta_ms s (c_id c) = Some s'
    ∧ Inv cfg s'
    ∧ creature_levels s' = creature_levels s
    ∧ creature_unlocked s' = creature_unlocked s
    ∧ boost_levels s' = boost_levels s
    ∧ time_elapsed_ms s' = time_elapsed_ms s
    ∧ (forall cid, cid ≠ c_id c -> creature_progress s' !! cid = creature_progress s !! cid)
    ∧ (is_active s c = false ->
         creature_progress s' !! c_id c = creature_progress s !! c_id c)
    ∧ (is_active s c = true ->
         exists p p', creature_progress s !! c_id c = Some p
           ∧ creature_progress s' !! c_id c = Some p'
           ∧ (p' == p + delta_ms
                    - inject_Z (ticks_of s speed delta_ms c) * effective_interval speed c)%Q)
    ∧ (forall r, option_Forall2 Qeq (resources s' !! r)
                   ((fun v => (v + resource_gain s speed delta_ms r c)%Q) <$> resources s !! r))
    ∧ (total_damage s' == total_damage s + damage_gain s speed dmg_mult delta_ms c)%Q.
Proof.
  intros Hwf HI Hc Hsp Hd.
  destruct (is_active s c) eqn:Hact.
  - destruct (advance_creature_active cfg s c speed dmg_mult delta_ms)
      as (lv & p & pl & dl & bonus & bal & Hlv & Hlv1 & Hp & Hpl & Hdl & Hbonus & Hbal
          & Hprod0 & Ht0 & Hp2 & Hrun); try done.
    cbv zeta in Ht0, Hp2, Hrun.
    assert (Hticks : ticks_of s speed delta_ms c
                     = Qfloor ((p + delta_ms) / effective_interval speed c)).
    { unfold ticks_of. by rewrite Hp. }
    assert (Hppt : production_per_tick s c = (pl + bonus)%Q).
    { unfold production_per_tick. rewrite Hlv. simpl. rewrite Hpl, Hbonus. done. }
    assert (Hdpt : damage_per_tick s dmg_mult c = (dl * dmg_mult)%Q).
    { unfold damage_per_tick. rewrite Hlv. simpl. rewrite Hdl. done. }
    unfold resource_gain, damage_gain. rewrite Hact, Hppt, Hdpt, Hticks. simpl.
    set (t := Qfloor ((p + delta_ms) / effective_interval speed c)) in *.
    eexists. split; [exact Hrun |].
    destruct (Z.eqb_spec t 0) as [Ht | Ht].
    + (* no tick: only the accumulator moves *)
      rewrite Ht. simpl.
      split.
      { eapply Inv_frame; try done; simpl.
        - intros c' Hc'. destruct (decide (c_id c' = c_id c)) as [-> | Hne].
          + rewrite lookup_insert_eq. eexists. split; [done |].
            destruct (inv_creature _ _ HI c Hc) as (? & ? & p0 & _ & _ & Hp0 & _ & _ & _ & Hp00).
            rewrite Hp in Hp0. injection Hp0 as <-. lra.
          + rewrite lookup_insert_ne by done.
            destruct (inv_creature _ _ HI c' Hc') as (? & ? & p0 & _ & _ & Hp0 & _ & _ & _ & Hp00).
            by exists p0.
        - apply HI.
        - apply HI. }
      repeat (split; [done |]).
      split. { intros cid Hne. by rewrite lookup_insert_ne. }
      split. { done. }
      split. { intros _. exists p, (p + delta_ms)%Q. rewrite lookup_insert_eq.
               split; [done |]. split; [done |]. change (inject_Z 0) with 0%Q. lra. }
      split.
      { intros r. destruct (resources s !! r) as [v |]; constructor.
        change (inject_Z 0) with 0%Q. case_bool_decide; lra. }
      change (inject_Z 0) with 0%Q. lra.
    + (* at least one tick *)
      simpl. split.
      { eapply Inv_frame; try done; simpl.
        - intros c' Hc'. destruct (decide (c_id c' = c_id c)) as [-> | Hne].
          + rewrite lookup_insert_eq. eexists. split; [done | exact Hp2].
          + rewrite !lookup_insert_ne by done.
            destruct (inv_creature _ _ HI c' Hc') as (? & ? & p0 & _ & _ & Hp0 & _ & _ & _ & Hp00).
            by exists p0.
        - intros r Hr. destruct (decide (c_produces c = r)) as [<- | Hne].
          + rewrite lookup_insert_eq. by eexists.
          + rewrite lookup_insert_ne by done. by apply HI.
        - apply map_Forall_insert_2; [|apply HI].
          pose proof (inv_balance _ _ HI _ _ Hbal) as Hb0. simpl in Hb0.
          assert (0 <= inject_Z t)%Q by (change 0%Q with (inject_Z 0); rewrite <- Zle_Qle; lia).
          assert (0 <= (pl + bonus) * inject_Z t)%Q by (apply Qmult_le_0_compat; done).
          lra. }
      repeat (split; [done |]).
      split. { intros cid Hne. by rewrite !lookup_insert_ne. }
      split. { done. }
      split. { intros _. eexists p, _. rewrite lookup_insert_eq. split; [done |].
               split; [done |]. lra. }
      split.
      { intros r. case_bool_decide as Hr.
        - subst r. rewrite lookup_insert_eq, Hbal. constructor. lra.
        - rewrite lookup_insert_ne by done. apply option_Qeq_plus_0. }
      lra.
  - rewrite (advance_creature_inactive cfg) by done.
    exists s. split; [done |]. split; [done |].
    repeat (split; [done |]).
    split. { intros r. unfold resource_gain. rewrite Hact. simpl. apply option_Qeq_plus_0. }
    unfold damage_gain. rewrite Hact. lra.
Qed.

(** ** The loop of [advance] *)

Lemma Qsum_cons (x : Q) (l : list Q) : Qsum (x :: l) = (x + Qsum l)%Q.
Proof. reflexivity. Qed.

(** The per-unit quantities read the unit's own accumulator, the levels, the
    unlock flags, the boost levels and the configuration, nothing else. *)
Lemma gains_frame (s s1 : GameSim) (speed dmg_mult delta_ms : Q) (c : Creature) :
  config s1 = config s ->
  creature_levels s1 = creature_levels s ->
  creature_unlocked s1 = creature_unlocked s ->
  boost_levels s1 = boost_levels s ->
  creature_progress s1 !! c_id c = creature_progress s !! c_id c ->
  is_active s1 c = is_active s c
  ∧ ticks_of s1 speed delta_ms c = ticks_of s speed delta_ms c
  ∧ (forall r, resource_gain s1 speed delta_ms r c = resource_gain s speed delta_ms r c)
  ∧ damage_gain s1 speed dmg_mult delta_ms c = damage_gain s speed dmg_mult delta_ms c.
Proof.
  intros Hc Hl Hu Hb Hp.
  assert (Ha : is_active s1 c = is_active s c) by (unfold is_active; by rewrite Hl, Hu).
  assert (Ht : ticks_of s1 speed delta_ms c = ticks_of s speed delta_ms c)
    by (unfold ticks_of; by rewrite Hp).
  split; [done |]. split; [done |]. split.
  - intros r. unfold resource_gain, production_per_tick.
    by rewrite Ha, Ht, Hl, (get_production_bonus_ext s s1) by done.
  - unfold damage_gain, damage_per_tick. by rewrite Ha, Ht, Hl.
Qed.

Lemma option_Qeq_plus_trans (o0 o1 o2 : option Q) (x y z : Q) :
  (z == x + y)%Q ->
  option_Forall2 Qeq o1 ((fun v => (v + x)%Q) <$> o0) ->
  option_Forall2 Qeq o2 ((fun v => (v + y)%Q) <$> o1) ->
  option_Forall2 Qeq o2 ((fun v => (v + z)%Q) <$> o0).
Proof.
  intros Hz H01 H12.
  destruct o0 as [v0 |]; simpl in *; inversion H01; subst; simpl in *;
    inversion H12; subst; constructor.
  lra.
Qed.

Lemma advance_loop_spec (cfg : Config) (cs : list Creature) (s : GameSim)
      (speed dmg_mult delta_ms : Q) :
  wf_config cfg -> Inv cfg s -> cs ⊆ cfg_creatures cfg -> NoDup (c_id <$> cs) ->
  (0 < speed)%Q -> (0 <= delta_ms)%Q ->
  exists s',
    advance_loop speed dmg_mult delta_ms s (c_id <$> cs) = Some s'
    ∧ Inv cfg s'
    ∧ creature_levels s' = creature_levels s
    ∧ creature_unlocked s' = creature_unlocked s
    ∧ boost_levels s' = boost_levels s
    ∧ time_elapsed_ms s' = time_elapsed_ms s
    ∧ (forall cid, cid ∉ c_id <$> cs -> creature_progress s' !! cid = creature_progress s !! cid)
    ∧ (forall c, c ∈ cs -> is_active s c = false ->
         creature_progress s' !! c_id c = creature_progress s !! c_id c)
    ∧ (forall c, c ∈ cs -> is_active s c = true ->
         exists p p', creature_progress s !! c_id c = Some p
           ∧ creature_progress s' !! c_id c = Some p'
           ∧ (p' == p + delta_ms
                    - inject_Z (ticks_of s speed delta_ms c) * effective_interval speed c)%Q)
    ∧ (forall r, option_Forall2 Qeq (resources s' !! r)
         ((fun v => (v + Qsum (resource_gain s speed delta_ms r <$> cs))%Q) <$> resources s !! r))
    ∧ (total_damage s' ==
       total_damage s + Qsum (damage_gain s speed dmg_mult delta_ms <$> cs))%Q.
Proof.
  intros Hwf HI Hsub Hnd Hsp Hd. revert s HI.
  induction cs as [| c cs IH]; intros s HI.
  - exists s. simpl. repeat (split; [done |]).
    split. { intros c Hc. by apply elem_of_nil in Hc. }
    split. { intros r. apply option_Qeq_plus_0. }
    lra.
  - assert (Hc : c ∈ cfg_creatures cfg) by (apply Hsub, elem_of_cons; by left).
    assert (Hsub' : cs ⊆ cfg_creatures cfg).
    { intros x Hx. apply Hsub, elem_of_cons. by right. }
    simpl in Hnd. apply NoDup_cons in Hnd as [Hnotin Hnd].
    destruct (advance_creature_spec cfg s c speed dmg_mult delta_ms Hwf HI Hc Hsp Hd)
      as (s1 & Hrun1 & HI1 & Hl1 & Hu1 & Hb1 & Ht1 & Hpo1 & Hpin1 & Hpa1 & Hr1 & Hd1).
    destruct (IH Hsub' Hnd s1 HI1)
      as (s' & Hrun & HI' & Hl & Hu & Hb & Ht & Hpo & Hpin & Hpa & Hr & Hdm).
    assert (Hcfg : config s1 = config s).
    { by rewrite (inv_config _ _ HI), (inv_config _ _ HI1). }
    assert (Hframe : forall c', c' ∈ cs ->
              is_active s1 c' = is_active s c'
              ∧ ticks_of s1 speed delta_ms c' = ticks_of s speed delta_ms c'
              ∧ (forall r, resource_gain s1 speed delta_ms r c' = resource_gain s speed delta_ms r c')
              ∧ damage_gain s1 speed dmg_mult delta_ms c' = damage_gain s speed dmg_mult delta_ms c').
    { intros c' Hc'. apply gains_frame; try done.
      apply Hpo1. intros Heq. apply Hnotin. rewrite <- Heq. by apply list_elem_of_fmap_2. }
    assert (Hgo : advance_loop speed dmg_mult delta_ms s (c_id <$> c :: cs) = Some s').
    { simpl. rewrite Hrun1. done. }
    exists s'. split; [exact Hgo |]. split; [done |].
    split; [congruence |]. split; [congruence |]. split; [congruence |]. split; [congruence |].
    split.
    { intros cid Hcid. rewrite fmap_cons in Hcid. apply not_elem_of_cons in Hcid as [Hne Hcid].
      rewrite Hpo by done. by apply Hpo1. }
    split.
    { intros c' Hc' Hact. apply elem_of_cons in Hc' as [-> | Hc'].
      - rewrite Hpo by done. by apply Hpin1.
      - destruct (Hframe c' Hc') as (Ha & _). rewrite Hpin by congruence.
        apply Hpo1. intros Heq. apply Hnotin. rewrite <- Heq. by apply list_elem_of_fmap_2. }
    split.
    { intros c' Hc' Hact. apply elem_of_cons in Hc' as [-> | Hc'].
      - destruct (Hpa1 Hact) as (p & p' & Hp & Hp' & Heq).
        exists p, p'. rewrite Hpo by done. done.
      - destruct (Hframe c' Hc') as (Ha & Hti & _).
        destruct (Hpa c' Hc') as (p & p' & Hp & Hp' & Heq); [congruence |].
        exists p, p'. rewrite <- Hti. split; [|done].
        rewrite <- Hp. symmetry. apply Hpo1.
        intros Heq'. apply Hnotin. rewrite <- Heq'. by apply list_elem_of_fmap_2. }
    split.
    { intros r.
      assert (Hs : resource_gain s1 speed delta_ms r <$> cs
                   = resource_gain s speed delta_ms r <$> cs).
      { apply list_fmap_ext. intros ? c' Hc'. apply Hframe. by eapply list_elem_of_lookup_2. }
      eapply option_Qeq_plus_trans; [| apply Hr1 | apply Hr].
      rewrite Hs, fmap_cons, Qsum_cons. reflexivity. }
    rewrite Hdm, Hd1.
    assert (Hs : damage_gain s1 speed dmg_mult delta_ms <$> cs
                 = damage_gain s speed dmg_mult delta_ms <$> cs).
    { apply list_fmap_ext. intros ? c' Hc'. apply Hframe. by eapply list_elem_of_lookup_2. }
    rewrite Hs, fmap_cons, Qsum_cons. lra.
Qed.

(** ** [advance] as a whole *)

Lemma advance_closed_form (cfg : Config) (s : GameSim) (delta_ms : Q) :
  wf_config cfg -> Inv cfg s -> (0 <= delta_ms)%Q ->
  exists s' speed dmg_mult,
    get_speed_multiplier s = Some speed
    ∧ (0 < speed)%Q
    ∧ get_damage_multiplier s = Some dmg_mult
    ∧ advance s delta_ms = Some s'
    ∧ Inv cfg s'
    ∧ time_elapsed_ms s' = (time_elapsed_ms s + delta_ms)%Q
    ∧ creature_levels s' = creature_levels s
    ∧ creature_unlocked s' = creature_unlocked s
    ∧ boost_levels s' = boost_levels s
    ∧ (forall c, c ∈ cfg_creatures cfg -> is_active s c = false ->
         creature_progress s' !! c_id c = creature_progress s !! c_id c)
    ∧ (forall c, c ∈ cfg_creatures cfg -> is_active s c = true ->
         exists p p', creature_progress s !! c_id c = Some p
           ∧ creature_progress s' !! c_id c = Some p'
           ∧ (p' == p + delta_ms
                    - inject_Z (ticks_of s speed delta_ms c) * effective_interval speed c)%Q)
    ∧ (forall r, option_Forall2 Qeq (resources s' !! r)
         ((fun v => (v + Qsum (resource_gain s speed delta_ms r <$> cfg_creatures cfg))%Q)
            <$> resources s !! r))
    ∧ (total_damage s' ==
       total_damage s + Qsum (damage_gain s speed dmg_mult delta_ms <$> cfg_creatures cfg))%Q.
Proof.
  intros Hwf HI Hd.
  destruct (get_speed_multiplier_pos cfg s Hwf HI) as (speed & Hspeed & Hsp).
  destruct (get_damage_multiplier_total cfg s Hwf HI) as (dmg_mult & Hdm).
  destruct (advance_loop_spec cfg (cfg_creatures cfg) s speed dmg_mult delta_ms)
    as (s1 & Hrun & HI1 & Hl & Hu & Hb & Ht & _ & Hpin & Hpa & Hr & Hdmg);
    try done.
  { apply Hwf. }
  exists (set_time_elapsed_ms s1 (time_elapsed_ms s1 + delta_ms)%Q), speed, dmg_mult.
  repeat (split; [done |]).
  split.
  { unfold advance. rewrite Hspeed, Hdm. simpl.
    rewrite (inv_config _ _ HI). fold (_creature_order cfg).
    unfold _creature_order. rewrite Hrun. done. }
  split.
  { eapply Inv_frame; [exact HI1 | done .. | | apply HI1 | apply HI1].
    intros c Hc. destruct (inv_creature _ _ HI1 c Hc) as (? & ? & p & _ & _ & Hp & _ & _ & _ & Hp0).
    by exists p. }
  simpl. split; [by rewrite Ht |]. done.
Qed.



(** ** Affordability and spending *)

Lemma can_afford_true (s : GameSim) (cost : Cost) :
  can_afford s (Some cost) = true <->
  forall r amt, cost !! r = Some amt -> (amt <= default 0 (resources s !! r))%Q.
Proof.
  unfold can_afford. rewrite bool_decide_eq_true. unfold map_Forall.
  split; intros Hc r amt Hr; specialize (Hc r amt Hr); by apply Qle_bool_iff.
Qed.

Lemma _spend_spec (res : gmap string Q) (cost : Cost) :
  dom cost ⊆ dom res ->
  exists res', _spend res cost = Some res' ∧ debited res res' cost.
Proof.
  unfold _spend, debited.
  apply (map_fold_weak_ind
           (fun acc (m : Cost) =>
              dom m ⊆ dom res ->
              exists res', acc = Some res'
                ∧ forall r, res' !! r = match m !! r with
                                        | Some amt => (fun bal => (bal - amt)%Q) <$> res !! r
                                        | None => res !! r
                                        end)).
  - intros _. exists res. split; [done |]. intros r. by rewrite lookup_empty.
  - intros i x m acc Hi IH Hdom.
    rewrite dom_insert in Hdom.
    destruct IH as (res' & -> & Hres'); [set_solver |].
    assert (Hin : i ∈ dom res) by set_solver.
    apply elem_of_dom in Hin as [bal Hbal].
    simpl. rewrite Hres', Hi, Hbal. simpl.
    eexists. split; [done |].
    intros r. destruct (decide (i = r)) as [<- | Hne].
    + rewrite !lookup_insert_eq, Hbal. done.
    + rewrite !lookup_insert_ne by done. apply Hres'.
Qed.

Lemma debited_dom (res res' : gmap string Q) (cost : Cost) :
  debited res res' cost -> dom res' = dom res.
Proof.
  intros Hd. apply set_eq. intros r. rewrite !elem_of_dom, Hd.
  destruct (cost !! r); [|done]. by rewrite fmap_is_Some.
Qed.

(** After an affordable cost is spent no balance of a map without negative
    balances is negative. *)
Lemma debited_nonneg (s : GameSim) (res' : gmap string Q) (cost : Cost) :
  can_afford s (Some cost) = true ->
  map_Forall (fun _ v => (0 <= v)%Q) (resources s) ->
  debited (resources s) res' cost ->
  map_Forall (fun _ v => (0 <= v)%Q) res'.
Proof.
  intros Hca Hnn Hd r v Hv. rewrite Hd in Hv.
  destruct (cost !! r) as [amt |] eqn:Hr.
  - destruct (resources s !! r) as [bal |] eqn:Hbal; [|done].
    injection Hv as <-.
    pose proof (proj1 (can_afford_true s cost) Hca r amt Hr) as Hle.
    rewrite Hbal in Hle. simpl in Hle. lra.
  - by apply (Hnn r).
Qed.

(** ** The two upgrade operations *)

Lemma upgrade_creature_spec (s : GameSim) (cid : string) (cost : option Cost) :
  get_creature_upgrade_cost s cid = Some cost ->
  from_option (fun c => dom c ⊆ dom (resources s)) True cost ->
  if can_afford s cost then
    exists c s',
      cost = Some c
      ∧ upgrade_creature s cid = Some (true, s')
      ∧ debited (resources s) (resources s') c
      ∧ same_clock s s'
      ∧ boost_levels s' = boost_levels s
      ∧ match creature_unlocked s !! cid with
        | Some false =>
            creature_unlocked s' = <[cid := true]> (creature_unlocked s)
            ∧ creature_levels s' = <[cid := 1]> (creature_levels s)
        | Some true =>
            exists lv, creature_levels s !! cid = Some lv
              ∧ creature_levels s' = <[cid := lv + 1]> (creature_levels s)
              ∧ creature_unlocked s' = creature_unlocked s
        | None => False
        end
  else upgrade_creature s cid = Some (false, s).
Proof.
  intros Hcost Hdom. unfold upgrade_creature. rewrite Hcost. simpl.
  destruct cost as [c |]; [|done].
  destruct (can_afford s (Some c)) eqn:Hca; simpl; [|done].
  simpl in *. destruct (_spend_spec (resources s) c Hdom) as (res' & Hsp & Hdeb).
  rewrite Hsp. simpl.
  unfold get_creature_upgrade_cost in Hcost.
  destruct (_creatures (config s) !! cid) as [cr |]; [|done]. simpl in Hcost.
  destruct (creature_unlocked s !! cid) as [[|] |] eqn:Hu; [| |done]; simpl in *.
  - destruct (creature_levels s !! cid) as [lv |] eqn:Hlv; [|done]. simpl.
    eexists c, _. split; [done |]. split; [done |]. simpl.
    split; [done |]. split; [done |]. split; [done |]. by exists lv.
  - eexists c, _. split; [done |]. split; [done |]. simpl. done.
Qed.

Lemma upgrade_boost_spec (s : GameSim) (bid : string) (cost : option Cost) :
  get_boost_upgrade_cost s bid = Some cost ->
  from_option (fun c => dom c ⊆ dom (resources s)) True cost ->
  if can_afford s cost then
    exists c s' lv,
      cost = Some c
      ∧ upgrade_boost s bid = Some (true, s')
      ∧ debited (resources s) (resources s') c
      ∧ same_clock s s'
      ∧ creature_levels s' = creature_levels s
      ∧ creature_unlocked s' = creature_unlocked s
      ∧ boost_levels s !! bid = Some lv
      ∧ boost_levels s' = <[bid := lv + 1]> (boost_levels s)
  else upgrade_boost s bid = Some (false, s).
Proof.
  intros Hcost Hdom. unfold upgrade_boost. rewrite Hcost. simpl.
  destruct cost as [c |]; [|done].
  destruct (can_afford s (Some c)) eqn:Hca; simpl; [|done].
  simpl in *. destruct (_spend_spec (resources s) c Hdom) as (res' & Hsp & Hdeb).
  rewrite Hsp. simpl.
  unfold get_boost_upgrade_cost in Hcost.
  destruct (_boosts (config s) !! bid) as [b |]; [|done]. simpl in Hcost.
  destruct (boost_levels s !! bid) as [lv |] eqn:Hlv; [|done]. simpl.
  eexists c, _, lv. split; [done |]. split; [done |]. simpl. done.
Qed.

(** C2. For every state and id for which the cost lookup returns normally:
    when the cost is "no cost" or is not affordable, [upgrade_creature] /
    [upgrade_boost] returns [False] and the state is the same; otherwise
    (the cost naming only resources the state holds) it returns [True], every
    amount of the cost is subtracted from its resource and no other balance
    changes, a locked unit becomes unlocked at level 1, an unlocked unit
    gains one level, a boost gains one level, and nothing else changes. *)
Theorem C2_upgrade_fails_silently_or_debits (s : GameSim) (uid : string) :
  (forall cost,
     get_creature_upgrade_cost s uid = Some cost ->
     from_option (fun c => dom c ⊆ dom (resources s)) True cost ->
     if can_afford s cost then
       exists c s',
         cost = Some c
         ∧ upgrade_creature s uid = Some (true, s')
         ∧ debited (resources s) (resources s') c
         ∧ same_clock s s'
         ∧ boost_levels s' = boost_levels s
         ∧ match creature_unlocked s !! uid with
           | Some false =>
               creature_unlocked s' = <[uid := true]> (creature_unlocked s)
               ∧ creature_levels s' = <[uid := 1]> (creature_levels s)
           | Some true =>
               exists lv, creature_levels s !! uid = Some lv
                 ∧ creature_levels s' = <[uid := lv + 1]> (creature_levels s)
                 ∧ creature_unlocked s' = creature_unlocked s
           | None => False
           end
     else upgrade_creature s uid = Some (false, s))
  ∧ (forall cost,
       get_boost_upgrade_cost s uid = Some cost ->
       from_option (fun c => dom c ⊆ dom (resources s)) True cost ->
       if can_afford s cost then
         exists c s' lv,
           cost = Some c
           ∧ upgrade_boost s uid = Some (true, s')
           ∧ debited (resources s) (resources s') c
           ∧ same_clock s s'
           ∧ creature_levels s' = creature_levels s
           ∧ creature_unlocked s' = creature_unlocked s
           ∧ boost_levels s !! uid = Some lv
           ∧ boost_levels s' = <[uid := lv + 1]> (boost_levels s)
       else upgrade_boost s uid = Some (false, s)).
Proof.
  split; intros cost Hcost Hdom.
  - by apply upgrade_creature_spec.
  - by apply upgrade_boost_spec.
Qed.

Lemma C2_witness :
  (exists s', upgrade_creature seven_sapphires "fiona" = Some (true, s')
     ∧ debited (resources seven_sapphires) (resources s') (cost1 "sapphires" 5%Q)
     ∧ creature_levels s' = <["fiona" := 1 + 1]> (creature_levels seven_sapphires))
  ∧ upgrade_creature seven_sapphires "jingles" = Some (false, seven_sapphires)
  ∧ upgrade_boost seven_sapphires "champion-speed" = Some (false, seven_sapphires).
Proof.
  split; [| split].
  - destruct (C2_upgrade_fails_silently_or_debits seven_sapphires "fiona") as [Hc _].
    specialize (Hc (Some (cost1 "sapphires" 5%Q))).
    assert (Hca : can_afford seven_sapphires (Some (cost1 "sapphires" 5%Q)) = true)
      by (vm_compute; reflexivity).
    rewrite Hca in Hc.
    destruct Hc as (c & s' & Hcost & Hup & Hdeb & _ & _ & Hlv).
    + vm_compute. reflexivity.
    + cbn [from_option]. apply (bool_decide_unpack _). vm_compute. reflexivity.
    + injection Hcost as <-.
      assert (Hu : creature_unlocked seven_sapphires !! "fiona" = Some true)
        by (vm_compute; reflexivity).
      rewrite Hu in Hlv. destruct Hlv as (lv & Hl & Hl' & _).
      assert (Hl1 : creature_levels seven_sapphires !! "fiona" = Some 1)
        by (vm_compute; reflexivity).
      rewrite Hl1 in Hl. injection Hl as <-.
      exists s'. split; [exact Hup |]. split; [exact Hdeb | exact Hl'].
  - destruct (C2_upgrade_fails_silently_or_debits seven_sapphires "jingles") as [Hc _].
    specialize (Hc (Some (cost1 "sapphires" 250%Q))).
    assert (Hca : can_afford seven_sapphires (Some (cost1 "sapphires" 250%Q)) = false)
      by (vm_compute; reflexivity).
    rewrite Hca in Hc. apply Hc.
    + vm_compute. reflexivity.
    + cbn [from_option]. apply (bool_decide_unpack _). vm_compute. reflexivity.
  - destruct (C2_upgrade_fails_silently_or_debits seven_sapphires "champion-speed") as [_ Hb].
    specialize (Hb (Some (cost1 "sapphires" 10000%Q))).
    assert (Hca : can_afford seven_sapphires (Some (cost1 "sapphires" 10000%Q)) = false)
      by (vm_compute; reflexivity).
    rewrite Hca in Hb. apply Hb.
    + vm_compute. reflexivity.
    + cbn [from_option]. apply (bool_decide_unpack _). vm_compute. reflexivity.
Defined.

(** ** Costs come from the configuration *)

Lemma get_creature_upgrade_cost_inv (s : GameSim) (cid : string) (c : Cost) :
  get_creature_upgrade_cost s cid = Some (Some c) ->
  exists cr (u : bool),
    _creatures (config s) !! cid = Some cr
    ∧ creature_unlocked s !! cid = Some u
    ∧ if u then
        exists lv, creature_levels s !! cid = Some lv
          ∧ lv < c_maxLevel cr ∧ c ∈ c_upgradeCosts cr
      else c_unlockCost cr = Some c.
Proof.
  unfold get_creature_upgrade_cost. intros H.
  destruct (_creatures (config s) !! cid) as [cr |]; [|done]. simpl in H.
  destruct (creature_unlocked s !! cid) as [u |]; [|done]. simpl in H.
  exists cr, u. split; [done |]. split; [done |].
  destruct u; simpl in H.
  - destruct (creature_levels s !! cid) as [lv |]; [|done]. simpl in H.
    destruct (Z.leb_spec (c_maxLevel cr) lv); [done |].
    destruct (py_index (c_upgradeCosts cr) (lv - 1)) as [k |] eqn:Hk; [|done].
    simpl in H. injection H as ->.
    exists lv. split; [done |]. split; [lia |]. by eapply py_index_elem_of.
  - by injection H.
Qed.

Lemma get_boost_upgrade_cost_inv (s : GameSim) (bid : string) (c : Cost) :
  get_boost_upgrade_cost s bid = Some (Some c) ->
  exists b lv,
    _boosts (config s) !! bid = Some b
    ∧ boost_levels s !! bid = Some lv
    ∧ lv < b_maxLevel b ∧ c ∈ b_costs b.
Proof.
  unfold get_boost_upgrade_cost. intros H.
  destruct (_boosts (config s) !! bid) as [b |]; [|done]. simpl in H.
  destruct (boost_levels s !! bid) as [lv |]; [|done]. simpl in H.
  destruct (Z.leb_spec (b_maxLevel b) lv); [done |].
  destruct (py_index (b_costs b) lv) as [k |] eqn:Hk; [|done].
  simpl in H. injection H as ->.
  exists b, lv. split; [done |]. split; [done |]. split; [lia |]. by eapply py_index_elem_of.
Qed.

Lemma Inv_resources_dom (cfg : Config) (s : GameSim) (c : Cost) :
  Inv cfg s -> wf_cost cfg c -> dom c ⊆ dom (resources s).
Proof.
  intros HI Hwf r Hr. apply Hwf in Hr. unfold resource_ids in Hr.
  apply elem_of_list_to_set in Hr.
  destruct (inv_resources _ _ HI r Hr) as [v Hv]. apply elem_of_dom. by exists v.
Qed.

Lemma creature_cost_wf (cfg : Config) (s : GameSim) (cid : string) (cost : option Cost) :
  wf_config cfg -> Inv cfg s ->
  get_creature_upgrade_cost s cid = Some cost ->
  from_option (fun c => dom c ⊆ dom (resources s)) True cost.
Proof.
  intros Hwf HI Hcost. destruct cost as [c |]; [|done]. simpl.
  apply (Inv_resources_dom cfg); [done |].
  apply get_creature_upgrade_cost_inv in Hcost as (cr & u & Hcr & _ & Hu).
  rewrite (inv_config _ _ HI) in Hcr. apply creatures_lookup_inv in Hcr as [Hcr _].
  pose proof (wf_config_creature _ _ Hwf Hcr) as (_ & _ & _ & _ & _ & _ & _ & Hun & Hup).
  destruct u.
  - destruct Hu as (lv & _ & _ & Hin). by eapply Forall_forall in Hup.
  - rewrite Hu in Hun. done.
Qed.

Lemma boost_cost_wf (cfg : Config) (s : GameSim) (bid : string) (cost : option Cost) :
  wf_config cfg -> Inv cfg s ->
  get_boost_upgrade_cost s bid = Some cost ->
  from_option (fun c => dom c ⊆ dom (resources s)) True cost.
Proof.
  intros Hwf HI Hcost. destruct cost as [c |]; [|done]. simpl.
  apply (Inv_resources_dom cfg); [done |].
  apply get_boost_upgrade_cost_inv in Hcost as (b & lv & Hb & _ & _ & Hin).
  rewrite (inv_config _ _ HI) in Hb. apply boosts_lookup_inv in Hb as [Hb _].
  pose proof (wf_config_boost _ _ Hwf Hb) as (_ & _ & _ & _ & _ & Hcs).
  by eapply Forall_forall in Hcs.
Qed.

(** In a well-formed state the cost lookups of the configured ids return. *)
Lemma get_creature_upgrade_cost_total (cfg : Config) (s : GameSim) (c : Creature) :
  wf_config cfg -> Inv cfg s -> c ∈ cfg_creatures cfg ->
  exists cost, get_creature_upgrade_cost s (c_id c) = Some cost.
Proof.
  intros Hwf HI Hc. unfold get_creature_upgrade_cost.
  rewrite (inv_config _ _ HI), (creatures_lookup _ _ Hwf Hc). simpl.
  destruct (inv_creature _ _ HI c Hc) as (lv & u & p & Hlv & Hu & _ & Hmax & _ & H1 & _).
  rewrite Hu. simpl. destruct u; simpl; [|by eexists].
  rewrite Hlv. simpl. destruct (Z.leb_spec (c_maxLevel c) lv); [by eexists |].
  specialize (H1 eq_refl).
  pose proof (wf_config_creature _ _ Hwf Hc) as (_ & _ & _ & Hlen & _).
  destruct (py_index_in_range (c_upgradeCosts c) (lv - 1)) as (k & Hk & _); [lia |].
  rewrite Hk. by eexists.
Qed.

Lemma get_boost_upgrade_cost_total (cfg : Config) (s : GameSim) (b : Boost) :
  wf_config cfg -> Inv cfg s -> b ∈ cfg_boosts cfg ->
  exists cost, get_boost_upgrade_cost s (b_id b) = Some cost.
Proof.
  intros Hwf HI Hb. unfold get_boost_upgrade_cost.
  rewrite (inv_config _ _ HI), (boosts_lookup _ _ Hwf Hb). simpl.
  destruct (inv_boost _ _ HI b Hb) as (lv & Hlv & Hrange).
  rewrite Hlv. simpl. destruct (Z.leb_spec (b_maxLevel b) lv); [by eexists |].
  pose proof (wf_config_boost _ _ Hwf Hb) as (_ & _ & Hlen & _).
  destruct (py_index_in_range (b_costs b) lv) as (k & Hk & _); [lia |].
  rewrite Hk. by eexists.
Qed.

(** ** The invariant is kept by every operation *)

Lemma creature_by_id (cfg : Config) (c cr : Creature) :
  wf_config cfg -> c ∈ cfg_creatures cfg ->
  _creatures cfg !! c_id c = Some cr -> cr = c.
Proof.
  intros Hwf Hc Hcr. rewrite (creatures_lookup _ _ Hwf Hc) in Hcr. by injection Hcr.
Qed.

Lemma boost_by_id (cfg : Config) (b br : Boost) :
  wf_config cfg -> b ∈ cfg_boosts cfg ->
  _boosts cfg !! b_id b = Some br -> br = b.
Proof.
  intros Hwf Hb Hbr. rewrite (boosts_lookup _ _ Hwf Hb) in Hbr. by injection Hbr.
Qed.

Lemma upgrade_creature_Inv (cfg : Config) (s s' : GameSim) (cid : string) (ok : bool) :
  wf_config cfg -> Inv cfg s ->
  upgrade_creature s cid = Some (ok, s') -> Inv cfg s'.
Proof.
  intros Hwf HI Hup.
  destruct (get_creature_upgrade_cost s cid) as [cost |] eqn:Hcost;
    [| unfold upgrade_creature in Hup; by rewrite Hcost in Hup].
  pose proof (upgrade_creature_spec s cid cost Hcost
                (creature_cost_wf cfg s cid cost Hwf HI Hcost)) as Hspec.
  destruct (can_afford s cost) eqn:Hca.
  - destruct Hspec as (c & s1 & -> & Hup1 & Hdeb & (Hcfg & Hprog & _ & _) & Hbl & Hlv).
    rewrite Hup in Hup1. injection Hup1 as _ <-.
    apply get_creature_upgrade_cost_inv in Hcost as (cr & u & Hcr & Hu & Hcase).
    rewrite (inv_config _ _ HI) in Hcr.
    rewrite Hu in Hlv.
    split.
    + rewrite Hcfg. apply HI.
    + intros r Hr. destruct (inv_resources _ _ HI r Hr) as [v Hv].
      apply (elem_of_dom (M := gmap string)).
      rewrite (debited_dom _ _ _ Hdeb). apply elem_of_dom. by exists v.
    + eapply debited_nonneg; [exact Hca | apply HI | exact Hdeb].
    + intros c' Hc'.
      destruct (inv_creature _ _ HI c' Hc') as (lv & u' & p & Hl' & Hu' & Hp & Hmax & H0 & H1 & Hp0).
      rewrite Hprog.
      destruct (decide (c_id c' = cid)) as [<- | Hne].
      * pose proof (creature_by_id _ _ _ Hwf Hc' Hcr) as ->.
        rewrite Hu in Hu'. injection Hu' as <-.
        pose proof (wf_config_creature _ _ Hwf Hc') as (Hmax1 & _).
        destruct u.
        -- destruct Hlv as (lv0 & Hl0 & Hl1 & Hu1). destruct Hcase as (lv1 & Hl2 & Hlt & _).
           rewrite Hl' in Hl0, Hl2. injection Hl0 as <-. injection Hl2 as <-.
           exists (lv + 1), true, p. rewrite Hl1, Hu1, lookup_insert_eq.
           specialize (H1 eq_refl).
           repeat split; try done; try lia.
        -- destruct Hlv as [Hu1 Hl1].
           exists 1, true, p. rewrite Hl1, Hu1, !lookup_insert_eq.
           repeat split; try done; try lia.
      * exists lv, u', p.
        destruct u.
        -- destruct Hlv as (lv0 & Hl0 & Hl1 & Hu1).
           rewrite Hl1, Hu1, lookup_insert_ne by done. done.
        -- destruct Hlv as [Hu1 Hl1].
           rewrite Hl1, Hu1, !lookup_insert_ne by done. done.
    + rewrite Hbl. apply HI.
  - rewrite Hup in Hspec. injection Hspec as _ <-. done.
Qed.

Lemma upgrade_boost_Inv (cfg : Config) (s s' : GameSim) (bid : string) (ok : bool) :
  wf_config cfg -> Inv cfg s ->
  upgrade_boost s bid = Some (ok, s') -> Inv cfg s'.
Proof.
  intros Hwf HI Hup.
  destruct (get_boost_upgrade_cost s bid) as [cost |] eqn:Hcost;
    [| unfold upgrade_boost in Hup; by rewrite Hcost in Hup].
  pose proof (upgrade_boost_spec s bid cost Hcost
                (boost_cost_wf cfg s bid cost Hwf HI Hcost)) as Hspec.
  destruct (can_afford s cost) eqn:Hca.
  - destruct Hspec as (c & s1 & lv & -> & Hup1 & Hdeb & (Hcfg & Hprog & _ & _) & Hl & Hu & Hlv & Hbl).
    rewrite Hup in Hup1. injection Hup1 as _ <-.
    apply get_boost_upgrade_cost_inv in Hcost as (b & lv' & Hb & Hlv' & Hlt & _).
    rewrite Hlv in Hlv'. injection Hlv' as <-.
    rewrite (inv_config _ _ HI) in Hb.
    split.
    + rewrite Hcfg. apply HI.
    + intros r Hr. destruct (inv_resources _ _ HI r Hr) as [v Hv].
      apply (elem_of_dom (M := gmap string)).
      rewrite (debited_dom _ _ _ Hdeb). apply elem_of_dom. by exists v.
    + eapply debited_nonneg; [exact Hca | apply HI | exact Hdeb].
    + rewrite Hl, Hu, Hprog. apply HI.
    + intros b' Hb'. destruct (inv_boost _ _ HI b' Hb') as (lv0 & Hlv0 & Hrange).
      rewrite Hbl. destruct (decide (b_id b' = bid)) as [<- | Hne].
      * pose proof (boost_by_id _ _ _ Hwf Hb' Hb) as ->.
        rewrite Hlv in Hlv0. injection Hlv0 as <-.
        exists (lv + 1). rewrite lookup_insert_eq. split; [done | lia].
      * exists lv0. rewrite lookup_insert_ne by done. done.
  - rewrite Hup in Hspec. injection Hspec as _ <-. done.
Qed.

Lemma advance_Inv (cfg : Config) (s s' : GameSim) (delta_ms : Q) :
  wf_config cfg -> Inv cfg s -> (0 <= delta_ms)%Q ->
  advance s delta_ms = Some s' -> Inv cfg s'.
Proof.
  intros Hwf HI Hd Hadv.
  destruct (advance_closed_form cfg s delta_ms Hwf HI Hd)
    as (s1 & speed & dm & _ & _ & _ & Hrun & HI1 & _).
  rewrite Hadv in Hrun. by injection Hrun as <-.
Qed.

Lemma sim_step_Inv (cfg : Config) (s s' : GameSim) :
  wf_config cfg -> Inv cfg s -> sim_step s s' -> Inv cfg s'.
Proof.
  intros Hwf HI [delta_ms s1 Hd Hadv | cid ok s1 Hup | bid ok s1 Hup].
  - by eapply advance_Inv.
  - by eapply upgrade_creature_Inv.
  - by eapply upgrade_boost_Inv.
Qed.

Lemma rtc_sim_step_Inv (cfg : Config) (s0 s : GameSim) :
  wf_config cfg -> Inv cfg s0 -> rtc sim_step s0 s -> Inv cfg s.
Proof.
  intros Hwf HI Hr. induction Hr as [x | x y z Hstep _ IH]; [done |].
  apply IH. by eapply sim_step_Inv.
Qed.

Lemma reachable_Inv (cfg : Config) (s : GameSim) :
  wf_config cfg -> reachable cfg s -> Inv cfg s.
Proof.
  intros Hwf Hr. eapply rtc_sim_step_Inv; [done | by apply Inv_init | exact Hr].
Qed.

(** C3. For a well-formed configuration, in every state reached from the
    initial one by calls of [advance] (with a non-negative amount of time),
    [upgrade_creature] and [upgrade_boost]: no resource balance is negative,
    no unit level exceeds the unit's [maxLevel], no boost level exceeds the
    boost's [maxLevel], and a unit whose unlocked flag is false has level 0. *)
Theorem C3_reachable_state_invariant (cfg : Config) (s : GameSim) :
  wf_config cfg -> reachable cfg s ->
  map_Forall (fun _ v => (0 <= v)%Q) (resources s)
  ∧ (forall c, c ∈ cfg_creatures cfg ->
       exists lv u, creature_levels s !! c_id c = Some lv
         ∧ creature_unlocked s !! c_id c = Some u
         ∧ lv <= c_maxLevel c
         ∧ (u = false -> lv = 0))
  ∧ (forall b, b ∈ cfg_boosts cfg ->
       exists lv, boost_levels s !! b_id b = Some lv ∧ lv <= b_maxLevel b).
Proof.
  intros Hwf Hr. pose proof (reachable_Inv cfg s Hwf Hr) as HI.
  split; [apply HI |]. split.
  - intros c Hc.
    destruct (inv_creature _ _ HI c Hc) as (lv & u & p & Hlv & Hu & _ & Hmax & H0 & _).
    by exists lv, u.
  - intros b Hb. destruct (inv_boost _ _ HI b Hb) as (lv & Hlv & Hrange).
    exists lv. split; [done | lia].
Qed.

(** The upgrades of configured ids return normally in a well-formed state. *)
Lemma upgrade_creature_total (cfg : Config) (s : GameSim) (c : Creature) :
  wf_config cfg -> Inv cfg s -> c ∈ cfg_creatures cfg ->
  exists ok s', upgrade_creature s (c_id c) = Some (ok, s') ∧ Inv cfg s'.
Proof.
  intros Hwf HI Hc.
  destruct (get_creature_upgrade_cost_total cfg s c Hwf HI Hc) as [cost Hcost].
  pose proof (upgrade_creature_spec s (c_id c) cost Hcost
                (creature_cost_wf cfg s _ cost Hwf HI Hcost)) as Hspec.
  destruct (can_afford s cost).
  - destruct Hspec as (k & s' & _ & Hup & _).
    exists true, s'. split; [done |]. by eapply upgrade_creature_Inv.
  - exists false, s. done.
Qed.

Lemma upgrade_boost_total (cfg : Config) (s : GameSim) (b : Boost) :
  wf_config cfg -> Inv cfg s -> b ∈ cfg_boosts cfg ->
  exists ok s', upgrade_boost s (b_id b) = Some (ok, s') ∧ Inv cfg s'.
Proof.
  intros Hwf HI Hb.
  destruct (get_boost_upgrade_cost_total cfg s b Hwf HI Hb) as [cost Hcost].
  pose proof (upgrade_boost_spec s (b_id b) cost Hcost
                (boost_cost_wf cfg s _ cost Hwf HI Hcost)) as Hspec.
  destruct (can_afford s cost).
  - destruct Hspec as (k & s' & lv & _ & Hup & _).
    exists true, s'. split; [done |]. by eapply upgrade_boost_Inv.
  - exists false, s. done.
Qed.

Lemma fiona_configured : fiona ∈ cfg_creatures EVENT_CONFIG.
Proof. apply elem_of_cons. by left. Qed.

Lemma C3_witness :
  from_option
    (fun s =>
       map_Forall (fun _ v => (0 <= v)%Q) (resources s)
       ∧ (forall c, c ∈ cfg_creatures EVENT_CONFIG ->
            exists lv u, creature_levels s !! c_id c = Some lv
              ∧ creature_unlocked s !! c_id c = Some u
              ∧ lv <= c_maxLevel c
              ∧ (u = false -> lv = 0))
       ∧ (forall b, b ∈ cfg_boosts EVENT_CONFIG ->
            exists lv, boost_levels s !! b_id b = Some lv ∧ lv <= b_maxLevel b))
    False after_first_purchase.
Proof.
  unfold after_first_purchase.
  assert (Hd : (0 <= 60000)%Q) by (vm_compute; discriminate).
  destruct (advance_closed_form EVENT_CONFIG (GameSim_init EVENT_CONFIG) 60000%Q
              wf_EVENT_CONFIG (Inv_init _ wf_EVENT_CONFIG) Hd)
    as (s1 & speed & dm & _ & _ & _ & Hadv & HI1 & _).
  rewrite Hadv. cbn [mbind option_bind].
  destruct (upgrade_creature_total EVENT_CONFIG s1 fiona wf_EVENT_CONFIG HI1 fiona_configured)
    as (ok & s2 & Hup & _).
  change (c_id fiona) with "fiona" in Hup.
  rewrite Hup. cbn [mbind option_bind from_option snd].
  apply (C3_reachable_state_invariant EVENT_CONFIG s2 wf_EVENT_CONFIG).
  eapply rtc_l; [exact (step_advance _ _ _ Hd Hadv) |].
  eapply rtc_l; [exact (step_upgrade_creature _ _ _ _ Hup) |].
  apply rtc_refl.
Defined.

(** ** The baseline scenario: no purchase during the whole event *)

Lemma Qsum_pointwise {A} (f g : A -> Q) (l : list A) :
  (forall x, x ∈ l -> (f x == g x)%Q) -> (Qsum (f <$> l) == Qsum (g <$> l))%Q.
Proof.
  induction l as [| x l IH]; intros Hfg; [reflexivity |].
  rewrite !fmap_cons, !Qsum_cons.
  rewrite (Hfg x) by (apply elem_of_cons; by left).
  rewrite IH; [reflexivity |].
  intros y Hy. apply Hfg, elem_of_cons. by right.
Qed.

Lemma Qsum_plus {A} (f g : A -> Q) (l : list A) :
  (Qsum (f <$> l) + Qsum (g <$> l) == Qsum ((fun x => f x + g x) <$> l))%Q.
Proof.
  induction l as [| x l IH]; [reflexivity |].
  rewrite !fmap_cons, !Qsum_cons, <- IH. ring.
Qed.

(** With every boost at level 0 no bonus is active. *)
Lemma first_active_bonus_level0 (s : GameSim) (sel : Boost -> bool) (order : list string) :
  (forall bid, bid ∈ order ->
     is_Some (_boosts (config s) !! bid) ∧ boost_levels s !! bid = Some 0) ->
  first_active_bonus s sel order = Some None.
Proof.
  induction order as [| bid rest IH]; intros Hall; [done |].
  destruct (Hall bid) as [[b Hb] Hlv]; [apply elem_of_cons; by left |].
  simpl. rewrite Hb, Hlv. simpl.
  assert (IH' : first_active_bonus s sel rest = Some None).
  { apply IH. intros x Hx. apply Hall, elem_of_cons. by right. }
  destruct (sel b); done.
Qed.

Lemma Qsum_zero {A} (f : A -> Q) (l : list A) :
  (forall x, x ∈ l -> (f x == 0)%Q) -> (Qsum (f <$> l) == 0)%Q.
Proof.
  induction l as [| x l IH]; intros Hf; [reflexivity |].
  rewrite fmap_cons, Qsum_cons.
  rewrite (Hf x) by (apply elem_of_cons; by left).
  rewrite IH; [reflexivity |].
  intros y Hy. apply Hf, elem_of_cons. by right.
Qed.

Lemma init_creature_lookup (cfg : Config) (c : Creature) :
  wf_config cfg -> c ∈ cfg_creatures cfg ->
  creature_levels (GameSim_init cfg) !! c_id c = Some (if c_unlockedByDefault c then 1 else 0)
  ∧ creature_unlocked (GameSim_init cfg) !! c_id c = Some (c_unlockedByDefault c)
  ∧ creature_progress (GameSim_init cfg) !! c_id c = Some 0%Q.
Proof.
  intros (Hnd & _) Hc. simpl.
  rewrite (foldl_insert_NoDup c_id (fun c => if c_unlockedByDefault c then 1 else 0)) by done.
  rewrite (foldl_insert_NoDup c_id c_unlockedByDefault) by done.
  rewrite (foldl_insert_NoDup c_id (fun _ => 0%Q)) by done.
  done.
Qed.

Lemma init_boost_lookup (cfg : Config) (b : Boost) :
  wf_config cfg -> b ∈ cfg_boosts cfg ->
  boost_levels (GameSim_init cfg) !! b_id b = Some 0.
Proof.
  intros (_ & Hnd & _) Hb. simpl.
  apply (foldl_insert_NoDup (fun bid : string => bid) (fun _ => 0)).
  - by rewrite list_fmap_id.
  - unfold _boost_order. by apply list_elem_of_fmap_2.
Qed.

Lemma Qfloor_zero_div (d : Q) : Qfloor (0 / d) = 0.
Proof. rewrite (Qfloor_comp (0 / d) 0); [done |]. unfold Qdiv. ring. Qed.

Lemma Baseline_init (cfg : Config) : wf_config cfg -> Baseline cfg 0 (GameSim_init cfg).
Proof.
  intros Hwf. split; try done.
  - by apply Inv_init.
  - intros c Hc _. exists 0%Q.
    destruct (init_creature_lookup cfg c Hwf Hc) as (_ & _ & Hp).
    split; [done |]. rewrite Qfloor_zero_div. change (inject_Z 0) with 0%Q. ring.
  - change (total_damage (GameSim_init cfg)) with 0%Q. symmetry.
    apply Qsum_zero. intros c _. unfold baseline_unit_damage.
    destruct (c_unlockedByDefault c); [|reflexivity].
    rewrite Qfloor_zero_div. change (inject_Z 0) with 0%Q. ring.
Qed.

Lemma Baseline_proper (cfg : Config) (t t' : Q) (s : GameSim) :
  (t == t')%Q -> Baseline cfg t s -> Baseline cfg t' s.
Proof.
  intros Ht [HI Hl Hu Hb Hp Hd]. split; try done.
  - intros c Hc Hdef. destruct (Hp c Hc Hdef) as (p & Hlk & Heq).
    exists p. split; [done |].
    rewrite <- (Qfloor_comp (t / c_spawnTime c) (t' / c_spawnTime c)) by (by rewrite Ht).
    rewrite <- Ht. exact Heq.
  - rewrite Hd. apply Qsum_pointwise. intros c _. unfold baseline_unit_damage.
    destruct (c_unlockedByDefault c); [|reflexivity].
    rewrite (Qfloor_comp (t / c_spawnTime c) (t' / c_spawnTime c)) by (by rewrite Ht).
    reflexivity.
Qed.

(** Without purchases both multipliers are 1. *)
Lemma Baseline_multipliers (cfg : Config) (t : Q) (s : GameSim) :
  wf_config cfg -> Baseline cfg t s ->
  get_speed_multiplier s = Some 1%Q ∧ get_damage_multiplier s = Some 1%Q.
Proof.
  intros Hwf HB. pose proof (bl_inv _ _ _ HB) as HI.
  assert (Hall : forall bid, bid ∈ _boost_order (config s) ->
            is_Some (_boosts (config s) !! bid) ∧ boost_levels s !! bid = Some 0).
  { intros bid Hbid. rewrite (inv_config _ _ HI) in *.
    apply list_elem_of_fmap in Hbid as (b & -> & Hb).
    rewrite (boosts_lookup _ _ Hwf Hb), (bl_boosts _ _ _ HB), (init_boost_lookup _ _ Hwf Hb).
    split; [by eexists | done]. }
  unfold get_speed_multiplier, get_damage_multiplier.
  rewrite !first_active_bonus_level0 by done. done.
Qed.

Lemma Baseline_active (cfg : Config) (t : Q) (s : GameSim) (c : Creature) :
  wf_config cfg -> Baseline cfg t s -> c ∈ cfg_creatures cfg ->
  is_active s c = c_unlockedByDefault c
  ∧ creature_levels s !! c_id c = Some (if c_unlockedByDefault c then 1 else 0).
Proof.
  intros Hwf HB Hc.
  destruct (init_creature_lookup cfg c Hwf Hc) as (Hl & Hu & _).
  unfold is_active. rewrite (bl_levels _ _ _ HB), (bl_unlocked _ _ _ HB), Hl, Hu.
  by destruct (c_unlockedByDefault c).
Qed.

Lemma Baseline_advance (cfg : Config) (t delta_ms : Q) (s : GameSim) :
  wf_config cfg -> Baseline cfg t s -> (0 <= delta_ms)%Q ->
  exists s', advance s delta_ms = Some s' ∧ Baseline cfg (t + delta_ms) s'.
Proof.
  intros Hwf HB Hd. pose proof (bl_inv _ _ _ HB) as HI.
  destruct (advance_closed_form cfg s delta_ms Hwf HI Hd)
    as (s' & speed & dm & Hspeed & _ & Hdm & Hadv & HI' & _ & Hl & Hu & Hb & _ & Hpa & _ & Hdmg).
  destruct (Baseline_multipliers cfg t s Hwf HB) as [Hs1 Hd1].
  rewrite Hs1 in Hspeed. injection Hspeed as <-.
  rewrite Hd1 in Hdm. injection Hdm as <-.
  exists s'. split; [done |].
  (* the tick count of a default unit, as a difference of two floors *)
  assert (Hticks : forall c, c ∈ cfg_creatures cfg -> c_unlockedByDefault c = true ->
            exists p',
              creature_progress s' !! c_id c = Some p'
              ∧ (p' == (t + delta_ms)
                       - inject_Z (Qfloor ((t + delta_ms) / c_spawnTime c)) * c_spawnTime c)%Q
              ∧ Qfloor ((t + delta_ms) / c_spawnTime c)
                = Qfloor (t / c_spawnTime c) + ticks_of s 1 delta_ms c).
  { intros c Hc Hdef.
    destruct (Baseline_active cfg t s c Hwf HB Hc) as [Hact _]. rewrite Hdef in Hact.
    destruct (Hpa c Hc Hact) as (p & p' & Hp & Hp' & Heq).
    destruct (bl_progress _ _ _ HB c Hc Hdef) as (p0 & Hp0 & Heq0).
    rewrite Hp in Hp0. injection Hp0 as <-.
    pose proof (wf_config_creature _ _ Hwf Hc) as (_ & _ & _ & _ & _ & Hspawn & _).
    assert (Hint : (0 < effective_interval 1 c)%Q) by (unfold effective_interval; lra).
    pose proof (floor_div_bounds (p + delta_ms) (effective_interval 1 c) Hint) as [Hlo Hhi].
    assert (Htk : ticks_of s 1 delta_ms c
                  = Qfloor ((p + delta_ms) / effective_interval 1 c)).
    { unfold ticks_of. by rewrite Hp. }
    rewrite <- Htk in Hlo, Hhi.
    set (tk := ticks_of s 1 delta_ms c) in *.
    set (f0 := Qfloor (t / c_spawnTime c)) in *.
    unfold effective_interval in *.
    assert (Hfl : Qfloor ((t + delta_ms) / c_spawnTime c) = f0 + tk).
    { apply floor_div_unique; [done | |]; rewrite inject_Z_plus; lra. }
    exists p'. split; [done |]. split; [|done].
    rewrite Hfl, inject_Z_plus. lra. }
  split; [exact HI' | rewrite Hl; apply HB | rewrite Hu; apply HB | rewrite Hb; apply HB | |].
  - intros c Hc Hdef. destruct (Hticks c Hc Hdef) as (p' & Hp' & Heq & _). by exists p'.
  - rewrite Hdmg, (bl_damage _ _ _ HB), Qsum_plus.
    apply Qsum_pointwise. intros c Hc.
    destruct (Baseline_active cfg t s c Hwf HB Hc) as [Hact Hlv].
    unfold baseline_unit_damage, damage_gain, damage_per_tick. rewrite Hact, Hlv.
    destruct (c_unlockedByDefault c) eqn:Hdef; [|lra].
    destruct (Hticks c Hc Hdef) as (_ & _ & _ & Hfl).
    rewrite Hfl, inject_Z_plus. simpl.
    change (1 - 1) with 0. rewrite py_index_nonneg by lia. change (Z.to_nat 0) with 0%nat.
    lra.
Qed.




(** ** The speed multiplier *)

(** C7 (as amended). For a well-formed configuration, whose speed bonuses are
    all below 1, in every reachable state the speed multiplier is strictly
    positive, so is the effective spawn interval of every unit, and
    [advance] with a non-negative amount of time returns normally (the tick
    count of each unit is a finite floor).  The shipped configuration is
    well-formed.  Nothing is said about a load-time check: there is none. *)
Theorem C7_speed_multiplier_positive (cfg : Config) (s : GameSim) :
  wf_config cfg -> reachable cfg s ->
  (exists speed,
     get_speed_multiplier s = Some speed
     ∧ (0 < speed)%Q
     ∧ (forall c, c ∈ cfg_creatures cfg -> (0 < effective_interval speed c)%Q)
     ∧ (forall delta_ms, (0 <= delta_ms)%Q -> exists s', advance s delta_ms = Some s'))
  ∧ wf_config EVENT_CONFIG.
Proof.
  intros Hwf Hr. split; [|exact wf_EVENT_CONFIG].
  pose proof (reachable_Inv cfg s Hwf Hr) as HI.
  destruct (get_speed_multiplier_pos cfg s Hwf HI) as (speed & Hsp & Hpos).
  exists speed. split; [done |]. split; [done |]. split.
  - intros c Hc. pose proof (wf_config_creature _ _ Hwf Hc) as (_ & _ & _ & _ & _ & Hspawn & _).
    unfold effective_interval. by apply Qmult_lt_0_compat.
  - intros delta_ms Hd.
    destruct (advance_closed_form cfg s delta_ms Hwf HI Hd) as (s' & _ & _ & _ & _ & _ & Hadv & _).
    by exists s'.
Qed.

Lemma C7_witness :
  (exists speed,
     get_speed_multiplier (GameSim_init EVENT_CONFIG) = Some speed
     ∧ (0 < speed)%Q
     ∧ (forall c, c ∈ cfg_creatures EVENT_CONFIG -> (0 < effective_interval speed c)%Q)
     ∧ (forall delta_ms, (0 <= delta_ms)%Q ->
          exists s', advance (GameSim_init EVENT_CONFIG) delta_ms = Some s'))
  ∧ wf_config EVENT_CONFIG.
Proof.
  apply (C7_speed_multiplier_positive EVENT_CONFIG (GameSim_init EVENT_CONFIG)).
  - exact wf_EVENT_CONFIG.
  - apply rtc_refl.
Defined.

(** The configuration with a speed bonus of 2.0 is accepted by the
    constructor and simulated: after the boost is bought the multiplier is
    [1 - 2], and the next [advance] returns normally with a negative tick
    count, which takes back damage and drives a balance below zero. *)
Lemma C7_counterexample :
  exists s s' speed,
    overdriven = Some s
    ∧ reachable overdrive_config s
    ∧ get_speed_multiplier s = Some speed
    ∧ (speed == -1)%Q
    ∧ advance s 1000%Q = Some s'
    ∧ (total_damage s' < total_damage s)%Q
    ∧ exists bal, resources s' !! "sapphires" = Some bal ∧ (bal < 0)%Q.
Proof.
  set (s0 := GameSim_init overdrive_config).
  set (s1 := default s0 (advance s0 1000%Q)).
  set (s := default s0 overdriven).
  set (s' := default s0 (advance s 1000%Q)).
  exists s, s', (1 - 2)%Q.
  split; [vm_compute; reflexivity |].
  split.
  { apply rtc_l with s1.
    - apply (step_advance _ 1000%Q); [vm_compute; discriminate | vm_compute; reflexivity].
    - apply rtc_l with s; [| apply rtc_refl].
      apply (step_upgrade_boost _ "overdrive" true). vm_compute. reflexivity. }
  split; [vm_compute; reflexivity |].
  split; [vm_compute; reflexivity |].
  split; [vm_compute; reflexivity |].
  split; [vm_compute; reflexivity |].
  exists (0 + (1 + 0) * inject_Z (-1))%Q.
  split; [vm_compute; reflexivity | vm_compute; reflexivity].
Qed.

(** ** Perturbation operators are permutations *)

Lemma list_delete_insert_same {A} (l : list A) (i : nat) (x : A) :
  delete i (<[i := x]> l) = delete i l.
Proof.
  revert i. induction l as [| h t IH]; intros [| i]; simpl; try done.
  by rewrite IH.
Qed.

Lemma insert_Permutation {A} (l : list A) (i : nat) (x y : A) :
  l !! i = Some y -> <[i := x]> l ≡ₚ x :: delete i l.
Proof.
  intros Hy. rewrite <- (list_delete_insert_same l i x).
  apply delete_Permutation. apply list_lookup_insert_eq. by eapply lookup_lt_Some.
Qed.

Lemma swap_positions_Permutation {A} (l l' : list A) (a b : nat) :
  swap_positions l a b = Some l' -> l' ≡ₚ l.
Proof.
  unfold swap_positions. intros H.
  destruct (l !! b) as [y |] eqn:Hb; [|done]. simpl in H.
  destruct (l !! a) as [x |] eqn:Ha; [|done]. simpl in H.
  injection H as <-.
  revert a b Ha Hb. induction l as [| h t IH]; intros a b Ha Hb; [done |].
  destruct a as [| a], b as [| b]; simpl in *.
  - by injection Ha as <-.
  - injection Ha as <-.
    etrans; [apply perm_skip, (insert_Permutation t b h y Hb) |].
    etrans; [apply perm_swap |].
    apply perm_skip. symmetry. by apply delete_Permutation.
  - injection Hb as <-.
    etrans; [apply perm_skip, (insert_Permutation t a h x Ha) |].
    etrans; [apply perm_swap |].
    apply perm_skip. symmetry. by apply delete_Permutation.
  - apply perm_skip. by apply IH.
Qed.

Lemma relocate_Permutation {A} (l l' : list A) (a b : nat) :
  relocate l a b = Some l' -> l' ≡ₚ l.
Proof.
  unfold relocate. intros H.
  destruct (l !! a) as [item |] eqn:Ha; [|done]. simpl in H. injection H as <-.
  rewrite <- Permutation_middle, take_drop.
  symmetry. by apply delete_Permutation.
Qed.

Lemma reverse_segment_Permutation {A} (l : list A) (a b : nat) :
  reverse_segment l a b ≡ₚ l.
Proof.
  unfold reverse_segment. rewrite reverse_Permutation.
  assert (Hd : take (b - a) (drop a l) ++ drop (a `max` b) l = drop a l).
  { destruct (decide (b ≤ a)%nat) as [Hle | Hgt].
    - replace (b - a)%nat with 0%nat by lia. replace (a `max` b)%nat with a by lia. done.
    - replace (a `max` b)%nat with (a + (b - a))%nat by lia.
      rewrite <- drop_drop. apply take_drop. }
  rewrite Hd. by rewrite take_drop.
Qed.

Lemma key_count_Permutation (key : Key) (l l' : list Step) :
  l' ≡ₚ l -> key_count key l' = key_count key l.
Proof. intros Hp. unfold key_count. by rewrite Hp. Qed.

Lemma Permutation_same_steps (l l' : list Step) : l' ≡ₚ l -> same_steps l l'.
Proof.
  intros Hp. split; [done |]. split; [by rewrite Hp |].
  intros cfg [Hc Hb]. split.
  - eapply Forall_impl; [exact Hc |]. intros c Hk. simpl in *.
    by rewrite (key_count_Permutation _ l l').
  - eapply Forall_impl; [exact Hb |]. intros b Hk. simpl in *.
    by rewrite (key_count_Permutation _ l l').
Qed.

Section Perturb.
Context {G : Type} `{PyRandomLaws G}.

Lemma perturb_Permutation (current nbr : list Step) (g g' : G) :
  perturb current g = Some (nbr, g') -> nbr ≡ₚ current.
Proof.
  unfold perturb. destruct (rnd_random g) as [r g0].
  destruct (Qltb r 0.50).
  - destruct (rnd_sample2 (length current) g0) as [[[a b] g1] |]; cbn [mbind option_bind]; [|done].
    destruct (swap_positions current a b) as [l' |] eqn:Hs; cbn [mbind option_bind]; [|done].
    intros [= <- <-]. by eapply swap_positions_Permutation.
  - destruct (Qltb r 0.85).
    + destruct (rnd_randrange (length current) g0) as [[a g1] |]; cbn [mbind option_bind]; [|done].
      destruct (rnd_randrange (length current - 1) g1) as [[b g2] |]; cbn [mbind option_bind]; [|done].
      destruct (relocate current a b) as [l' |] eqn:Hr; cbn [mbind option_bind]; [|done].
      intros [= <- <-]. by eapply relocate_Permutation.
    + destruct (rnd_randrange (length current) g0) as [[a g1] |]; cbn [mbind option_bind]; [|done].
      destruct (rnd_randint 2 (Z.of_nat (8 `min` length current)) g1) as [[len g2] |]; cbn [mbind option_bind]; [|done].
      intros [= <- <-]. apply reverse_segment_Permutation.
Qed.

(** On an ordering of at least two steps no operator raises. *)
Lemma perturb_total (current : list Step) (g : G) :
  (2 <= length current)%nat -> exists nbr g', perturb current g = Some (nbr, g').
Proof.
  intros Hn. unfold perturb. destruct (rnd_random g) as [r g0].
  destruct (Qltb r 0.50).
  - pose proof (rnd_sample2_spec (length current) g0) as Hs.
    destruct (rnd_sample2 (length current) g0) as [[[a b] g1] |]; cbn [mbind option_bind]; [|lia].
    destruct Hs as (Ha & Hb & _).
    destruct (lookup_lt_is_Some_2 current a Ha) as [x Hx].
    destruct (lookup_lt_is_Some_2 current b Hb) as [y Hy].
    unfold swap_positions. rewrite Hx, Hy. cbn [mbind option_bind]. by eexists _, _.
  - destruct (Qltb r 0.85).
    + pose proof (rnd_randrange_spec (length current) g0) as Ha.
      destruct (rnd_randrange (length current) g0) as [[a g1] |]; cbn [mbind option_bind]; [|lia].
      pose proof (rnd_randrange_spec (length current - 1) g1) as Hb.
      destruct (rnd_randrange (length current - 1) g1) as [[b g2] |]; cbn [mbind option_bind]; [|lia].
      destruct (lookup_lt_is_Some_2 current a Ha) as [x Hx].
      unfold relocate. rewrite Hx. cbn [mbind option_bind]. by eexists _, _.
    + pose proof (rnd_randrange_spec (length current) g0) as Ha.
      destruct (rnd_randrange (length current) g0) as [[a g1] |]; cbn [mbind option_bind]; [|lia].
      pose proof (rnd_randint_spec 2 (Z.of_nat (8 `min` length current)) g1) as Hl.
      destruct (rnd_randint 2 (Z.of_nat (8 `min` length current)) g1) as [[len g2] |]; [|lia].
      simpl. by eexists _, _.
Qed.
End Perturb.

Lemma build_template_valid : valid_ordering EVENT_CONFIG build_template.
Proof. apply (bool_decide_unpack _). vm_compute. reflexivity. Qed.

(** C8. Each perturbation operator of the annealer (swap of two positions,
    relocation of one element, reversal of a slice), for whatever positions
    it is given, and hence the random choice among them made in one
    iteration, returns a permutation of the ordering it is applied to: the
    same steps, the same length, and the per-key count invariant of any
    configuration is kept.  On an ordering of at least two steps the random
    choice always returns, and the template of the shipped configuration
    satisfies the invariant. *)
Theorem C8_perturbation_preserves_counts
        {G : Type} `{PyRandomLaws G} (current : list Step) :
  (forall a b nbr, swap_positions current a b = Some nbr -> same_steps current nbr)
  ∧ (forall a b nbr, relocate current a b = Some nbr -> same_steps current nbr)
  ∧ (forall a b, same_steps current (reverse_segment current a b))
  ∧ (forall (g g' : G) nbr, perturb current g = Some (nbr, g') -> same_steps current nbr)
  ∧ ((2 <= length current)%nat ->
       forall g : G, exists nbr g', perturb current g = Some (nbr, g'))
  ∧ valid_ordering EVENT_CONFIG build_template.
Proof.
  split. { intros a b nbr Hs. by eapply Permutation_same_steps, swap_positions_Permutation. }
  split. { intros a b nbr Hr. by eapply Permutation_same_steps, relocate_Permutation. }
  split. { intros a b. apply Permutation_same_steps, reverse_segment_Permutation. }
  split. { intros g g' nbr Hp. by eapply Permutation_same_steps, perturb_Permutation. }
  split. { intros Hn g. by apply perturb_total. }
  exact build_template_valid.
Qed.

(** ** A concrete generator *)

Lemma counter_sample2_spec (n g : nat) :
  (2 <= n)%nat ->
  let '(a, b) := counter_sample2 n g in (a < n)%nat ∧ (b < n)%nat ∧ a ≠ b.
Proof.
  intros Hn. unfold counter_sample2.
  set (a := (g `mod` n)%nat).
  set (d := (1 + (g `div` n) `mod` (n - 1))%nat).
  assert (Ha : (a < n)%nat) by (apply Nat.mod_upper_bound; lia).
  assert (Hd : (1 <= d < n)%nat).
  { unfold d. pose proof (Nat.mod_upper_bound (g `div` n) (n - 1)). lia. }
  split; [done |]. split; [apply Nat.mod_upper_bound; lia |].
  intros He. symmetry in He.
  destruct (decide (a + d < n)%nat).
  - rewrite Nat.mod_small in He by lia. lia.
  - assert (((a + d) `mod` n = a + d - n)%nat).
    { symmetry. apply Nat.mod_unique with (q := 1%nat); lia. }
    lia.
Qed.

Lemma counter_randrange_spec (n g : nat) :
  match counter_randrange n g with
  | Some (k, _) => (k < n)%nat
  | None => n = 0%nat
  end.
Proof.
  unfold counter_randrange. destruct (decide (n = 0)%nat); [done |].
  apply Nat.mod_upper_bound. lia.
Qed.

Lemma counter_randint_spec (a b : Z) (g : nat) :
  match counter_randint a b g with
  | Some (k, _) => a <= k <= b
  | None => b < a
  end.
Proof.
  unfold counter_randint. destruct (decide (b < a)); [done |].
  pose proof (Z.mod_pos_bound (Z.of_nat g) (b - a + 1)). lia.
Qed.

Lemma counter_sample_spec (n g : nat) :
  match counter_sample n g with
  | Some (a, b, _) => (a < n)%nat ∧ (b < n)%nat ∧ a ≠ b
  | None => (n < 2)%nat
  end.
Proof.
  unfold counter_sample. destruct (decide (n < 2)%nat); [done |].
  pose proof (counter_sample2_spec n g) as Hs.
  destruct (counter_sample2 n g) as [a b]. apply Hs. lia.
Qed.

#[global] Instance CounterRandomLaws : PyRandomLaws nat.
Proof.
  split.
  - exact counter_randrange_spec.
  - exact counter_randint_spec.
  - exact counter_sample_spec.
  - intros A l g. apply reverse_Permutation.
Qed.

Lemma C8_witness :
  valid_ordering EVENT_CONFIG (reverse_segment build_template 3 9)
  ∧ exists nbr g', perturb build_template 7%nat = Some (nbr, g')
      ∧ valid_ordering EVENT_CONFIG nbr.
Proof.
  destruct (C8_perturbation_preserves_counts (G := nat) build_template)
    as (_ & _ & Hrev & Hper & Htot & Hv).
  split.
  - apply (Hrev 3%nat 9%nat). exact Hv.
  - destruct (Htot ltac:(vm_compute; lia) 7%nat) as (nbr & g' & Hp).
    exists nbr, g'. split; [exact Hp |].
    apply (Hper 7%nat g' nbr Hp). exact Hv.
Defined.

(** ** The position map *)

Lemma pm_lookup_append (pm : list (Key * list nat)) (key key' : Key) (pos : nat) :
  pm_lookup (pos_map_append pm key pos) key'
  = if decide (key = key') then pm_lookup pm key ++ [pos] else pm_lookup pm key'.
Proof.
  induction pm as [| [k ps] rest IH]; simpl.
  - by destruct (decide (key = key')).
  - destruct (decide (k = key)) as [-> | Hne]; simpl.
    + destruct (decide (key = key')); [done |]. done.
    + destruct (decide (k = key')) as [-> | Hne'].
      * by destruct (decide (key = key')); [congruence |].
      * exact IH.
Qed.

Lemma pos_map_append_keys (pm : list (Key * list nat)) (key : Key) (pos : nat) :
  (pos_map_append pm key pos).*1 = if decide (key ∈ pm.*1) then pm.*1 else pm.*1 ++ [key].
Proof.
  induction pm as [| [k ps] rest IH].
  - rewrite decide_False; [done |]. by intros Hin%elem_of_nil.
  - cbn [pos_map_append]. rewrite !fmap_cons. cbn [fst].
    destruct (decide (k = key)) as [-> | Hne].
    + rewrite decide_True; [done |]. apply elem_of_cons. by left.
    + rewrite fmap_cons, IH. cbn [fst].
      destruct (decide (key ∈ rest.*1)) as [Hin | Hnin].
      * rewrite decide_True; [done |]. apply elem_of_cons. by right.
      * rewrite decide_False; [done |].
        intros [-> | Hin]%elem_of_cons; done.
Qed.

Lemma pos_map_append_NoDup (pm : list (Key * list nat)) (key : Key) (pos : nat) :
  NoDup pm.*1 -> NoDup (pos_map_append pm key pos).*1.
Proof.
  intros Hnd. rewrite pos_map_append_keys.
  destruct (decide (key ∈ pm.*1)); [done |].
  apply NoDup_app. split; [done |]. split.
  - intros x Hx Hx'. apply list_elem_of_singleton in Hx'. by subst.
  - apply NoDup_singleton.
Qed.

Lemma build_pos_map_from_lookup (l : list Step) (pos : nat) (pm : list (Key * list nat))
      (key : Key) :
  pm_lookup (_build_pos_map_from pos l pm) key = pm_lookup pm key ++ positions_from pos l key.
Proof.
  revert pos pm. induction l as [| st rest IH]; intros pos pm; simpl.
  - by rewrite app_nil_r.
  - rewrite IH, pm_lookup_append.
    destruct (decide (step_key st = key)) as [-> | Hne].
    + by rewrite <- app_assoc.
    + done.
Qed.

Lemma build_pos_map_from_NoDup (l : list Step) (pos : nat) (pm : list (Key * list nat)) :
  NoDup pm.*1 -> NoDup (_build_pos_map_from pos l pm).*1.
Proof.
  revert pos pm. induction l as [| st rest IH]; intros pos pm Hnd; [done |].
  simpl. apply IH. by apply pos_map_append_NoDup.
Qed.

Lemma build_pos_map_from_keys (l : list Step) (pos : nat) (pm : list (Key * list nat))
      (key : Key) :
  key ∈ (_build_pos_map_from pos l pm).*1 -> key ∈ pm.*1 ∨ key ∈ step_key <$> l.
Proof.
  revert pos pm. induction l as [| st rest IH]; intros pos pm Hk; [by left |].
  simpl in Hk. apply IH in Hk as [Hk | Hk].
  - rewrite pos_map_append_keys in Hk.
    destruct (decide (step_key st ∈ pm.*1)); [by left |].
    apply elem_of_app in Hk as [Hk | Hk]; [by left |].
    apply list_elem_of_singleton in Hk as ->. right. apply elem_of_cons. by left.
  - right. rewrite fmap_cons. apply elem_of_cons. by right.
Qed.

Lemma pm_lookup_elem_of (pm : list (Key * list nat)) (key : Key) (ps : list nat) :
  NoDup pm.*1 -> (key, ps) ∈ pm -> pm_lookup pm key = ps.
Proof.
  induction pm as [| [k qs] rest IH]; intros Hnd Hin; [by apply elem_of_nil in Hin |].
  simpl in *. apply NoDup_cons in Hnd as [Hk Hnd].
  apply elem_of_cons in Hin as [[= <- <-] | Hin].
  - by rewrite decide_True.
  - destruct (decide (k = key)) as [-> | Hne]; [|by apply IH].
    exfalso. apply Hk. apply list_elem_of_fmap. by exists (key, ps).
Qed.

(** A position listed for a key is the index of a step with that key. *)
Lemma positions_from_spec (l : list Step) (pos : nat) (key : Key) (p : nat) :
  p ∈ positions_from pos l key <->
  (pos <= p)%nat ∧ exists st, l !! (p - pos)%nat = Some st ∧ step_key st = key.
Proof.
  revert pos. induction l as [| st rest IH]; intros pos; simpl.
  - split; [by intros Hp%elem_of_nil | by intros (_ & st & Hst & _)].
  - rewrite elem_of_app, IH. split.
    + intros [Hp | (Hle & st' & Hst' & Hk)].
      * destruct (decide (step_key st = key)) as [Hk | Hk]; [|by apply elem_of_nil in Hp].
        apply list_elem_of_singleton in Hp as ->. split; [lia |].
        exists st. by rewrite Nat.sub_diag.
      * split; [lia |]. exists st'. split; [|done].
        replace (p - pos)%nat with (S (p - S pos)) by lia. done.
    + intros (Hle & st' & Hst' & Hk).
      destruct (decide (p = pos)) as [-> | Hne].
      * left. rewrite Nat.sub_diag in Hst'. simpl in Hst'. injection Hst' as <-.
        rewrite decide_True by done. by apply list_elem_of_singleton.
      * right. split; [lia |]. exists st'. split; [|done].
        replace (p - pos)%nat with (S (p - S pos)) in Hst' by lia. done.
Qed.

(** The map built for an ordering: distinct keys, each with exactly the
    positions of its steps. *)
Lemma build_pos_map_spec (priority : list Step) :
  NoDup (_build_pos_map priority).*1
  ∧ forall key ps, (key, ps) ∈ _build_pos_map priority ->
      ps = positions_from 0 priority key ∧ key ∈ step_key <$> priority.
Proof.
  unfold _build_pos_map.
  assert (Hnd : NoDup (_build_pos_map_from 0 priority []).*1).
  { apply build_pos_map_from_NoDup. constructor. }
  split; [done |]. intros key ps Hin. split.
  - rewrite <- (pm_lookup_elem_of _ key ps Hnd Hin).
    by rewrite build_pos_map_from_lookup.
  - destruct (build_pos_map_from_keys priority 0 [] key) as [Hk | Hk]; [| | done].
    + apply list_elem_of_fmap. by exists (key, ps).
    + by apply elem_of_nil in Hk.
Qed.

(** ** One decision tick *)

Lemma scan_spec (sim : GameSim) (counts : gmap Key nat) (items : list (Key * list nat))
      (bp : nat) (bk : option Key) (bp' : nat) (bk' : option Key) :
  scan sim counts items bp bk = Some (bp', bk') ->
  (forall kp p, kp ∈ items -> buyable sim counts kp p -> (bp' <= p)%nat)
  ∧ ((bp' = bp ∧ bk' = bk)
     ∨ ((bp' < bp)%nat ∧ exists kp, kp ∈ items ∧ bk' = Some kp.1 ∧ buyable sim counts kp bp')).
Proof.
  revert bp bk. induction items as [| [key positions] rest IH]; intros bp bk Hscan.
  - simpl in Hscan. injection Hscan as <- <-. split; [|by left].
    intros kp p Hin. by apply elem_of_nil in Hin.
  - cbn [scan] in Hscan.
    destruct (counts !! key) as [c |] eqn:Hc; [|done]. cbn [mbind option_bind] in Hscan.
    assert (Hle : forall b k, scan sim counts rest b k = Some (bp', bk') -> (bp' <= b)%nat).
    { intros b k Hs. destruct (IH b k Hs) as [_ [[-> _] | [Hlt _]]]; lia. }
    destruct (decide (length positions ≤ c)%nat) as [Hlen | Hlen].
    { (* every step of this key is consumed *)
      destruct (IH bp bk Hscan) as [Hmin Hres]. split.
      - intros kp p [-> | Hin]%elem_of_cons (c' & cost & Hc' & Hp & Hrest).
        + simpl in *. rewrite Hc in Hc'. injection Hc' as <-.
          apply lookup_lt_Some in Hp. lia.
        + apply (Hmin kp p Hin). by exists c', cost.
      - destruct Hres as [Hres | (Hlt & kp & Hin & Hk & Hb)]; [by left |].
        right. split; [done |]. exists kp. split; [apply elem_of_cons; by right | done]. }
    destruct (positions !! c) as [p0 |] eqn:Hp0; [|done]. cbn [mbind option_bind] in Hscan.
    destruct (decide (bp ≤ p0)%nat) as [Hge | Hlt].
    { (* cannot beat the current best *)
      destruct (IH bp bk Hscan) as [Hmin Hres]. specialize (Hle _ _ Hscan). split.
      - intros kp p [-> | Hin]%elem_of_cons (c' & cost & Hc' & Hp & Hrest).
        + simpl in *. rewrite Hc in Hc'. injection Hc' as <-.
          rewrite Hp0 in Hp. injection Hp as <-. lia.
        + apply (Hmin kp p Hin). by exists c', cost.
      - destruct Hres as [Hres | (Hlt' & kp & Hin & Hk & Hb)]; [by left |].
        right. split; [done |]. exists kp. split; [apply elem_of_cons; by right | done]. }
    destruct (key_cost sim key) as [cost |] eqn:Hcost; [|done].
    cbn [mbind option_bind] in Hscan.
    destruct (truthy cost && can_afford sim cost) eqn:Hbuy.
    { (* a better candidate *)
      destruct (IH p0 (Some key) Hscan) as [Hmin Hres]. specialize (Hle _ _ Hscan). split.
      - intros kp p [-> | Hin]%elem_of_cons (c' & cost' & Hc' & Hp & Hrest).
        + simpl in *. rewrite Hc in Hc'. injection Hc' as <-.
          rewrite Hp0 in Hp. injection Hp as <-. lia.
        + apply (Hmin kp p Hin). by exists c', cost'.
      - right. destruct Hres as [[-> ->] | (Hlt' & kp & Hin & Hk & Hb)].
        + split; [lia |]. exists (key, positions).
          split; [apply elem_of_cons; by left |]. split; [done |].
          by exists c, cost.
        + split; [lia |]. exists kp. split; [apply elem_of_cons; by right | done]. }
    { (* not affordable *)
      destruct (IH bp bk Hscan) as [Hmin Hres]. split.
      - intros kp p [-> | Hin]%elem_of_cons (c' & cost' & Hc' & Hp & Hk' & Hb').
        + simpl in *. rewrite Hcost in Hk'. injection Hk' as <-. congruence.
        + apply (Hmin kp p Hin). by exists c', cost'.
      - destruct Hres as [Hres | (Hlt' & kp & Hin & Hk & Hb)]; [by left |].
        right. split; [done |]. exists kp. split; [apply elem_of_cons; by right | done]. }
Qed.

Lemma scan_total (sim : GameSim) (counts : gmap Key nat) (items : list (Key * list nat))
      (bp : nat) (bk : option Key) :
  (forall kp, kp ∈ items -> is_Some (counts !! kp.1) ∧ is_Some (key_cost sim kp.1)) ->
  is_Some (scan sim counts items bp bk).
Proof.
  revert bp bk. induction items as [| [key positions] rest IH]; intros bp bk Hok.
  - by eexists.
  - assert (Hrest : forall b k, is_Some (scan sim counts rest b k)).
    { intros b k. apply IH. intros kp Hin. apply Hok, elem_of_cons. by right. }
    destruct (Hok (key, positions)) as [[c Hc] [cost Hcost]]; [apply elem_of_cons; by left |].
    simpl in Hc, Hcost. cbn [scan]. rewrite Hc. cbn [mbind option_bind].
    destruct (decide (length positions ≤ c)%nat) as [Hlen | Hlen]; [apply Hrest |].
    destruct (lookup_lt_is_Some_2 positions c) as [p0 Hp0]; [lia |].
    rewrite Hp0. cbn [mbind option_bind].
    destruct (decide (bp ≤ p0)%nat); [apply Hrest |].
    rewrite Hcost. cbn [mbind option_bind].
    destruct (truthy cost && can_afford sim cost); apply Hrest.
Qed.

Lemma key_cost_total (cfg : Config) (sim : GameSim) (key : Key) :
  wf_config cfg -> Inv cfg sim -> valid_key cfg key -> is_Some (key_cost sim key).
Proof.
  intros Hwf HI Hv. unfold valid_key, key_cost in *.
  destruct (decide (key.1 = "creature")).
  - apply list_elem_of_fmap in Hv as (c & -> & Hc).
    destruct (get_creature_upgrade_cost_total cfg sim c Hwf HI Hc) as [cost ->]. by eexists.
  - apply list_elem_of_fmap in Hv as (b & -> & Hb).
    destruct (get_boost_upgrade_cost_total cfg sim b Hwf HI Hb) as [cost ->]. by eexists.
Qed.

Lemma key_cost_nonempty (cfg : Config) (sim : GameSim) (key : Key) (cost : Cost) :
  no_free_cost cfg -> config sim = cfg ->
  key_cost sim key = Some (Some cost) -> cost ≠ ∅.
Proof.
  intros [Hnc Hnb] Hcfg Hcost. unfold key_cost in Hcost.
  destruct (decide (key.1 = "creature")).
  - apply get_creature_upgrade_cost_inv in Hcost as (cr & u & Hcr & _ & Hu).
    rewrite Hcfg in Hcr. apply creatures_lookup_inv in Hcr as [Hcr _].
    eapply Forall_forall in Hnc; [|exact Hcr]. destruct Hnc as [Hun Hup].
    destruct u.
    + destruct Hu as (lv & _ & _ & Hin). by eapply Forall_forall in Hup.
    + rewrite Hu in Hun. done.
  - apply get_boost_upgrade_cost_inv in Hcost as (b & lv & Hb & _ & _ & Hin).
    rewrite Hcfg in Hb. apply boosts_lookup_inv in Hb as [Hb _].
    eapply Forall_forall in Hnb; [|exact Hb]. by eapply Forall_forall in Hnb.
Qed.

(** Without free costs the scan's test is affordability. *)
Lemma buyable_affordable (cfg : Config) (sim : GameSim) (counts : gmap Key nat)
      (kp : Key * list nat) (p : nat) :
  no_free_cost cfg -> config sim = cfg ->
  buyable sim counts kp p <-> affordable sim counts kp p.
Proof.
  intros Hnf Hcfg. split.
  - intros (c & cost & Hc & Hp & Hcost & Hb).
    apply andb_true_iff in Hb as [Ht Hca].
    destruct cost as [k |]; [|done].
    by exists c, k.
  - intros (c & cost & Hc & Hp & Hcost & Hca).
    exists c, (Some cost). repeat (split; [done |]).
    apply andb_true_iff. split; [|done].
    simpl. apply bool_decide_eq_true. by eapply key_cost_nonempty.
Qed.

(** An affordable upgrade succeeds, keeps the invariant and the clock. *)
Lemma upgrade_key_affordable (cfg : Config) (sim : GameSim) (key : Key) (cost : Cost) :
  wf_config cfg -> Inv cfg sim ->
  key_cost sim key = Some (Some cost) -> can_afford sim (Some cost) = true ->
  exists sim1, upgrade_key sim key = Some (true, sim1)
    ∧ Inv cfg sim1 ∧ time_elapsed_ms sim1 = time_elapsed_ms sim.
Proof.
  intros Hwf HI Hcost Hca. unfold key_cost, upgrade_key in *.
  destruct (decide (key.1 = "creature")).
  - pose proof (upgrade_creature_spec sim key.2 _ Hcost
                  (creature_cost_wf cfg sim _ _ Hwf HI Hcost)) as Hspec.
    rewrite Hca in Hspec. destruct Hspec as (k & s' & _ & Hup & _ & (_ & _ & _ & Ht) & _).
    exists s'. split; [done |]. split; [by eapply upgrade_creature_Inv | done].
  - pose proof (upgrade_boost_spec sim key.2 _ Hcost
                  (boost_cost_wf cfg sim _ _ Hwf HI Hcost)) as Hspec.
    rewrite Hca in Hspec. destruct Hspec as (k & s' & lv & _ & Hup & _ & (_ & _ & _ & Ht) & _).
    exists s'. split; [done |]. split; [by eapply upgrade_boost_Inv | done].
Qed.

Lemma pos_map_keys_valid (cfg : Config) (priority : list Step) (kp : Key * list nat) :
  known_steps cfg priority -> kp ∈ _build_pos_map priority -> valid_key cfg kp.1.
Proof.
  intros Hk Hin. destruct kp as [key ps].
  destruct (build_pos_map_spec priority) as [_ Hspec].
  destruct (Hspec key ps Hin) as [_ Hkey].
  apply list_elem_of_fmap in Hkey as (st & -> & Hst).
  by eapply Forall_forall in Hk.
Qed.

(** Two entries of the map never share a position. *)
Lemma pos_map_positions_disjoint (priority : list Step) (kp kp' : Key * list nat) (p : nat) :
  kp ∈ _build_pos_map priority -> kp' ∈ _build_pos_map priority ->
  p ∈ kp.2 -> p ∈ kp'.2 -> kp' = kp.
Proof.
  destruct kp as [key ps], kp' as [key' ps']. simpl. intros Hin Hin' Hp Hp'.
  destruct (build_pos_map_spec priority) as [_ Hspec].
  destruct (Hspec key ps Hin) as [-> _]. destruct (Hspec key' ps' Hin') as [-> _].
  apply positions_from_spec in Hp as (_ & st & Hst & Hk).
  apply positions_from_spec in Hp' as (_ & st' & Hst' & Hk').
  rewrite Hst in Hst'. injection Hst' as <-. by rewrite <- Hk, <- Hk'.
Qed.

Lemma decision_tick_spec (cfg : Config) (priority : list Step) (sim : GameSim)
      (counts : gmap Key nat) :
  wf_config cfg -> no_free_cost cfg -> Inv cfg sim -> known_steps cfg priority ->
  (forall kp, kp ∈ _build_pos_map priority -> is_Some (counts !! kp.1)) ->
  exists sim' counts',
    decision_tick (_build_pos_map priority) (length priority) sim counts = Some (sim', counts')
    ∧ tick_outcome (_build_pos_map priority) sim counts sim' counts'
    ∧ Inv cfg sim'
    ∧ (forall kp, kp ∈ _build_pos_map priority -> is_Some (counts' !! kp.1))
    ∧ time_elapsed_ms sim' = (time_elapsed_ms sim + STEP_MS)%Q.
Proof.
  intros Hwf Hnf HI Hknown Hcounts.
  set (pos_map := _build_pos_map priority) in *.
  assert (Hstep : (0 <= STEP_MS)%Q) by (vm_compute; discriminate).
  destruct (scan_total sim counts pos_map (length priority) None) as [[bp bk] Hscan].
  { intros kp Hin. split; [by apply Hcounts |].
    eapply key_cost_total; [done | done |]. by eapply pos_map_keys_valid. }
  destruct (scan_spec _ _ _ _ _ _ _ Hscan) as [Hmin Hres].
  unfold decision_tick. rewrite Hscan. cbn [mbind option_bind snd].
  destruct Hres as [[-> ->] | (Hlt & kp & Hin & -> & Hbuy)].
  - (* nothing is affordable *)
    cbn [purchase mbind option_bind fst snd].
    destruct (advance_closed_form cfg sim STEP_MS Hwf HI Hstep)
      as (sim' & _ & _ & _ & _ & _ & Hadv & HI' & Ht & _).
    exists sim', counts. rewrite Hadv. cbn [mbind option_bind].
    split; [done |]. split; [|done].
    right. split; [|done]. intros kp p Hin Haff.
    apply (buyable_affordable cfg) in Haff; [| done | apply HI].
    pose proof (Hmin kp p Hin Haff) as Hge.
    destruct Haff as (c & cost & _ & Hp & _).
    destruct (build_pos_map_spec priority) as [_ Hspec].
    destruct kp as [key ps]. destruct (Hspec key ps Hin) as [-> _].
    apply list_elem_of_lookup_2, positions_from_spec in Hp as (_ & st & Hst & _).
    apply lookup_lt_Some in Hst. simpl in *. lia.
  - (* the best entry is bought *)
    pose proof Hbuy as Haff. apply (buyable_affordable cfg) in Haff; [| done | apply HI].
    destruct Haff as (c & cost & Hc & Hp & Hcost & Hca).
    destruct (upgrade_key_affordable cfg sim kp.1 cost Hwf HI Hcost Hca)
      as (sim1 & Hup & HI1 & Ht1).
    cbn [purchase]. rewrite Hup. cbn [mbind option_bind snd]. rewrite Hc.
    cbn [mbind option_bind fst snd].
    destruct (advance_closed_form cfg sim1 STEP_MS Hwf HI1 Hstep)
      as (sim' & _ & _ & _ & _ & _ & Hadv & HI' & Ht & _).
    exists sim', (<[kp.1 := S c]> counts). rewrite Hadv. cbn [mbind option_bind].
    split; [done |]. split; [| split; [done | split]].
    + left. exists kp, bp, c, sim1. split; [done |].
      split; [by exists c, cost |]. split; [|done].
      intros kp' p' Hin' Haff'. split.
      * apply (Hmin kp' p' Hin'). apply (buyable_affordable cfg); [done | apply HI | done].
      * intros ->. destruct Haff' as (c' & cost' & _ & Hp' & _).
        eapply pos_map_positions_disjoint; [exact Hin | exact Hin' | |];
          by eapply list_elem_of_lookup_2.
    + intros kp' Hin'. destruct (decide (kp.1 = kp'.1)) as [<- | Hne].
      * rewrite lookup_insert_eq. by eexists.
      * rewrite lookup_insert_ne by done. by apply Hcounts.
    + by rewrite Ht, Ht1.
Qed.

(** ** The evaluator loop *)

Lemma init_counts_ok (pos_map : list (Key * list nat)) (kp : Key * list nat) :
  kp ∈ pos_map -> is_Some (init_counts pos_map !! kp.1).
Proof.
  intros Hin. unfold init_counts.
  apply (foldl_insert_is_Some fst (fun _ => 0%nat)).
  right. by apply list_elem_of_fmap_2.
Qed.

Lemma name_map_ok (priority : list Step) (kp : Key * list nat) :
  kp ∈ _build_pos_map priority -> is_Some (name_map_of priority !! kp.1).
Proof.
  intros Hin. destruct kp as [key ps].
  destruct (build_pos_map_spec priority) as [_ Hspec].
  destruct (Hspec key ps Hin) as [_ Hkey].
  unfold name_map_of. apply (foldl_insert_is_Some step_key (fun st => st.2)). by right.
Qed.

Lemma is_done_spec (cfg : Config) (sim : GameSim) :
  config sim = cfg ->
  is_done sim = true <-> (cfg_duration cfg <= time_elapsed_ms sim)%Q.
Proof.
  intros <-. unfold is_done, duration_ms. apply Qle_bool_iff.
Qed.

Lemma simulate_loop_total (cfg : Config) (priority : list Step) (fuel : nat)
      (sim : GameSim) (counts : gmap Key nat) :
  wf_config cfg -> no_free_cost cfg -> known_steps cfg priority ->
  Inv cfg sim ->
  (forall kp, kp ∈ _build_pos_map priority -> is_Some (counts !! kp.1)) ->
  (cfg_duration cfg <= time_elapsed_ms sim + inject_Z (Z.of_nat fuel) * STEP_MS)%Q ->
  exists final,
    simulate_loop fuel (_build_pos_map priority) (length priority) sim counts = Some final
    ∧ is_done final = true
    ∧ Inv cfg final
    ∧ runs_until_done (_build_pos_map priority) (length priority) sim counts final.
Proof.
  intros Hwf Hnf Hknown. revert sim counts.
  induction fuel as [| fuel IH]; intros sim counts HI Hcounts Hfuel.
  - assert (Hdone : is_done sim = true).
    { apply (is_done_spec cfg); [apply HI |]. change (inject_Z (Z.of_nat 0)) with 0%Q in Hfuel. lra. }
    exists sim. simpl. rewrite Hdone. split; [done |]. split; [done |]. split; [done |].
    by constructor.
  - destruct (is_done sim) eqn:Hdone.
    + exists sim. simpl. rewrite Hdone. split; [done |]. split; [done |]. split; [done |].
      by constructor.
    + destruct (decision_tick_spec cfg priority sim counts Hwf Hnf HI Hknown Hcounts)
        as (sim' & counts' & Htick & Hout & HI' & Hcounts' & Ht).
      destruct (IH sim' counts' HI' Hcounts') as (final & Hloop & Hfin & HIf & Hruns).
      { rewrite Ht. rewrite Nat2Z.inj_succ in Hfuel. unfold Z.succ in Hfuel.
        rewrite inject_Z_plus in Hfuel. change (inject_Z 1) with 1%Q in Hfuel. lra. }
      exists final. simpl. rewrite Hdone, Htick. cbn [mbind option_bind fst snd].
      split; [done |]. split; [done |]. split; [done |].
      by eapply run_tick.
Qed.

Lemma max_ticks_enough (cfg : Config) :
  (cfg_duration cfg <= 0 + inject_Z (Z.of_nat (max_ticks cfg)) * STEP_MS)%Q.
Proof.
  unfold max_ticks.
  assert (Hstep : (0 < STEP_MS)%Q) by (vm_compute; reflexivity).
  pose proof (Qle_ceiling (cfg_duration cfg / STEP_MS)) as Hc.
  set (z := Qceiling (cfg_duration cfg / STEP_MS)) in *.
  assert (Hz : (inject_Z z <= inject_Z (Z.of_nat (Z.to_nat z)))%Q).
  { rewrite <- Zle_Qle. lia. }
  assert (Hd : (cfg_duration cfg == cfg_duration cfg / STEP_MS * STEP_MS)%Q) by (field; lra).
  assert (cfg_duration cfg / STEP_MS * STEP_MS
          <= inject_Z (Z.of_nat (Z.to_nat z)) * STEP_MS)%Q.
  { apply Qmult_le_compat_r; lra. }
  lra.
Qed.

Lemma simulate_of_total (cfg : Config) (priority : list Step) :
  wf_config cfg -> no_free_cost cfg -> known_steps cfg priority ->
  exists final,
    simulate_of cfg priority = Some (total_damage final)
    ∧ is_done final = true
    ∧ runs_until_done (_build_pos_map priority) (length priority)
        (GameSim_init cfg) (init_counts (_build_pos_map priority)) final.
Proof.
  intros Hwf Hnf Hknown.
  destruct (simulate_loop_total cfg priority (max_ticks cfg) (GameSim_init cfg)
              (init_counts (_build_pos_map priority)) Hwf Hnf Hknown)
    as (final & Hloop & Hdone & _ & Hruns).
  - by apply Inv_init.
  - intros kp Hin. by apply init_counts_ok.
  - apply max_ticks_enough.
  - exists final. unfold simulate_of. rewrite Hloop. done.
Qed.

(** The bound on the iterations is immaterial once the loop has finished. *)
Lemma simulate_loop_more_fuel (pos_map : list (Key * list nat)) (n fuel fuel' : nat)
      (sim final : GameSim) (counts : gmap Key nat) :
  simulate_loop fuel pos_map n sim counts = Some final -> (fuel <= fuel')%nat ->
  simulate_loop fuel' pos_map n sim counts = Some final.
Proof.
  revert fuel' sim counts. induction fuel as [| fuel IH]; intros fuel' sim counts Hrun Hle.
  - simpl in Hrun. destruct (is_done sim) eqn:Hd; [|done].
    destruct fuel'; simpl; by rewrite Hd.
  - destruct fuel' as [| fuel']; [lia |]. simpl in *.
    destruct (is_done sim); [done |].
    destruct (decision_tick pos_map n sim counts) as [[sim' counts'] |]; [|done].
    cbn [mbind option_bind fst snd] in *. apply IH; [done | lia].
Qed.

(** ** [simulate_with_log] makes the same decisions *)

Lemma purchase_with_log_proj (name_map : gmap Key string) (sim : GameSim)
      (counts : gmap Key nat) (log : list LogEntry) (best_key : option Key)
      (sim1 : GameSim) (counts1 : gmap Key nat) (log1 : list LogEntry) :
  purchase_with_log name_map sim counts log best_key = Some (sim1, counts1, log1) ->
  purchase sim counts best_key = Some (sim1, counts1).
Proof.
  destruct best_key as [key |]; simpl; [|by intros [= <- <- <-]].
  destruct (name_map !! key) as [name |]; [|done]. cbn [mbind option_bind].
  unfold upgrade_key. destruct (decide (key.1 = "creature")).
  - destruct (upgrade_creature sim key.2) as [[ok s'] |]; [|done]. cbn [mbind option_bind snd].
    destruct (creature_levels s' !! key.2) as [lv |]; [|done]. cbn [mbind option_bind fst snd].
    destruct (counts !! key) as [c |]; [|done]. cbn [mbind option_bind].
    by intros [= <- <- <-].
  - destruct (upgrade_boost sim key.2) as [[ok s'] |]; [|done]. cbn [mbind option_bind snd].
    destruct (boost_levels s' !! key.2) as [lv |]; [|done]. cbn [mbind option_bind fst snd].
    destruct (counts !! key) as [c |]; [|done]. cbn [mbind option_bind].
    by intros [= <- <- <-].
Qed.

Lemma decision_tick_with_log_proj (name_map : gmap Key string)
      (pos_map : list (Key * list nat)) (n : nat) (sim : GameSim) (counts : gmap Key nat)
      (log : list LogEntry) (sim' : GameSim) (counts' : gmap Key nat) (log' : list LogEntry) :
  decision_tick_with_log name_map pos_map n sim counts log = Some (sim', counts', log') ->
  decision_tick pos_map n sim counts = Some (sim', counts').
Proof.
  unfold decision_tick_with_log, decision_tick.
  destruct (scan sim counts pos_map n None) as [[bp bk] |]; [|done]. cbn [mbind option_bind snd].
  destruct (purchase_with_log name_map sim counts log bk) as [[[sim1 counts1] log1] |] eqn:Hp;
    [|done].
  rewrite (purchase_with_log_proj _ _ _ _ _ _ _ _ Hp). cbn [mbind option_bind fst snd].
  destruct (advance sim1 STEP_MS) as [s2 |]; [|done]. cbn [mbind option_bind].
  by intros [= <- <- <-].
Qed.

(** In a well-formed state the logging variant of a tick returns whenever
    the plain one does. *)
Lemma decision_tick_with_log_total (cfg : Config) (priority : list Step)
      (sim : GameSim) (counts : gmap Key nat) (log : list LogEntry)
      (sim' : GameSim) (counts' : gmap Key nat) :
  wf_config cfg -> Inv cfg sim -> known_steps cfg priority ->
  decision_tick (_build_pos_map priority) (length priority) sim counts = Some (sim', counts') ->
  exists log',
    decision_tick_with_log (name_map_of priority) (_build_pos_map priority) (length priority)
                           sim counts log = Some (sim', counts', log').
Proof.
  intros Hwf HI Hknown. unfold decision_tick, decision_tick_with_log.
  destruct (scan sim counts (_build_pos_map priority) (length priority) None)
    as [[bp bk] |] eqn:Hscan; [|done].
  cbn [mbind option_bind snd].
  destruct bk as [key |]; cbn [purchase purchase_with_log].
  2: { cbn [mbind option_bind fst snd]. destruct (advance sim STEP_MS); [|done].
       cbn [mbind option_bind]. intros [= <- <-]. by eexists. }
  destruct (scan_spec _ _ _ _ _ _ _ Hscan) as [_ [[_ [=]] | (_ & kp & Hin & [= ->] & _)]].
  destruct (name_map_ok priority kp Hin) as [name ->]. cbn [mbind option_bind].
  pose proof (pos_map_keys_valid cfg priority kp Hknown Hin) as Hvalid.
  unfold upgrade_key. unfold valid_key in Hvalid.
  destruct (decide (kp.1.1 = "creature")).
  - apply list_elem_of_fmap in Hvalid as (c & Hid & Hc). rewrite Hid.
    destruct (upgrade_creature_total cfg sim c Hwf HI Hc) as (ok & s1 & -> & HI1).
    cbn [mbind option_bind snd].
    destruct (inv_creature _ _ HI1 c Hc) as (lv & _ & _ & -> & _).
    cbn [mbind option_bind fst snd].
    destruct (counts !! kp.1) as [cn |]; [|done]. cbn [mbind option_bind fst snd].
    destruct (advance s1 STEP_MS); [|done]. cbn [mbind option_bind].
    intros [= <- <-]. by eexists.
  - apply list_elem_of_fmap in Hvalid as (b & Hid & Hb). rewrite Hid.
    destruct (upgrade_boost_total cfg sim b Hwf HI Hb) as (ok & s1 & -> & HI1).
    cbn [mbind option_bind snd].
    destruct (inv_boost _ _ HI1 b Hb) as (lv & -> & _).
    cbn [mbind option_bind fst snd].
    destruct (counts !! kp.1) as [cn |]; [|done]. cbn [mbind option_bind fst snd].
    destruct (advance s1 STEP_MS); [|done]. cbn [mbind option_bind].
    intros [= <- <-]. by eexists.
Qed.

Lemma simulate_with_log_loop_total (cfg : Config) (priority : list Step) (fuel : nat)
      (sim final : GameSim) (counts : gmap Key nat) (log : list LogEntry) :
  wf_config cfg -> no_free_cost cfg -> known_steps cfg priority ->
  Inv cfg sim ->
  (forall kp, kp ∈ _build_pos_map priority -> is_Some (counts !! kp.1)) ->
  simulate_loop fuel (_build_pos_map priority) (length priority) sim counts = Some final ->
  exists log',
    simulate_with_log_loop fuel (name_map_of priority) (_build_pos_map priority)
                           (length priority) sim counts log = Some (final, log').
Proof.
  intros Hwf Hnf Hknown. revert sim counts log.
  induction fuel as [| fuel IH]; intros sim counts log HI Hcounts Hrun; simpl in *.
  - destruct (is_done sim); [|done]. injection Hrun as <-. by eexists.
  - destruct (is_done sim); [injection Hrun as <-; by eexists |].
    destruct (decision_tick_spec cfg priority sim counts Hwf Hnf HI Hknown Hcounts)
      as (sim' & counts' & Htick & _ & HI' & Hcounts' & _).
    rewrite Htick in Hrun. cbn [mbind option_bind fst snd] in Hrun.
    destruct (decision_tick_with_log_total cfg priority sim counts log sim' counts'
                Hwf HI Hknown Htick) as [log1 ->].
    cbn [mbind option_bind fst snd]. by apply IH.
Qed.

Lemma simulate_with_log_loop_proj (name_map : gmap Key string)
      (pos_map : list (Key * list nat)) (n fuel : nat) (sim final : GameSim)
      (counts : gmap Key nat) (log log' : list LogEntry) :
  simulate_with_log_loop fuel name_map pos_map n sim counts log = Some (final, log') ->
  simulate_loop fuel pos_map n sim counts = Some final.
Proof.
  revert sim counts log. induction fuel as [| fuel IH]; intros sim counts log; simpl.
  - destruct (is_done sim); [|done]. by intros [= <- <-].
  - destruct (is_done sim); [by intros [= <- <-] |].
    destruct (decision_tick_with_log name_map pos_map n sim counts log)
      as [[[sim1 counts1] log1] |] eqn:Htick; [|done].
    rewrite (decision_tick_with_log_proj _ _ _ _ _ _ _ _ _ Htick).
    cbn [mbind option_bind fst snd]. apply IH.
Qed.

(** C4. For a well-formed configuration without free costs (the shipped one
    is such), an ordering over configured ids, and any well-formed engine
    state with its pointers: a decision tick returns normally; if some key
    with an unconsumed step has an affordable current cost, exactly the
    affordable key with the smallest ordering position is bought, by one
    successful upgrade call, and its pointer alone advances; otherwise
    nothing is bought; [advance(STEP_MS)] follows in both cases; the logging
    variant makes the same tick.  [simulate] and [simulate_with_log] repeat
    such ticks from the initial state until [is_done], within the iteration
    bound, and return the damage of the same final state. *)
Theorem C4_one_purchase_per_decision_tick
        (cfg : Config) (priority : list Step) (sim : GameSim) (counts : gmap Key nat) :
  wf_config cfg -> no_free_cost cfg -> known_steps cfg priority ->
  Inv cfg sim ->
  (forall kp, kp ∈ _build_pos_map priority -> is_Some (counts !! kp.1)) ->
  (exists sim' counts',
     decision_tick (_build_pos_map priority) (length priority) sim counts = Some (sim', counts')
     ∧ tick_outcome (_build_pos_map priority) sim counts sim' counts'
     ∧ forall log, exists log',
         decision_tick_with_log (name_map_of priority) (_build_pos_map priority)
                                (length priority) sim counts log = Some (sim', counts', log'))
  ∧ (exists final log,
       simulate_of cfg priority = Some (total_damage final)
       ∧ simulate_with_log_of cfg priority = Some (total_damage final, log, final)
       ∧ is_done final = true
       ∧ runs_until_done (_build_pos_map priority) (length priority)
           (GameSim_init cfg) (init_counts (_build_pos_map priority)) final).
Proof.
  intros Hwf Hnf Hknown HI Hcounts. split.
  - destruct (decision_tick_spec cfg priority sim counts Hwf Hnf HI Hknown Hcounts)
      as (sim' & counts' & Htick & Hout & _).
    exists sim', counts'. split; [done |]. split; [done |].
    intros log. by eapply decision_tick_with_log_total.
  - destruct (simulate_loop_total cfg priority (max_ticks cfg) (GameSim_init cfg)
                (init_counts (_build_pos_map priority)) Hwf Hnf Hknown)
      as (final & Hloop & Hdone & _ & Hruns).
    + by apply Inv_init.
    + intros kp Hin. by apply init_counts_ok.
    + apply max_ticks_enough.
    + destruct (simulate_with_log_loop_total cfg priority (max_ticks cfg) (GameSim_init cfg)
                  final (init_counts (_build_pos_map priority)) [] Hwf Hnf Hknown)
        as [log Hlog]; [by apply Inv_init | intros kp Hin; by apply init_counts_ok | done |].
      exists final, log. unfold simulate_of, simulate_with_log_of. rewrite Hloop, Hlog. done.
Qed.

Lemma build_template_known : known_steps EVENT_CONFIG build_template.
Proof. apply (bool_decide_unpack _). vm_compute. reflexivity. Qed.

Lemma STEP_MS_nonneg : (0 <= STEP_MS)%Q.
Proof. vm_compute. discriminate. Qed.

Lemma C4_witness :
  exists s1,
    advance (GameSim_init EVENT_CONFIG) STEP_MS = Some s1
    ∧ (exists sim' counts',
         decision_tick (_build_pos_map build_template) (length build_template) s1
                       (init_counts (_build_pos_map build_template)) = Some (sim', counts')
         ∧ tick_outcome (_build_pos_map build_template) s1
                        (init_counts (_build_pos_map build_template)) sim' counts'
         ∧ forall log, exists log',
             decision_tick_with_log (name_map_of build_template) (_build_pos_map build_template)
               (length build_template) s1 (init_counts (_build_pos_map build_template)) log
             = Some (sim', counts', log'))
    ∧ (exists final log,
         simulate_of EVENT_CONFIG build_template = Some (total_damage final)
         ∧ simulate_with_log_of EVENT_CONFIG build_template
           = Some (total_damage final, log, final)
         ∧ is_done final = true
         ∧ runs_until_done (_build_pos_map build_template) (length build_template)
             (GameSim_init EVENT_CONFIG) (init_counts (_build_pos_map build_template)) final).
Proof.
  destruct (advance_closed_form EVENT_CONFIG (GameSim_init EVENT_CONFIG) STEP_MS
              wf_EVENT_CONFIG (Inv_init _ wf_EVENT_CONFIG) STEP_MS_nonneg)
    as (s1 & _ & _ & _ & _ & _ & Hadv & HI1 & _).
  exists s1. split; [exact Hadv |].
  apply (C4_one_purchase_per_decision_tick EVENT_CONFIG build_template s1
           (init_counts (_build_pos_map build_template))).
  - exact wf_EVENT_CONFIG.
  - exact no_free_cost_EVENT_CONFIG.
  - exact build_template_known.
  - exact HI1.
  - intros kp Hin. exact (init_counts_ok _ kp Hin).
Defined.

(** ** Hill climbing *)

Lemma hc_pairs_app (priority : list Step) (l1 l2 : list (nat * nat)) (b : HCBest) :
  hc_pairs priority (l1 ++ l2) b = hc_pairs priority l1 b ≫= hc_pairs priority l2.
Proof.
  revert b. induction l1 as [| [i j] l1 IH]; intros b; [done |].
  simpl. destruct (hc_try priority i j b) as [b' |]; [|done]. simpl. apply IH.
Qed.

Lemma hc_inner_pairs (priority : list Step) (i : nat) (js : list nat) (b : HCBest) :
  hc_inner priority i js b = hc_pairs priority ((fun j => (i, j)) <$> js) b.
Proof.
  revert b. induction js as [| j js IH]; intros b; [done |].
  simpl. destruct (hc_try priority i j b) as [b' |]; [|done]. simpl. apply IH.
Qed.

Lemma hc_outer_pairs (priority : list Step) (n : nat) (rows : list nat) (b : HCBest) :
  hc_outer priority n rows b
  = hc_pairs priority
      (flat_map (fun i => (fun j => (i, j)) <$> seq (i + 1) (n - (i + 1))) rows) b.
Proof.
  revert b. induction rows as [| i rows IH]; intros b; [done |].
  simpl. rewrite hc_pairs_app, hc_inner_pairs.
  destruct (hc_pairs priority ((fun j => (i, j)) <$> seq (i + 1) (n - (i + 1))) b) as [b' |];
    [|done].
  simpl. apply IH.
Qed.




(** They are the pairs [i < j < n]. *)
Lemma elem_of_swap_pairs (n i j : nat) : (i, j) ∈ swap_pairs n <-> (i < j < n)%nat.
Proof.
  unfold swap_pairs, swap_pairs_upto. rewrite list_elem_of_In, in_flat_map. split.
  - intros (i' & Hi' & Hin). apply list_elem_of_In, list_elem_of_fmap in Hin as (j' & [= -> ->] & Hj').
    apply in_seq in Hi'. apply elem_of_seq in Hj'. lia.
  - intros Hij. exists i. split; [apply in_seq; lia |].
    apply list_elem_of_In, list_elem_of_fmap. exists j. split; [done |]. apply elem_of_seq. lia.
Qed.


Lemma Qltb_true (a b : Q) : Qltb a b = true <-> (a < b)%Q.
Proof.
  unfold Qltb. rewrite negb_true_iff. split.
  - intros Hf. apply Qnot_le_lt. intros Hle. apply Qle_bool_iff in Hle. congruence.
  - intros Hlt. destruct (Qle_bool b a) eqn:E; [|done].
    apply Qle_bool_iff in E. lra.
Qed.

Lemma Qltb_false (a b : Q) : Qltb a b = false <-> (b <= a)%Q.
Proof.
  unfold Qltb. rewrite negb_false_iff. apply Qle_bool_iff.
Qed.

(** The scan keeps the best score seen so far and the pair that gave it. *)
Lemma hc_pairs_spec (priority : list Step) (pairs : list (nat * nat)) (b : HCBest) :
  (forall i j, (i, j) ∈ pairs ->
     exists nbr s, swap_positions priority i j = Some nbr ∧ simulate nbr = Some s) ->
  exists b',
    hc_pairs priority pairs b = Some b'
    ∧ (hc_score b <= hc_score b')%Q
    ∧ (forall i j nbr s, (i, j) ∈ pairs ->
         swap_positions priority i j = Some nbr -> simulate nbr = Some s ->
         (s <= hc_score b')%Q)
    ∧ (b' = b
       ∨ ((hc_score b < hc_score b')%Q
          ∧ exists i j nbr, (i, j) ∈ pairs
              ∧ hc_i b' = Z.of_nat i ∧ hc_j b' = Z.of_nat j
              ∧ swap_positions priority i j = Some nbr
              ∧ simulate nbr = Some (hc_score b'))).
Proof.
  revert b. induction pairs as [| [i j] rest IH]; intros b Hall.
  - exists b. split; [done |]. split; [lra |]. split; [|by left].
    intros i j nbr s Hin. by apply elem_of_nil in Hin.
  - destruct (Hall i j) as (nbr & s & Hswap & Hsim); [apply elem_of_cons; by left |].
    assert (Hrest : forall i j, (i, j) ∈ rest ->
              exists nbr s, swap_positions priority i j = Some nbr ∧ simulate nbr = Some s).
    { intros i' j' Hin. apply Hall, elem_of_cons. by right. }
    cbn [hc_pairs]. unfold hc_try. rewrite Hswap. cbn [mbind option_bind].
    rewrite Hsim. cbn [mbind option_bind].
    destruct (Qltb (hc_score b) s) eqn:Hlt.
    + apply Qltb_true in Hlt.
      destruct (IH {| hc_score := s; hc_i := Z.of_nat i; hc_j := Z.of_nat j |} Hrest)
        as (b' & Hrun & Hle & Hmax & Hres).
      simpl in Hle. exists b'. split; [done |]. split; [lra |]. split.
      * intros i' j' nbr' s' [[= -> ->] | Hin]%elem_of_cons Hsw Hsi.
        -- rewrite Hswap in Hsw. injection Hsw as <-. rewrite Hsim in Hsi. injection Hsi as <-.
           done.
        -- by eapply Hmax.
      * right. destruct Hres as [-> | (Hlt' & i' & j' & nbr' & Hin & Hi & Hj & Hsw & Hsi)].
        -- simpl. split; [done |]. exists i, j, nbr.
           split; [apply elem_of_cons; by left | done].
        -- simpl in Hlt'. split; [lra |]. exists i', j', nbr'.
           split; [apply elem_of_cons; by right | done].
    + apply Qltb_false in Hlt.
      destruct (IH b Hrest) as (b' & Hrun & Hle & Hmax & Hres).
      exists b'. split; [done |]. split; [done |]. split.
      * intros i' j' nbr' s' [[= -> ->] | Hin]%elem_of_cons Hsw Hsi.
        -- rewrite Hswap in Hsw. injection Hsw as <-. rewrite Hsim in Hsi. injection Hsi as <-.
           lra.
        -- by eapply Hmax.
      * destruct Hres as [-> | (Hlt' & i' & j' & nbr' & Hin & Hi & Hj & Hsw & Hsi)]; [by left |].
        right. split; [done |]. exists i', j', nbr'.
        split; [apply elem_of_cons; by right | done].
Qed.

Lemma known_steps_Permutation (cfg : Config) (l l' : list Step) :
  l' ≡ₚ l -> known_steps cfg l -> known_steps cfg l'.
Proof. intros Hp Hk. unfold known_steps in *. by rewrite Hp. Qed.

(** [simulate] returns on every ordering over configured ids. *)
Lemma simulate_total (priority : list Step) :
  known_steps EVENT_CONFIG priority -> exists s, simulate priority = Some s.
Proof.
  intros Hk.
  destruct (simulate_of_total EVENT_CONFIG priority wf_EVENT_CONFIG
              no_free_cost_EVENT_CONFIG Hk) as (final & Hsim & _).
  by eexists.
Qed.

Lemma swap_candidates_total (priority : list Step) (i j : nat) :
  known_steps EVENT_CONFIG priority -> (i, j) ∈ swap_pairs (length priority) ->
  exists nbr s, swap_positions priority i j = Some nbr ∧ simulate nbr = Some s.
Proof.
  intros Hk Hin. apply elem_of_swap_pairs in Hin.
  destruct (lookup_lt_is_Some_2 priority i) as [x Hx]; [lia |].
  destruct (lookup_lt_is_Some_2 priority j) as [y Hy]; [lia |].
  assert (Hsw : swap_positions priority i j = Some (<[j := x]> (<[i := y]> priority))).
  { unfold swap_positions. by rewrite Hy, Hx. }
  destruct (simulate_total (<[j := x]> (<[i := y]> priority))) as [s Hs].
  { eapply known_steps_Permutation; [|exact Hk]. by eapply swap_positions_Permutation. }
  by eexists _, _.
Qed.

Lemma hill_climb_spec (priority : list Step) :
  known_steps EVENT_CONFIG priority ->
  exists base result score improved,
    simulate priority = Some base
    ∧ hill_climb priority = Some (result, score, improved)
    ∧ hc_outer priority (length priority) (seq 0 (length priority))
               {| hc_score := base; hc_i := -1; hc_j := -1 |}
      = hc_pairs priority (swap_pairs (length priority))
                 {| hc_score := base; hc_i := -1; hc_j := -1 |}
    ∧ hill_climb_result priority base result score improved.
Proof.
  intros Hk. destruct (simulate_total priority Hk) as [base Hbase].
  set (b0 := {| hc_score := base; hc_i := -1; hc_j := -1 |}).
  destruct (hc_pairs_spec priority (swap_pairs (length priority)) b0)
    as (b' & Hrun & Hle & Hmax & Hres).
  { intros i j Hin. by apply swap_candidates_total. }
  assert (Hall : forall i j, (i < j < length priority)%nat ->
            exists nbr s, swap_positions priority i j = Some nbr
              ∧ simulate nbr = Some s ∧ (s <= hc_score b')%Q).
  { intros i j Hij. apply elem_of_swap_pairs in Hij.
    destruct (swap_candidates_total priority i j Hk Hij) as (nbr & s & Hsw & Hsi).
    exists nbr, s. split; [done |]. split; [done |]. by eapply Hmax. }
  assert (Houter : hc_outer priority (length priority) (seq 0 (length priority)) b0
                   = hc_pairs priority (swap_pairs (length priority)) b0)
    by apply hc_outer_pairs.
  unfold hill_climb. rewrite Hbase. cbn [mbind option_bind].
  fold b0. rewrite Houter, Hrun. cbn [mbind option_bind].
  destruct Hres as [-> | (Hlt & i & j & nbr & Hin & Hi & Hj & Hsw & Hsi)].
  - (* no swap improves *)
    exists base, priority, base, false. simpl.
    split; [done |]. split; [done |]. split; [done |].
    split; [done |]. split; [lra |]. split; [exact Hall |]. split; [done | done].
  - (* the best improving swap is applied *)
    exists base, nbr, (hc_score b'), true.
    rewrite Hi, Hj. destruct (Z.leb_spec 0 (Z.of_nat i)); [|lia].
    rewrite !Nat2Z.id, Hsw. cbn [mbind option_bind].
    split; [done |]. split; [done |]. split; [done |].
    split; [done |]. split; [simpl in Hlt; lra |]. split; [exact Hall |]. split; [|done].
    intros _. split; [exact Hlt |]. exists i, j. split; [|done].
    by apply elem_of_swap_pairs.
Qed.

(** The pass loop of [optimize]: an improving pass is followed by the next
    one, a converged pass ends the loop. *)
Lemma passes_loop_step (k : nat) (priority result : list Step) (sc score : Q)
      (improved : bool) :
  hill_climb priority = Some (result, score, improved) ->
  passes_loop (S k) (Some priority) sc
  = if improved then passes_loop k (Some result) score else Some (Some result, score).
Proof. intros Hhc. cbn [passes_loop mbind option_bind]. rewrite Hhc. by destruct improved. Qed.





(** ** Search parameters are not validated *)

Section DegenerateSearch.
Context {G : Type} `{PyRandomLaws G} `{PyMath}.




End DegenerateSearch.



(** ** The what-if copy of the greedy baseline *)

Lemma heap_extends_refl (h : Heap) : heap_extends h h.
Proof. by intros l _. Qed.

Lemma heap_extends_dom (h0 h : Heap) (l : loc) :
  heap_extends h0 h -> l ∈ dom h0 -> l ∈ dom h.
Proof.
  intros He Hl. specialize (He l Hl). apply elem_of_dom in Hl as [c Hc].
  apply elem_of_dom. exists c. by rewrite He.
Qed.

Lemma heap_extends_insert (h0 h : Heap) (l : loc) (c : Cell) :
  heap_extends h0 h -> l ∉ dom h0 -> heap_extends h0 (<[l := c]> h).
Proof.
  intros He Hl l' Hl'. rewrite lookup_insert_ne; [by apply He |].
  intros ->. done.
Qed.

Lemma alloc_spec (h : Heap) (c : Cell) :
  ((alloc h c).1 ∉ dom h) ∧ (alloc h c).2 = <[(alloc h c).1 := c]> h.
Proof. unfold alloc. simpl. split; [apply is_fresh | done]. Qed.

Lemma heap_extends_alloc (h0 h : Heap) (c : Cell) :
  heap_extends h0 h ->
  ((alloc h c).1 ∉ dom h0) ∧ heap_extends h0 (alloc h c).2.
Proof.
  intros He. destruct (alloc_spec h c) as [Hf Heq].
  assert (Hp : (alloc h c).1 ∉ dom h0).
  { intros Hin. apply Hf. by eapply heap_extends_dom. }
  split; [done |]. rewrite Heq. by apply heap_extends_insert.
Qed.

(** The upgrades never touch the progress accumulators. *)
Lemma upgrade_creature_progress (s s' : GameSim) (cid : string) (ok : bool) :
  upgrade_creature s cid = Some (ok, s') -> creature_progress s' = creature_progress s.
Proof.
  unfold upgrade_creature.
  destruct (get_creature_upgrade_cost s cid) as [[c |] |]; simpl; [| by intros [= _ <-] | done].
  destruct (can_afford s (Some c)); simpl; [| by intros [= _ <-]].
  destruct (_spend (resources s) c) as [res' |]; simpl; [|done].
  destruct (creature_unlocked s !! cid) as [[|] |]; simpl; [| by intros [= _ <-] | done].
  destruct (creature_levels s !! cid) as [lv |]; simpl; [|done]. by intros [= _ <-].
Qed.

Lemma upgrade_boost_progress (s s' : GameSim) (bid : string) (ok : bool) :
  upgrade_boost s bid = Some (ok, s') -> creature_progress s' = creature_progress s.
Proof.
  unfold upgrade_boost.
  destruct (get_boost_upgrade_cost s bid) as [[c |] |]; simpl; [| by intros [= _ <-] | done].
  destruct (can_afford s (Some c)); simpl; [| by intros [= _ <-]].
  destruct (_spend (resources s) c) as [res' |]; simpl; [|done].
  destruct (boost_levels s !! bid) as [lv |]; simpl; [|done]. by intros [= _ <-].
Qed.

Lemma view_obj (h : Heap) (p : loc) (s : GameSim) :
  view h p = Some s ->
  exists lc lr ll lu lp lb td te,
    h !! p = Some (CObj lc lr ll lu lp lb td te)
    ∧ h !! lc = Some (CConfig (config s))
    ∧ h !! lr = Some (CDictQ (resources s))
    ∧ h !! ll = Some (CDictZ (creature_levels s))
    ∧ h !! lu = Some (CDictB (creature_unlocked s))
    ∧ h !! lp = Some (CDictQ (creature_progress s))
    ∧ h !! lb = Some (CDictZ (boost_levels s))
    ∧ td = total_damage s ∧ te = time_elapsed_ms s.
Proof.
  unfold view, get_config, get_dictQ, get_dictZ, get_dictB.
  destruct (h !! p) as [[lc lr ll lu lp lb td te | | | |] |] eqn:Hp; try done.
  destruct (h !! lc) as [[| cfg | | |] |] eqn:Hlc; try done. cbn [mbind option_bind].
  destruct (h !! lr) as [[| | r | |] |] eqn:Hlr; try done. cbn [mbind option_bind].
  destruct (h !! ll) as [[| | | l |] |] eqn:Hll; try done. cbn [mbind option_bind].
  destruct (h !! lu) as [[| | | | u] |] eqn:Hlu; try done. cbn [mbind option_bind].
  destruct (h !! lp) as [[| | pr | |] |] eqn:Hlp; try done. cbn [mbind option_bind].
  destruct (h !! lb) as [[| | | b |] |] eqn:Hlb; try done. cbn [mbind option_bind].
  intros [= <-]. simpl. by eexists lc, lr, ll, lu, lp, lb, td, te.
Qed.

Lemma view_extends (h h' : Heap) (p : loc) (s : GameSim) :
  heap_extends h h' -> view h p = Some s -> view h' p = Some s.
Proof.
  intros He Hv.
  destruct (view_obj h p s Hv)
    as (lc & lr & ll & lu & lp & lb & td & te & Hp & Hc & Hr & Hl & Hu & Hpr & Hb & -> & ->).
  assert (Hin : forall l c, h !! l = Some c -> h' !! l = Some c).
  { intros l c Hlk. rewrite He; [done |]. apply elem_of_dom. by exists c. }
  unfold view, get_config, get_dictQ, get_dictZ, get_dictB.
  rewrite (Hin _ _ Hp), (Hin _ _ Hc), (Hin _ _ Hr), (Hin _ _ Hl), (Hin _ _ Hu),
    (Hin _ _ Hpr), (Hin _ _ Hb).
  simpl. by destruct s.
Qed.

(** Rebinding an attribute of the copy to a fresh dict leaves the cells of
    the original heap [h0] alone; only the rebound field of the copy
    changes. *)
Ltac rebind_tac h0 h p2 p getter :=
  let Hp := fresh "Hp" in let d := fresh "d" in let Hd := fresh "Hd" in
  let He := fresh "He" in let Hp2 := fresh "Hp2" in let Hobj := fresh "Hobj" in
  let Hfresh := fresh "Hfresh" in let Hext := fresh "Hext" in
  let l1 := fresh "l" in let h1 := fresh "h" in
  intros He Hp2 Hobj;
  match goal with
  | |- ?f h p2 p = Some _ -> _ => unfold f
  end;
  destruct (h !! p) as [[? ? ? ? ? ? ? ? | | | |] |] eqn:Hp; try done;
  rewrite Hobj;
  match goal with
  | |- context [getter h ?l] => destruct (getter h l) as [d |] eqn:Hd
  end; [| done];
  cbn [mbind option_bind];
  match goal with
  | |- context [alloc h ?c] =>
      destruct (heap_extends_alloc h0 h c He) as [Hfresh Hext];
      destruct (alloc h c) as [l1 h1]; simpl in Hfresh, Hext
  end;
  intros [= <-]; exists l1; split; [exact Hfresh |];
  split; [by apply heap_extends_insert | by rewrite lookup_insert_eq].

Lemma rebind_resources_spec (h0 h h' : Heap) (p2 p : loc)
      (lc lr ll lu lp lb : loc) (td te : Q) :
  heap_extends h0 h -> (p2 ∉ dom h0) ->
  h !! p2 = Some (CObj lc lr ll lu lp lb td te) ->
  rebind_resources h p2 p = Some h' ->
  exists lr', (lr' ∉ dom h0) ∧ heap_extends h0 h'
    ∧ h' !! p2 = Some (CObj lc lr' ll lu lp lb td te).
Proof. rebind_tac h0 h p2 p get_dictQ. Qed.

Lemma rebind_creature_levels_spec (h0 h h' : Heap) (p2 p : loc)
      (lc lr ll lu lp lb : loc) (td te : Q) :
  heap_extends h0 h -> (p2 ∉ dom h0) ->
  h !! p2 = Some (CObj lc lr ll lu lp lb td te) ->
  rebind_creature_levels h p2 p = Some h' ->
  exists ll', (ll' ∉ dom h0) ∧ heap_extends h0 h'
    ∧ h' !! p2 = Some (CObj lc lr ll' lu lp lb td te).
Proof. rebind_tac h0 h p2 p get_dictZ. Qed.

Lemma rebind_creature_unlocked_spec (h0 h h' : Heap) (p2 p : loc)
      (lc lr ll lu lp lb : loc) (td te : Q) :
  heap_extends h0 h -> (p2 ∉ dom h0) ->
  h !! p2 = Some (CObj lc lr ll lu lp lb td te) ->
  rebind_creature_unlocked h p2 p = Some h' ->
  exists lu', (lu' ∉ dom h0) ∧ heap_extends h0 h'
    ∧ h' !! p2 = Some (CObj lc lr ll lu' lp lb td te).
Proof. rebind_tac h0 h p2 p get_dictB. Qed.

Lemma rebind_boost_levels_spec (h0 h h' : Heap) (p2 p : loc)
      (lc lr ll lu lp lb : loc) (td te : Q) :
  heap_extends h0 h -> (p2 ∉ dom h0) ->
  h !! p2 = Some (CObj lc lr ll lu lp lb td te) ->
  rebind_boost_levels h p2 p = Some h' ->
  exists lb', (lb' ∉ dom h0) ∧ heap_extends h0 h'
    ∧ h' !! p2 = Some (CObj lc lr ll lu lp lb' td te).
Proof. rebind_tac h0 h p2 p get_dictZ. Qed.

(** A method call on the copy that leaves the progress dict alone writes
    only to cells that are not in the original heap. *)
Lemma call_frame {A} (m : GameSim -> option (A * GameSim)) (h0 h h' : Heap) (p2 : loc) (r : A)
      (lc lr ll lu lp lb : loc) (td te : Q) :
  heap_extends h0 h ->
  p2 ∉ dom h0 -> lr ∉ dom h0 -> ll ∉ dom h0 -> lu ∉ dom h0 -> lb ∉ dom h0 ->
  h !! p2 = Some (CObj lc lr ll lu lp lb td te) ->
  (forall s a s', m s = Some (a, s') -> creature_progress s' = creature_progress s) ->
  call m h p2 = Some (r, h') ->
  heap_extends h0 h'
  ∧ exists td' te', h' !! p2 = Some (CObj lc lr ll lu lp lb td' te').
Proof.
  intros He Hp2 Hlr Hll Hlu Hlb Hobj Hm. unfold call.
  destruct (view h p2) as [s |] eqn:Hv; [|done]. cbn [mbind option_bind].
  destruct (m s) as [[a s'] |] eqn:Hms; [|done]. cbn [mbind option_bind snd fst].
  unfold write_back. rewrite Hobj. cbn [mbind option_bind]. intros [= <- <-].
  destruct (view_obj h p2 s Hv)
    as (lc0 & lr0 & ll0 & lu0 & lp0 & lb0 & td0 & te0 & Hp & _ & _ & _ & _ & Hpr & _).
  rewrite Hobj in Hp. injection Hp as <- <- <- <- <- <- <- <-.
  split; [| by rewrite lookup_insert_eq; eexists _, _].
  intros l Hl.
  rewrite lookup_insert_ne by (intros ->; done).
  rewrite lookup_insert_ne by (intros ->; done).
  destruct (decide (lp = l)) as [<- | Hne].
  - rewrite lookup_insert_eq, (Hm s a s' Hms), <- Hpr. by apply He.
  - rewrite lookup_insert_ne by done.
    rewrite lookup_insert_ne by (intros ->; done).
    rewrite lookup_insert_ne by (intros ->; done).
    rewrite lookup_insert_ne by (intros ->; done).
    by apply He.
Qed.

(** The hypothetical purchase: the copy is a new object that shares the
    configuration and the progress dict of the original by reference and
    owns fresh copies of the four other dicts; the purchase is applied to
    it, and no cell of the heap before the call has changed. *)
Lemma what_if_purchase_frame (h h' : Heap) (sim_orig sim2 : loc) (kind uid : string) :
  what_if_purchase h sim_orig kind uid = Some (sim2, h') ->
  heap_extends h h'
  ∧ (sim2 ∉ dom h)
  ∧ exists lc lr ll lu lp lb td te lr' ll' lu' lb' td' te',
      h !! sim_orig = Some (CObj lc lr ll lu lp lb td te)
      ∧ h' !! sim2 = Some (CObj lc lr' ll' lu' lp lb' td' te')
      ∧ (lr' ∉ dom h) ∧ (ll' ∉ dom h) ∧ (lu' ∉ dom h) ∧ (lb' ∉ dom h).
Proof.
  unfold what_if_purchase, copy_copy.
  destruct (h !! sim_orig) as [[lc lr ll lu lp lb td te | | | |] |] eqn:Horig; try done.
  destruct (heap_extends_alloc h h (CObj lc lr ll lu lp lb td te) (heap_extends_refl h))
    as [Hp2 He1].
  destruct (alloc_spec h (CObj lc lr ll lu lp lb td te)) as [_ Hh1].
  destruct (alloc h (CObj lc lr ll lu lp lb td te)) as [p2 h1]. simpl in Hp2, He1, Hh1.
  cbn [mbind option_bind].
  assert (Hobj1 : h1 !! p2 = Some (CObj lc lr ll lu lp lb td te))
    by (by rewrite Hh1, lookup_insert_eq).
  destruct (rebind_resources h1 p2 sim_orig) as [h2 |] eqn:H2; [|done].
  cbn [mbind option_bind].
  destruct (rebind_resources_spec h h1 h2 p2 sim_orig _ _ _ _ _ _ _ _ He1 Hp2 Hobj1 H2)
    as (lr' & Hlr' & He2 & Hobj2).
  destruct (rebind_creature_levels h2 p2 sim_orig) as [h3 |] eqn:H3; [|done].
  cbn [mbind option_bind].
  destruct (rebind_creature_levels_spec h h2 h3 p2 sim_orig _ _ _ _ _ _ _ _ He2 Hp2 Hobj2 H3)
    as (ll' & Hll' & He3 & Hobj3).
  destruct (rebind_creature_unlocked h3 p2 sim_orig) as [h4 |] eqn:H4; [|done].
  cbn [mbind option_bind].
  destruct (rebind_creature_unlocked_spec h h3 h4 p2 sim_orig _ _ _ _ _ _ _ _ He3 Hp2 Hobj3 H4)
    as (lu' & Hlu' & He4 & Hobj4).
  destruct (rebind_boost_levels h4 p2 sim_orig) as [h5 |] eqn:H5; [|done].
  cbn [mbind option_bind].
  destruct (rebind_boost_levels_spec h h4 h5 p2 sim_orig _ _ _ _ _ _ _ _ He4 Hp2 Hobj4 H5)
    as (lb' & Hlb' & He5 & Hobj5).
  destruct (decide (kind = "creature")).
  - destruct (call (fun s => upgrade_creature s uid) h5 p2) as [[ok h6] |] eqn:Hcall; [|done].
    cbn [mbind option_bind]. intros [= <- <-].
    destruct (call_frame (fun s => upgrade_creature s uid) h h5 h6 p2 ok _ _ _ _ _ _ _ _
                He5 Hp2 Hlr' Hll' Hlu' Hlb' Hobj5)
      as (He6 & td' & te' & Hobj6); [| exact Hcall |].
    { intros s a s' Hup. by eapply upgrade_creature_progress. }
    split; [done |]. split; [done |].
    by eexists lc, lr, ll, lu, lp, lb, td, te, lr', ll', lu', lb', td', te'.
  - destruct (call (fun s => upgrade_boost s uid) h5 p2) as [[ok h6] |] eqn:Hcall; [|done].
    cbn [mbind option_bind]. intros [= <- <-].
    destruct (call_frame (fun s => upgrade_boost s uid) h h5 h6 p2 ok _ _ _ _ _ _ _ _
                He5 Hp2 Hlr' Hll' Hlu' Hlb' Hobj5)
      as (He6 & td' & te' & Hobj6); [| exact Hcall |].
    { intros s a s' Hup. by eapply upgrade_boost_progress. }
    split; [done |]. split; [done |].
    by eexists lc, lr, ll, lu, lp, lb, td, te, lr', ll', lu', lb', td', te'.
Qed.

Lemma score_upgrade_frame (h h' : Heap) (sim_orig : loc) (kind uid : string)
      (time_remaining_ms : Q) (r : option Q) :
  _score_upgrade h sim_orig kind uid time_remaining_ms = Some (r, h') ->
  heap_extends h h' ∧ exists s, view h sim_orig = Some s ∧ view h' sim_orig = Some s.
Proof.
  unfold _score_upgrade.
  destruct (view h sim_orig) as [s |] eqn:Hv; [|done]. cbn [mbind option_bind].
  destruct (if decide (kind = "creature") then get_creature_upgrade_cost s uid
            else get_boost_upgrade_cost s uid) as [[c |] |]; cbn [mbind option_bind];
    [| intros [= <- <-]; split; [apply heap_extends_refl | by exists s] | done].
  destruct (can_afford s (Some c)); cbn [negb];
    [| intros [= <- <-]; split; [apply heap_extends_refl | by exists s]].
  destruct (get_dps s) as [dps |]; cbn [mbind option_bind]; [|done].
  destruct (what_if_purchase h sim_orig kind uid) as [[sim2 h2] |] eqn:Hw; [|done].
  cbn [mbind option_bind].
  destruct (view h2 sim2) as [s2 |]; cbn [mbind option_bind]; [|done].
  destruct (get_dps s2) as [dps2 |]; cbn [mbind option_bind]; [|done].
  destruct (py_div time_remaining_ms 1000) as [time_s |]; cbn [mbind option_bind]; [|done].
  destruct (py_div _ (total_cost_of c)) as [x |]; cbn [mbind option_bind]; [|done].
  intros [= <- <-].
  destruct (what_if_purchase_frame h h2 sim_orig sim2 kind uid Hw) as (He & _).
  split; [done |]. exists s. split; [done |]. by eapply view_extends.
Qed.

(** C10. Whenever [_score_upgrade] returns, be it with a score or with
    [None], the state observed through the original simulation object is
    the one observed before the call: balances, levels, unlock flags, boost
    levels, progress accumulators, cumulative damage and elapsed time; in
    fact every cell of the heap before the call, the configuration
    included, is unchanged.  The hypothetical purchase runs on a new object
    that holds the original's references to the configuration and to the
    progress dict and fresh copies of the dicts of balances, unit levels,
    unlock flags and boost levels. *)
Theorem C10_score_upgrade_leaves_original_unchanged
        (h h' : Heap) (sim_orig : loc) (kind uid : string) (time_remaining_ms : Q)
        (r : option Q) :
  _score_upgrade h sim_orig kind uid time_remaining_ms = Some (r, h') ->
  (exists s, view h sim_orig = Some s ∧ view h' sim_orig = Some s)
  ∧ heap_extends h h'
  ∧ (forall sim2 h2,
       what_if_purchase h sim_orig kind uid = Some (sim2, h2) ->
       heap_extends h h2
       ∧ (sim2 ∉ dom h)
       ∧ exists lc lr ll lu lp lb td te lr' ll' lu' lb' td' te',
           h !! sim_orig = Some (CObj lc lr ll lu lp lb td te)
           ∧ h2 !! sim2 = Some (CObj lc lr' ll' lu' lp lb' td' te')
           ∧ (lr' ∉ dom h) ∧ (ll' ∉ dom h) ∧ (lu' ∉ dom h) ∧ (lb' ∉ dom h)).
Proof.
  intros Hrun. destruct (score_upgrade_frame _ _ _ _ _ _ _ Hrun) as [He Hv].
  split; [done |]. split; [done |].
  intros sim2 h2 Hw. by apply (what_if_purchase_frame h h2 sim_orig sim2 kind uid).
Qed.

Lemma stocked_score_value : exists q, stocked_score = Some q ∧ (q == 1)%Q.
Proof. vm_compute. eexists. split; reflexivity. Qed.

Lemma C10_witness :
  exists p h r h',
    stocked_heap = Some (p, h)
    ∧ _score_upgrade h p "creature" "fiona" 1000%Q = Some (Some r, h')
    ∧ (exists s, view h p = Some s ∧ view h' p = Some s)
    ∧ heap_extends h h'.
Proof.
  destruct stocked_score_value as (q & Hq & _). unfold stocked_score in Hq.
  destruct stocked_heap as [[p h] |]; [|discriminate Hq].
  cbn [mbind option_bind fst snd] in Hq.
  destruct (_score_upgrade h p "creature" "fiona" 1000%Q) as [[r h'] |] eqn:Hrun;
    [|discriminate Hq].
  cbn [mbind option_bind fst] in Hq. subst r.
  exists p, h, q, h'. split; [reflexivity |]. split; [exact Hrun |].
  destruct (C10_score_upgrade_leaves_original_unchanged h h' p "creature" "fiona" 1000%Q
              (Some q) Hrun) as (Hv & He & _).
  split; [exact Hv | exact He].
Defined.

(** ** More on [advance]: remainders, composition, monotonicity *)

Lemma Qsum_nonneg {A} (f : A -> Q) (l : list A) :
  (forall x, x ∈ l -> (0 <= f x)%Q) -> (0 <= Qsum (f <$> l))%Q.
Proof.
  induction l as [| x l IH]; intros Hf; [by vm_compute |].
  rewrite fmap_cons, Qsum_cons.
  assert (0 <= f x)%Q by (apply Hf, elem_of_cons; by left).
  assert (0 <= Qsum (f <$> l))%Q by (apply IH; intros y Hy; apply Hf, elem_of_cons; by right).
  lra.
Qed.

Lemma effective_interval_pos (cfg : Config) (c : Creature) (speed : Q) :
  wf_config cfg -> c ∈ cfg_creatures cfg -> (0 < speed)%Q -> (0 < effective_interval speed c)%Q.
Proof.
  intros Hwf Hc Hs.
  pose proof (wf_config_creature _ _ Hwf Hc) as (_ & _ & _ & _ & _ & Hspawn & _).
  unfold effective_interval. by apply Qmult_lt_0_compat.
Qed.


Lemma production_per_tick_nonneg (cfg : Config) (s : GameSim) (c : Creature) :
  wf_config cfg -> Inv cfg s -> c ∈ cfg_creatures cfg -> (0 <= production_per_tick s c)%Q.
Proof.
  intros Hwf HI Hc.
  pose proof (wf_config_creature _ _ Hwf Hc) as (_ & _ & _ & _ & _ & _ & Hprod & _).
  destruct (get_production_bonus_nonneg cfg s (c_produces c) Hwf HI) as (bonus & Hb & Hb0).
  unfold production_per_tick. rewrite Hb. cbn [from_option id].
  assert (0 <= default 0 (lv ← creature_levels s !! c_id c;
                          py_index (c_productionByLevel c) (lv - 1)))%Q; [|lra].
  destruct (creature_levels s !! c_id c) as [lv |]; cbn [mbind option_bind from_option id]; [|lra].
  destruct (py_index (c_productionByLevel c) (lv - 1)) as [v |] eqn:Hv; cbn [from_option id]; [|lra].
  apply py_index_elem_of in Hv. rewrite Forall_forall in Hprod. by apply Hprod.
Qed.

(** [advance] with the facts about the accumulators added: the tick count
    is not negative and the remainder lies in [[0, interval)]. *)
Lemma advance_remainder (cfg : Config) (s : GameSim) (delta_ms : Q) :
  wf_config cfg -> Inv cfg s -> (0 <= delta_ms)%Q ->
  exists s' speed dmg_mult,
    get_speed_multiplier s = Some speed
    ∧ (0 < speed)%Q
    ∧ get_damage_multiplier s = Some dmg_mult
    ∧ advance s delta_ms = Some s'
    ∧ Inv cfg s'
    ∧ time_elapsed_ms s' = (time_elapsed_ms s + delta_ms)%Q
    ∧ creature_levels s' = creature_levels s
    ∧ creature_unlocked s' = creature_unlocked s
    ∧ boost_levels s' = boost_levels s
    ∧ (forall c, c ∈ cfg_creatures cfg -> is_active s c = false ->
         creature_progress s' !! c_id c = creature_progress s !! c_id c)
    ∧ (forall c, c ∈ cfg_creatures cfg -> is_active s c = true ->
         exists p p', creature_progress s !! c_id c = Some p
           ∧ creature_progress s' !! c_id c = Some p'
           ∧ (0 <= p)%Q
           ∧ 0 <= ticks_of s speed delta_ms c
           ∧ (p' == p + delta_ms
                    - inject_Z (ticks_of s speed delta_ms c) * effective_interval speed c)%Q
           ∧ (0 <= p')%Q ∧ (p' < effective_interval speed c)%Q)
    ∧ (forall r, option_Forall2 Qeq (resources s' !! r)
         ((fun v => (v + Qsum (resource_gain s speed delta_ms r <$> cfg_creatures cfg))%Q)
            <$> resources s !! r))
    ∧ (total_damage s' ==
       total_damage s + Qsum (damage_gain s speed dmg_mult delta_ms <$> cfg_creatures cfg))%Q.
Proof.
  intros Hwf HI Hd.
  destruct (advance_closed_form cfg s delta_ms Hwf HI Hd)
    as (s' & speed & dm & Hspeed & Hpos & Hdm & Hadv & HI' & Ht & Hl & Hu & Hb & Hpi & Hpa
        & Hres & Hdmg).
  exists s', speed, dm. repeat (split; [done |]).
  split; [|done].
  intros c Hc Hact. destruct (Hpa c Hc Hact) as (p & p' & Hp & Hp' & Heq).
  exists p, p'. split; [done |]. split; [done |].
  destruct (inv_creature _ _ HI c Hc) as (lv & u & p0 & _ & _ & Hp0 & _ & _ & _ & Hp0nn).
  rewrite Hp in Hp0. injection Hp0 as <-.
  pose proof (effective_interval_pos cfg c speed Hwf Hc Hpos) as Hint.
  assert (Htk : ticks_of s speed delta_ms c = Qfloor ((p + delta_ms) / effective_interval speed c)).
  { unfold ticks_of. by rewrite Hp. }
  pose proof (floor_div_bounds (p + delta_ms) (effective_interval speed c) Hint) as [Hlo Hhi].
  rewrite <- Htk in Hlo, Hhi.
  split; [done |]. split.
  - rewrite Htk. apply Qfloor_nonneg. apply Qle_shift_div_l; [done | lra].
  - split; [done |]. split; lra.
Qed.



Lemma nonneg_damage_EVENT_CONFIG : nonneg_damage EVENT_CONFIG.
Proof. apply (bool_decide_unpack _). vm_compute. reflexivity. Qed.

Lemma get_damage_multiplier_nonneg (cfg : Config) (s : GameSim) :
  wf_config cfg -> nonneg_damage cfg -> Inv cfg s ->
  exists m, get_damage_multiplier s = Some m ∧ (0 <= m)%Q.
Proof.
  intros Hwf [_ Hnn] HI. unfold get_damage_multiplier.
  destruct (first_active_bonus_total cfg s is_damage (_boost_order (config s)) Hwf HI)
    as (r & Hr & Hv).
  { by rewrite (inv_config _ _ HI). }
  rewrite Hr. cbn [mbind option_bind]. eexists. split; [done |].
  destruct r as [v |]; [|lra].
  destruct (Hv v eq_refl) as (b & Hb & Hsel & Hin).
  rewrite Forall_forall in Hnn. specialize (Hnn b Hb).
  unfold is_damage in Hsel. apply bool_decide_eq_true in Hsel.
  specialize (Hnn Hsel). rewrite Forall_forall in Hnn. specialize (Hnn v Hin). lra.
Qed.

Lemma damage_per_tick_nonneg (cfg : Config) (s : GameSim) (dmg_mult : Q) (c : Creature) :
  nonneg_damage cfg -> c ∈ cfg_creatures cfg -> (0 <= dmg_mult)%Q ->
  (0 <= damage_per_tick s dmg_mult c)%Q.
Proof.
  intros [Hnn _] Hc Hm. rewrite Forall_forall in Hnn. specialize (Hnn c Hc).
  unfold damage_per_tick.
  assert (0 <= default 0 (lv ← creature_levels s !! c_id c;
                          py_index (c_damageByLevel c) (lv - 1)))%Q.
  { destruct (creature_levels s !! c_id c) as [lv |]; cbn [mbind option_bind from_option id];
      [|lra].
    destruct (py_index (c_damageByLevel c) (lv - 1)) as [v |] eqn:Hv; cbn [from_option id]; [|lra].
    apply py_index_elem_of in Hv. rewrite Forall_forall in Hnn. by apply Hnn. }
  by apply Qmult_le_0_compat.
Qed.

#[global] Instance option_Qeq_equiv : Equivalence (option_Forall2 Qeq).
Proof. apply _. Qed.




Lemma resource_gain_nonneg (cfg : Config) (s : GameSim) (speed delta_ms : Q) (r : string)
      (c : Creature) :
  wf_config cfg -> Inv cfg s -> c ∈ cfg_creatures cfg ->
  (is_active s c = true -> 0 <= ticks_of s speed delta_ms c) ->
  (0 <= resource_gain s speed delta_ms r c)%Q.
Proof.
  intros Hwf HI Hc Htk. unfold resource_gain.
  destruct (is_active s c); cbn [andb]; [|lra].
  destruct (bool_decide (c_produces c = r)); [|lra].
  apply Qmult_le_0_compat; [by eapply production_per_tick_nonneg |].
  change 0%Q with (inject_Z 0). rewrite <- Zle_Qle. by apply Htk.
Qed.

Lemma damage_gain_nonneg (cfg : Config) (s : GameSim) (speed dmg_mult delta_ms : Q)
      (c : Creature) :
  nonneg_damage cfg -> c ∈ cfg_creatures cfg -> (0 <= dmg_mult)%Q ->
  (is_active s c = true -> 0 <= ticks_of s speed delta_ms c) ->
  (0 <= damage_gain s speed dmg_mult delta_ms c)%Q.
Proof.
  intros Hnn Hc Hm Htk. unfold damage_gain.
  destruct (is_active s c); [|lra].
  apply Qmult_le_0_compat; [by eapply damage_per_tick_nonneg |].
  change 0%Q with (inject_Z 0). rewrite <- Zle_Qle. by apply Htk.
Qed.

(** [advance] never lowers a balance. *)
Lemma advance_balances (cfg : Config) (s s' : GameSim) (delta_ms : Q) :
  wf_config cfg -> Inv cfg s -> (0 <= delta_ms)%Q -> advance s delta_ms = Some s' ->
  forall r, match resources s !! r with
            | Some v => exists v', resources s' !! r = Some v' ∧ (v <= v')%Q
            | None => resources s' !! r = None
            end.
Proof.
  intros Hwf HI Hd Hadv r.
  destruct (advance_remainder cfg s delta_ms Hwf HI Hd)
    as (s1 & speed & dm & _ & _ & _ & Hadv1 & _ & _ & _ & _ & _ & _ & Hpa & Hres & _).
  rewrite Hadv in Hadv1. injection Hadv1 as <-.
  assert (Hg : (0 <= Qsum (resource_gain s speed delta_ms r <$> cfg_creatures cfg))%Q).
  { apply Qsum_nonneg. intros c Hc. eapply resource_gain_nonneg; [done .. |].
    intros Hact. by destruct (Hpa c Hc Hact) as (? & ? & _ & _ & _ & ? & _). }
  specialize (Hres r).
  destruct (resources s !! r) as [v |]; cbn [fmap option_fmap option_map] in Hres.
  - inversion Hres as [v' ? Heq |]; subst. exists v'. split; [done |]. lra.
  - by inversion Hres.
Qed.

(** X3. Waiting never makes an upgrade unaffordable: [advance] (well-formed
    configuration, state satisfying the invariant, non-negative time) lowers
    no balance, so every cost that [can_afford] accepts before the call is
    accepted after it. *)
Theorem X3_advance_keeps_affordable (cfg : Config) (s : GameSim) (delta_ms : Q) :
  wf_config cfg -> Inv cfg s -> (0 <= delta_ms)%Q ->
  exists s',
    advance s delta_ms = Some s'
    ∧ (forall r v, resources s !! r = Some v ->
         exists v', resources s' !! r = Some v' ∧ (v <= v')%Q)
    ∧ (forall cost, can_afford s cost = true -> can_afford s' cost = true).
Proof.
  intros Hwf HI Hd.
  destruct (advance_remainder cfg s delta_ms Hwf HI Hd)
    as (s' & speed & dm & _ & _ & _ & Hadv & _).
  pose proof (advance_balances cfg s s' delta_ms Hwf HI Hd Hadv) as Hbal.
  exists s'. split; [done |]. split.
  - intros r v Hv. specialize (Hbal r). by rewrite Hv in Hbal.
  - intros [cost |] Hca; [|done].
    rewrite can_afford_true in Hca. apply can_afford_true.
    intros r amt Hamt. specialize (Hca r amt Hamt). specialize (Hbal r).
    destruct (resources s !! r) as [v |].
    + destruct Hbal as (v' & -> & Hle). cbn [from_option id] in *. lra.
    + by rewrite Hbal.
Qed.

Lemma Inv_seven_sapphires : Inv EVENT_CONFIG seven_sapphires.
Proof.
  pose proof (Inv_init EVENT_CONFIG wf_EVENT_CONFIG) as HI.
  eapply Inv_frame; [exact HI | done .. | | |].
  - intros c Hc. destruct (inv_creature _ _ HI c Hc) as (lv & u & p & _ & _ & Hp & _ & _ & _ & Hp0).
    by exists p.
  - intros r Hr. apply (elem_of_dom (M := gmap string)).
    unfold seven_sapphires. cbn [resources set_resources].
    rewrite dom_insert. apply elem_of_union. right.
    apply elem_of_dom. by apply (inv_resources _ _ HI).
  - apply (bool_decide_unpack _). vm_compute. reflexivity.
Qed.

Lemma X3_witness :
  exists s',
    advance seven_sapphires 60000%Q = Some s'
    ∧ (forall r v, resources seven_sapphires !! r = Some v ->
         exists v', resources s' !! r = Some v' ∧ (v <= v')%Q)
    ∧ (forall cost, can_afford seven_sapphires cost = true -> can_afford s' cost = true).
Proof.
  apply (X3_advance_keeps_affordable EVENT_CONFIG seven_sapphires 60000%Q).
  - exact wf_EVENT_CONFIG.
  - exact Inv_seven_sapphires.
  - vm_compute. discriminate.
Defined.

(** ** What an upgrade call changes *)

Lemma upgrade_creature_effect (s s' : GameSim) (cid : string) (ok : bool) :
  upgrade_creature s cid = Some (ok, s') ->
  config s' = config s
  ∧ boost_levels s' = boost_levels s
  ∧ total_damage s' = total_damage s
  ∧ time_elapsed_ms s' = time_elapsed_ms s
  ∧ creature_progress s' = creature_progress s
  ∧ (ok = false -> s' = s)
  ∧ (ok = true ->
       exists c,
         get_creature_upgrade_cost s cid = Some (Some c)
         ∧ can_afford s (Some c) = true
         ∧ _spend (resources s) c = Some (resources s')
         ∧ match creature_unlocked s !! cid with
           | Some false =>
               creature_unlocked s' = <[cid := true]> (creature_unlocked s)
               ∧ creature_levels s' = <[cid := 1]> (creature_levels s)
           | Some true =>
               exists lv, creature_levels s !! cid = Some lv
                 ∧ creature_levels s' = <[cid := lv + 1]> (creature_levels s)
                 ∧ creature_unlocked s' = creature_unlocked s
           | None => False
           end).
Proof.
  unfold upgrade_creature. intros Hup.
  destruct (get_creature_upgrade_cost s cid) as [[c |] |] eqn:Hcost; cbn [mbind option_bind] in Hup;
    [| by injection Hup as <- <- | done].
  destruct (can_afford s (Some c)) eqn:Hca; cbn [negb] in Hup; [| by injection Hup as <- <-].
  destruct (_spend (resources s) c) as [res' |] eqn:Hsp; cbn [mbind option_bind] in Hup; [|done].
  cbn [creature_unlocked set_resources] in Hup.
  destruct (creature_unlocked s !! cid) as [[|] |] eqn:Hu; cbn [mbind option_bind negb] in Hup;
    [| | done].
  - cbn [creature_levels set_resources] in Hup.
    destruct (creature_levels s !! cid) as [lv |] eqn:Hlv; cbn [mbind option_bind] in Hup; [|done].
    injection Hup as <- <-. do 6 (split; [done |]).
    intros _. exists c. do 3 (split; [done |]). by exists lv.
  - injection Hup as <- <-. do 6 (split; [done |]).
    intros _. by exists c.
Qed.

Lemma upgrade_boost_effect (s s' : GameSim) (bid : string) (ok : bool) :
  upgrade_boost s bid = Some (ok, s') ->
  config s' = config s
  ∧ creature_levels s' = creature_levels s
  ∧ creature_unlocked s' = creature_unlocked s
  ∧ total_damage s' = total_damage s
  ∧ time_elapsed_ms s' = time_elapsed_ms s
  ∧ creature_progress s' = creature_progress s
  ∧ (ok = false -> s' = s)
  ∧ (ok = true ->
       exists c lv,
         get_boost_upgrade_cost s bid = Some (Some c)
         ∧ can_afford s (Some c) = true
         ∧ _spend (resources s) c = Some (resources s')
         ∧ boost_levels s !! bid = Some lv
         ∧ boost_levels s' = <[bid := lv + 1]> (boost_levels s)).
Proof.
  unfold upgrade_boost. intros Hup.
  destruct (get_boost_upgrade_cost s bid) as [[c |] |] eqn:Hcost; cbn [mbind option_bind] in Hup;
    [| by injection Hup as <- <- | done].
  destruct (can_afford s (Some c)) eqn:Hca; cbn [negb] in Hup; [| by injection Hup as <- <-].
  destruct (_spend (resources s) c) as [res' |] eqn:Hsp; cbn [mbind option_bind] in Hup; [|done].
  cbn [boost_levels set_resources] in Hup.
  destruct (boost_levels s !! bid) as [lv |] eqn:Hlv; cbn [mbind option_bind] in Hup; [|done].
  injection Hup as <- <-. do 7 (split; [done |]).
  intros _. by exists c, lv.
Qed.

(** A relation that holds across every single engine call from a state
    satisfying the invariant holds across every sequence of calls. *)
Lemma rtc_sim_step_rel (cfg : Config) (R : relation GameSim) :
  wf_config cfg -> Reflexive R -> Transitive R ->
  (forall s s', Inv cfg s -> sim_step s s' -> R s s') ->
  forall s s', Inv cfg s -> rtc sim_step s s' -> R s s'.
Proof.
  intros Hwf Hrefl Htrans Hstep s s' HI Hrtc.
  induction Hrtc as [| s s1 s' H1 Hrest IH]; [done |].
  etrans; [by apply Hstep |]. apply IH. by eapply sim_step_Inv.
Qed.

#[global] Instance not_behind_refl : Reflexive not_behind.
Proof. intros s. split; lra. Qed.

#[global] Instance not_behind_trans : Transitive not_behind.
Proof. intros s1 s2 s3 [? ?] [? ?]. split; lra. Qed.

#[global] Instance levels_le_refl : Reflexive levels_le.
Proof.
  intros s. split; [|split]; try done.
  - intros cid lv ?. exists lv. split; [done | lia].
  - intros bid lv ?. exists lv. split; [done | lia].
Qed.

#[global] Instance levels_le_trans : Transitive levels_le.
Proof.
  intros s1 s2 s3 (Hl1 & Hu1 & Hb1) (Hl2 & Hu2 & Hb2). split; [|split].
  - intros cid lv Hlv. destruct (Hl1 cid lv Hlv) as (lv' & Hlv' & ?).
    destruct (Hl2 cid lv' Hlv') as (lv'' & ? & ?). exists lv''. split; [done | lia].
  - intros cid Hu. by apply Hu2, Hu1.
  - intros bid lv Hlv. destruct (Hb1 bid lv Hlv) as (lv' & Hlv' & ?).
    destruct (Hb2 bid lv' Hlv') as (lv'' & ? & ?). exists lv''. split; [done | lia].
Qed.

Lemma sim_step_not_behind (cfg : Config) (s s' : GameSim) :
  wf_config cfg -> nonneg_damage cfg -> Inv cfg s -> sim_step s s' -> not_behind s s'.
Proof.
  intros Hwf Hnn HI [delta_ms s1 Hd Hadv | cid ok s1 Hup | bid ok s1 Hup].
  - destruct (advance_remainder cfg s delta_ms Hwf HI Hd)
      as (s2 & speed & dm & _ & _ & Hdm & Hadv2 & _ & Ht & _ & _ & _ & _ & Hpa & _ & Hdmg).
    rewrite Hadv in Hadv2. injection Hadv2 as <-.
    destruct (get_damage_multiplier_nonneg cfg s Hwf Hnn HI) as (m & Hm & Hm0).
    rewrite Hdm in Hm. injection Hm as <-.
    assert (Hg : (0 <= Qsum (damage_gain s speed dm delta_ms <$> cfg_creatures cfg))%Q).
    { apply Qsum_nonneg. intros c Hc. eapply damage_gain_nonneg; [done .. |].
      intros Hact. by destruct (Hpa c Hc Hact) as (? & ? & _ & _ & _ & ? & _). }
    split; [rewrite Ht | rewrite Hdmg]; lra.
  - apply upgrade_creature_effect in Hup as (_ & _ & Hd & Ht & _).
    split; [rewrite Ht | rewrite Hd]; lra.
  - apply upgrade_boost_effect in Hup as (_ & _ & _ & Hd & Ht & _).
    split; [rewrite Ht | rewrite Hd]; lra.
Qed.

Lemma sim_step_levels_le (cfg : Config) (s s' : GameSim) :
  wf_config cfg -> Inv cfg s -> sim_step s s' -> levels_le s s'.
Proof.
  intros Hwf HI [delta_ms s1 Hd Hadv | cid ok s1 Hup | bid ok s1 Hup].
  - destruct (advance_remainder cfg s delta_ms Hwf HI Hd)
      as (s2 & speed & dm & _ & _ & _ & Hadv2 & _ & _ & Hl & Hu & Hb & _).
    rewrite Hadv in Hadv2. injection Hadv2 as <-.
    split; [|split].
    + intros cid lv Hlv. exists lv. rewrite Hl. split; [done | lia].
    + intros cid Hun. by rewrite Hu.
    + intros bid lv Hlv. exists lv. rewrite Hb. split; [done | lia].
  - pose proof (upgrade_creature_effect _ _ _ _ Hup) as (Hcfg & Hb & _ & _ & _ & Hfalse & Htrue).
    destruct ok; [| rewrite (Hfalse eq_refl); reflexivity].
    destruct (Htrue eq_refl) as (c & Hcost & _ & _ & Hcase).
    apply get_creature_upgrade_cost_inv in Hcost as (cr & u & Hcr & Hu & _).
    rewrite (inv_config _ _ HI) in Hcr. apply creatures_lookup_inv in Hcr as [Hcr <-].
    destruct (inv_creature _ _ HI cr Hcr) as (lv0 & u0 & p & Hl0 & Hu0 & _ & _ & Hlocked & _).
    rewrite Hu in Hcase, Hu0. injection Hu0 as <-.
    split; [|split].
    + intros cid lv Hlv. destruct (decide (cid = c_id cr)) as [-> | Hne].
      * rewrite Hl0 in Hlv. injection Hlv as <-.
        destruct u.
        -- destruct Hcase as (lv1 & Hl1 & -> & _). rewrite Hl0 in Hl1. injection Hl1 as <-.
           exists (lv0 + 1). rewrite lookup_insert_eq. split; [done | lia].
        -- destruct Hcase as [_ ->]. exists 1. rewrite lookup_insert_eq.
           specialize (Hlocked eq_refl). split; [done | lia].
      * exists lv. split; [|lia].
        destruct u.
        -- destruct Hcase as (lv1 & _ & -> & _). by rewrite lookup_insert_ne.
        -- destruct Hcase as [_ ->]. by rewrite lookup_insert_ne.
    + intros cid Hun. destruct u.
      * destruct Hcase as (lv1 & _ & _ & ->). done.
      * destruct Hcase as [-> _]. destruct (decide (cid = c_id cr)) as [-> | Hne].
        -- by rewrite lookup_insert_eq.
        -- by rewrite lookup_insert_ne.
    + intros bid lv Hlv. exists lv. rewrite Hb. split; [done | lia].
  - pose proof (upgrade_boost_effect _ _ _ _ Hup) as (_ & Hl & Hu & _ & _ & _ & Hfalse & Htrue).
    destruct ok; [| rewrite (Hfalse eq_refl); reflexivity].
    destruct (Htrue eq_refl) as (c & lv0 & _ & _ & _ & Hb0 & Hb1).
    split; [|split].
    + intros cid lv Hlv. exists lv. rewrite Hl. split; [done | lia].
    + intros cid Hun. by rewrite Hu.
    + intros bid' lv Hlv. rewrite Hb1. destruct (decide (bid' = bid)) as [-> | Hne].
      * rewrite Hb0 in Hlv. injection Hlv as <-.
        exists (lv0 + 1). rewrite lookup_insert_eq. split; [done | lia].
      * exists lv. rewrite lookup_insert_ne by done. split; [done | lia].
Qed.

(** X4. With damage tables and damage bonuses that are not negative, the
    clock and the cumulative damage never go back: across any sequence of
    [advance] (non-negative time), [upgrade_creature] and [upgrade_boost]
    calls from a state satisfying the invariant, both are at least what they
    were. *)
Theorem X4_clock_and_damage_never_decrease (cfg : Config) (s s' : GameSim) :
  wf_config cfg -> nonneg_damage cfg -> Inv cfg s -> rtc sim_step s s' ->
  (time_elapsed_ms s <= time_elapsed_ms s')%Q ∧ (total_damage s <= total_damage s')%Q.
Proof.
  intros Hwf Hnn HI Hrtc.
  apply (rtc_sim_step_rel cfg not_behind Hwf _ _); [| exact HI | exact Hrtc].
  intros s1 s2 HI1 Hstep. by eapply sim_step_not_behind.
Qed.

(** X5. Levels only go up: across any sequence of engine calls from a state
    satisfying the invariant, no unit level and no boost level decreases,
    and a unit that is unlocked stays unlocked. *)
Theorem X5_levels_never_decrease (cfg : Config) (s s' : GameSim) :
  wf_config cfg -> Inv cfg s -> rtc sim_step s s' ->
  (forall cid lv, creature_levels s !! cid = Some lv ->
     exists lv', creature_levels s' !! cid = Some lv' ∧ lv <= lv')
  ∧ (forall cid, creature_unlocked s !! cid = Some true ->
       creature_unlocked s' !! cid = Some true)
  ∧ (forall bid lv, boost_levels s !! bid = Some lv ->
       exists lv', boost_levels s' !! bid = Some lv' ∧ lv <= lv').
Proof.
  intros Hwf HI Hrtc.
  apply (rtc_sim_step_rel cfg levels_le Hwf _ _); [| exact HI | exact Hrtc].
  intros s1 s2 HI1 Hstep. by eapply sim_step_levels_le.
Qed.

Lemma after_first_purchase_reachable :
  exists s, after_first_purchase = Some s ∧ rtc sim_step (GameSim_init EVENT_CONFIG) s.
Proof.
  unfold after_first_purchase.
  assert (Hd : (0 <= 60000)%Q) by (vm_compute; discriminate).
  destruct (advance_closed_form EVENT_CONFIG (GameSim_init EVENT_CONFIG) 60000%Q
              wf_EVENT_CONFIG (Inv_init _ wf_EVENT_CONFIG) Hd)
    as (s1 & speed & dm & _ & _ & _ & Hadv & HI1 & _).
  rewrite Hadv. cbn [mbind option_bind].
  destruct (upgrade_creature_total EVENT_CONFIG s1 fiona wf_EVENT_CONFIG HI1 fiona_configured)
    as (ok & s2 & Hup & _).
  change (c_id fiona) with "fiona" in Hup.
  rewrite Hup. cbn [mbind option_bind snd]. exists s2. split; [done |].
  eapply rtc_l; [exact (step_advance _ _ _ Hd Hadv) |].
  eapply rtc_l; [exact (step_upgrade_creature _ _ _ _ Hup) |].
  apply rtc_refl.
Qed.

Lemma X4_witness :
  exists s', after_first_purchase = Some s'
    ∧ (time_elapsed_ms (GameSim_init EVENT_CONFIG) <= time_elapsed_ms s')%Q
    ∧ (total_damage (GameSim_init EVENT_CONFIG) <= total_damage s')%Q.
Proof.
  destruct after_first_purchase_reachable as (s' & Heq & Hrtc).
  exists s'. split; [exact Heq |].
  apply (X4_clock_and_damage_never_decrease EVENT_CONFIG (GameSim_init EVENT_CONFIG) s').
  - exact wf_EVENT_CONFIG.
  - exact nonneg_damage_EVENT_CONFIG.
  - exact (Inv_init EVENT_CONFIG wf_EVENT_CONFIG).
  - exact Hrtc.
Defined.

Lemma X5_witness :
  exists s', after_first_purchase = Some s'
    ∧ (forall cid lv, creature_levels (GameSim_init EVENT_CONFIG) !! cid = Some lv ->
         exists lv', creature_levels s' !! cid = Some lv' ∧ lv <= lv')
    ∧ (forall cid, creature_unlocked (GameSim_init EVENT_CONFIG) !! cid = Some true ->
         creature_unlocked s' !! cid = Some true)
    ∧ (forall bid lv, boost_levels (GameSim_init EVENT_CONFIG) !! bid = Some lv ->
         exists lv', boost_levels s' !! bid = Some lv' ∧ lv <= lv').
Proof.
  destruct after_first_purchase_reachable as (s' & Heq & Hrtc).
  exists s'. split; [exact Heq |].
  apply (X5_levels_never_decrease EVENT_CONFIG (GameSim_init EVENT_CONFIG) s').
  - exact wf_EVENT_CONFIG.
  - exact (Inv_init EVENT_CONFIG wf_EVENT_CONFIG).
  - exact Hrtc.
Defined.

(** ** [get_dps] and the accessors *)

Lemma inactive_is_active (cfg : Config) (s : GameSim) (c : Creature) :
  Inv cfg s -> c ∈ cfg_creatures cfg -> inactive s (c_id c) = Some (negb (is_active s c)).
Proof.
  intros HI Hc.
  destruct (inv_creature _ _ HI c Hc) as (lv & u & p & Hl & Hu & _).
  unfold inactive, is_active. rewrite Hl, Hu. cbn [mbind option_bind].
  destruct u; cbn [negb]; [|done]. by rewrite negb_involutive.
Qed.

(** The level-indexed tables of an active unit are defined at its level. *)
Lemma active_level_lookup (cfg : Config) (s : GameSim) (c : Creature) :
  wf_config cfg -> Inv cfg s -> c ∈ cfg_creatures cfg -> is_active s c = true ->
  exists lv pl dl,
    creature_levels s !! c_id c = Some lv
    ∧ creature_unlocked s !! c_id c = Some true
    ∧ 1 <= lv <= c_maxLevel c
    ∧ py_index (c_productionByLevel c) (lv - 1) = Some pl
    ∧ py_index (c_damageByLevel c) (lv - 1) = Some dl.
Proof.
  intros Hwf HI Hc Hact.
  destruct (inv_creature _ _ HI c Hc) as (lv & u & p & Hl & Hu & _ & Hmax & _ & H1 & _).
  unfold is_active in Hact. rewrite Hl, Hu in Hact. destruct u; [|done].
  specialize (H1 eq_refl).
  pose proof (wf_config_creature _ _ Hwf Hc) as (_ & Hlp & Hld & _).
  destruct (py_index_in_range (c_productionByLevel c) (lv - 1)) as (pl & Hpl & _); [lia |].
  destruct (py_index_in_range (c_damageByLevel c) (lv - 1)) as (dl & Hdl & _); [lia |].
  exists lv, pl, dl. repeat (split; [done |]). done.
Qed.

Lemma get_creature_damage_spec (cfg : Config) (s : GameSim) (c : Creature) (dmg_mult : Q) :
  wf_config cfg -> Inv cfg s -> c ∈ cfg_creatures cfg ->
  get_damage_multiplier s = Some dmg_mult ->
  get_creature_damage s (c_id c)
  = Some (if is_active s c then damage_per_tick s dmg_mult c else 0%Q).
Proof.
  intros Hwf HI Hc Hm. unfold get_creature_damage.
  rewrite (inv_config _ _ HI), (creatures_lookup _ _ Hwf Hc). cbn [mbind option_bind].
  destruct (is_active s c) eqn:Hact.
  - destruct (active_level_lookup cfg s c Hwf HI Hc Hact) as (lv & pl & dl & Hl & Hu & Hlv & _ & Hdl).
    rewrite Hl, Hu. cbn [mbind option_bind negb orb].
    destruct (Z.eqb_spec lv 0) as [-> | _]; [lia |].
    unfold damage_per_tick. rewrite Hl. cbn [mbind option_bind].
    rewrite Hdl, Hm. done.
  - destruct (inv_creature _ _ HI c Hc) as (lv & u & p & Hl & Hu & _).
    rewrite Hl, Hu. cbn [mbind option_bind].
    unfold is_active in Hact. rewrite Hl, Hu in Hact.
    destruct u; cbn [negb orb]; [|done].
    apply negb_false_iff in Hact. by rewrite Hact.
Qed.

Lemma get_creature_production_spec (cfg : Config) (s : GameSim) (c : Creature) :
  wf_config cfg -> Inv cfg s -> c ∈ cfg_creatures cfg ->
  get_creature_production s (c_id c)
  = Some (if is_active s c then production_per_tick s c else 0%Q).
Proof.
  intros Hwf HI Hc. unfold get_creature_production.
  rewrite (inv_config _ _ HI), (creatures_lookup _ _ Hwf Hc). cbn [mbind option_bind].
  destruct (is_active s c) eqn:Hact.
  - destruct (active_level_lookup cfg s c Hwf HI Hc Hact) as (lv & pl & dl & Hl & Hu & Hlv & Hpl & _).
    rewrite Hl, Hu. cbn [mbind option_bind negb orb].
    destruct (Z.eqb_spec lv 0) as [-> | _]; [lia |].
    destruct (get_production_bonus_nonneg cfg s (c_produces c) Hwf HI) as (bonus & Hb & _).
    unfold production_per_tick. rewrite Hl. cbn [mbind option_bind].
    rewrite Hpl, Hb. done.
  - destruct (inv_creature _ _ HI c Hc) as (lv & u & p & Hl & Hu & _).
    rewrite Hl, Hu. cbn [mbind option_bind].
    unfold is_active in Hact. rewrite Hl, Hu in Hact.
    destruct u; cbn [negb orb]; [|done].
    apply negb_false_iff in Hact. by rewrite Hact.
Qed.

Lemma get_dps_loop_spec (cfg : Config) (s : GameSim) (speed dmg_mult : Q) (cs : list Creature)
      (total : Q) :
  wf_config cfg -> Inv cfg s -> cs ⊆ cfg_creatures cfg ->
  get_speed_multiplier s = Some speed -> (0 < speed)%Q ->
  get_damage_multiplier s = Some dmg_mult ->
  exists d, get_dps_loop s (c_id <$> cs) total = Some d
    ∧ (d == total + Qsum (unit_dps s speed dmg_mult <$> cs))%Q.
Proof.
  intros Hwf HI Hsub Hspeed Hpos Hdm. revert total Hsub.
  induction cs as [| c cs IH]; intros total Hsub.
  - exists total. split; [done |]. change (Qsum (unit_dps s speed dmg_mult <$> [])) with 0%Q. lra.
  - assert (Hc : c ∈ cfg_creatures cfg) by (apply Hsub, elem_of_cons; by left).
    assert (Hsub' : cs ⊆ cfg_creatures cfg).
    { intros x Hx. apply Hsub, elem_of_cons. by right. }
    rewrite !fmap_cons, Qsum_cons. cbn [get_dps_loop].
    rewrite (inactive_is_active cfg s c HI Hc). cbn [mbind option_bind].
    unfold unit_dps at 1.
    destruct (is_active s c) eqn:Hact; cbn [negb].
    + rewrite (inv_config _ _ HI), (creatures_lookup _ _ Hwf Hc). cbn [mbind option_bind].
      unfold get_effective_spawn_time. rewrite Hspeed. cbn [mbind option_bind].
      pose proof (effective_interval_pos cfg c speed Hwf Hc Hpos) as Hint.
      unfold effective_interval in *.
      rewrite (py_div_Some (c_spawnTime c * speed) 1000) by lra. cbn [mbind option_bind].
      rewrite (get_creature_damage_spec cfg s c dmg_mult Hwf HI Hc Hdm), Hact.
      cbn [mbind option_bind].
      rewrite py_div_Some.
      2:{ intros H0. assert (c_spawnTime c * speed == 0)%Q; [|lra].
          rewrite <- (Qmult_div_r (c_spawnTime c * speed) 1000) by lra.
          unfold Qdiv in *. rewrite H0. ring. }
      cbn [mbind option_bind].
      destruct (IH (total + damage_per_tick s dmg_mult c / (c_spawnTime c * speed / 1000))%Q Hsub')
        as (d & Hd & Heq).
      exists d. split; [done |]. rewrite Heq. ring.
    + destruct (IH total Hsub') as (d & Hd & Heq).
      exists d. split; [done |]. rewrite Heq. ring.
Qed.

(** [get_dps] reads the configuration, the levels and the boost levels
    only. *)
Lemma get_dps_loop_ext (s s' : GameSim) (order : list string) (total : Q) :
  config s' = config s -> creature_levels s' = creature_levels s ->
  creature_unlocked s' = creature_unlocked s -> boost_levels s' = boost_levels s ->
  get_dps_loop s' order total = get_dps_loop s order total.
Proof.
  intros Hc Hl Hu Hb. revert total. induction order as [| cid rest IH]; intros total; [done |].
  cbn [get_dps_loop]. unfold inactive, get_effective_spawn_time, get_creature_damage.
  rewrite Hc, Hl, Hu, (get_speed_multiplier_ext s s' Hc Hb), (get_damage_multiplier_ext s s' Hc Hb).
  destruct (creature_unlocked s !! cid) as [u |]; cbn [mbind option_bind]; [|done].
  destruct (negb u); [apply IH |].
  destruct (creature_levels s !! cid) as [lv |]; cbn [mbind option_bind]; [|done].
  destruct (lv =? 0); [apply IH |].
  destruct (_creatures (config s) !! cid) as [c |]; cbn [mbind option_bind]; [|done].
  destruct (get_speed_multiplier s) as [speed |]; cbn [mbind option_bind]; [|done].
  destruct (py_div (c_spawnTime c * speed) 1000) as [spawn_s |]; cbn [mbind option_bind]; [|done].
  cbn [orb].
  destruct (py_index (c_damageByLevel c) (lv - 1)) as [dl |]; cbn [mbind option_bind]; [|done].
  destruct (get_damage_multiplier s) as [m |]; cbn [mbind option_bind]; [|done].
  destruct (py_div (dl * m) spawn_s); cbn [mbind option_bind]; [apply IH | done].
Qed.

Lemma get_dps_ext (s s' : GameSim) :
  config s' = config s -> creature_levels s' = creature_levels s ->
  creature_unlocked s' = creature_unlocked s -> boost_levels s' = boost_levels s ->
  get_dps s' = get_dps s.
Proof. intros Hc Hl Hu Hb. unfold get_dps. rewrite Hc. by apply get_dps_loop_ext. Qed.

Lemma get_dps_spec (cfg : Config) (s : GameSim) :
  wf_config cfg -> Inv cfg s ->
  exists d speed dmg_mult,
    get_speed_multiplier s = Some speed
    ∧ (0 < speed)%Q
    ∧ get_damage_multiplier s = Some dmg_mult
    ∧ get_dps s = Some d
    ∧ (d == Qsum (unit_dps s speed dmg_mult <$> cfg_creatures cfg))%Q.
Proof.
  intros Hwf HI.
  destruct (get_speed_multiplier_pos cfg s Hwf HI) as (speed & Hspeed & Hpos).
  destruct (get_damage_multiplier_total cfg s Hwf HI) as (dm & Hdm).
  destruct (get_dps_loop_spec cfg s speed dm (cfg_creatures cfg) 0%Q Hwf HI) as (d & Hd & Heq);
    [done .. |].
  exists d, speed, dm. repeat (split; [done |]).
  split; [unfold get_dps, _creature_order; by rewrite (inv_config _ _ HI) |].
  rewrite Heq. ring.
Qed.

(** X6. In a state satisfying the invariant [get_dps] returns (no division
    by zero, no missing key), and its value is the sum over the active units
    of [damageByLevel[level - 1] * damage_multiplier] divided by the effective
    spawn interval in seconds; with damage figures that are not negative it
    is not negative, and it is the same after any [advance], since it reads
    neither the clock nor the accumulators nor the balances. *)
Theorem X6_get_dps_closed_form (cfg : Config) (s : GameSim) :
  wf_config cfg -> Inv cfg s ->
  exists d speed dmg_mult,
    get_speed_multiplier s = Some speed
    ∧ get_damage_multiplier s = Some dmg_mult
    ∧ get_dps s = Some d
    ∧ (d == Qsum (unit_dps s speed dmg_mult <$> cfg_creatures cfg))%Q
    ∧ (nonneg_damage cfg -> (0 <= d)%Q)
    ∧ (forall delta_ms s', (0 <= delta_ms)%Q -> advance s delta_ms = Some s' ->
         get_dps s' = Some d).
Proof.
  intros Hwf HI.
  destruct (get_dps_spec cfg s Hwf HI) as (d & speed & dm & Hspeed & Hpos & Hdm & Hd & Heq).
  exists d, speed, dm. repeat (split; [done |]). split.
  - intros Hnn. rewrite Heq. apply Qsum_nonneg. intros c Hc. unfold unit_dps.
    destruct (is_active s c); [|lra].
    destruct (get_damage_multiplier_nonneg cfg s Hwf Hnn HI) as (m & Hm & Hm0).
    rewrite Hdm in Hm. injection Hm as <-.
    pose proof (damage_per_tick_nonneg cfg s dm c Hnn Hc Hm0) as Hdpt.
    pose proof (effective_interval_pos cfg c speed Hwf Hc Hpos) as Hint.
    assert (0 < effective_interval speed c / 1000)%Q by (apply Qlt_shift_div_l; lra).
    apply Qle_shift_div_l; [done |].
    rewrite Qmult_0_l. done.
  - intros delta_ms s' Hdelta Hadv.
    destruct (advance_remainder cfg s delta_ms Hwf HI Hdelta)
      as (s1 & ? & ? & _ & _ & _ & Hadv1 & HI1 & _ & Hl & Hu & Hb & _).
    rewrite Hadv in Hadv1. injection Hadv1 as <-.
    rewrite <- Hd. apply get_dps_ext; [|done ..].
    by rewrite (inv_config _ _ HI1), (inv_config _ _ HI).
Qed.

Lemma X6_witness :
  exists d speed dmg_mult,
    get_speed_multiplier (GameSim_init EVENT_CONFIG) = Some speed
    ∧ get_damage_multiplier (GameSim_init EVENT_CONFIG) = Some dmg_mult
    ∧ get_dps (GameSim_init EVENT_CONFIG) = Some d
    ∧ (d == Qsum (unit_dps (GameSim_init EVENT_CONFIG) speed dmg_mult
                    <$> cfg_creatures EVENT_CONFIG))%Q
    ∧ (nonneg_damage EVENT_CONFIG -> (0 <= d)%Q)
    ∧ (forall delta_ms s', (0 <= delta_ms)%Q ->
         advance (GameSim_init EVENT_CONFIG) delta_ms = Some s' -> get_dps s' = Some d).
Proof.
  apply (X6_get_dps_closed_form EVENT_CONFIG (GameSim_init EVENT_CONFIG)).
  - exact wf_EVENT_CONFIG.
  - exact (Inv_init EVENT_CONFIG wf_EVENT_CONFIG).
Defined.





Lemma creatures_lookup_None (cfg : Config) (cid : string) :
  cid ∉ _creature_order cfg -> _creatures cfg !! cid = None.
Proof.
  intros Hn. unfold _creatures.
  by rewrite (foldl_insert_notin c_id (fun c => c)).
Qed.

Lemma boosts_lookup_None (cfg : Config) (bid : string) :
  bid ∉ _boost_order cfg -> _boosts cfg !! bid = None.
Proof.
  intros Hn. unfold _boosts.
  by rewrite (foldl_insert_notin b_id (fun b => b)).
Qed.

(** X8. The per-unit accessors in a state satisfying the invariant:
    [get_creature_production] and [get_creature_damage] return 0 for a unit
    that is not active and otherwise exactly the per-tick production
    (table entry plus production bonus) and damage (table entry times damage
    multiplier) that [advance] credits, and [get_effective_spawn_time] is the
    spawn time times the speed multiplier; for an id that is not configured
    the accessors and the upgrade methods raise (KeyError). *)
Theorem X8_accessors_agree_with_advance (cfg : Config) (s : GameSim) :
  wf_config cfg -> Inv cfg s ->
  (exists speed dmg_mult,
     get_speed_multiplier s = Some speed
     ∧ get_damage_multiplier s = Some dmg_mult
     ∧ forall c, c ∈ cfg_creatures cfg ->
         get_creature_production s (c_id c)
         = Some (if is_active s c then production_per_tick s c else 0%Q)
         ∧ get_creature_damage s (c_id c)
           = Some (if is_active s c then damage_per_tick s dmg_mult c else 0%Q)
         ∧ get_effective_spawn_time s c = Some (effective_interval speed c))
  ∧ (forall cid, cid ∉ _creature_order cfg ->
       get_creature_production s cid = None
       ∧ get_creature_damage s cid = None
       ∧ get_creature_upgrade_cost s cid = None
       ∧ upgrade_creature s cid = None)
  ∧ (forall bid, bid ∉ _boost_order cfg ->
       get_boost_upgrade_cost s bid = None ∧ upgrade_boost s bid = None).
Proof.
  intros Hwf HI. split; [|split].
  - destruct (get_speed_multiplier_pos cfg s Hwf HI) as (speed & Hspeed & _).
    destruct (get_damage_multiplier_total cfg s Hwf HI) as (dm & Hdm).
    exists speed, dm. do 2 (split; [done |]). intros c Hc.
    split; [by eapply get_creature_production_spec |].
    split; [by eapply get_creature_damage_spec |].
    unfold get_effective_spawn_time. by rewrite Hspeed.
  - intros cid Hn. apply creatures_lookup_None in Hn.
    unfold upgrade_creature, get_creature_upgrade_cost, get_creature_production,
      get_creature_damage.
    by rewrite (inv_config _ _ HI), Hn.
  - intros bid Hn. apply boosts_lookup_None in Hn.
    unfold upgrade_boost, get_boost_upgrade_cost.
    by rewrite (inv_config _ _ HI), Hn.
Qed.

Lemma X8_witness :
  (exists speed dmg_mult,
     get_speed_multiplier seven_sapphires = Some speed
     ∧ get_damage_multiplier seven_sapphires = Some dmg_mult
     ∧ forall c, c ∈ cfg_creatures EVENT_CONFIG ->
         get_creature_production seven_sapphires (c_id c)
         = Some (if is_active seven_sapphires c then production_per_tick seven_sapphires c
                 else 0%Q)
         ∧ get_creature_damage seven_sapphires (c_id c)
           = Some (if is_active seven_sapphires c
                   then damage_per_tick seven_sapphires dmg_mult c else 0%Q)
         ∧ get_effective_spawn_time seven_sapphires c = Some (effective_interval speed c))
  ∧ (forall cid, cid ∉ _creature_order EVENT_CONFIG ->
       get_creature_production seven_sapphires cid = None
       ∧ get_creature_damage seven_sapphires cid = None
       ∧ get_creature_upgrade_cost seven_sapphires cid = None
       ∧ upgrade_creature seven_sapphires cid = None)
  ∧ (forall bid, bid ∉ _boost_order EVENT_CONFIG ->
       get_boost_upgrade_cost seven_sapphires bid = None
       ∧ upgrade_boost seven_sapphires bid = None).
Proof.
  apply (X8_accessors_agree_with_advance EVENT_CONFIG seven_sapphires).
  - exact wf_EVENT_CONFIG.
  - exact Inv_seven_sapphires.
Defined.

(** ** [_spend] and [can_afford] on resources that are not in the balances *)

Lemma _spend_Some_dom (res res' : gmap string Q) (cost : Cost) :
  _spend res cost = Some res' -> dom cost ⊆ dom res ∧ dom res' = dom res.
Proof.
  unfold _spend. revert res'.
  apply (map_fold_weak_ind
           (fun acc (m : Cost) =>
              forall res', acc = Some res' -> dom m ⊆ dom res ∧ dom res' = dom res)).
  - intros res' [= <-]. split; [|done]. rewrite dom_empty. set_solver.
  - intros i x m acc Hi IH res' Hacc.
    destruct acc as [res1 |]; cbn [mbind option_bind] in Hacc; [|done].
    destruct (res1 !! i) as [bal |] eqn:Hbal; cbn [mbind option_bind] in Hacc; [|done].
    injection Hacc as <-.
    destruct (IH res1 eq_refl) as [Hsub Hdom].
    assert (Hin : i ∈ dom res).
    { rewrite <- Hdom. apply elem_of_dom. by exists bal. }
    rewrite !dom_insert_L, Hdom. split.
    + intros r [->%elem_of_singleton | Hr]%elem_of_union; [done | by apply Hsub].
    + apply (anti_symm (⊆)); [|apply union_subseteq_r].
      intros r [->%elem_of_singleton | Hr]%elem_of_union; done.
Qed.

(** X9. [_spend] raises (KeyError) exactly when the cost names a resource
    that has no balance; when it returns, every amount of the cost has been
    subtracted from its balance and nothing else has changed.  [can_afford]
    does not raise on such a cost: it compares each amount with the balance,
    taking a missing balance as 0. *)
Theorem X9_spend_raises_iff_resource_missing (s : GameSim) (cost : Cost) :
  (is_Some (_spend (resources s) cost) <-> dom cost ⊆ dom (resources s))
  ∧ (forall res', _spend (resources s) cost = Some res' ->
       debited (resources s) res' cost ∧ dom res' = dom (resources s))
  ∧ (can_afford s (Some cost) = true <->
     forall r amt, cost !! r = Some amt -> (amt <= default 0 (resources s !! r))%Q).
Proof.
  split; [|split].
  - split.
    + intros [res' Hres']. by apply _spend_Some_dom in Hres' as [? _].
    + intros Hdom. destruct (_spend_spec _ _ Hdom) as (res' & -> & _). by eexists.
  - intros res' Hres'. pose proof (_spend_Some_dom _ _ _ Hres') as [Hdom Hdom'].
    split; [|done]. destruct (_spend_spec _ _ Hdom) as (res1 & Hres1 & Hdeb).
    rewrite Hres' in Hres1. by injection Hres1 as <-.
  - apply can_afford_true.
Qed.

(** ** The position map *)

Lemma positions_from_lower (l : list Step) (pos : nat) (key : Key) :
  Forall (fun p => (pos <= p)%nat) (positions_from pos l key).
Proof.
  apply Forall_forall. intros p Hp. by apply positions_from_spec in Hp as [? _].
Qed.

Lemma positions_from_sorted (l : list Step) (pos : nat) (key : Key) (i j p q : nat) :
  (i < j)%nat ->
  positions_from pos l key !! i = Some p -> positions_from pos l key !! j = Some q ->
  (p < q)%nat.
Proof.
  revert pos i j. induction l as [| st rest IH]; intros pos i j Hij; [done |].
  cbn [positions_from]. destruct (decide (step_key st = key)); cbn [app]; [|by apply IH].
  destruct j as [| j]; [lia |]. cbn [lookup list_lookup]. intros Hp Hq.
  destruct i as [| i].
  - injection Hp as <-.
    apply list_elem_of_lookup_2, positions_from_spec in Hq as [Hq _]. lia.
  - eapply (IH (S pos) i j); [lia | done | done].
Qed.

Lemma positions_from_length (l : list Step) (pos : nat) (key : Key) :
  length (positions_from pos l key) = key_count key l.
Proof.
  unfold key_count. revert pos. induction l as [| st rest IH]; intros pos; [done |].
  cbn [positions_from]. rewrite filter_cons, length_app, IH.
  by destruct (decide (step_key st = key)).
Qed.

Lemma pos_map_append_total (pm : list (Key * list nat)) (key : Key) (pos : nat) :
  sum_list ((fun kp => length kp.2) <$> pos_map_append pm key pos)
  = S (sum_list ((fun kp => length kp.2) <$> pm)).
Proof.
  induction pm as [| [k ps] rest IH]; [done |].
  cbn [pos_map_append]. destruct (decide (k = key)).
  - rewrite !fmap_cons. cbn [sum_list snd]. rewrite length_app. simpl. lia.
  - rewrite !fmap_cons. cbn [sum_list snd]. rewrite IH. lia.
Qed.

Lemma build_pos_map_from_total (l : list Step) (pos : nat) (pm : list (Key * list nat)) :
  sum_list ((fun kp => length kp.2) <$> _build_pos_map_from pos l pm)
  = (sum_list ((fun kp => length kp.2) <$> pm) + length l)%nat.
Proof.
  revert pos pm. induction l as [| st rest IH]; intros pos pm; cbn [_build_pos_map_from length].
  - lia.
  - rewrite IH, pos_map_append_total. lia.
Qed.

Lemma build_pos_map_from_keys_mono (l : list Step) (pos : nat) (pm : list (Key * list nat))
      (key : Key) :
  key ∈ pm.*1 ∨ key ∈ step_key <$> l -> key ∈ (_build_pos_map_from pos l pm).*1.
Proof.
  revert pos pm. induction l as [| st rest IH]; intros pos pm; cbn [_build_pos_map_from].
  - intros [Hk | Hk]; [done | by apply elem_of_nil in Hk].
  - intros Hk. apply IH. rewrite pos_map_append_keys.
    destruct (decide (step_key st ∈ pm.*1)) as [Hin | Hin].
    + destruct Hk as [Hk | Hk]; [by left |].
      rewrite fmap_cons in Hk. apply elem_of_cons in Hk as [-> | Hk]; [by left | by right].
    + destruct Hk as [Hk | Hk]; [left; apply elem_of_app; by left |].
      rewrite fmap_cons in Hk. apply elem_of_cons in Hk as [-> | Hk]; [|by right].
      left. apply elem_of_app. right. by apply list_elem_of_singleton.
Qed.

Lemma build_pos_map_keys (priority : list Step) (key : Key) :
  key ∈ (_build_pos_map priority).*1 <-> key ∈ step_key <$> priority.
Proof.
  split.
  - intros Hk. destruct (build_pos_map_from_keys priority 0 [] key Hk) as [H0 | H0]; [|done].
    by apply elem_of_nil in H0.
  - intros Hk. apply build_pos_map_from_keys_mono. by right.
Qed.

(** X10. [_build_pos_map] partitions the positions of the priority list by
    key: the keys of the map are distinct and are exactly the keys that
    occur in the list; the entry of a key lists, in ascending order, exactly
    the positions at which the key occurs (so it is never empty and has as
    many entries as the key has steps); and the lengths of all entries add
    up to the length of the list. *)
Theorem X10_build_pos_map_partitions_positions (priority : list Step) :
  NoDup (_build_pos_map priority).*1
  ∧ (forall key, key ∈ (_build_pos_map priority).*1 <-> key ∈ step_key <$> priority)
  ∧ (forall key ps, (key, ps) ∈ _build_pos_map priority ->
       (forall i j p q, (i < j)%nat -> ps !! i = Some p -> ps !! j = Some q -> (p < q)%nat)
       ∧ (forall p, p ∈ ps <-> exists st, priority !! p = Some st ∧ step_key st = key)
       ∧ length ps = key_count key priority
       ∧ ps ≠ [])
  ∧ sum_list ((fun kp => length kp.2) <$> _build_pos_map priority) = length priority.
Proof.
  destruct (build_pos_map_spec priority) as [Hnd Hspec].
  split; [done |]. split; [apply build_pos_map_keys |]. split.
  - intros key ps Hin. destruct (Hspec key ps Hin) as [-> Hkey].
    split; [intros i j p q; apply positions_from_sorted |]. split; [|split].
    + intros p. rewrite positions_from_spec, Nat.sub_0_r. split; [by intros [_ ?] |].
      intros ?. split; [lia | done].
    + apply positions_from_length.
    + apply list_elem_of_fmap in Hkey as (st & -> & Hst).
      apply list_elem_of_lookup in Hst as [p Hp].
      assert (Hin' : p ∈ positions_from 0 priority (step_key st)).
      { apply positions_from_spec. split; [lia |]. rewrite Nat.sub_0_r. by exists st. }
      intros Hnil. rewrite Hnil in Hin'. by apply elem_of_nil in Hin'.
  - unfold _build_pos_map. by rewrite build_pos_map_from_total.
Qed.

(** ** The template *)

Lemma key_count_app (key : Key) (l1 l2 : list Step) :
  key_count key (l1 ++ l2) = (key_count key l1 + key_count key l2)%nat.
Proof. unfold key_count. by rewrite filter_app, length_app. Qed.

Lemma key_count_replicate (key : Key) (n : nat) (st : Step) :
  key_count key (replicate n st) = if decide (step_key st = key) then n else 0%nat.
Proof.
  unfold key_count. induction n as [| n IH]; [by destruct (decide _) |].
  cbn [replicate]. rewrite filter_cons.
  destruct (decide (step_key st = key)); cbn [length]; by rewrite IH.
Qed.

Lemma key_count_flat_map_0 {A} (key : Key) (f : A -> list Step) (l : list A) :
  (forall x, x ∈ l -> key_count key (f x) = 0%nat) -> key_count key (flat_map f l) = 0%nat.
Proof.
  induction l as [| x l IH]; intros Hf; [done |].
  cbn [flat_map]. rewrite key_count_app, (Hf x), IH; [done | | apply elem_of_cons; by left].
  intros y Hy. apply Hf, elem_of_cons. by right.
Qed.

Lemma key_count_flat_map_one {A} (key : Key) (f : A -> list Step) (id : A -> string)
      (l : list A) (x : A) :
  NoDup (id <$> l) -> x ∈ l ->
  (forall y, y ∈ l -> id y ≠ id x -> key_count key (f y) = 0%nat) ->
  key_count key (flat_map f l) = key_count key (f x).
Proof.
  induction l as [| y l IH]; intros Hnd Hx Hf; [by apply elem_of_nil in Hx |].
  rewrite fmap_cons in Hnd. apply NoDup_cons in Hnd as [Hy Hnd].
  cbn [flat_map]. rewrite key_count_app.
  apply elem_of_cons in Hx as [-> | Hx].
  - rewrite key_count_flat_map_0; [lia |].
    intros z Hz. apply Hf; [apply elem_of_cons; by right |].
    intros Heq. apply Hy. rewrite <- Heq. by apply list_elem_of_fmap_2.
  - rewrite (Hf y); [| apply elem_of_cons; by left |].
    + rewrite IH; [done .. |]. intros z Hz. apply Hf, elem_of_cons. by right.
    + intros Heq. apply Hy. rewrite Heq. by apply list_elem_of_fmap_2.
Qed.

Lemma length_flat_map_replicate {A} (n : A -> nat) (st : A -> Step) (l : list A) :
  length (flat_map (fun x => replicate (n x) (st x)) l) = sum_list (n <$> l).
Proof.
  induction l as [| x l IH]; [done |].
  cbn [flat_map]. rewrite length_app, length_replicate, IH. done.
Qed.

(** X11. For every configuration with distinct unit ids and distinct boost
    ids, the template built as in [build_template] satisfies the per-key
    count invariant (each unit has [maxLevel - 1] steps if unlocked by
    default, else [maxLevel]; each boost has [maxLevel]), names only
    configured ids, and its length is the sum of these counts; the template
    of the shipped configuration has 81 steps. *)
Theorem X11_build_template_counts (cfg : Config) :
  NoDup (_creature_order cfg) -> NoDup (_boost_order cfg) ->
  valid_ordering cfg (build_template_of cfg)
  ∧ known_steps cfg (build_template_of cfg)
  ∧ length (build_template_of cfg) = template_size cfg
  ∧ length build_template = 81%nat.
Proof.
  intros Hndc Hndb.
  assert (Hsteps : forall c, creature_steps c
            = Z.to_nat (if negb (c_unlockedByDefault c) then c_maxLevel c else c_maxLevel c - 1)).
  { intros c. unfold creature_steps. by destruct (c_unlockedByDefault c). }
  split; [|split; [|split]].
  - split; apply Forall_forall.
    + intros c Hc. unfold build_template_of. rewrite key_count_app.
      rewrite (key_count_flat_map_one _ _ c_id _ c Hndc Hc).
      * rewrite key_count_replicate, decide_True by done.
        rewrite key_count_flat_map_0; [rewrite Hsteps; lia |].
        intros b _. by rewrite key_count_replicate, decide_False.
      * intros y _ Hne. rewrite key_count_replicate, decide_False; [done |].
        unfold step_key. cbn [fst snd]. congruence.
    + intros b Hb. unfold build_template_of. rewrite key_count_app.
      rewrite key_count_flat_map_0.
      * rewrite (key_count_flat_map_one _ _ b_id _ b Hndb Hb).
        -- by rewrite key_count_replicate, decide_True.
        -- intros y _ Hne. rewrite key_count_replicate, decide_False; [done |].
           unfold step_key. cbn [fst snd]. congruence.
      * intros c _. by rewrite key_count_replicate, decide_False.
  - unfold known_steps, build_template_of. apply Forall_app. split; apply Forall_forall.
    + intros st Hst. apply list_elem_of_In, in_flat_map in Hst as (c & Hc & Hst).
      apply list_elem_of_In, elem_of_replicate in Hst as [-> _].
      unfold valid_key, step_key. cbn [fst snd]. rewrite decide_True by done.
      apply list_elem_of_fmap_2. by apply list_elem_of_In.
    + intros st Hst. apply list_elem_of_In, in_flat_map in Hst as (b & Hb & Hst).
      apply list_elem_of_In, elem_of_replicate in Hst as [-> _].
      unfold valid_key, step_key. cbn [fst snd]. rewrite decide_False by done.
      apply list_elem_of_fmap_2. by apply list_elem_of_In.
  - unfold build_template_of, template_size.
    rewrite length_app, !length_flat_map_replicate. f_equal.
    f_equal. apply list_fmap_ext. intros i c _. by rewrite Hsteps.
  - by vm_compute.
Qed.

Lemma X11_witness :
  valid_ordering EVENT_CONFIG (build_template_of EVENT_CONFIG)
  ∧ known_steps EVENT_CONFIG (build_template_of EVENT_CONFIG)
  ∧ length (build_template_of EVENT_CONFIG) = template_size EVENT_CONFIG
  ∧ length build_template = 81%nat.
Proof.
  apply (X11_build_template_counts EVENT_CONFIG).
  - exact (proj1 wf_EVENT_CONFIG).
  - exact (proj1 (proj2 wf_EVENT_CONFIG)).
Defined.

(** ** The clock of the evaluator *)

Lemma advance_creature_clock (speed dmg_mult delta_ms : Q) (s s' : GameSim) (cid : string) :
  advance_creature speed dmg_mult delta_ms s cid = Some s' ->
  config s' = config s ∧ time_elapsed_ms s' = time_elapsed_ms s.
Proof.
  unfold advance_creature. intros Hadv.
  destruct (inactive s cid) as [[|] |]; cbn [mbind option_bind] in Hadv;
    [by injection Hadv as <- | | done].
  destruct (_creatures (config s) !! cid) as [c |]; cbn [mbind option_bind] in Hadv; [|done].
  destruct (creature_levels s !! cid) as [lv |]; cbn [mbind option_bind] in Hadv; [|done].
  destruct (creature_progress s !! cid) as [p |]; cbn [mbind option_bind] in Hadv; [|done].
  destruct (py_div (p + delta_ms) (c_spawnTime c * speed)) as [q |];
    cbn [mbind option_bind] in Hadv; [|done].
  destruct (int_trunc q =? 0); [by injection Hadv as <- |].
  destruct (py_index (c_productionByLevel c) (lv - 1)) as [pl |];
    cbn [mbind option_bind] in Hadv; [|done].
  match type of Hadv with
  | context [get_production_bonus ?s2 ?r] =>
      destruct (get_production_bonus s2 r) as [bonus |]; cbn [mbind option_bind] in Hadv; [|done]
  end.
  destruct (py_index (c_damageByLevel c) (lv - 1)) as [dl |];
    cbn [mbind option_bind] in Hadv; [|done].
  match type of Hadv with
  | context [resources ?s2 !! ?r] =>
      destruct (resources s2 !! r) as [bal |]; cbn [mbind option_bind] in Hadv; [|done]
  end.
  by injection Hadv as <-.
Qed.

Lemma advance_loop_clock (speed dmg_mult delta_ms : Q) (order : list string) (s s' : GameSim) :
  advance_loop speed dmg_mult delta_ms s order = Some s' ->
  config s' = config s ∧ time_elapsed_ms s' = time_elapsed_ms s.
Proof.
  revert s. induction order as [| cid rest IH]; intros s Hadv; cbn [advance_loop] in Hadv.
  - by injection Hadv as <-.
  - destruct (advance_creature speed dmg_mult delta_ms s cid) as [s1 |] eqn:H1;
      cbn [mbind option_bind] in Hadv; [|done].
    apply advance_creature_clock in H1 as [Hc Ht].
    destruct (IH s1 Hadv) as [Hc' Ht']. split; congruence.
Qed.

(** [advance] moves the clock by exactly [delta_ms], whatever the state. *)
Lemma advance_clock (s s' : GameSim) (delta_ms : Q) :
  advance s delta_ms = Some s' ->
  config s' = config s ∧ time_elapsed_ms s' = (time_elapsed_ms s + delta_ms)%Q.
Proof.
  unfold advance. intros Hadv.
  destruct (get_speed_multiplier s) as [speed |]; cbn [mbind option_bind] in Hadv; [|done].
  destruct (get_damage_multiplier s) as [dm |]; cbn [mbind option_bind] in Hadv; [|done].
  destruct (advance_loop speed dm delta_ms s (_creature_order (config s))) as [s1 |] eqn:H1;
    cbn [mbind option_bind] in Hadv; [|done].
  apply advance_loop_clock in H1 as [Hc Ht]. injection Hadv as <-.
  cbn [config time_elapsed_ms set_time_elapsed_ms]. by rewrite Hc, Ht.
Qed.

Lemma upgrade_key_clock (sim sim' : GameSim) (key : Key) (ok : bool) :
  upgrade_key sim key = Some (ok, sim') ->
  config sim' = config sim ∧ time_elapsed_ms sim' = time_elapsed_ms sim.
Proof.
  unfold upgrade_key. destruct (decide (key.1 = "creature")); intros Hup.
  - by apply upgrade_creature_effect in Hup as (? & _ & _ & ? & _).
  - by apply upgrade_boost_effect in Hup as (? & _ & _ & _ & ? & _).
Qed.

(** The shape of one decision tick of [simulate_with_log]: either nothing
    is bought and nothing is logged, or the pointer of one entry of the
    position map moves by one and one record, stamped with the time at the
    start of the tick, is appended to the log; the clock moves by
    [STEP_MS]. *)
Lemma decision_tick_with_log_shape (name_map : gmap Key string)
      (pos_map : list (Key * list nat)) (n : nat) (sim : GameSim) (counts : gmap Key nat)
      (log : list LogEntry) (sim' : GameSim) (counts' : gmap Key nat) (log' : list LogEntry) :
  decision_tick_with_log name_map pos_map n sim counts log = Some (sim', counts', log') ->
  config sim' = config sim
  ∧ time_elapsed_ms sim' = (time_elapsed_ms sim + STEP_MS)%Q
  ∧ ((counts' = counts ∧ log' = log)
     ∨ exists kp c p e,
         kp ∈ pos_map
         ∧ counts !! kp.1 = Some c
         ∧ kp.2 !! c = Some p
         ∧ counts' = <[kp.1 := S c]> counts
         ∧ log' = log ++ [e]
         ∧ time_h e = (time_elapsed_ms sim / 3600000)%Q).
Proof.
  unfold decision_tick_with_log. intros Htick.
  destruct (scan sim counts pos_map n None) as [[bp bk] |] eqn:Hscan;
    cbn [mbind option_bind fst snd] in Htick; [|done].
  destruct (purchase_with_log name_map sim counts log bk) as [[[sim1 counts1] log1] |] eqn:Hp;
    cbn [mbind option_bind fst snd] in Htick; [|done].
  destruct (advance sim1 STEP_MS) as [sim2 |] eqn:Hadv; cbn [mbind option_bind] in Htick; [|done].
  injection Htick as <- <- <-.
  apply advance_clock in Hadv as [Hc2 Ht2].
  destruct (scan_spec _ _ _ _ _ _ _ Hscan) as [_ [[_ ->] | (_ & kp & Hin & -> & Hbuy)]].
  - cbn [purchase_with_log] in Hp. injection Hp as <- <- <-.
    split; [done |]. split; [done |]. by left.
  - destruct Hbuy as (c & cost & Hc & Hpos & _).
    cbn [purchase_with_log] in Hp.
    destruct (name_map !! kp.1) as [name |]; cbn [mbind option_bind] in Hp; [|done].
    rewrite Hc in Hp.
    destruct (decide (kp.1.1 = "creature")).
    + destruct (upgrade_creature sim kp.1.2) as [[ok s1] |] eqn:Hup;
        cbn [mbind option_bind fst snd] in Hp; [|done].
      destruct (creature_levels s1 !! kp.1.2) as [lv |];
        cbn [mbind option_bind fst snd] in Hp; [|done].
      injection Hp as <- <- <-.
      apply upgrade_creature_effect in Hup as (Hc1 & _ & _ & Ht1 & _).
      split; [congruence |]. split; [congruence |]. right.
      eexists kp, c, bp, _. repeat (split; [done |]). done.
    + destruct (upgrade_boost sim kp.1.2) as [[ok s1] |] eqn:Hup;
        cbn [mbind option_bind fst snd] in Hp; [|done].
      destruct (boost_levels s1 !! kp.1.2) as [lv |];
        cbn [mbind option_bind fst snd] in Hp; [|done].
      injection Hp as <- <- <-.
      apply upgrade_boost_effect in Hup as (Hc1 & _ & _ & _ & Ht1 & _).
      split; [congruence |]. split; [congruence |]. right.
      eexists kp, c, bp, _. repeat (split; [done |]). done.
Qed.

Lemma remaining_insert_notin (pm : list (Key * list nat)) (counts : gmap Key nat)
      (key : Key) (v : nat) :
  key ∉ pm.*1 -> remaining pm (<[key := v]> counts) = remaining pm counts.
Proof.
  unfold remaining. induction pm as [| x rest IH]; intros Hn; [done |].
  rewrite fmap_cons in Hn. apply not_elem_of_cons in Hn as [Hne Hn].
  rewrite !fmap_cons. cbn [sum_list]. rewrite IH by done.
  by rewrite lookup_insert_ne.
Qed.

Lemma remaining_insert (pm : list (Key * list nat)) (counts : gmap Key nat)
      (kp : Key * list nat) (c : nat) :
  NoDup pm.*1 -> kp ∈ pm -> counts !! kp.1 = Some c -> (c < length kp.2)%nat ->
  S (remaining pm (<[kp.1 := S c]> counts)) = remaining pm counts.
Proof.
  induction pm as [| x rest IH]; intros Hnd Hin Hc Hlt; [by apply elem_of_nil in Hin |].
  rewrite fmap_cons in Hnd. apply NoDup_cons in Hnd as [Hx Hnd].
  apply elem_of_cons in Hin as [<- | Hin].
  - unfold remaining. rewrite !fmap_cons. cbn [sum_list].
    fold (remaining rest (<[kp.1 := S c]> counts)). fold (remaining rest counts).
    rewrite remaining_insert_notin by done.
    rewrite lookup_insert_eq, Hc. cbn [from_option id]. lia.
  - assert (Hne : kp.1 ≠ x.1).
    { intros Heq. apply Hx. rewrite <- Heq. by apply list_elem_of_fmap_2. }
    unfold remaining. rewrite !fmap_cons. cbn [sum_list].
    fold (remaining rest (<[kp.1 := S c]> counts)). fold (remaining rest counts).
    rewrite lookup_insert_ne by done. rewrite <- (IH Hnd Hin Hc Hlt). lia.
Qed.

Lemma counts_bounded_insert (pm : list (Key * list nat)) (counts : gmap Key nat)
      (kp : Key * list nat) (c p : nat) :
  NoDup pm.*1 -> counts_bounded pm counts -> kp ∈ pm -> kp.2 !! c = Some p ->
  counts_bounded pm (<[kp.1 := S c]> counts).
Proof.
  intros Hnd Hb Hin Hp kp' Hin'.
  destruct (decide (kp.1 = kp'.1)) as [Heq | Hne].
  - assert (kp' = kp) as ->.
    { destruct kp as [k ps], kp' as [k' ps']. simpl in Heq. subst k'.
      by rewrite <- (pm_lookup_elem_of pm k ps Hnd Hin), <- (pm_lookup_elem_of pm k ps' Hnd Hin'). }
    exists (S c). rewrite lookup_insert_eq. split; [done |].
    apply lookup_lt_Some in Hp. lia.
  - rewrite lookup_insert_ne by done. by apply Hb.
Qed.

Lemma is_done_false (cfg : Config) (sim : GameSim) :
  config sim = cfg -> is_done sim = false -> (time_elapsed_ms sim < cfg_duration cfg)%Q.
Proof.
  intros Hc Hd. apply Qnot_le_lt. intros Hle.
  apply (is_done_spec cfg sim Hc) in Hle. congruence.
Qed.

(** The run of [simulate_with_log] from any state: the number of decision
    ticks, the clock, and the records added to the log. *)
Lemma simulate_with_log_loop_trace (cfg : Config) (name_map : gmap Key string)
      (pos_map : list (Key * list nat)) (n fuel : nat) (sim : GameSim)
      (counts : gmap Key nat) (log : list LogEntry) (final : GameSim) (log' : list LogEntry) :
  NoDup pos_map.*1 -> config sim = cfg -> counts_bounded pos_map counts ->
  simulate_with_log_loop fuel name_map pos_map n sim counts log = Some (final, log') ->
  exists (k : nat) (ents : list LogEntry) (counts' : gmap Key nat),
    log' = log ++ ents
    ∧ config final = cfg
    ∧ (k <= fuel)%nat
    ∧ (time_elapsed_ms final == time_elapsed_ms sim + inject_Z (Z.of_nat k) * STEP_MS)%Q
    ∧ is_done final = true
    ∧ (forall j, (j < k)%nat ->
         (time_elapsed_ms sim + inject_Z (Z.of_nat j) * STEP_MS < cfg_duration cfg)%Q)
    ∧ (length ents <= k)%nat
    ∧ (forall e, e ∈ ents ->
         exists j, (j < k)%nat
           ∧ (time_h e == (time_elapsed_ms sim + inject_Z (Z.of_nat j) * STEP_MS) / 3600000)%Q)
    ∧ (forall i i' e e', (i < i')%nat -> ents !! i = Some e -> ents !! i' = Some e' ->
         (time_h e < time_h e')%Q)
    ∧ counts_bounded pos_map counts'
    ∧ (length ents + remaining pos_map counts' = remaining pos_map counts)%nat.
Proof.
  intros Hnd. revert sim counts log.
  assert (Hstep : (0 < STEP_MS)%Q) by (vm_compute; reflexivity).
  induction fuel as [| fuel IH]; intros sim counts log Hcfg Hb Hrun; cbn [simulate_with_log_loop] in Hrun.
  - destruct (is_done sim) eqn:Hdone; [|done]. injection Hrun as <- <-.
    exists 0%nat, [], counts. rewrite app_nil_r. do 3 (split; [done |]).
    split; [change (inject_Z (Z.of_nat 0)) with 0%Q; ring |].
    split; [done |]. split; [intros j Hj; lia |]. split; [done |].
    split; [by intros e He%elem_of_nil |]. split; [by intros i i' e e' _ He |].
    split; done.
  - destruct (is_done sim) eqn:Hdone.
    + injection Hrun as <- <-.
      exists 0%nat, [], counts. rewrite app_nil_r. split; [done |]. split; [done |].
      split; [lia |].
      split; [change (inject_Z (Z.of_nat 0)) with 0%Q; ring |].
      split; [done |]. split; [intros j Hj; lia |]. split; [done |].
      split; [by intros e He%elem_of_nil |]. split; [by intros i i' e e' _ He |].
      split; done.
    + destruct (decision_tick_with_log name_map pos_map n sim counts log)
        as [[[sim1 counts1] log1] |] eqn:Htick; cbn [mbind option_bind fst snd] in Hrun; [|done].
      destruct (decision_tick_with_log_shape _ _ _ _ _ _ _ _ _ Htick) as (Hc1 & Ht1 & Hcase).
      assert (Hcfg1 : config sim1 = cfg) by congruence.
      pose proof (is_done_false cfg sim Hcfg Hdone) as Hnow.
      assert (Hb1 : counts_bounded pos_map counts1
                    ∧ exists ents0, log1 = log ++ ents0
                        ∧ (length ents0 + remaining pos_map counts1
                           = remaining pos_map counts)%nat
                        ∧ (length ents0 <= 1)%nat
                        ∧ forall e, e ∈ ents0 ->
                            time_h e = (time_elapsed_ms sim / 3600000)%Q).
      { destruct Hcase as [[-> ->] | (kp & c & p & e & Hin & Hc & Hp & -> & -> & He)].
        - split; [done |]. exists []. rewrite app_nil_r. split; [done |]. split; [done |].
          split; [simpl; lia |]. by intros e He%elem_of_nil.
        - split; [by eapply counts_bounded_insert |].
          exists [e]. split; [done |]. split.
          + cbn [length]. rewrite <- (remaining_insert pos_map counts kp c Hnd Hin Hc); [lia |].
            by apply lookup_lt_Some in Hp.
          + split; [simpl; lia |]. by intros e' ->%list_elem_of_singleton. }
      destruct Hb1 as (Hb1 & ents0 & -> & Hrem0 & Hlen0 & Htime0).
      destruct (IH sim1 counts1 (log ++ ents0) Hcfg1 Hb1 Hrun)
        as (k & ents & counts' & -> & Hcf & Hk & Htf & Hdf & Hlt & Hlen & Htimes & Hsorted
            & Hb' & Hrem).
      exists (S k), (ents0 ++ ents), counts'.
      split; [by rewrite app_assoc |]. split; [done |]. split; [lia |].
      assert (HS : forall j : nat, (inject_Z (Z.of_nat (S j)) == inject_Z (Z.of_nat j) + 1)%Q).
      { intros j. rewrite Nat2Z.inj_succ. unfold Z.succ. rewrite inject_Z_plus. reflexivity. }
      split; [rewrite Htf, Ht1, HS; ring |]. split; [done |].
      split.
      { intros [| j] Hj; [change (inject_Z (Z.of_nat 0)) with 0%Q; lra |].
        specialize (Hlt j ltac:(lia)). rewrite Ht1 in Hlt. rewrite HS. lra. }
      split; [rewrite length_app; lia |].
      assert (Hlater : forall e, e ∈ ents ->
                exists j, (j < S k)%nat ∧ (0 < j)%nat
                  ∧ (time_h e == (time_elapsed_ms sim + inject_Z (Z.of_nat j) * STEP_MS)
                                 / 3600000)%Q).
      { intros e He. destruct (Htimes e He) as (j & Hj & Heq).
        exists (S j). split; [lia |]. split; [lia |]. rewrite Heq, Ht1, HS.
        unfold Qdiv. ring. }
      split.
      { intros e [He | He]%elem_of_app.
        - exists 0%nat. split; [lia |]. rewrite (Htime0 e He).
          change (inject_Z (Z.of_nat 0)) with 0%Q.
          unfold Qdiv. ring.
        - destruct (Hlater e He) as (j & Hj & _ & Heq). by exists j. }
      split.
      { intros i i' e e' Hii He He'.
        destruct ents0 as [| e0 [| ? ?]]; [by eapply Hsorted | | simpl in Hlen0; lia].
        cbn [app] in He, He'. destruct i' as [| i']; [lia |]. cbn [lookup list_lookup] in He'.
        destruct i as [| i].
        - injection He as <-.
          rewrite (Htime0 e0) by (by apply list_elem_of_singleton).
          destruct (Hlater e') as (j & _ & Hj & ->); [by eapply list_elem_of_lookup_2 |].
          apply Qmult_lt_compat_r; [by vm_compute |].
          assert (1 <= inject_Z (Z.of_nat j))%Q.
          { change 1%Q with (inject_Z 1). rewrite <- Zle_Qle. lia. }
          assert (STEP_MS <= inject_Z (Z.of_nat j) * STEP_MS)%Q; [|lra].
          rewrite <- (Qmult_1_l STEP_MS) at 1. apply Qmult_le_compat_r; lra.
        - cbn [lookup list_lookup] in He. eapply (Hsorted i i'); [lia | done | done]. }
      split; [done |]. rewrite length_app. lia.
Qed.

Lemma init_counts_zero (pos_map : list (Key * list nat)) (kp : Key * list nat) :
  kp ∈ pos_map -> init_counts pos_map !! kp.1 = Some 0%nat.
Proof.
  intros Hin. destruct (init_counts_ok pos_map kp Hin) as [c Hc]. rewrite Hc.
  unfold init_counts in Hc.
  apply (foldl_insert_Some (fun kp : Key * list nat => kp.1) (fun _ => 0%nat)) in Hc
    as [Hc | (x & _ & _ & ->)]; [by rewrite lookup_empty in Hc | done].
Qed.

Lemma remaining_init_counts (pos_map : list (Key * list nat)) :
  remaining pos_map (init_counts pos_map)
  = sum_list ((fun kp => length kp.2) <$> pos_map).
Proof.
  unfold remaining. f_equal. apply list_fmap_ext. intros i kp Hkp.
  rewrite (init_counts_zero pos_map kp) by (by eapply list_elem_of_lookup_2).
  cbn [from_option id]. lia.
Qed.

(** The number of iterations of a loop that adds [STEP_MS] to a clock
    starting at 0 until the duration is reached. *)
Lemma ticks_eq_max_ticks (cfg : Config) (k : nat) :
  (cfg_duration cfg <= 0 + inject_Z (Z.of_nat k) * STEP_MS)%Q ->
  (forall j, (j < k)%nat -> (0 + inject_Z (Z.of_nat j) * STEP_MS < cfg_duration cfg)%Q) ->
  k = max_ticks cfg.
Proof.
  intros Hle Hlt. unfold max_ticks.
  assert (Hstep : (0 < STEP_MS)%Q) by (vm_compute; reflexivity).
  set (x := (cfg_duration cfg / STEP_MS)%Q).
  assert (Hx : (x <= inject_Z (Z.of_nat k))%Q).
  { unfold x. apply Qle_shift_div_r; [done | lra]. }
  apply Qceiling_resp_le in Hx. rewrite Qceiling_Z in Hx.
  destruct k as [| k]; [lia |].
  assert (Hk : (inject_Z (Z.of_nat k) < x)%Q).
  { unfold x. apply Qlt_shift_div_l; [done |]. specialize (Hlt k ltac:(lia)). lra. }
  pose proof (Qle_ceiling x) as Hc.
  assert (Z.of_nat k < Qceiling x); [|lia].
  rewrite Zlt_Qlt. lra.
Qed.

Lemma simulate_with_log_of_trace (cfg : Config) (priority : list Step) :
  wf_config cfg -> no_free_cost cfg -> known_steps cfg priority ->
  exists final log,
    simulate_with_log_of cfg priority = Some (total_damage final, log, final)
    ∧ simulate_of cfg priority = Some (total_damage final)
    ∧ Inv cfg final
    ∧ (time_elapsed_ms final == inject_Z (Z.of_nat (max_ticks cfg)) * STEP_MS)%Q
    ∧ (cfg_duration cfg <= time_elapsed_ms final)%Q
    ∧ (forall j, (j < max_ticks cfg)%nat ->
         (inject_Z (Z.of_nat j) * STEP_MS < cfg_duration cfg)%Q)
    ∧ (length log <= max_ticks cfg)%nat
    ∧ (length log <= length priority)%nat
    ∧ (forall e, e ∈ log ->
         exists j, (j < max_ticks cfg)%nat
           ∧ (time_h e == inject_Z (Z.of_nat j) * STEP_MS / 3600000)%Q)
    ∧ (forall i i' e e', (i < i')%nat -> log !! i = Some e -> log !! i' = Some e' ->
         (time_h e < time_h e')%Q).
Proof.
  intros Hwf Hnf Hknown.
  set (pm := _build_pos_map priority).
  destruct (simulate_loop_total cfg priority (max_ticks cfg) (GameSim_init cfg)
              (init_counts pm) Hwf Hnf Hknown)
    as (final & Hloop & Hdone & HIf & _).
  { by apply Inv_init. }
  { intros kp Hin. by apply init_counts_ok. }
  { apply max_ticks_enough. }
  destruct (simulate_with_log_loop_total cfg priority (max_ticks cfg) (GameSim_init cfg) final
              (init_counts pm) [] Hwf Hnf Hknown) as [log Hlog]; [| | done |].
  { by apply Inv_init. }
  { intros kp Hin. by apply init_counts_ok. }
  destruct (build_pos_map_spec priority) as [Hnd _].
  assert (Hb0 : counts_bounded pm (init_counts pm)).
  { intros kp Hin. exists 0%nat. split; [by apply init_counts_zero | lia]. }
  destruct (simulate_with_log_loop_trace cfg (name_map_of priority) pm (length priority)
              (max_ticks cfg) (GameSim_init cfg) (init_counts pm) [] final log
              Hnd eq_refl Hb0 Hlog)
    as (k & ents & counts' & Hents & _ & _ & Htf & _ & Hlt & Hlen & Htimes & Hsorted & _ & Hrem).
  cbn [app] in Hents. subst ents.
  change (time_elapsed_ms (GameSim_init cfg)) with 0%Q in *.
  assert (Hdur : (cfg_duration cfg <= time_elapsed_ms final)%Q).
  { apply (is_done_spec cfg); [apply HIf | done]. }
  assert (Hk : k = max_ticks cfg).
  { apply ticks_eq_max_ticks; [by rewrite <- Htf | done]. }
  subst k.
  exists final, log. unfold simulate_with_log_of, simulate_of. subst pm. cbv zeta.
  rewrite Hlog, Hloop. cbn [mbind option_bind fst snd].
  do 3 (split; [done |]). split; [rewrite Htf; ring |]. split; [done |].
  split; [intros j Hj; specialize (Hlt j Hj); lra |].
  split; [done |]. split.
  - rewrite remaining_init_counts in Hrem. unfold _build_pos_map in Hrem.
    rewrite build_pos_map_from_total in Hrem. simpl in Hrem. lia.
  - split; [|done]. intros e He. destruct (Htimes e He) as (j & Hj & Heq).
    exists j. split; [done |]. rewrite Heq. unfold Qdiv. ring.
Qed.

(** X12. [simulate] and [simulate_with_log] make exactly
    [ceil(duration / STEP_MS)] decision ticks: for a well-formed
    configuration without free costs and an ordering over configured ids,
    both return, with the same damage, and the clock of the final state is
    that number of steps of 60,000 ms, the first multiple of the step that
    reaches the duration.  For the shipped configuration this is 864 ticks,
    ending exactly at the event duration. *)
Theorem X12_simulate_tick_count (cfg : Config) (priority : list Step) :
  wf_config cfg -> no_free_cost cfg -> known_steps cfg priority ->
  (exists final log,
     simulate_with_log_of cfg priority = Some (total_damage final, log, final)
     ∧ simulate_of cfg priority = Some (total_damage final)
     ∧ (time_elapsed_ms final == inject_Z (Z.of_nat (max_ticks cfg)) * STEP_MS)%Q
     ∧ (cfg_duration cfg <= time_elapsed_ms final)%Q
     ∧ (forall j, (j < max_ticks cfg)%nat ->
          (inject_Z (Z.of_nat j) * STEP_MS < cfg_duration cfg)%Q))
  ∧ max_ticks EVENT_CONFIG = 864%nat
  ∧ (inject_Z 864 * STEP_MS == cfg_duration EVENT_CONFIG)%Q.
Proof.
  intros Hwf Hnf Hknown. split; [|split; by vm_compute].
  destruct (simulate_with_log_of_trace cfg priority Hwf Hnf Hknown)
    as (final & log & H1 & H2 & _ & H3 & H4 & H5 & _).
  by exists final, log.
Qed.

Lemma X12_witness :
  (exists final log,
     simulate_with_log_of EVENT_CONFIG build_template = Some (total_damage final, log, final)
     ∧ simulate_of EVENT_CONFIG build_template = Some (total_damage final)
     ∧ (time_elapsed_ms final == inject_Z (Z.of_nat (max_ticks EVENT_CONFIG)) * STEP_MS)%Q
     ∧ (cfg_duration EVENT_CONFIG <= time_elapsed_ms final)%Q
     ∧ (forall j, (j < max_ticks EVENT_CONFIG)%nat ->
          (inject_Z (Z.of_nat j) * STEP_MS < cfg_duration EVENT_CONFIG)%Q))
  ∧ max_ticks EVENT_CONFIG = 864%nat
  ∧ (inject_Z 864 * STEP_MS == cfg_duration EVENT_CONFIG)%Q.
Proof.
  apply (X12_simulate_tick_count EVENT_CONFIG build_template).
  - exact wf_EVENT_CONFIG.
  - exact no_free_cost_EVENT_CONFIG.
  - exact build_template_known.
Defined.

(** X13. The purchase log of [simulate_with_log] (well-formed configuration
    without free costs, ordering over configured ids): it has at most one
    record per decision tick and at most one per step of the ordering; each
    record is stamped with the start time of a decision tick, a multiple of
    the 60,000 ms step expressed in hours; and the stamps are strictly
    increasing. *)
Theorem X13_purchase_log_shape (cfg : Config) (priority : list Step) :
  wf_config cfg -> no_free_cost cfg -> known_steps cfg priority ->
  exists d log final,
    simulate_with_log_of cfg priority = Some (d, log, final)
    ∧ (length log <= max_ticks cfg)%nat
    ∧ (length log <= length priority)%nat
    ∧ (forall e, e ∈ log ->
         exists j, (j < max_ticks cfg)%nat
           ∧ (time_h e == inject_Z (Z.of_nat j) * STEP_MS / 3600000)%Q)
    ∧ (forall i i' e e', (i < i')%nat -> log !! i = Some e -> log !! i' = Some e' ->
         (time_h e < time_h e')%Q).
Proof.
  intros Hwf Hnf Hknown.
  destruct (simulate_with_log_of_trace cfg priority Hwf Hnf Hknown)
    as (final & log & H1 & _ & _ & _ & _ & _ & H2 & H3 & H4 & H5).
  by exists (total_damage final), log, final.
Qed.

Lemma X13_witness :
  exists d log final,
    simulate_with_log_of EVENT_CONFIG build_template = Some (d, log, final)
    ∧ (length log <= max_ticks EVENT_CONFIG)%nat
    ∧ (length log <= length build_template)%nat
    ∧ (forall e, e ∈ log ->
         exists j, (j < max_ticks EVENT_CONFIG)%nat
           ∧ (time_h e == inject_Z (Z.of_nat j) * STEP_MS / 3600000)%Q)
    ∧ (forall i i' e e', (i < i')%nat -> log !! i = Some e -> log !! i' = Some e' ->
         (time_h e < time_h e')%Q).
Proof.
  apply (X13_purchase_log_shape EVENT_CONFIG build_template).
  - exact wf_EVENT_CONFIG.
  - exact no_free_cost_EVENT_CONFIG.
  - exact build_template_known.
Defined.

(** ** The empty ordering *)

Lemma simulate_loop_empty (cfg : Config) (fuel : nat) (sim : GameSim) :
  wf_config cfg -> Baseline cfg (time_elapsed_ms sim) sim ->
  (cfg_duration cfg <= time_elapsed_ms sim + inject_Z (Z.of_nat fuel) * STEP_MS)%Q ->
  exists final (k : nat),
    simulate_loop fuel [] 0 sim ∅ = Some final
    ∧ Baseline cfg (time_elapsed_ms final) final
    ∧ (time_elapsed_ms final == time_elapsed_ms sim + inject_Z (Z.of_nat k) * STEP_MS)%Q
    ∧ (cfg_duration cfg <= time_elapsed_ms final)%Q
    ∧ (forall j, (j < k)%nat ->
         (time_elapsed_ms sim + inject_Z (Z.of_nat j) * STEP_MS < cfg_duration cfg)%Q).
Proof.
  intros Hwf. revert sim. induction fuel as [| fuel IH]; intros sim HB Hfuel.
  - assert (Hdur : (cfg_duration cfg <= time_elapsed_ms sim)%Q).
    { change (inject_Z (Z.of_nat 0)) with 0%Q in Hfuel. lra. }
    assert (Hdone : is_done sim = true).
    { apply (is_done_spec cfg); [apply HB | done]. }
    exists sim, 0%nat. cbn [simulate_loop]. rewrite Hdone. do 2 (split; [done |]).
    split; [change (inject_Z (Z.of_nat 0)) with 0%Q; ring |]. split; [done |].
    intros j Hj. lia.
  - destruct (is_done sim) eqn:Hdone.
    + exists sim, 0%nat. cbn [simulate_loop]. rewrite Hdone. do 2 (split; [done |]).
      split; [change (inject_Z (Z.of_nat 0)) with 0%Q; ring |].
      split; [apply (is_done_spec cfg); [apply HB | done] |].
      intros j Hj. lia.
    + assert (HS : forall j : nat, (inject_Z (Z.of_nat (S j)) == inject_Z (Z.of_nat j) + 1)%Q).
      { intros j. rewrite Nat2Z.inj_succ. unfold Z.succ. rewrite inject_Z_plus. reflexivity. }
      destruct (Baseline_advance cfg (time_elapsed_ms sim) STEP_MS sim Hwf HB STEP_MS_nonneg)
        as (sim1 & Hadv & HB1).
      pose proof (advance_clock _ _ _ Hadv) as [_ Ht1].
      rewrite <- Ht1 in HB1.
      destruct (IH sim1 HB1) as (final & k & Hloop & HBf & Htf & Hdur & Hlt).
      { rewrite Ht1. rewrite HS in Hfuel. lra. }
      exists final, (S k). cbn [simulate_loop]. rewrite Hdone.
      unfold decision_tick. cbn [scan purchase mbind option_bind fst snd].
      rewrite Hadv. cbn [mbind option_bind fst snd].
      do 2 (split; [done |]). split; [rewrite Htf, Ht1, HS; ring |]. split; [done |].
      intros [| j] Hj.
      * change (inject_Z (Z.of_nat 0)) with 0%Q.
        pose proof (is_done_false cfg sim (inv_config _ _ (bl_inv _ _ _ HB)) Hdone). lra.
      * specialize (Hlt j ltac:(lia)). rewrite Ht1 in Hlt. rewrite HS. lra.
Qed.

(** X14. The empty ordering: [simulate([])] buys nothing and returns the
    damage of the default-unlocked units at level 1 without boosts over the
    simulated time, [floor(T / spawnTime) * damageByLevel[0]] each, where
    [T] is [ceil(duration / STEP_MS)] steps; for the shipped configuration
    the score is 259,200. *)
Theorem X14_empty_ordering_scores_baseline (cfg : Config) :
  wf_config cfg ->
  (exists d,
     simulate_of cfg [] = Some d
     ∧ (d == Qsum (baseline_unit_damage (inject_Z (Z.of_nat (max_ticks cfg)) * STEP_MS)
                     <$> cfg_creatures cfg))%Q)
  ∧ (Qsum (baseline_unit_damage (inject_Z (Z.of_nat (max_ticks EVENT_CONFIG)) * STEP_MS)
             <$> cfg_creatures EVENT_CONFIG) == 259200)%Q.
Proof.
  intros Hwf. split; [|by vm_compute].
  destruct (simulate_loop_empty cfg (max_ticks cfg) (GameSim_init cfg) Hwf)
    as (final & k & Hloop & HBf & Htf & Hdur & Hlt).
  { apply Baseline_init, Hwf. }
  { apply max_ticks_enough. }
  change (time_elapsed_ms (GameSim_init cfg)) with 0%Q in *.
  assert (Hk : k = max_ticks cfg).
  { apply ticks_eq_max_ticks; [by rewrite <- Htf | done]. }
  subst k.
  exists (total_damage final). split.
  - unfold simulate_of. change (_build_pos_map []) with (@nil (Key * list nat)).
    change (init_counts []) with (∅ : gmap Key nat). cbn [length]. cbv zeta.
    by rewrite Hloop.
  - assert (HB : Baseline cfg (inject_Z (Z.of_nat (max_ticks cfg)) * STEP_MS) final).
    { eapply Baseline_proper; [|exact HBf]. rewrite Htf. ring. }
    apply (bl_damage _ _ _ HB).
Qed.

Lemma X14_witness :
  (exists d,
     simulate [] = Some d
     ∧ (d == Qsum (baseline_unit_damage (inject_Z (Z.of_nat (max_ticks EVENT_CONFIG)) * STEP_MS)
                     <$> cfg_creatures EVENT_CONFIG))%Q)
  ∧ (Qsum (baseline_unit_damage (inject_Z (Z.of_nat (max_ticks EVENT_CONFIG)) * STEP_MS)
             <$> cfg_creatures EVENT_CONFIG) == 259200)%Q.
Proof.
  apply (X14_empty_ordering_scores_baseline EVENT_CONFIG). exact wf_EVENT_CONFIG.
Defined.

(** ** Orderings that name an unknown id *)

Lemma positive_costs_EVENT_CONFIG : positive_costs EVENT_CONFIG.
Proof. apply (bool_decide_unpack _). vm_compute. reflexivity. Qed.

Lemma key_cost_positive (cfg : Config) (sim : GameSim) (key : Key) (cost : Cost) :
  positive_costs cfg -> config sim = cfg ->
  key_cost sim key = Some (Some cost) -> positive_cost cost.
Proof.
  intros [Hnc Hnb] Hcfg Hcost. unfold key_cost in Hcost.
  destruct (decide (key.1 = "creature")).
  - apply get_creature_upgrade_cost_inv in Hcost as (cr & u & Hcr & _ & Hu).
    rewrite Hcfg in Hcr. apply creatures_lookup_inv in Hcr as [Hcr _].
    eapply Forall_forall in Hnc; [|exact Hcr]. destruct Hnc as [Hun Hup].
    destruct u.
    + destruct Hu as (lv & _ & _ & Hin). by eapply Forall_forall in Hup.
    + rewrite Hu in Hun. done.
  - apply get_boost_upgrade_cost_inv in Hcost as (b & lv & Hb & _ & _ & Hin).
    rewrite Hcfg in Hb. apply boosts_lookup_inv in Hb as [Hb _].
    eapply Forall_forall in Hnb; [|exact Hb]. by eapply Forall_forall in Hnb.
Qed.

Lemma init_balance (cfg : Config) (r : string) :
  default 0%Q (resources (GameSim_init cfg) !! r) = 0%Q.
Proof.
  cbn [GameSim_init reset resources].
  destruct (foldl (fun m r0 => <[r0 := 0%Q]> m) ∅ (cfg_resources cfg) !! r) as [v |] eqn:Hv;
    [|done].
  apply (foldl_insert_Some (fun r0 : string => r0) (fun _ => 0%Q)) in Hv
    as [Hv | (x & _ & _ & ->)]; [by rewrite lookup_empty in Hv | done].
Qed.

(** With positive costs nothing can be bought from the initial state. *)
Lemma init_unaffordable (cfg : Config) (key : Key) (cost : option Cost) :
  positive_costs cfg ->
  key_cost (GameSim_init cfg) key = Some cost ->
  truthy cost && can_afford (GameSim_init cfg) cost = false.
Proof.
  intros Hpos Hcost. destruct cost as [c |]; [|done].
  destruct (truthy (Some c)) eqn:Htr; [|done]. cbn [andb].
  destruct (can_afford (GameSim_init cfg) (Some c)) eqn:Hca; [|done]. exfalso.
  cbn [truthy] in Htr. apply bool_decide_eq_true in Htr.
  apply map_choose in Htr as (r & amt & Hr).
  pose proof (key_cost_positive cfg (GameSim_init cfg) key c Hpos eq_refl Hcost r amt Hr) as Hamt.
  rewrite can_afford_true in Hca. specialize (Hca r amt Hr).
  rewrite init_balance in Hca. simpl in Hamt. lra.
Qed.

Lemma key_cost_unknown (cfg : Config) (sim : GameSim) (key : Key) :
  config sim = cfg -> ~ valid_key cfg key -> key_cost sim key = None.
Proof.
  intros Hcfg Hv. unfold valid_key, key_cost in *.
  destruct (decide (key.1 = "creature")).
  - unfold get_creature_upgrade_cost. by rewrite Hcfg, creatures_lookup_None.
  - unfold get_boost_upgrade_cost. by rewrite Hcfg, boosts_lookup_None.
Qed.

(** The scan when no entry is purchasable: it looks up the cost of every
    entry that has an unconsumed step, so it raises if one of the keys is
    unknown, and otherwise finds nothing. *)
Lemma scan_nothing_affordable (sim : GameSim) (counts : gmap Key nat)
      (items : list (Key * list nat)) (n : nat) :
  (forall key cost, key_cost sim key = Some cost -> truthy cost && can_afford sim cost = false) ->
  (forall kp, kp ∈ items ->
     exists c p, counts !! kp.1 = Some c ∧ kp.2 !! c = Some p ∧ (p < n)%nat) ->
  scan sim counts items n None
  = if decide (Forall (fun kp => is_Some (key_cost sim kp.1)) items) then Some (n, None) else None.
Proof.
  intros Hna. induction items as [| [key positions] rest IH]; intros Hok.
  - by rewrite decide_True by constructor.
  - destruct (Hok (key, positions)) as (c & p & Hc & Hp & Hlt); [apply elem_of_cons; by left |].
    cbn [fst snd] in Hc, Hp. cbn [scan]. rewrite Hc. cbn [mbind option_bind].
    rewrite decide_False by (apply lookup_lt_Some in Hp; lia).
    rewrite Hp. cbn [mbind option_bind]. rewrite decide_False by lia.
    destruct (key_cost sim key) as [cost |] eqn:Hcost; cbn [mbind option_bind].
    + rewrite (Hna key cost Hcost). rewrite IH.
      2:{ intros kp Hin. apply Hok, elem_of_cons. by right. }
      destruct (decide (Forall (fun kp => is_Some (key_cost sim kp.1)) rest)) as [Hall | Hall].
      * rewrite decide_True; [done |]. constructor; [|done].
        cbn [fst]. rewrite Hcost. by eexists.
      * rewrite decide_False; [done |]. by intros [_ ?]%Forall_cons.
    + rewrite decide_False; [done |]. intros [[? Hs] _]%Forall_cons. simpl in Hs. congruence.
Qed.

Lemma pos_map_first_position (priority : list Step) (kp : Key * list nat) :
  kp ∈ _build_pos_map priority ->
  exists p, kp.2 !! 0%nat = Some p ∧ (p < length priority)%nat.
Proof.
  intros Hin. destruct kp as [key ps].
  destruct (build_pos_map_spec priority) as [_ Hspec].
  destruct (Hspec key ps Hin) as [-> Hkey]. cbn [snd].
  apply list_elem_of_fmap in Hkey as (st & -> & Hst).
  apply list_elem_of_lookup in Hst as [i Hi].
  assert (Hin' : i ∈ positions_from 0 priority (step_key st)).
  { apply positions_from_spec. split; [lia |]. rewrite Nat.sub_0_r. by exists st. }
  destruct (positions_from 0 priority (step_key st)) as [| p ps] eqn:Hps;
    [by apply elem_of_nil in Hin' |].
  exists p. split; [done |].
  assert (Hp : p ∈ positions_from 0 priority (step_key st)).
  { rewrite Hps. apply elem_of_cons. by left. }
  apply positions_from_spec in Hp as (_ & st' & Hst' & _).
  apply lookup_lt_Some in Hst'. lia.
Qed.

(** The scan of the first decision tick. *)
Lemma first_scan (cfg : Config) (priority : list Step) :
  wf_config cfg -> positive_costs cfg ->
  scan (GameSim_init cfg) (init_counts (_build_pos_map priority)) (_build_pos_map priority)
       (length priority) None
  = if decide (known_steps cfg priority) then Some (length priority, None) else None.
Proof.
  intros Hwf Hpos. rewrite scan_nothing_affordable.
  - destruct (decide (known_steps cfg priority)) as [Hk | Hk].
    + rewrite decide_True; [done |]. apply Forall_forall. intros kp Hin.
      apply (key_cost_total cfg); [done | by apply Inv_init | by eapply pos_map_keys_valid].
    + rewrite decide_False; [done |]. intros Hall. apply Hk.
      apply Forall_forall. intros st Hst.
      destruct (decide (valid_key cfg (step_key st))) as [Hv | Hv]; [done |].
      assert (Hkey : step_key st ∈ (_build_pos_map priority).*1).
      { apply build_pos_map_keys. by apply list_elem_of_fmap_2. }
      apply list_elem_of_fmap in Hkey as (kp & Hkp & Hin).
      rewrite Forall_forall in Hall. destruct (Hall kp Hin) as [cost Hcost].
      rewrite <- Hkp, (key_cost_unknown cfg) in Hcost; done.
  - intros key cost. by apply init_unaffordable.
  - intros kp Hin. destruct (pos_map_first_position priority kp Hin) as (p & Hp & Hlt).
    exists 0%nat, p. split; [by apply init_counts_zero | done].
Qed.

Lemma max_ticks_pos (cfg : Config) : (0 < cfg_duration cfg)%Q -> (0 < max_ticks cfg)%nat.
Proof.
  intros Hd. unfold max_ticks.
  assert (Hstep : (0 < STEP_MS)%Q) by (vm_compute; reflexivity).
  assert (Hx : (0 < cfg_duration cfg / STEP_MS)%Q) by (apply Qlt_shift_div_l; lra).
  pose proof (Qle_ceiling (cfg_duration cfg / STEP_MS)) as Hc.
  assert (0 < Qceiling (cfg_duration cfg / STEP_MS)); [|lia].
  rewrite Zlt_Qlt. change (inject_Z 0) with 0%Q. lra.
Qed.

(** X15. When every cost is a positive amount (and the configuration is
    well formed, with a positive duration), [simulate(priority)] returns a
    score exactly when every step of the ordering names a configured unit
    (kind ['creature']) or a configured boost (any other kind); an ordering
    with an unknown id raises (KeyError) in the scan of the first decision
    tick.  The shipped configuration is of this kind. *)
Theorem X15_simulate_returns_iff_ids_known (cfg : Config) (priority : list Step) :
  wf_config cfg -> no_free_cost cfg -> positive_costs cfg -> (0 < cfg_duration cfg)%Q ->
  (is_Some (simulate_of cfg priority) <-> known_steps cfg priority)
  ∧ (is_Some (simulate_with_log_of cfg priority) <-> known_steps cfg priority)
  ∧ wf_config EVENT_CONFIG ∧ no_free_cost EVENT_CONFIG ∧ positive_costs EVENT_CONFIG
  ∧ (0 < cfg_duration EVENT_CONFIG)%Q.
Proof.
  intros Hwf Hnf Hpos Hdur.
  assert (Hnot : ~ known_steps cfg priority ->
            simulate_of cfg priority = None ∧ simulate_with_log_of cfg priority = None).
  { intros Hk. unfold simulate_of, simulate_with_log_of. cbv zeta.
    pose proof (max_ticks_pos cfg Hdur) as Hm.
    destruct (max_ticks cfg) as [| fuel]; [lia |].
    cbn [simulate_loop simulate_with_log_loop].
    assert (Hdone : is_done (GameSim_init cfg) = false).
    { destruct (is_done (GameSim_init cfg)) eqn:Hd; [|done].
      apply (is_done_spec cfg (GameSim_init cfg) eq_refl) in Hd.
      change (time_elapsed_ms (GameSim_init cfg)) with 0%Q in Hd. lra. }
    rewrite Hdone. unfold decision_tick, decision_tick_with_log.
    rewrite (first_scan cfg priority Hwf Hpos), decide_False by done. done. }
  split; [|split].
  - split.
    + intros Hs. destruct (decide (known_steps cfg priority)) as [Hk | Hk]; [done |].
      destruct (Hnot Hk) as [Hn _]. rewrite Hn in Hs. by destruct Hs.
    + intros Hk. destruct (simulate_of_total cfg priority Hwf Hnf Hk) as (final & -> & _).
      by eexists.
  - split.
    + intros Hs. destruct (decide (known_steps cfg priority)) as [Hk | Hk]; [done |].
      destruct (Hnot Hk) as [_ Hn]. rewrite Hn in Hs. by destruct Hs.
    + intros Hk.
      destruct (simulate_with_log_of_trace cfg priority Hwf Hnf Hk) as (final & log & -> & _).
      by eexists.
  - split; [exact wf_EVENT_CONFIG |]. split; [exact no_free_cost_EVENT_CONFIG |].
    split; [exact positive_costs_EVENT_CONFIG | by vm_compute].
Qed.

Lemma X15_witness :
  (is_Some (simulate_of EVENT_CONFIG [("creature", "nobody", "Nobody")])
   <-> known_steps EVENT_CONFIG [("creature", "nobody", "Nobody")])
  ∧ (is_Some (simulate_with_log_of EVENT_CONFIG [("creature", "nobody", "Nobody")])
     <-> known_steps EVENT_CONFIG [("creature", "nobody", "Nobody")])
  ∧ wf_config EVENT_CONFIG ∧ no_free_cost EVENT_CONFIG ∧ positive_costs EVENT_CONFIG
  ∧ (0 < cfg_duration EVENT_CONFIG)%Q.
Proof.
  apply (X15_simulate_returns_iff_ids_known EVENT_CONFIG [("creature", "nobody", "Nobody")]).
  - exact wf_EVENT_CONFIG.
  - exact no_free_cost_EVENT_CONFIG.
  - exact positive_costs_EVENT_CONFIG.
  - vm_compute. reflexivity.
Defined.

(** ** The perturbation operators are reversible *)

Lemma swap_positions_is_Some {A} (l : list A) (a b : nat) :
  is_Some (swap_positions l a b) <-> (a < length l)%nat ∧ (b < length l)%nat.
Proof.
  unfold swap_positions. split.
  - intros [l' Hl'].
    destruct (l !! b) as [y |] eqn:Hb; cbn [mbind option_bind] in Hl'; [|done].
    destruct (l !! a) as [x |] eqn:Ha; cbn [mbind option_bind] in Hl'; [|done].
    split; by eapply lookup_lt_Some.
  - intros [Ha Hb].
    destruct (lookup_lt_is_Some_2 l a Ha) as [x ->].
    destruct (lookup_lt_is_Some_2 l b Hb) as [y ->]. by eexists.
Qed.

Lemma swap_positions_involutive {A} (l l' : list A) (a b : nat) :
  swap_positions l a b = Some l' -> swap_positions l' a b = Some l.
Proof.
  unfold swap_positions. intros Hs.
  destruct (l !! b) as [y |] eqn:Hb; cbn [mbind option_bind] in Hs; [|done].
  destruct (l !! a) as [x |] eqn:Ha; cbn [mbind option_bind] in Hs; [|done].
  injection Hs as <-.
  pose proof (lookup_lt_Some _ _ _ Ha) as Hla. pose proof (lookup_lt_Some _ _ _ Hb) as Hlb.
  rewrite list_lookup_insert_eq by (by rewrite length_insert). cbn [mbind option_bind].
  destruct (decide (a = b)) as [-> | Hne].
  - rewrite Ha in Hb. injection Hb as <-.
    rewrite list_lookup_insert_eq by (by rewrite length_insert). cbn [mbind option_bind].
    by rewrite !list_insert_insert_eq, list_insert_id.
  - rewrite list_lookup_insert_ne, list_lookup_insert_eq by done. cbn [mbind option_bind].
    rewrite (list_insert_insert_ne _ a b) by done.
    rewrite !list_insert_insert_eq.
    by rewrite (list_insert_id l a x), (list_insert_id l b y).
Qed.

Lemma swap_positions_sym {A} (l : list A) (a b : nat) :
  swap_positions l a b = swap_positions l b a.
Proof.
  unfold swap_positions.
  destruct (l !! b) as [y |] eqn:Hb, (l !! a) as [x |] eqn:Ha; cbn [mbind option_bind]; try done.
  destruct (decide (a = b)) as [-> | Hne].
  - rewrite Ha in Hb. by injection Hb as <-.
  - by rewrite list_insert_insert_ne.
Qed.

Lemma reverse_segment_app {A} (l1 m l2 : list A) (a b : nat) :
  length l1 = a ->
  length m = (b - a)%nat ∨ (l2 = [] ∧ (length m <= b - a)%nat) ->
  reverse_segment (l1 ++ m ++ l2) a b = l1 ++ reverse m ++ l2.
Proof.
  intros Ha Hm. unfold reverse_segment.
  rewrite take_app_length', drop_app_length' by done.
  f_equal. destruct Hm as [Hm | [-> Hm]].
  - rewrite take_app_length' by done. f_equal.
    rewrite app_assoc, drop_app_length'; [done |]. rewrite length_app. lia.
  - rewrite (app_nil_r m), take_ge by done.
    rewrite drop_ge; [done |]. rewrite length_app. lia.
Qed.

Lemma reverse_segment_involutive {A} (l : list A) (a b : nat) :
  reverse_segment (reverse_segment l a b) a b = l.
Proof.
  destruct (decide (length l < a)%nat) as [Hlen | Hlen].
  - assert (Hid : reverse_segment l a b = l).
    { unfold reverse_segment. rewrite take_ge, (drop_ge l a), (drop_ge l (a `max` b)) by lia.
      rewrite take_nil. cbn [reverse app]. by rewrite app_nil_r. }
    by rewrite !Hid.
  - set (l1 := take a l). set (m := take (b - a) (drop a l)). set (l2 := drop (a `max` b) l).
    assert (Hl1 : length l1 = a) by (unfold l1; rewrite length_take; lia).
    assert (Hm : length m = (b - a)%nat ∨ (l2 = [] ∧ (length m <= b - a)%nat)).
    { unfold m, l2. rewrite length_take, length_drop.
      destruct (decide (b <= length l)%nat); [left; lia |].
      right. split; [apply drop_ge; lia | lia]. }
    assert (Hl : l = l1 ++ m ++ l2).
    { unfold l1, m, l2. rewrite <- (take_drop a l) at 1. f_equal.
      rewrite <- (take_drop (b - a) (drop a l)) at 1. f_equal.
      rewrite drop_drop. f_equal. lia. }
    rewrite Hl at 1. rewrite reverse_segment_app by done.
    rewrite reverse_segment_app; [by rewrite reverse_involutive | done |].
    by rewrite length_reverse.
Qed.

Lemma relocate_back {A} (l l' : list A) (a b : nat) :
  relocate l a b = Some l' -> relocate l' (b `min` (length l - 1)) a = Some l.
Proof.
  unfold relocate. intros Hr.
  destruct (l !! a) as [item |] eqn:Ha; cbn [mbind option_bind] in Hr; [|done].
  injection Hr as <-.
  pose proof (lookup_lt_Some _ _ _ Ha) as Hla.
  set (d := delete a l).
  assert (Hd : length d = (length l - 1)%nat).
  { unfold d. rewrite length_delete by (by eexists). done. }
  assert (Hb : (b `min` (length l - 1))%nat = length (take b d)).
  { rewrite length_take. lia. }
  rewrite Hb, list_lookup_middle by done. cbn [mbind option_bind].
  rewrite delete_middle, take_drop. unfold d.
  rewrite delete_take_drop.
  rewrite take_app_length' by (rewrite length_take; lia).
  rewrite drop_app_length' by (rewrite length_take; lia).
  by rewrite take_drop_middle.
Qed.

(** X16. Every move of the annealer can be undone by a move of the same
    kind: swapping the same two positions again restores the ordering (and
    the swap does not depend on the order of the two positions; it raises
    exactly when a position is out of range); reversing the same slice again
    restores it; and after [item = nbr.pop(a); nbr.insert(b, item)] the item
    sits at index [min(b, n - 1)], and moving it from there back to [a]
    restores the ordering. *)
Theorem X16_perturbations_are_reversible {A : Type} (l : list A) (a b : nat) :
  (forall l', swap_positions l a b = Some l' -> swap_positions l' a b = Some l)
  ∧ swap_positions l a b = swap_positions l b a
  ∧ (is_Some (swap_positions l a b) <-> (a < length l)%nat ∧ (b < length l)%nat)
  ∧ reverse_segment (reverse_segment l a b) a b = l
  ∧ (forall l', relocate l a b = Some l' ->
       l' !! (b `min` (length l - 1))%nat = l !! a
       ∧ relocate l' (b `min` (length l - 1)) a = Some l).
Proof.
  split; [intros l'; apply swap_positions_involutive |].
  split; [apply swap_positions_sym |].
  split; [apply swap_positions_is_Some |].
  split; [apply reverse_segment_involutive |].
  intros l' Hr. split; [|by apply relocate_back].
  unfold relocate in Hr.
  destruct (l !! a) as [item |] eqn:Ha; cbn [mbind option_bind] in Hr; [|done].
  injection Hr as <-.
  pose proof (lookup_lt_Some _ _ _ Ha) as Hla.
  apply list_lookup_middle. rewrite length_take, length_delete by (by eexists). lia.
Qed.

Lemma X16_witness :
  (forall l', swap_positions [1%nat; 2%nat; 3%nat] 0 2 = Some l' ->
     swap_positions l' 0 2 = Some [1%nat; 2%nat; 3%nat])
  ∧ swap_positions [1%nat; 2%nat; 3%nat] 0 2 = swap_positions [1%nat; 2%nat; 3%nat] 2 0
  ∧ (is_Some (swap_positions [1%nat; 2%nat; 3%nat] 0 2)
     <-> (0 < length [1%nat; 2%nat; 3%nat])%nat ∧ (2 < length [1%nat; 2%nat; 3%nat])%nat)
  ∧ reverse_segment (reverse_segment [1%nat; 2%nat; 3%nat] 0 2) 0 2 = [1%nat; 2%nat; 3%nat]
  ∧ (forall l', relocate [1%nat; 2%nat; 3%nat] 0 2 = Some l' ->
       l' !! (2 `min` (length [1%nat; 2%nat; 3%nat] - 1))%nat = [1%nat; 2%nat; 3%nat] !! 0%nat
       ∧ relocate l' (2 `min` (length [1%nat; 2%nat; 3%nat] - 1)) 0
         = Some [1%nat; 2%nat; 3%nat]).
Proof. exact (X16_perturbations_are_reversible [1%nat; 2%nat; 3%nat] 0 2). Defined.

(** ** Simulated annealing and the pipeline *)

Lemma simulate_permutation_total (l : list Step) :
  l ≡ₚ build_template -> exists s, simulate l = Some s.
Proof.
  intros Hp. apply simulate_total.
  eapply known_steps_Permutation; [exact Hp | exact build_template_known].
Qed.

Section Annealing.
Context {G : Type} `{PyRandomLaws G} `{PyMath}.

Lemma sa_accept_total (delta temp current_score : Q) (g : G) :
  (0 < temp)%Q -> exists a g', sa_accept delta temp current_score g = Some (a, g').
Proof.
  intros Ht. unfold sa_accept.
  destruct (Qltb 0 delta); [by eexists _, _ |].
  destruct (rnd_random g) as [u g1].
  set (fl := if Qltb current_score 1000000 then 1000000%Q else current_score).
  assert (Hfl : (0 < fl)%Q).
  { unfold fl. destruct (Qltb current_score 1000000) eqn:E; [by vm_compute |].
    apply Qltb_false in E. lra. }
  rewrite py_div_Some.
  - cbn [mbind option_bind]. by eexists _, _.
  - pose proof (Qmult_lt_0_compat _ _ Ht Hfl). lra.
Qed.

Lemma sa_iteration_ok (cooling : Q) (st : SAState) (g : G) :
  (0 < cooling)%Q -> sa_ok st ->
  exists st' g',
    sa_iteration cooling st g = Some (st', g')
    ∧ sa_ok st'
    ∧ (sa_best_score st <= sa_best_score st')%Q.
Proof.
  intros Hc (Hcur & Hcs & Hbest & Hbs & Hle & Ht). unfold sa_iteration.
  destruct (perturb_total (sa_current st) g) as (nbr & g1 & Hp).
  { rewrite (Permutation_length Hcur).
    assert (length build_template = 81%nat) as -> by (by vm_compute). lia. }
  rewrite Hp. cbn [mbind option_bind].
  pose proof (perturb_Permutation _ _ _ _ Hp) as Hnbr.
  assert (Hnbr' : nbr ≡ₚ build_template) by (by rewrite Hnbr).
  destruct (simulate_permutation_total nbr Hnbr') as [ns Hns].
  rewrite Hns. cbn [mbind option_bind].
  destruct (sa_accept_total (ns - sa_current_score st) (sa_temp st) (sa_current_score st) g1 Ht)
    as (a & g2 & Ha).
  rewrite Ha. cbn [mbind option_bind].
  eexists _, _. split; [done |].
  assert (Htemp : (0 < sa_temp st * cooling)%Q) by (by apply Qmult_lt_0_compat).
  unfold sa_ok.
  destruct a.
  - destruct (Qltb (sa_best_score st) ns) eqn:Hb;
      cbn [sa_current sa_current_score sa_best sa_best_score sa_temp].
    + apply Qltb_true in Hb. split_and!; try done; lra.
    + apply Qltb_false in Hb. split_and!; try done; lra.
  - cbn [sa_current sa_current_score sa_best sa_best_score sa_temp].
    split_and!; try done; lra.
Qed.

Lemma sa_loop_ok (k : nat) (cooling : Q) (st : SAState) (g : G) :
  (0 < cooling)%Q -> sa_ok st ->
  exists st' g',
    sa_loop k cooling st g = Some (st', g')
    ∧ sa_ok st'
    ∧ (sa_best_score st <= sa_best_score st')%Q.
Proof.
  intros Hc. revert st g. induction k as [| k IH]; intros st g Hok.
  - exists st, g. split; [done |]. split; [done | lra].
  - destruct (sa_iteration_ok cooling st g Hc Hok) as (st1 & g1 & Hit & Hok1 & Hle1).
    destruct (IH st1 g1 Hok1) as (st2 & g2 & Hloop & Hok2 & Hle2).
    exists st2, g2. cbn [sa_loop]. rewrite Hit. cbn [mbind option_bind].
    split; [done |]. split; [done | lra].
Qed.

Lemma simulated_annealing_spec (n_iter : Z) (seed : option Z) (g : G) :
  pow_positive ->
  exists best score g' s0,
    simulated_annealing n_iter seed g = Some (best, score, g')
    ∧ best ≡ₚ build_template
    ∧ simulate best = Some score
    ∧ simulate (rnd_shuffle _ build_template (seeded seed g)).1 = Some s0
    ∧ (s0 <= score)%Q.
Proof.
  intros Hpow. unfold simulated_annealing. fold (seeded seed g).
  pose proof (rnd_shuffle_spec _ build_template (seeded seed g)) as Hperm.
  destruct (rnd_shuffle Step build_template (seeded seed g)) as [current g1].
  cbn [fst snd] in *.
  destruct (simulate_permutation_total current Hperm) as [s0 Hs0].
  rewrite Hs0. cbn [mbind option_bind].
  rewrite py_div_Some.
  2:{ intros Hzero. assert (1 <= inject_Z (Z.max (n_iter - 1) 1))%Q; [|lra].
      change 1%Q with (inject_Z 1). rewrite <- Zle_Qle. lia. }
  cbn [mbind option_bind].
  set (cooling := float_pow (0.0001 / 0.30) (1 / inject_Z (Z.max (n_iter - 1) 1))).
  assert (Hc : (0 < cooling)%Q) by (apply Hpow; by vm_compute).
  destruct (sa_loop_ok (Z.to_nat n_iter) cooling
              {| sa_current := current; sa_current_score := s0;
                 sa_best := current; sa_best_score := s0;
                 sa_temp := 0.30%Q; sa_n_accept := 0 |} g1 Hc)
    as (st & g2 & Hloop & (_ & _ & Hbest & Hbs & _) & Hle).
  { unfold sa_ok. cbn [sa_current sa_current_score sa_best sa_best_score sa_temp].
    split_and!; try done; try lra. }
  rewrite Hloop. cbn [mbind option_bind].
  exists (sa_best st), (sa_best_score st), g2, s0. done.
Qed.

(** X17. [simulated_annealing] always returns (for any iteration count and
    seed, given a library random generator and a positive float power), and
    what it returns is a permutation of the template, hence an ordering that
    keeps the per-key count invariant, together with the score of that very
    ordering, which is at least the score of the initial shuffle. *)
Theorem X17_simulated_annealing_result (n_iter : Z) (seed : option Z) (g : G) :
  pow_positive ->
  exists best score g' s0,
    simulated_annealing n_iter seed g = Some (best, score, g')
    ∧ best ≡ₚ build_template
    ∧ valid_ordering EVENT_CONFIG best
    ∧ simulate best = Some score
    ∧ simulate (rnd_shuffle _ build_template (seeded seed g)).1 = Some s0
    ∧ (s0 <= score)%Q.
Proof.
  intros Hpow.
  destruct (simulated_annealing_spec n_iter seed g Hpow)
    as (best & score & g' & s0 & Hsa & Hperm & Hsim & Hs0 & Hle).
  exists best, score, g', s0. do 2 (split; [done |]). split; [|done].
  destruct (Permutation_same_steps build_template best Hperm) as (_ & _ & Hvalid).
  apply Hvalid, build_template_valid.
Qed.

End Annealing.

Lemma pow_positive_RationalMath : pow_positive (H := RationalMath).
Proof. intros x e Hx. exact Hx. Qed.

Lemma X17_witness :
  exists best score g' s0,
    simulated_annealing 3 (Some 42) 0%nat = Some (best, score, g')
    ∧ best ≡ₚ build_template
    ∧ valid_ordering EVENT_CONFIG best
    ∧ simulate best = Some score
    ∧ simulate (rnd_shuffle _ build_template (seeded (Some 42) 0%nat)).1 = Some s0
    ∧ (s0 <= score)%Q.
Proof.
  apply (X17_simulated_annealing_result (G := nat) 3 (Some 42) 0%nat).
  exact pow_positive_RationalMath.
Defined.

(** ** Every score is positive *)

Lemma upgrade_key_sim_step (sim sim' : GameSim) (key : Key) (ok : bool) :
  upgrade_key sim key = Some (ok, sim') -> sim_step sim sim'.
Proof.
  unfold upgrade_key. destruct (decide (key.1 = "creature")); intros Hup.
  - by eapply step_upgrade_creature.
  - by eapply step_upgrade_boost.
Qed.

Lemma runs_until_done_rtc (pos_map : list (Key * list nat)) (n : nat) (sim final : GameSim)
      (counts : gmap Key nat) :
  runs_until_done pos_map n sim counts final -> rtc sim_step sim final.
Proof.
  induction 1 as [sim counts Hdone | sim counts sim' counts' final Hdone Htick Hout Hruns IH].
  - apply rtc_refl.
  - destruct Hout as [(kp & p & c & sim1 & _ & _ & _ & Hup & _ & _ & Hadv) | (_ & _ & Hadv)].
    + eapply rtc_l; [by eapply upgrade_key_sim_step |].
      eapply rtc_l; [exact (step_advance _ _ _ STEP_MS_nonneg Hadv) | exact IH].
    + eapply rtc_l; [exact (step_advance _ _ _ STEP_MS_nonneg Hadv) | exact IH].
Qed.

(** A score is at least what the default units deal during the first
    decision tick, in which nothing can be bought. *)
Lemma simulate_of_lower_bound (cfg : Config) (priority : list Step) (score : Q) :
  wf_config cfg -> no_free_cost cfg -> positive_costs cfg -> nonneg_damage cfg ->
  (0 < cfg_duration cfg)%Q -> known_steps cfg priority ->
  simulate_of cfg priority = Some score ->
  (Qsum (baseline_unit_damage (0 + STEP_MS) <$> cfg_creatures cfg) <= score)%Q.
Proof.
  intros Hwf Hnf Hpos Hnn Hdur Hknown Hsim.
  destruct (simulate_of_total cfg priority Hwf Hnf Hknown) as (final & Hsim' & _ & Hruns).
  rewrite Hsim in Hsim'. injection Hsim' as ->.
  inversion Hruns as [sim counts Hdone | sim counts sim' counts' final' Hdone Htick Hout Hrest];
    subst.
  - apply (is_done_spec cfg (GameSim_init cfg) eq_refl) in Hdone.
    change (time_elapsed_ms (GameSim_init cfg)) with 0%Q in Hdone. lra.
  - destruct Hout as [(kp & p & c & sim1 & _ & Haff & _) | (_ & _ & Hadv)].
    + exfalso. destruct Haff as (c' & cost & _ & _ & Hcost & Hca).
      pose proof (init_unaffordable cfg kp.1 (Some cost) Hpos Hcost) as Hun.
      pose proof (key_cost_nonempty cfg (GameSim_init cfg) kp.1 cost Hnf eq_refl Hcost) as Hne.
      cbn [truthy] in Hun. rewrite bool_decide_eq_true_2, Hca in Hun by done. done.
    + destruct (Baseline_advance cfg 0 STEP_MS (GameSim_init cfg) Hwf (Baseline_init cfg Hwf)
                  STEP_MS_nonneg) as (s1 & Hadv1 & HB1).
      rewrite Hadv in Hadv1. injection Hadv1 as <-.
      rewrite <- (bl_damage _ _ _ HB1).
      apply (rtc_sim_step_rel cfg not_behind Hwf _ _) with (s := sim') (s' := final).
      * intros s1 s2 HI1 Hstep. by eapply sim_step_not_behind.
      * apply HB1.
      * by eapply runs_until_done_rtc.
Qed.

Lemma simulate_positive (priority : list Step) (score : Q) :
  known_steps EVENT_CONFIG priority -> simulate priority = Some score -> (300 <= score)%Q.
Proof.
  intros Hknown Hsim.
  assert (H300 : (Qsum (baseline_unit_damage (0 + STEP_MS) <$> cfg_creatures EVENT_CONFIG)
                  == 300)%Q) by (by vm_compute).
  rewrite <- H300.
  apply (simulate_of_lower_bound EVENT_CONFIG priority);
    [exact wf_EVENT_CONFIG | exact no_free_cost_EVENT_CONFIG | exact positive_costs_EVENT_CONFIG
     | exact nonneg_damage_EVENT_CONFIG | by vm_compute | done | done].
Qed.

Lemma passes_loop_spec (k : nat) (priority : list Step) (base : Q) :
  priority ≡ₚ build_template -> simulate priority = Some base ->
  exists result score,
    passes_loop k (Some priority) base = Some (Some result, score)
    ∧ result ≡ₚ build_template
    ∧ simulate result = Some score
    ∧ (base <= score)%Q.
Proof.
  revert priority base. induction k as [| k IH]; intros priority base Hperm Hbase.
  - exists priority, base. split; [done |]. split; [done |]. split; [done | lra].
  - assert (Hk : known_steps EVENT_CONFIG priority).
    { eapply known_steps_Permutation; [exact Hperm | exact build_template_known]. }
    destruct (hill_climb_spec priority Hk)
      as (base' & result & score & improved & Hbase' & Hhc & _ & Hres).
    rewrite Hbase in Hbase'. injection Hbase' as <-.
    rewrite (passes_loop_step k priority result base score improved Hhc).
    destruct Hres as (Hsim & Hle & _ & Hi & Hn).
    destruct improved.
    + destruct (Hi eq_refl) as (_ & i & j & _ & Hsw).
      assert (Hperm' : result ≡ₚ build_template).
      { rewrite <- Hperm. by eapply swap_positions_Permutation. }
      destruct (IH result score Hperm' Hsim) as (r & s & Hrun & Hpr & Hs & Hle').
      exists r, s. split; [done |]. split; [done |]. split; [done | lra].
    + destruct (Hn eq_refl) as [-> ->]. exists priority, base. done.
Qed.

Section Pipeline.
Context {G : Type} `{PyRandomLaws G} `{PyMath}.

Lemma restarts_loop_spec (k : nat) (n_iter : Z) (gb : option (list Step)) (gbs : Q) (g : G) :
  pow_positive -> global_best_ok gb gbs ->
  exists gb' gbs' g',
    restarts_loop k n_iter gb gbs g = Some (gb', gbs', g')
    ∧ global_best_ok gb' gbs'
    ∧ ((0 < k)%nat -> is_Some gb').
Proof.
  intros Hpow. revert gb gbs g. induction k as [| k IH]; intros gb gbs g Hok.
  - exists gb, gbs, g. split; [done |]. split; [done | lia].
  - cbn [restarts_loop].
    pose proof (rnd_randint_spec 0 (2 ^ 31) g) as Hr.
    destruct (rnd_randint 0 (2 ^ 31) g) as [[sub_seed g1] |]; [|lia].
    cbn [mbind option_bind].
    destruct (simulated_annealing_spec n_iter (Some sub_seed) g1 Hpow)
      as (best & score & g2 & s0 & Hsa & Hperm & Hsim & _).
    rewrite Hsa. cbn [mbind option_bind].
    assert (Hscore : (300 <= score)%Q).
    { apply (simulate_positive best); [|done].
      eapply known_steps_Permutation; [exact Hperm | exact build_template_known]. }
    destruct (Qltb gbs score) eqn:Hlt.
    + destruct (IH (Some best) score g2) as (gb' & gbs' & g' & Hloop & Hok' & Hsome).
      { cbn [global_best_ok]. split; [done |]. split; [done | lra]. }
      exists gb', gbs', g'. split; [done |]. split; [done |]. intros _.
      destruct k as [| k]; [|apply Hsome; lia].
      cbn [restarts_loop] in Hloop. injection Hloop as <- _ _. by eexists.
    + apply Qltb_false in Hlt.
      destruct gb as [p |]; [| cbn [global_best_ok] in Hok; subst gbs; lra].
      destruct (IH (Some p) gbs g2 Hok) as (gb' & gbs' & g' & Hloop & Hok' & Hsome).
      exists gb', gbs', g'. split; [done |]. split; [done |]. intros _.
      destruct k as [| k]; [|apply Hsome; lia].
      cbn [restarts_loop] in Hloop. injection Hloop as <- _ _. by eexists.
Qed.

Lemma optimize_spec (n_iter n_restarts hill_climb_passes : Z) (seed : option Z) (g : G) :
  pow_positive -> 1 <= n_restarts ->
  exists best score g',
    optimize n_iter n_restarts hill_climb_passes seed g = Some (Some best, score, g')
    ∧ best ≡ₚ build_template
    ∧ simulate best = Some score
    ∧ (0 < score)%Q.
Proof.
  intros Hpow Hn. unfold optimize. fold (seeded seed g).
  destruct (restarts_loop_spec (Z.to_nat n_restarts) n_iter None 0%Q (seeded seed g) Hpow)
    as (gb & gbs & g1 & Hloop & Hok & Hsome); [done |].
  rewrite Hloop. cbn [mbind option_bind].
  destruct Hsome as [p ->]; [lia |]. destruct Hok as (Hperm & Hsim & Hpos).
  destruct (passes_loop_spec (Z.to_nat hill_climb_passes) p gbs Hperm Hsim)
    as (result & score & Hpasses & Hperm' & Hsim' & Hle).
  rewrite Hpasses. cbn [mbind option_bind].
  exists result, score, g1. split; [done |]. split; [done |]. split; [done | lra].
Qed.

(** X18. With at least one restart, [optimize] always returns (any
    iteration count, number of hill-climb passes and seed; lawful random
    generator, positive float power): the ordering it returns is a
    permutation of the template, so it satisfies the count invariant, the
    score it returns is the score of that ordering, and the score is
    positive.  The first restart always replaces the initial [None], because
    every score of the shipped configuration is positive. *)
Theorem X18_optimize_returns_scored_permutation
        (n_iter n_restarts hill_climb_passes : Z) (seed : option Z) (g : G) :
  pow_positive -> 1 <= n_restarts ->
  exists best score g',
    optimize n_iter n_restarts hill_climb_passes seed g = Some (Some best, score, g')
    ∧ best ≡ₚ build_template
    ∧ valid_ordering EVENT_CONFIG best
    ∧ simulate best = Some score
    ∧ (0 < score)%Q.
Proof.
  intros Hpow Hn.
  destruct (optimize_spec n_iter n_restarts hill_climb_passes seed g Hpow Hn)
    as (best & score & g' & Hopt & Hperm & Hsim & Hpos).
  exists best, score, g'. do 2 (split; [done |]). split; [|done].
  destruct (Permutation_same_steps build_template best Hperm) as (_ & _ & Hvalid).
  apply Hvalid, build_template_valid.
Qed.


End Pipeline.

Lemma X18_witness :
  exists best score g',
    optimize 2 1 1 (Some 42) 0%nat = Some (Some best, score, g')
    ∧ best ≡ₚ build_template
    ∧ valid_ordering EVENT_CONFIG best
    ∧ simulate best = Some score
    ∧ (0 < score)%Q.
Proof.
  apply (X18_optimize_returns_scored_permutation (G := nat) 2 1 1 (Some 42) 0%nat).
  - exact pow_positive_RationalMath.
  - lia.
Defined.


(** ** Method calls on the heap *)

Lemma write_back_view (h : Heap) (p : loc) (s s' : GameSim) :
  view h p = Some s -> separate_dicts h p -> config s' = config s ->
  exists h', write_back h p s' = Some h' ∧ view h' p = Some s' ∧ separate_dicts h' p.
Proof.
  intros Hv Hsep Hcfg.
  destruct (view_obj h p s Hv)
    as (lc & lr & ll & lu & lp & lb & td & te & Hp & Hc & Hr & Hl & Hu & Hpr & Hb & -> & ->).
  unfold separate_dicts in *. rewrite Hp in Hsep. destruct Hsep as [Hrp Hlb].
  unfold write_back. rewrite Hp. eexists. split; [done |].
  assert (Hobj : forall O (m : Heap), <[p := O]> m !! p = Some O)
    by (intros; apply lookup_insert_eq).
  split.
  - unfold view, get_config, get_dictQ, get_dictZ, get_dictB. rewrite Hobj.
    rewrite !(lookup_insert_ne _ _ lc) by congruence. rewrite Hc, <- Hcfg.
    cbn [mbind option_bind].
    rewrite !(lookup_insert_ne _ _ lr) by congruence. rewrite lookup_insert_eq.
    cbn [mbind option_bind].
    rewrite !(lookup_insert_ne _ _ ll) by congruence. rewrite lookup_insert_eq.
    cbn [mbind option_bind].
    rewrite !(lookup_insert_ne _ _ lu) by congruence. rewrite lookup_insert_eq.
    cbn [mbind option_bind].
    rewrite !(lookup_insert_ne _ _ lp) by congruence. rewrite lookup_insert_eq.
    cbn [mbind option_bind].
    rewrite !(lookup_insert_ne _ _ lb) by congruence. rewrite lookup_insert_eq.
    cbn [mbind option_bind]. by destruct s'.
  - by rewrite Hobj.
Qed.

Lemma call_view {A} (m : GameSim -> option (A * GameSim)) (h : Heap) (p : loc)
      (s s' : GameSim) (a : A) :
  view h p = Some s -> separate_dicts h p -> m s = Some (a, s') -> config s' = config s ->
  exists h', call m h p = Some (a, h') ∧ view h' p = Some s' ∧ separate_dicts h' p.
Proof.
  intros Hv Hsep Hm Hcfg.
  destruct (write_back_view h p s s' Hv Hsep Hcfg) as (h' & Hwb & Hv' & Hsep').
  exists h'. unfold call. rewrite Hv. cbn [mbind option_bind]. rewrite Hm.
  cbn [mbind option_bind fst snd]. rewrite Hwb. done.
Qed.

Lemma call_None {A} (m : GameSim -> option (A * GameSim)) (h : Heap) (p : loc) (s : GameSim) :
  view h p = Some s -> m s = None -> call m h p = None.
Proof. intros Hv Hm. unfold call. by rewrite Hv; cbn [mbind option_bind]; rewrite Hm. Qed.

(** A cell of a heap is still there after a fresh cell has been added and
    the copy has been rebound. *)
Lemma rebind_lookup (h : Heap) (p2 l : loc) (O C : Cell) :
  l ∉ dom h -> p2 ∈ dom h ->
  <[p2 := O]> (<[l := C]> h) !! p2 = Some O
  ∧ <[p2 := O]> (<[l := C]> h) !! l = Some C
  ∧ (forall x c, x ≠ p2 -> h !! x = Some c -> <[p2 := O]> (<[l := C]> h) !! x = Some c)
  ∧ dom h ⊆ dom (<[p2 := O]> (<[l := C]> h)).
Proof.
  intros Hl Hp2. split; [apply lookup_insert_eq |]. split; [|split].
  - rewrite lookup_insert_ne by (intros ->; done). apply lookup_insert_eq.
  - intros x c Hx Hc. rewrite lookup_insert_ne by done.
    rewrite lookup_insert_ne; [done |]. intros ->. apply Hl. apply elem_of_dom. by eexists.
  - rewrite !dom_insert. set_solver.
Qed.

Lemma rebind_resources_full (h : Heap) (p2 p : loc) (d : gmap string Q)
      (lc lr ll lu lp lb lc2 lr2 ll2 lu2 lp2 lb2 : loc) (td te td2 te2 : Q) :
  h !! p = Some (CObj lc lr ll lu lp lb td te) -> h !! lr = Some (CDictQ d) ->
  h !! p2 = Some (CObj lc2 lr2 ll2 lu2 lp2 lb2 td2 te2) ->
  exists l, (l ∉ dom h)
    ∧ rebind_resources h p2 p
      = Some (<[p2 := CObj lc2 l ll2 lu2 lp2 lb2 td2 te2]> (<[l := CDictQ d]> h)).
Proof.
  intros Hp Hd Hp2. unfold rebind_resources, get_dictQ, alloc. rewrite Hp, Hp2, Hd.
  exists (fresh (dom h)). split; [apply is_fresh | done].
Qed.

Lemma rebind_creature_levels_full (h : Heap) (p2 p : loc) (d : gmap string Z)
      (lc lr ll lu lp lb lc2 lr2 ll2 lu2 lp2 lb2 : loc) (td te td2 te2 : Q) :
  h !! p = Some (CObj lc lr ll lu lp lb td te) -> h !! ll = Some (CDictZ d) ->
  h !! p2 = Some (CObj lc2 lr2 ll2 lu2 lp2 lb2 td2 te2) ->
  exists l, (l ∉ dom h)
    ∧ rebind_creature_levels h p2 p
      = Some (<[p2 := CObj lc2 lr2 l lu2 lp2 lb2 td2 te2]> (<[l := CDictZ d]> h)).
Proof.
  intros Hp Hd Hp2. unfold rebind_creature_levels, get_dictZ, alloc. rewrite Hp, Hp2, Hd.
  exists (fresh (dom h)). split; [apply is_fresh | done].
Qed.

Lemma rebind_creature_unlocked_full (h : Heap) (p2 p : loc) (d : gmap string bool)
      (lc lr ll lu lp lb lc2 lr2 ll2 lu2 lp2 lb2 : loc) (td te td2 te2 : Q) :
  h !! p = Some (CObj lc lr ll lu lp lb td te) -> h !! lu = Some (CDictB d) ->
  h !! p2 = Some (CObj lc2 lr2 ll2 lu2 lp2 lb2 td2 te2) ->
  exists l, (l ∉ dom h)
    ∧ rebind_creature_unlocked h p2 p
      = Some (<[p2 := CObj lc2 lr2 ll2 l lp2 lb2 td2 te2]> (<[l := CDictB d]> h)).
Proof.
  intros Hp Hd Hp2. unfold rebind_creature_unlocked, get_dictB, alloc. rewrite Hp, Hp2, Hd.
  exists (fresh (dom h)). split; [apply is_fresh | done].
Qed.

Lemma rebind_boost_levels_full (h : Heap) (p2 p : loc) (d : gmap string Z)
      (lc lr ll lu lp lb lc2 lr2 ll2 lu2 lp2 lb2 : loc) (td te td2 te2 : Q) :
  h !! p = Some (CObj lc lr ll lu lp lb td te) -> h !! lb = Some (CDictZ d) ->
  h !! p2 = Some (CObj lc2 lr2 ll2 lu2 lp2 lb2 td2 te2) ->
  exists l, (l ∉ dom h)
    ∧ rebind_boost_levels h p2 p
      = Some (<[p2 := CObj lc2 lr2 ll2 lu2 lp2 l td2 te2]> (<[l := CDictZ d]> h)).
Proof.
  intros Hp Hd Hp2. unfold rebind_boost_levels, get_dictZ, alloc. rewrite Hp, Hp2, Hd.
  exists (fresh (dom h)). split; [apply is_fresh | done].
Qed.

(** The copy made by [_score_upgrade], just before the hypothetical
    purchase: a new object whose view is the state of the original, with its
    own balances, levels, flags and boost levels. *)
Lemma what_if_copy (h : Heap) (sim_orig : loc) (s : GameSim) :
  view h sim_orig = Some s ->
  exists sim2 h1 h2 h3 h4 h5,
    copy_copy h sim_orig = Some (sim2, h1)
    ∧ rebind_resources h1 sim2 sim_orig = Some h2
    ∧ rebind_creature_levels h2 sim2 sim_orig = Some h3
    ∧ rebind_creature_unlocked h3 sim2 sim_orig = Some h4
    ∧ rebind_boost_levels h4 sim2 sim_orig = Some h5
    ∧ view h5 sim2 = Some s
    ∧ separate_dicts h5 sim2.
Proof.
  intros Hv.
  destruct (view_obj h sim_orig s Hv)
    as (lc & lr & ll & lu & lp & lb & td & te & Hp & Hc & Hr & Hl & Hu & Hpr & Hb & -> & ->).
  (* copy.copy *)
  set (p2 := fresh (dom h)).
  assert (Hp2 : p2 ∉ dom h) by apply is_fresh.
  assert (Hin : forall x c, h !! x = Some c -> x ≠ p2).
  { intros x c Hx ->. apply Hp2, elem_of_dom. by eexists. }
  set (h1 := <[p2 := CObj lc lr ll lu lp lb (total_damage s) (time_elapsed_ms s)]> h).
  assert (Hcopy : copy_copy h sim_orig = Some (p2, h1)).
  { unfold copy_copy, alloc. by rewrite Hp. }
  assert (H1 : forall x c, h !! x = Some c -> h1 !! x = Some c).
  { intros x c Hx. unfold h1. rewrite lookup_insert_ne; [done |]. intros <-. by eapply Hin. }
  assert (H1p2 : h1 !! p2 = Some (CObj lc lr ll lu lp lb (total_damage s) (time_elapsed_ms s)))
    by apply lookup_insert_eq.
  assert (Hd1 : p2 ∈ dom h1) by (apply elem_of_dom; by eexists).
  (* resources *)
  destruct (rebind_resources_full h1 p2 sim_orig _ _ _ _ _ _ _ _ _ _ _ _ _ _ _ _ _
              (H1 _ _ Hp) (H1 _ _ Hr) H1p2) as (l1 & Hl1 & Hh2).
  destruct (rebind_lookup h1 p2 l1
              (CObj lc l1 ll lu lp lb (total_damage s) (time_elapsed_ms s))
              (CDictQ (resources s)) Hl1 Hd1) as (H2p2 & H2l1 & H2 & Hsub2).
  set (h2 := <[p2 := CObj lc l1 ll lu lp lb (total_damage s) (time_elapsed_ms s)]>
               (<[l1 := CDictQ (resources s)]> h1)) in *.
  assert (Hk2 : forall x c, h !! x = Some c -> h2 !! x = Some c).
  { intros x c Hx. apply H2; [by eapply Hin | by apply H1]. }
  assert (Hd2 : p2 ∈ dom h2) by (apply elem_of_dom; by eexists).
  assert (Hl1p2 : l1 ≠ p2) by (intros ->; done).
  (* creature_levels *)
  destruct (rebind_creature_levels_full h2 p2 sim_orig _ _ _ _ _ _ _ _ _ _ _ _ _ _ _ _ _
              (Hk2 _ _ Hp) (Hk2 _ _ Hl) H2p2) as (l2 & Hl2 & Hh3).
  destruct (rebind_lookup h2 p2 l2
              (CObj lc l1 l2 lu lp lb (total_damage s) (time_elapsed_ms s))
              (CDictZ (creature_levels s)) Hl2 Hd2) as (H3p2 & H3l2 & H3 & Hsub3).
  set (h3 := <[p2 := CObj lc l1 l2 lu lp lb (total_damage s) (time_elapsed_ms s)]>
               (<[l2 := CDictZ (creature_levels s)]> h2)) in *.
  assert (Hk3 : forall x c, h !! x = Some c -> h3 !! x = Some c).
  { intros x c Hx. apply H3; [by eapply Hin | by apply Hk2]. }
  assert (Hd3 : p2 ∈ dom h3) by (apply elem_of_dom; by eexists).
  assert (Hl2p2 : l2 ≠ p2) by (intros ->; done).
  (* creature_unlocked *)
  destruct (rebind_creature_unlocked_full h3 p2 sim_orig _ _ _ _ _ _ _ _ _ _ _ _ _ _ _ _ _
              (Hk3 _ _ Hp) (Hk3 _ _ Hu) H3p2) as (l3 & Hl3 & Hh4).
  destruct (rebind_lookup h3 p2 l3
              (CObj lc l1 l2 l3 lp lb (total_damage s) (time_elapsed_ms s))
              (CDictB (creature_unlocked s)) Hl3 Hd3) as (H4p2 & H4l3 & H4 & Hsub4).
  set (h4 := <[p2 := CObj lc l1 l2 l3 lp lb (total_damage s) (time_elapsed_ms s)]>
               (<[l3 := CDictB (creature_unlocked s)]> h3)) in *.
  assert (Hk4 : forall x c, h !! x = Some c -> h4 !! x = Some c).
  { intros x c Hx. apply H4; [by eapply Hin | by apply Hk3]. }
  assert (Hd4 : p2 ∈ dom h4) by (apply elem_of_dom; by eexists).
  assert (Hl3p2 : l3 ≠ p2) by (intros ->; done).
  (* boost_levels *)
  destruct (rebind_boost_levels_full h4 p2 sim_orig _ _ _ _ _ _ _ _ _ _ _ _ _ _ _ _ _
              (Hk4 _ _ Hp) (Hk4 _ _ Hb) H4p2) as (l4 & Hl4 & Hh5).
  destruct (rebind_lookup h4 p2 l4
              (CObj lc l1 l2 l3 lp l4 (total_damage s) (time_elapsed_ms s))
              (CDictZ (boost_levels s)) Hl4 Hd4) as (H5p2 & H5l4 & H5 & Hsub5).
  set (h5 := <[p2 := CObj lc l1 l2 l3 lp l4 (total_damage s) (time_elapsed_ms s)]>
               (<[l4 := CDictZ (boost_levels s)]> h4)) in *.
  assert (Hk5 : forall x c, h !! x = Some c -> h5 !! x = Some c).
  { intros x c Hx. apply H5; [by eapply Hin | by apply Hk4]. }
  exists p2, h1, h2, h3, h4, h5. do 5 (split; [done |]).
  assert (H5l1 : h5 !! l1 = Some (CDictQ (resources s))).
  { apply H5; [done |]. apply H4; [done |]. by apply H3. }
  assert (H5l2 : h5 !! l2 = Some (CDictZ (creature_levels s))).
  { apply H5; [done |]. by apply H4. }
  assert (H5l3 : h5 !! l3 = Some (CDictB (creature_unlocked s))) by (by apply H5).
  split.
  - unfold view, get_config, get_dictQ, get_dictZ, get_dictB.
    rewrite H5p2, (Hk5 _ _ Hc), H5l1, H5l2, H5l3, (Hk5 _ _ Hpr), H5l4.
    cbn [mbind option_bind]. by destruct s.
  - unfold separate_dicts. rewrite H5p2. split.
    + intros Heq. apply Hl1. rewrite Heq. apply elem_of_dom.
      exists (CDictQ (creature_progress s)). by apply H1.
    + intros Heq. apply Hl4. rewrite <- Heq. apply elem_of_dom.
      exists (CDictZ (creature_levels s)). by apply H4.
Qed.

(** The object [sim2] of [_score_upgrade] after the hypothetical purchase
    is viewed as the state reached by the purchase from the state of the
    original. *)
Lemma what_if_purchase_view (h : Heap) (sim_orig : loc) (kind uid : string) (s : GameSim) :
  view h sim_orig = Some s ->
  match (if decide (kind = "creature") then upgrade_creature s uid else upgrade_boost s uid) with
  | Some r => exists sim2 h', what_if_purchase h sim_orig kind uid = Some (sim2, h')
                ∧ view h' sim2 = Some r.2
  | None => what_if_purchase h sim_orig kind uid = None
  end.
Proof.
  intros Hv.
  destruct (what_if_copy h sim_orig s Hv)
    as (sim2 & h1 & h2 & h3 & h4 & h5 & Hcopy & H2 & H3 & H4 & H5 & Hv5 & Hsep).
  unfold what_if_purchase. rewrite Hcopy. cbn [mbind option_bind].
  rewrite H2. cbn [mbind option_bind]. rewrite H3. cbn [mbind option_bind].
  rewrite H4. cbn [mbind option_bind]. rewrite H5. cbn [mbind option_bind].
  destruct (decide (kind = "creature")).
  - destruct (upgrade_creature s uid) as [[ok s'] |] eqn:Hup.
    + pose proof (upgrade_creature_effect _ _ _ _ Hup) as (Hcfg & _).
      destruct (call_view (fun s => upgrade_creature s uid) h5 sim2 s s' ok Hv5 Hsep Hup Hcfg)
        as (h6 & Hcall & Hv6 & _).
      rewrite Hcall. cbn [mbind option_bind]. by exists sim2, h6.
    + by rewrite (call_None (fun s => upgrade_creature s uid) h5 sim2 s Hv5 Hup).
  - destruct (upgrade_boost s uid) as [[ok s'] |] eqn:Hup.
    + pose proof (upgrade_boost_effect _ _ _ _ Hup) as (Hcfg & _).
      destruct (call_view (fun s => upgrade_boost s uid) h5 sim2 s s' ok Hv5 Hsep Hup Hcfg)
        as (h6 & Hcall & Hv6 & _).
      rewrite Hcall. cbn [mbind option_bind]. by exists sim2, h6.
    + by rewrite (call_None (fun s => upgrade_boost s uid) h5 sim2 s Hv5 Hup).
Qed.

(** [_score_upgrade] on the heap computes [score_of] of the state of the
    original object. *)
Lemma score_upgrade_refines (h : Heap) (sim_orig : loc) (kind uid : string)
      (time_remaining_ms : Q) (s : GameSim) :
  view h sim_orig = Some s ->
  fst <$> _score_upgrade h sim_orig kind uid time_remaining_ms
  = score_of s kind uid time_remaining_ms.
Proof.
  intros Hv. unfold _score_upgrade, score_of. rewrite Hv. cbn [mbind option_bind].
  destruct (if decide (kind = "creature") then get_creature_upgrade_cost s uid
            else get_boost_upgrade_cost s uid) as [[c |] |]; cbn [mbind option_bind]; [| done ..].
  destruct (can_afford s (Some c)); cbn [negb]; [|done].
  destruct (get_dps s) as [dps |]; cbn [mbind option_bind]; [|done].
  pose proof (what_if_purchase_view h sim_orig kind uid s Hv) as Hw.
  destruct (if decide (kind = "creature") then upgrade_creature s uid else upgrade_boost s uid)
    as [r |]; cbn [mbind option_bind].
  - destruct Hw as (sim2 & h' & -> & Hv'). cbn [mbind option_bind]. rewrite Hv'.
    cbn [mbind option_bind].
    destruct (get_dps r.2) as [dps2 |]; cbn [mbind option_bind]; [|done].
    destruct (py_div time_remaining_ms 1000) as [time_s |]; cbn [mbind option_bind]; [|done].
    destruct (py_div _ (total_cost_of c)) as [x |]; cbn [mbind option_bind]; done.
  - by rewrite Hw.
Qed.

Lemma total_cost_of_nonzero (c : Cost) : ~ (total_cost_of c == 0)%Q.
Proof.
  unfold total_cost_of.
  destruct (Qeq_bool (map_fold (fun _ amt acc => (acc + amt)%Q) 0%Q c) 0) eqn:E.
  - intros H1. vm_compute in H1. discriminate.
  - by apply Qeq_bool_neq.
Qed.

(** [score_of] in a state satisfying the invariant, for a configured
    item. *)
Lemma score_of_spec (cfg : Config) (s : GameSim) (kind uid : string) (time_remaining_ms : Q) :
  wf_config cfg -> Inv cfg s -> valid_key cfg (kind, uid) ->
  exists r,
    score_of s kind uid time_remaining_ms = Some r
    ∧ match r with
      | None =>
          key_cost s (kind, uid) = Some None
          ∨ exists c, key_cost s (kind, uid) = Some (Some c) ∧ can_afford s (Some c) = false
      | Some x =>
          exists c s' d1 d2,
            key_cost s (kind, uid) = Some (Some c)
            ∧ can_afford s (Some c) = true
            ∧ upgrade_key s (kind, uid) = Some (true, s')
            ∧ Inv cfg s'
            ∧ get_dps s = Some d1
            ∧ get_dps s' = Some d2
            ∧ x = ((d2 - d1) * (time_remaining_ms / 1000) / total_cost_of c)%Q
      end.
Proof.
  intros Hwf HI Hv.
  destruct (key_cost_total cfg s (kind, uid) Hwf HI Hv) as [cost Hcost].
  pose proof Hcost as Hcost'. unfold key_cost in Hcost'. cbn [fst snd] in Hcost'.
  unfold score_of. rewrite Hcost'. cbn [mbind option_bind].
  destruct cost as [c |]; [|exists None; split; [done | by left]].
  destruct (can_afford s (Some c)) eqn:Hca; cbn [negb];
    [|exists None; split; [done | right; by exists c]].
  destruct (get_dps_spec cfg s Hwf HI) as (d1 & ? & ? & _ & _ & _ & Hd1 & _).
  rewrite Hd1. cbn [mbind option_bind].
  destruct (upgrade_key_affordable cfg s (kind, uid) c Hwf HI Hcost Hca) as (s' & Hup & HI' & _).
  pose proof Hup as Hup'. unfold upgrade_key in Hup'. cbn [fst snd] in Hup'.
  rewrite Hup'. cbn [mbind option_bind snd].
  destruct (get_dps_spec cfg s' Hwf HI') as (d2 & ? & ? & _ & _ & _ & Hd2 & _).
  rewrite Hd2. cbn [mbind option_bind].
  rewrite (py_div_Some time_remaining_ms 1000) by lra. cbn [mbind option_bind].
  rewrite py_div_Some by apply total_cost_of_nonzero. cbn [mbind option_bind].
  eexists. split; [done |]. by exists c, s', d1, d2.
Qed.

(** X20. [_score_upgrade] computes what its docstring says, on the state of
    the object it is given: its result is the what-if score of that state,
    whatever the heap.  In a state satisfying the invariant and for a
    configured item it always returns: no score exactly when the item is at
    its maximum level, has no unlock cost, or is not affordable, and
    otherwise [(dps after the purchase - dps now) * time_remaining_ms / 1000
    / (sum(cost.values()) or 1.0)], where the purchase is the successful
    upgrade call on a copy. *)
Theorem X20_score_upgrade_is_dps_gain_per_cost
        (cfg : Config) (h : Heap) (sim_orig : loc) (kind uid : string)
        (time_remaining_ms : Q) (s : GameSim) :
  view h sim_orig = Some s ->
  fst <$> _score_upgrade h sim_orig kind uid time_remaining_ms
  = score_of s kind uid time_remaining_ms
  ∧ (wf_config cfg -> Inv cfg s -> valid_key cfg (kind, uid) ->
     exists r h',
       _score_upgrade h sim_orig kind uid time_remaining_ms = Some (r, h')
       ∧ match r with
         | None =>
             key_cost s (kind, uid) = Some None
             ∨ exists c, key_cost s (kind, uid) = Some (Some c)
                 ∧ can_afford s (Some c) = false
         | Some x =>
             exists c s' d1 d2,
               key_cost s (kind, uid) = Some (Some c)
               ∧ can_afford s (Some c) = true
               ∧ upgrade_key s (kind, uid) = Some (true, s')
               ∧ get_dps s = Some d1
               ∧ get_dps s' = Some d2
               ∧ x = ((d2 - d1) * (time_remaining_ms / 1000) / total_cost_of c)%Q
         end).
Proof.
  intros Hv. pose proof (score_upgrade_refines h sim_orig kind uid time_remaining_ms s Hv) as Href.
  split; [done |]. intros Hwf HI Hvalid.
  destruct (score_of_spec cfg s kind uid time_remaining_ms Hwf HI Hvalid) as (r & Hr & Hspec).
  rewrite Hr in Href.
  destruct (_score_upgrade h sim_orig kind uid time_remaining_ms) as [[r' h'] |]; [|done].
  cbn [fmap option_fmap option_map fst] in Href. injection Href as ->.
  exists r, h'. split; [done |].
  destruct r as [x |]; [|done].
  destruct Hspec as (c & s' & d1 & d2 & H1 & H2 & H3 & _ & H4 & H5 & H6).
  by exists c, s', d1, d2.
Qed.

(** ** Objects made by the constructor *)

Lemma alloc_lookup (h : Heap) (c : Cell) :
  (alloc h c).2 !! (alloc h c).1 = Some c
  ∧ forall x c', h !! x = Some c' -> (alloc h c).2 !! x = Some c' ∧ x ≠ (alloc h c).1.
Proof.
  unfold alloc. cbn [fst snd]. split; [apply lookup_insert_eq |].
  intros x c' Hx.
  assert (x ≠ fresh (dom h)).
  { intros ->. apply (is_fresh (dom h)), elem_of_dom. by eexists. }
  split; [|done]. by rewrite lookup_insert_ne.
Qed.

Lemma new_GameSim_view (h : Heap) (cfg : Config) :
  view (new_GameSim h cfg).2 (new_GameSim h cfg).1 = Some (GameSim_init cfg)
  ∧ separate_dicts (new_GameSim h cfg).2 (new_GameSim h cfg).1.
Proof.
  unfold new_GameSim.
  set (s := GameSim_init cfg).
  destruct (alloc_lookup h (CConfig cfg)) as [Hc K1].
  destruct (alloc h (CConfig cfg)) as [lc h1]. cbn [fst snd] in *.
  destruct (alloc_lookup h1 (CDictQ (resources s))) as [Hr K2].
  destruct (alloc h1 (CDictQ (resources s))) as [lr h2]. cbn [fst snd] in *.
  destruct (alloc_lookup h2 (CDictZ (creature_levels s))) as [Hl K3].
  destruct (alloc h2 (CDictZ (creature_levels s))) as [ll h3]. cbn [fst snd] in *.
  destruct (alloc_lookup h3 (CDictB (creature_unlocked s))) as [Hu K4].
  destruct (alloc h3 (CDictB (creature_unlocked s))) as [lu h4]. cbn [fst snd] in *.
  destruct (alloc_lookup h4 (CDictQ (creature_progress s))) as [Hp K5].
  destruct (alloc h4 (CDictQ (creature_progress s))) as [lp h5]. cbn [fst snd] in *.
  destruct (alloc_lookup h5 (CDictZ (boost_levels s))) as [Hb K6].
  destruct (alloc h5 (CDictZ (boost_levels s))) as [lb h6]. cbn [fst snd] in *.
  destruct (alloc_lookup h6 (CObj lc lr ll lu lp lb (total_damage s) (time_elapsed_ms s)))
    as [Ho K7].
  destruct (alloc h6 (CObj lc lr ll lu lp lb (total_damage s) (time_elapsed_ms s)))
    as [p h7]. cbn [fst snd] in *.
  assert (Hc7 : h7 !! lc = Some (CConfig cfg)).
  { apply K7, K6, K5, K4, K3, K2, Hc. }
  assert (Hr7 : h7 !! lr = Some (CDictQ (resources s))).
  { apply K7, K6, K5, K4, K3, Hr. }
  assert (Hl7 : h7 !! ll = Some (CDictZ (creature_levels s))).
  { apply K7, K6, K5, K4, Hl. }
  assert (Hu7 : h7 !! lu = Some (CDictB (creature_unlocked s))).
  { apply K7, K6, K5, Hu. }
  assert (Hp7 : h7 !! lp = Some (CDictQ (creature_progress s))).
  { apply K7, K6, Hp. }
  assert (Hb7 : h7 !! lb = Some (CDictZ (boost_levels s))).
  { apply K7, Hb. }
  split.
  - unfold view, get_config, get_dictQ, get_dictZ, get_dictB.
    rewrite Ho, Hc7, Hr7, Hl7, Hu7, Hp7, Hb7. cbn [mbind option_bind]. done.
  - unfold separate_dicts. rewrite Ho. split.
    + apply (K5 lr (CDictQ (resources s))). apply K4, K3, Hr.
    + apply (K6 ll (CDictZ (creature_levels s))). apply K5, K4, Hl.
Qed.

Lemma stocked_heap_view :
  exists p h s,
    stocked_heap = Some (p, h)
    ∧ view h p = Some s
    ∧ advance (GameSim_init EVENT_CONFIG) 60000%Q = Some s
    ∧ Inv EVENT_CONFIG s.
Proof.
  unfold stocked_heap.
  destruct (new_GameSim_view ∅ EVENT_CONFIG) as [Hv Hsep].
  destruct (new_GameSim ∅ EVENT_CONFIG) as [p h]. cbn [fst snd] in *.
  assert (Hd : (0 <= 60000)%Q) by (vm_compute; discriminate).
  destruct (advance_closed_form EVENT_CONFIG (GameSim_init EVENT_CONFIG) 60000%Q
              wf_EVENT_CONFIG (Inv_init _ wf_EVENT_CONFIG) Hd)
    as (s1 & _ & _ & _ & _ & _ & Hadv & HI1 & _).
  destruct (call_view (fun s => s' ← advance s 60000%Q; Some (tt, s')) h p
              (GameSim_init EVENT_CONFIG) s1 tt Hv Hsep)
    as (h' & Hcall & Hv' & _).
  { by rewrite Hadv. }
  { by rewrite (inv_config _ _ HI1). }
  rewrite Hcall. cbn [mbind option_bind snd]. by exists p, h', s1.
Qed.

Lemma X20_witness :
  exists p h s,
    stocked_heap = Some (p, h)
    ∧ view h p = Some s
    ∧ fst <$> _score_upgrade h p "creature" "fiona" 1000%Q
      = score_of s "creature" "fiona" 1000%Q
    ∧ (wf_config EVENT_CONFIG -> Inv EVENT_CONFIG s ->
       valid_key EVENT_CONFIG ("creature", "fiona") ->
       exists r h',
         _score_upgrade h p "creature" "fiona" 1000%Q = Some (r, h')
         ∧ match r with
           | None =>
               key_cost s ("creature", "fiona") = Some None
               ∨ exists c, key_cost s ("creature", "fiona") = Some (Some c)
                   ∧ can_afford s (Some c) = false
           | Some x =>
               exists c s' d1 d2,
                 key_cost s ("creature", "fiona") = Some (Some c)
                 ∧ can_afford s (Some c) = true
                 ∧ upgrade_key s ("creature", "fiona") = Some (true, s')
                 ∧ get_dps s = Some d1
                 ∧ get_dps s' = Some d2
                 ∧ x = ((d2 - d1) * (1000 / 1000) / total_cost_of c)%Q
           end).
Proof.
  destruct stocked_heap_view as (p & h & s & Hst & Hv & _ & _).
  exists p, h, s. split; [exact Hst |]. split; [exact Hv |].
  exact (X20_score_upgrade_is_dps_gain_per_cost EVENT_CONFIG h p "creature" "fiona" 1000%Q s Hv).
Defined.

(** ** The greedy baseline *)

Lemma score_upgrade_keeps (h h' : Heap) (sim : loc) (kind uid : string) (t : Q)
      (r : option Q) (s : GameSim) :
  view h sim = Some s -> separate_dicts h sim ->
  _score_upgrade h sim kind uid t = Some (r, h') ->
  view h' sim = Some s ∧ separate_dicts h' sim.
Proof.
  intros Hv Hsep Hsc.
  destruct (score_upgrade_frame h h' sim kind uid t r Hsc) as (He & s0 & Hv0 & Hv').
  rewrite Hv in Hv0. injection Hv0 as <-. split; [done |].
  unfold separate_dicts in *. rewrite He; [done |].
  destruct (view_obj h sim s Hv) as (? & ? & ? & ? & ? & ? & ? & ? & Hp & _).
  apply elem_of_dom. by eexists.
Qed.

Lemma greedy_scan_spec (cfg : Config) (h : Heap) (sim : loc) (kind : string)
      (items : list (string * string)) (t bs : Q) (best : option Step) (s : GameSim) :
  wf_config cfg -> Inv cfg s -> view h sim = Some s -> separate_dicts h sim ->
  (forall uid name, (uid, name) ∈ items -> valid_key cfg (kind, uid)) ->
  exists bs' best' h',
    greedy_scan h sim kind items t bs best = Some (bs', best', h')
    ∧ view h' sim = Some s
    ∧ separate_dicts h' sim
    ∧ (bs <= bs')%Q
    ∧ (forall uid name x, (uid, name) ∈ items ->
         score_of s kind uid t = Some (Some x) -> (x <= bs')%Q)
    ∧ ((bs' = bs ∧ best' = best)
       ∨ ((bs < bs')%Q
          ∧ exists uid name, (uid, name) ∈ items
              ∧ best' = Some (kind, uid, name)
              ∧ score_of s kind uid t = Some (Some bs'))).
Proof.
  intros Hwf HI. revert h bs best.
  induction items as [| [uid name] rest IH]; intros h bs best Hv Hsep Hvalid.
  - exists bs, best, h. split; [done |]. do 2 (split; [done |]). split; [lra |].
    split; [by intros ? ? ? ?%elem_of_nil | by left].
  - assert (Hvalid' : forall uid name, (uid, name) ∈ rest -> valid_key cfg (kind, uid)).
    { intros u n Hin. eapply Hvalid, elem_of_cons. by right. }
    pose proof (score_upgrade_refines h sim kind uid t s Hv) as Href.
    destruct (score_of_spec cfg s kind uid t Hwf HI) as (r & Hr & _).
    { eapply Hvalid, elem_of_cons. by left. }
    rewrite Hr in Href.
    destruct (_score_upgrade h sim kind uid t) as [[r' h1] |] eqn:Hsc; [|done].
    cbn [fmap option_fmap option_map fst] in Href. injection Href as ->.
    destruct (score_upgrade_keeps h h1 sim kind uid t r s Hv Hsep Hsc) as [Hv1 Hsep1].
    cbn [greedy_scan]. rewrite Hsc. cbn [mbind option_bind].
    assert (Hkeep : forall bs0 best0,
              (bs0 = bs ∧ best0 = best ∧ (forall x, r = Some x -> (x <= bs)%Q))
              ∨ (r = Some bs0 ∧ best0 = Some (kind, uid, name) ∧ (bs < bs0)%Q) ->
              exists bs' best' h',
                greedy_scan h1 sim kind rest t bs0 best0 = Some (bs', best', h')
                ∧ view h' sim = Some s
                ∧ separate_dicts h' sim
                ∧ (bs <= bs')%Q
                ∧ (forall uid0 name0 x, (uid0, name0) ∈ (uid, name) :: rest ->
                     score_of s kind uid0 t = Some (Some x) -> (x <= bs')%Q)
                ∧ ((bs' = bs ∧ best' = best)
                   ∨ ((bs < bs')%Q
                      ∧ exists uid0 name0, (uid0, name0) ∈ (uid, name) :: rest
                          ∧ best' = Some (kind, uid0, name0)
                          ∧ score_of s kind uid0 t = Some (Some bs')))).
    { intros bs0 best0 Hcase.
      destruct (IH h1 bs0 best0 Hv1 Hsep1 Hvalid')
        as (bs' & best' & h' & Hscan & Hv' & Hsep' & Hle & Hmax & Hres).
      exists bs', best', h'. split; [done |]. do 2 (split; [done |]).
      assert (Hbs : (bs <= bs0)%Q).
      { destruct Hcase as [(-> & _) | (_ & _ & ?)]; lra. }
      split; [lra |]. split.
      - intros uid0 name0 x [[= -> ->] | Hin]%elem_of_cons Hx; [|by eapply Hmax].
        rewrite Hr in Hx. injection Hx as ->.
        destruct Hcase as [(-> & _ & Hx) | ([= ->] & _ & _)]; [|lra].
        specialize (Hx x eq_refl). lra.
      - destruct Hres as [[-> ->] | (Hlt & uid0 & name0 & Hin & -> & Hsc0)].
        + destruct Hcase as [(-> & -> & _) | (-> & -> & Hlt)]; [by left |].
          right. split; [done |]. exists uid, name.
          split; [apply elem_of_cons; by left | done].
        + right. split; [lra |]. exists uid0, name0.
          split; [apply elem_of_cons; by right | done]. }
    destruct r as [x |]; [|apply Hkeep; left; by repeat split].
    destruct (Qltb bs x) eqn:Hlt.
    + apply Qltb_true in Hlt. apply Hkeep. right. by repeat split.
    + apply Qltb_false in Hlt. apply Hkeep. left. repeat split; try done.
      by intros ? [= <-].
Qed.

Lemma greedy_items_valid (cfg : Config) (kind uid name : string) :
  kind = "creature" ∨ kind = "boost" ->
  (uid, name) ∈ greedy_items cfg kind -> valid_key cfg (kind, uid).
Proof.
  unfold greedy_items, valid_key. cbn [fst snd].
  intros Hkind Hin. destruct (decide (kind = "creature")).
  - apply list_elem_of_fmap in Hin as (c & [= -> ->] & Hc). by apply list_elem_of_fmap_2.
  - apply list_elem_of_fmap in Hin as (b & [= -> ->] & Hb). by apply list_elem_of_fmap_2.
Qed.

Lemma greedy_items_listed (cfg : Config) (kind uid : string) :
  (kind = "creature" ∧ uid ∈ _creature_order cfg) ∨ (kind = "boost" ∧ uid ∈ _boost_order cfg) ->
  exists name, (uid, name) ∈ greedy_items cfg kind.
Proof.
  unfold greedy_items. intros [[-> Hin] | [-> Hin]].
  - rewrite decide_True by done. apply list_elem_of_fmap in Hin as (c & -> & Hc).
    exists (c_name c). by apply (list_elem_of_fmap_2 (fun c => (c_id c, c_name c))).
  - rewrite decide_False by done. apply list_elem_of_fmap in Hin as (b & -> & Hb).
    exists (b_name b). by apply (list_elem_of_fmap_2 (fun b => (b_id b, b_name b))).
Qed.

Lemma greedy_items_listed_inv (cfg : Config) (kind uid name : string) :
  kind = "creature" ∨ kind = "boost" ->
  (uid, name) ∈ greedy_items cfg kind ->
  (kind = "creature" ∧ uid ∈ _creature_order cfg) ∨ (kind = "boost" ∧ uid ∈ _boost_order cfg).
Proof.
  unfold greedy_items. intros [-> | ->] Hin.
  - rewrite decide_True in Hin by done. left. split; [done |].
    apply list_elem_of_fmap in Hin as (c & [= -> ->] & Hc). by apply list_elem_of_fmap_2.
  - rewrite decide_False in Hin by done. right. split; [done |].
    apply list_elem_of_fmap in Hin as (b & [= -> ->] & Hb). by apply list_elem_of_fmap_2.
Qed.

(** The two scans of one greedy step. *)
Lemma greedy_scans_spec (cfg : Config) (h : Heap) (sim : loc) (t : Q) (s : GameSim) :
  wf_config cfg -> Inv cfg s -> view h sim = Some s -> separate_dicts h sim ->
  exists bs1 best1 h1 bs2 best2 h2,
    greedy_scan h sim "creature" (greedy_items cfg "creature") t (-1)%Q None
    = Some (bs1, best1, h1)
    ∧ greedy_scan h1 sim "boost" (greedy_items cfg "boost") t bs1 best1 = Some (bs2, best2, h2)
    ∧ view h2 sim = Some s
    ∧ separate_dicts h2 sim
    ∧ greedy_choice cfg s t best2.
Proof.
  intros Hwf HI Hv Hsep.
  destruct (greedy_scan_spec cfg h sim "creature" (greedy_items cfg "creature") t (-1)%Q None s
              Hwf HI Hv Hsep)
    as (bs1 & best1 & h1 & Hscan1 & Hv1 & Hsep1 & Hle1 & Hmax1 & Hres1).
  { intros uid name. apply greedy_items_valid. by left. }
  destruct (greedy_scan_spec cfg h1 sim "boost" (greedy_items cfg "boost") t bs1 best1 s
              Hwf HI Hv1 Hsep1)
    as (bs2 & best2 & h2 & Hscan2 & Hv2 & Hsep2 & Hle2 & Hmax2 & Hres2).
  { intros uid name. apply greedy_items_valid. by right. }
  exists bs1, best1, h1, bs2, best2, h2. do 4 (split; [done |]).
  assert (Hmax : forall kind uid x,
            (kind = "creature" ∧ uid ∈ _creature_order cfg)
            ∨ (kind = "boost" ∧ uid ∈ _boost_order cfg) ->
            score_of s kind uid t = Some (Some x) -> (x <= bs2)%Q).
  { intros kind uid x Hlisted Hx.
    destruct (greedy_items_listed cfg kind uid Hlisted) as [name Hin].
    destruct Hlisted as [[-> _] | [-> _]].
    - pose proof (Hmax1 uid name x Hin Hx). lra.
    - by eapply Hmax2. }
  unfold greedy_choice.
  destruct Hres2 as [[-> ->] | (Hlt2 & uid & name & Hin & -> & Hsc)].
  - destruct Hres1 as [[-> ->] | (Hlt1 & uid & name & Hin & -> & Hsc)].
    + done.
    + split; [apply (greedy_items_listed_inv cfg "creature" uid name); [by left | done] |].
      exists bs1. done.
  - split; [apply (greedy_items_listed_inv cfg "boost" uid name); [by right | done] |].
    exists bs2. split; [done |]. split; [lra | done].
Qed.

(** One step of the greedy baseline, on the heap and on the state it
    holds. *)
Lemma greedy_tick_spec (cfg : Config) (h : Heap) (sim : loc) (log : list LogEntry)
      (s : GameSim) :
  wf_config cfg -> Inv cfg s -> view h sim = Some s -> separate_dicts h sim ->
  exists h' log' s' best s1,
    greedy_tick cfg h sim log = Some (h', log')
    ∧ view h' sim = Some s'
    ∧ separate_dicts h' sim
    ∧ Inv cfg s'
    ∧ greedy_choice cfg s (duration_ms s - time_elapsed_ms s) best
    ∧ match best with
      | None => s1 = s ∧ log' = log
      | Some (kind, uid, name) =>
          upgrade_key s (kind, uid) = Some (true, s1)
          ∧ exists e, log' = log ++ [e] ∧ time_h e = (time_elapsed_ms s / 3600000)%Q
      end
    ∧ advance s1 evaluate_STEP_MS = Some s'
    ∧ time_elapsed_ms s' = (time_elapsed_ms s + evaluate_STEP_MS)%Q.
Proof.
  intros Hwf HI Hv Hsep.
  set (t := (duration_ms s - time_elapsed_ms s)%Q).
  destruct (greedy_scans_spec cfg h sim t s Hwf HI Hv Hsep)
    as (bs1 & best1 & h1 & bs2 & best2 & h2 & Hscan1 & Hscan2 & Hv2 & Hsep2 & Hchoice).
  unfold greedy_items in Hscan1, Hscan2.
  rewrite decide_True in Hscan1 by done. rewrite decide_False in Hscan2 by done.
  assert (Hstep : (0 <= evaluate_STEP_MS)%Q) by (vm_compute; discriminate).
  (* the purchase *)
  assert (Hbuy : exists h3 log' s1,
            greedy_purchase h2 sim log best2 = Some (h3, log')
            ∧ view h3 sim = Some s1 ∧ separate_dicts h3 sim ∧ Inv cfg s1
            ∧ time_elapsed_ms s1 = time_elapsed_ms s
            ∧ match best2 with
              | None => s1 = s ∧ log' = log
              | Some (kind, uid, name) =>
                  upgrade_key s (kind, uid) = Some (true, s1)
                  ∧ exists e, log' = log ++ [e] ∧ time_h e = (time_elapsed_ms s / 3600000)%Q
              end).
  { destruct best2 as [[[kind uid] name] |]; [|by exists h2, log, s].
    destruct Hchoice as (Hlisted & x & Hx & _).
    assert (Hvalid : valid_key cfg (kind, uid)).
    { unfold valid_key. cbn [fst snd]. destruct Hlisted as [[-> ?] | [-> ?]]; by simplify_eq. }
    destruct (score_of_spec cfg s kind uid t Hwf HI Hvalid) as (r & Hr & Hspec).
    fold t in Hx. rewrite Hx in Hr. injection Hr as <-.
    destruct Hspec as (c & s1 & d1 & d2 & _ & _ & Hup & HI1 & _).
    pose proof (upgrade_key_clock _ _ _ _ Hup) as [Hcfg Ht].
    unfold greedy_purchase. unfold upgrade_key in Hup. cbn [fst snd] in Hup.
    destruct Hlisted as [[-> Hin] | [-> Hin]].
    - rewrite decide_True in * by done.
      destruct (call_view (fun s => upgrade_creature s uid) h2 sim s s1 true Hv2 Hsep2 Hup Hcfg)
        as (h3 & Hcall & Hv3 & Hsep3).
      rewrite Hcall. cbn [mbind option_bind]. rewrite Hv3. cbn [mbind option_bind].
      apply list_elem_of_fmap in Hin as (cr & -> & Hcr).
      destruct (inv_creature _ _ HI1 cr Hcr) as (lv & _ & _ & -> & _).
      cbn [mbind option_bind].
      eexists h3, _, s1. split; [done |]. do 4 (split; [done |]).
      split; [unfold upgrade_key; cbn [fst snd]; by rewrite decide_True |].
      eexists. split; [done |]. cbn [time_h]. by rewrite Ht.
    - rewrite decide_False in * by done. rewrite decide_True by done.
      destruct (call_view (fun s => upgrade_boost s uid) h2 sim s s1 true Hv2 Hsep2 Hup Hcfg)
        as (h3 & Hcall & Hv3 & Hsep3).
      rewrite Hcall. cbn [mbind option_bind]. rewrite Hv3. cbn [mbind option_bind].
      apply list_elem_of_fmap in Hin as (b & -> & Hb).
      destruct (inv_boost _ _ HI1 b Hb) as (lv & -> & _).
      cbn [mbind option_bind].
      eexists h3, _, s1. split; [done |]. do 4 (split; [done |]).
      split; [unfold upgrade_key; cbn [fst snd]; by rewrite decide_False |].
      eexists. split; [done |]. cbn [time_h]. by rewrite Ht. }
  destruct Hbuy as (h3 & log' & s1 & Hpurchase & Hv3 & Hsep3 & HI1 & Ht1 & Hcase).
  (* the advance *)
  destruct (advance_closed_form cfg s1 evaluate_STEP_MS Hwf HI1 Hstep)
    as (s' & _ & _ & _ & _ & _ & Hadv & HI' & Ht' & _).
  destruct (call_view (fun s => s' ← advance s evaluate_STEP_MS; Some (tt, s')) h3 sim s1 s' tt
              Hv3 Hsep3) as (h4 & Hcall & Hv4 & Hsep4).
  { by rewrite Hadv. }
  { by rewrite (inv_config _ _ HI'), (inv_config _ _ HI1). }
  exists h4, log', s', best2, s1.
  unfold greedy_tick. rewrite Hv. cbn [mbind option_bind]. fold t.
  rewrite Hscan1. cbn [mbind option_bind]. rewrite Hscan2. cbn [mbind option_bind].
  rewrite Hpurchase. cbn [mbind option_bind]. rewrite Hcall. cbn [mbind option_bind].
  split; [done |]. do 5 (split; [done |]). split; [done |]. by rewrite Ht', Ht1.
Qed.

(** X21. One step of the greedy baseline, in a state satisfying the
    invariant: it always completes; it scores every unit and every boost on
    the state at the start of the step with the time that remains; if no
    item scores above -1 it buys nothing, and otherwise it buys (with a
    successful upgrade call, logged with the time of the step) an item whose
    score is the highest of all; then it advances by 30,000 ms.  The object
    it works on holds the new state, which satisfies the invariant. *)
Theorem X21_greedy_step_buys_a_best_item
        (cfg : Config) (h : Heap) (sim : loc) (log : list LogEntry) (s : GameSim) :
  wf_config cfg -> Inv cfg s -> view h sim = Some s -> separate_dicts h sim ->
  exists h' log' s' best s1,
    greedy_tick cfg h sim log = Some (h', log')
    ∧ view h' sim = Some s'
    ∧ separate_dicts h' sim
    ∧ Inv cfg s'
    ∧ greedy_choice cfg s (duration_ms s - time_elapsed_ms s) best
    ∧ match best with
      | None => s1 = s ∧ log' = log
      | Some (kind, uid, name) =>
          upgrade_key s (kind, uid) = Some (true, s1)
          ∧ exists e, log' = log ++ [e] ∧ time_h e = (time_elapsed_ms s / 3600000)%Q
      end
    ∧ advance s1 evaluate_STEP_MS = Some s'
    ∧ time_elapsed_ms s' = (time_elapsed_ms s + evaluate_STEP_MS)%Q.
Proof. apply greedy_tick_spec. Qed.

Lemma X21_witness :
  exists p h s,
    stocked_heap = Some (p, h)
    ∧ view h p = Some s
    ∧ exists h' log' s' best s1,
        greedy_tick EVENT_CONFIG h p [] = Some (h', log')
        ∧ view h' p = Some s'
        ∧ separate_dicts h' p
        ∧ Inv EVENT_CONFIG s'
        ∧ greedy_choice EVENT_CONFIG s (duration_ms s - time_elapsed_ms s) best
        ∧ match best with
          | None => s1 = s ∧ log' = []
          | Some (kind, uid, name) =>
              upgrade_key s (kind, uid) = Some (true, s1)
              ∧ exists e, log' = [] ++ [e] ∧ time_h e = (time_elapsed_ms s / 3600000)%Q
          end
        ∧ advance s1 evaluate_STEP_MS = Some s'
        ∧ time_elapsed_ms s' = (time_elapsed_ms s + evaluate_STEP_MS)%Q.
Proof.
  unfold stocked_heap.
  destruct (new_GameSim_view ∅ EVENT_CONFIG) as [Hv Hsep].
  destruct (new_GameSim ∅ EVENT_CONFIG) as [p h]. cbn [fst snd] in *.
  assert (Hd : (0 <= 60000)%Q) by (vm_compute; discriminate).
  destruct (advance_closed_form EVENT_CONFIG (GameSim_init EVENT_CONFIG) 60000%Q
              wf_EVENT_CONFIG (Inv_init _ wf_EVENT_CONFIG) Hd)
    as (s1 & _ & _ & _ & _ & _ & Hadv & HI1 & _).
  destruct (call_view (fun s => s' ← advance s 60000%Q; Some (tt, s')) h p
              (GameSim_init EVENT_CONFIG) s1 tt Hv Hsep)
    as (h' & Hcall & Hv' & Hsep').
  { by rewrite Hadv. }
  { by rewrite (inv_config _ _ HI1). }
  rewrite Hcall. cbn [mbind option_bind snd]. exists p, h', s1.
  split; [reflexivity |]. split; [exact Hv' |].
  exact (X21_greedy_step_buys_a_best_item EVENT_CONFIG h' p [] s1 wf_EVENT_CONFIG HI1 Hv' Hsep').
Defined.

(** The number of iterations of a loop that adds [step] to a clock starting
    at 0 until [dur] is reached. *)
Lemma ticks_eq_ceiling (dur step : Q) (k : nat) :
  (0 < step)%Q ->
  (dur <= 0 + inject_Z (Z.of_nat k) * step)%Q ->
  (forall j, (j < k)%nat -> (0 + inject_Z (Z.of_nat j) * step < dur)%Q) ->
  k = Z.to_nat (Qceiling (dur / step)).
Proof.
  intros Hstep Hle Hlt.
  set (x := (dur / step)%Q).
  assert (Hx : (x <= inject_Z (Z.of_nat k))%Q).
  { unfold x. apply Qle_shift_div_r; [done | lra]. }
  apply Qceiling_resp_le in Hx. rewrite Qceiling_Z in Hx.
  destruct k as [| k]; [lia |].
  assert (Hk : (inject_Z (Z.of_nat k) < x)%Q).
  { unfold x. apply Qlt_shift_div_l; [done |]. specialize (Hlt k ltac:(lia)). lra. }
  pose proof (Qle_ceiling x) as Hc.
  assert (Z.of_nat k < Qceiling x); [|lia].
  rewrite Zlt_Qlt. lra.
Qed.

Lemma ceiling_ticks_enough (dur step : Q) :
  (0 < step)%Q -> (dur <= 0 + inject_Z (Z.of_nat (Z.to_nat (Qceiling (dur / step)))) * step)%Q.
Proof.
  intros Hstep.
  pose proof (Qle_ceiling (dur / step)) as Hc.
  set (z := Qceiling (dur / step)) in *.
  assert (Hz : (inject_Z z <= inject_Z (Z.of_nat (Z.to_nat z)))%Q).
  { rewrite <- Zle_Qle. lia. }
  assert (Hd : (dur == dur / step * step)%Q) by (field; lra).
  assert (dur / step * step <= inject_Z (Z.of_nat (Z.to_nat z)) * step)%Q.
  { apply Qmult_le_compat_r; lra. }
  lra.
Qed.

Lemma run_greedy_loop_spec (cfg : Config) (fuel : nat) (h : Heap) (sim : loc)
      (log : list LogEntry) (s : GameSim) :
  wf_config cfg -> Inv cfg s -> view h sim = Some s -> separate_dicts h sim ->
  (cfg_duration cfg <= time_elapsed_ms s + inject_Z (Z.of_nat fuel) * evaluate_STEP_MS)%Q ->
  exists h' ents final (k : nat),
    run_greedy_loop fuel cfg h sim log = Some (h', log ++ ents)
    ∧ view h' sim = Some final
    ∧ Inv cfg final
    ∧ is_done final = true
    ∧ rtc sim_step s final
    ∧ (time_elapsed_ms final
       == time_elapsed_ms s + inject_Z (Z.of_nat k) * evaluate_STEP_MS)%Q
    ∧ (forall j, (j < k)%nat ->
         (time_elapsed_ms s + inject_Z (Z.of_nat j) * evaluate_STEP_MS < cfg_duration cfg)%Q)
    ∧ (length ents <= k)%nat.
Proof.
  intros Hwf. revert fuel h log s.
  assert (Hstep : (0 <= evaluate_STEP_MS)%Q) by (vm_compute; discriminate).
  assert (HS : forall j : nat, (inject_Z (Z.of_nat (S j)) == inject_Z (Z.of_nat j) + 1)%Q).
  { intros j. rewrite Nat2Z.inj_succ. unfold Z.succ. rewrite inject_Z_plus. reflexivity. }
  assert (Hstop : forall h log s, view h sim = Some s -> Inv cfg s -> is_done s = true ->
            forall fuel, exists h' ents final (k : nat),
              run_greedy_loop fuel cfg h sim log = Some (h', log ++ ents)
              ∧ view h' sim = Some final
              ∧ Inv cfg final
              ∧ is_done final = true
              ∧ rtc sim_step s final
              ∧ (time_elapsed_ms final
                 == time_elapsed_ms s + inject_Z (Z.of_nat k) * evaluate_STEP_MS)%Q
              ∧ (forall j, (j < k)%nat ->
                   (time_elapsed_ms s + inject_Z (Z.of_nat j) * evaluate_STEP_MS
                    < cfg_duration cfg)%Q)
              ∧ (length ents <= k)%nat).
  { intros h log s Hv HI Hdone fuel. exists h, [], s, 0%nat.
    split; [destruct fuel; cbn [run_greedy_loop]; rewrite Hv; cbn [mbind option_bind];
            by rewrite Hdone, app_nil_r |].
    do 3 (split; [done |]). split; [apply rtc_refl |].
    split; [change (inject_Z (Z.of_nat 0)) with 0%Q; ring |].
    split; [intros j Hj; lia | done]. }
  induction fuel as [| fuel IH]; intros h log s HI Hv Hsep Hfuel.
  - apply Hstop; [done | done |].
    apply (is_done_spec cfg); [apply HI |].
    change (inject_Z (Z.of_nat 0)) with 0%Q in Hfuel. lra.
  - destruct (is_done s) eqn:Hdone; [by apply Hstop |].
    destruct (greedy_tick_spec cfg h sim log s Hwf HI Hv Hsep)
      as (h1 & log1 & s' & best & s1 & Htick & Hv1 & Hsep1 & HI1 & _ & Hcase & Hadv & Ht).
    assert (Hlog : exists ents0, log1 = log ++ ents0 ∧ (length ents0 <= 1)%nat
                     ∧ rtc sim_step s s1).
    { destruct best as [[[kind uid] name] |].
      - destruct Hcase as (Hup & e & -> & _). exists [e]. split; [done |]. split; [simpl; lia |].
        apply rtc_once. by eapply upgrade_key_sim_step.
      - destruct Hcase as [-> ->]. exists []. rewrite app_nil_r. split; [done |].
        split; [simpl; lia | apply rtc_refl]. }
    destruct Hlog as (ents0 & -> & Hlen0 & Hrtc0).
    destruct (IH h1 (log ++ ents0) s' HI1 Hv1 Hsep1)
      as (h' & ents & final & k & Hloop & Hvf & HIf & Hdf & Hrtc & Htf & Hlt & Hlen).
    { rewrite Ht. rewrite HS in Hfuel. lra. }
    exists h', (ents0 ++ ents), final, (S k).
    split.
    { cbn [run_greedy_loop]. rewrite Hv. cbn [mbind option_bind]. rewrite Hdone, Htick.
      cbn [mbind option_bind]. by rewrite Hloop, app_assoc. }
    do 3 (split; [done |]).
    split.
    { etrans; [exact Hrtc0 |]. eapply rtc_l; [exact (step_advance _ _ _ Hstep Hadv) | done]. }
    split; [rewrite Htf, Ht, HS; ring |].
    split.
    { intros [| j] Hj.
      - change (inject_Z (Z.of_nat 0)) with 0%Q.
        pose proof (is_done_false cfg s (inv_config _ _ HI) Hdone). lra.
      - specialize (Hlt j ltac:(lia)). rewrite Ht in Hlt. rewrite HS. lra. }
    rewrite length_app. lia.
Qed.

(** X22. [run_greedy] always returns for a well-formed configuration (no
    missing key, no division by zero): after exactly
    [ceil(duration / 30000)] steps, 1728 for the shipped configuration, with
    the damage of the final state, which is reachable by engine calls from
    the initial state, satisfies the invariant and is past the duration; the
    log has at most one record per step. *)
Theorem X22_run_greedy_returns (cfg : Config) :
  wf_config cfg ->
  (exists damage log final,
     run_greedy_of cfg = Some (damage, log, final)
     ∧ damage = total_damage final
     ∧ reachable cfg final
     ∧ Inv cfg final
     ∧ is_done final = true
     ∧ (time_elapsed_ms final
        == inject_Z (Z.of_nat (greedy_max_ticks cfg)) * evaluate_STEP_MS)%Q
     ∧ (length log <= greedy_max_ticks cfg)%nat)
  ∧ greedy_max_ticks EVENT_CONFIG = 1728%nat.
Proof.
  intros Hwf. split; [|by vm_compute].
  assert (Hstep : (0 < evaluate_STEP_MS)%Q) by (by vm_compute).
  unfold run_greedy_of.
  destruct (new_GameSim_view ∅ cfg) as [Hv Hsep].
  destruct (new_GameSim ∅ cfg) as [sim h]. cbn [fst snd] in *.
  destruct (run_greedy_loop_spec cfg (greedy_max_ticks cfg) h sim [] (GameSim_init cfg) Hwf
              (Inv_init cfg Hwf) Hv Hsep)
    as (h' & ents & final & k & Hloop & Hvf & HIf & Hdf & Hrtc & Htf & Hlt & Hlen).
  { apply ceiling_ticks_enough, Hstep. }
  change (time_elapsed_ms (GameSim_init cfg)) with 0%Q in *.
  assert (Hk : k = greedy_max_ticks cfg).
  { apply ticks_eq_ceiling; [done | | done]. rewrite <- Htf.
    apply (is_done_spec cfg); [apply HIf | done]. }
  subst k.
  exists (total_damage final), ents, final.
  rewrite Hloop. cbn [mbind option_bind app]. rewrite Hvf. cbn [mbind option_bind].
  do 5 (split; [done |]). split; [rewrite Htf; ring | done].
Qed.

Lemma X22_witness :
  (exists damage log final,
     run_greedy = Some (damage, log, final)
     ∧ damage = total_damage final
     ∧ reachable EVENT_CONFIG final
     ∧ Inv EVENT_CONFIG final
     ∧ is_done final = true
     ∧ (time_elapsed_ms final
        == inject_Z (Z.of_nat (greedy_max_ticks EVENT_CONFIG)) * evaluate_STEP_MS)%Q
     ∧ (length log <= greedy_max_ticks EVENT_CONFIG)%nat)
  ∧ greedy_max_ticks EVENT_CONFIG = 1728%nat.
Proof. exact (X22_run_greedy_returns EVENT_CONFIG wf_EVENT_CONFIG). Defined.
